(** * Gatling: scene preprocessor, device abstraction, Hydra render pass and
    traversal kernel

    A shallow embedding of parts of the gatling sources:

    - [SceneWriter]     : [gp_write_scene] of the scene preprocessor,
    - [SceneLoader]     : [gp_assimp_find_node], [gp_assimp_add_node_mesh]
                          and the geometry part of [gp_load_scene],
    - [ProgramOptions]  : [gp_parse_args],
    - [RenderPass]      : change detection of [HdGatlingRenderPass::_Execute],
                          [_FilterAovBinding], [_GetAovId] and the material
                          bookkeeping of [_BakeMeshes],
    - [MeshBaking]      : [_BakeMeshGeometry] with the tangent calculation,
    - [MaterialNetwork] : [_ConvertNodesToMaterialXNodes] and
                          [_GetMaterialNetworkSurfaceTerminal],
    - [Gatling]         : the gamma correction of the command-line renderer,
    - [Cgpu]            : the [cgpu_create_*] constructors and destructors,
                          pipeline descriptors, queue family selection,
                          [cgpu_transition_image_layouts_for_shader],
                          [cgpu_cmd_update_bindings],
                          [cgpu_cmd_copy_buffer_to_image] and
                          [cgpu_cmd_pipeline_barrier],
    - [ResourceStore]   : the object slab of [resource_store.c],
    - [Traversal]       : [test_face], [find_hit_closest] and [find_hit_any]
                          of the CWBVH traversal kernel, and the linear
                          queries,
    - [ShaderCommon]    : [wang_hash] and [random_float_between_0_and_1].

    Unsigned machine integers are [Z] with their wrap-around written out. *)

From Stdlib Require Import ZArith List Lia Bool QArith Qabs.
From stdpp Require Import base option list gmap strings.
Import ListNotations.

Local Open Scope Z_scope.

(** ** Machine integers *)

Definition wrap32 (z : Z) : Z := z mod 2 ^ 32.
Definition wrap64 (z : Z) : Z := z mod 2 ^ 64.

Definition is_u32 (z : Z) : Prop := 0 <= z < 2 ^ 32.

Lemma wrap32_range z : 0 <= wrap32 z < 2 ^ 32.
Proof. unfold wrap32. apply Z.mod_pos_bound. lia. Qed.

Lemma wrap64_range z : 0 <= wrap64 z < 2 ^ 64.
Proof. unfold wrap64. apply Z.mod_pos_bound. lia. Qed.

Lemma wrap64_small z : 0 <= z < 2 ^ 64 -> wrap64 z = z.
Proof. intros Hz. unfold wrap64. apply Z.mod_small. exact Hz. Qed.

Lemma wrap32_small z : 0 <= z < 2 ^ 32 -> wrap32 z = z.
Proof. intros Hz. unfold wrap32. apply Z.mod_small. exact Hz. Qed.

(** ** Little-endian byte strings *)

(** The [n] low bytes of [v], least significant first: what [memcpy] of an
    [n]-byte unsigned integer yields on a little-endian host. *)
Fixpoint le_bytes (n : nat) (v : Z) : list Z :=
  match n with
  | O => []
  | S n' => v mod 256 :: le_bytes n' (v / 256)
  end.

Fixpoint le_value (bs : list Z) : Z :=
  match bs with
  | [] => 0
  | b :: bs' => b + 256 * le_value bs'
  end.

Lemma le_bytes_length n v : length (le_bytes n v) = n.
Proof. revert v. induction n as [|n IH]; intros v; simpl; [reflexivity|]. now rewrite IH. Qed.

Lemma le_value_bytes n v : le_value (le_bytes n v) = v mod 256 ^ Z.of_nat n.
Proof.
  revert v. induction n as [|n IH]; intros v.
  - simpl. now rewrite Z.mod_1_r.
  - cbn [le_bytes le_value]. rewrite IH.
    replace (Z.of_nat (S n)) with (Z.succ (Z.of_nat n)) by lia.
    rewrite Z.pow_succ_r by lia.
    rewrite Z.rem_mul_r by lia. lia.
Qed.

Lemma le_value_bytes64 v : 0 <= v < 2 ^ 64 -> le_value (le_bytes 8 v) = v.
Proof.
  intros Hv. rewrite le_value_bytes.
  change (256 ^ Z.of_nat 8) with (2 ^ 64). now apply Z.mod_small.
Qed.

(** ** Byte-addressed memory *)

(** A buffer under construction is a map from byte offsets to byte values;
    [store_bytes] is [memcpy(&buffer[off], src, length src)]. *)
Definition mem := Z -> Z.

Definition store_bytes (m : mem) (off : Z) (bs : list Z) : mem :=
  fun i =>
    if (off <=? i) && (i <? off + Z.of_nat (length bs))
    then nth (Z.to_nat (i - off)) bs 0
    else m i.

Definition load_bytes (m : mem) (off : Z) (n : nat) : list Z :=
  map (fun k => m (off + Z.of_nat k)) (seq 0 n).

Lemma store_bytes_outside m off bs i :
  i < off \/ off + Z.of_nat (length bs) <= i -> store_bytes m off bs i = m i.
Proof.
  intros Hi. unfold store_bytes.
  destruct (off <=? i) eqn:E1; destruct (i <? off + Z.of_nat (length bs)) eqn:E2;
    simpl; try reflexivity.
  apply Z.leb_le in E1. apply Z.ltb_lt in E2. lia.
Qed.

Lemma store_bytes_inside m off bs k :
  (k < length bs)%nat -> store_bytes m off bs (off + Z.of_nat k) = nth k bs 0.
Proof.
  intros Hk. unfold store_bytes.
  replace (off <=? off + Z.of_nat k) with true by (symmetry; apply Z.leb_le; lia).
  replace (off + Z.of_nat k <? off + Z.of_nat (length bs)) with true
    by (symmetry; apply Z.ltb_lt; lia).
  simpl. f_equal. lia.
Qed.

Lemma load_bytes_ext m m' off n :
  (forall i, off <= i < off + Z.of_nat n -> m i = m' i) ->
  load_bytes m off n = load_bytes m' off n.
Proof.
  intros H. unfold load_bytes. apply map_ext_in.
  intros k Hk. apply in_seq in Hk. apply H. lia.
Qed.

Lemma load_bytes_nth m off n k :
  (k < n)%nat -> nth k (load_bytes m off n) 0 = m (off + Z.of_nat k).
Proof.
  intros Hk. unfold load_bytes.
  set (f := fun k0 : nat => m (off + Z.of_nat k0)).
  rewrite (nth_indep _ 0 (f 0%nat)) by (now rewrite length_map, length_seq).
  rewrite (map_nth f), seq_nth by exact Hk. reflexivity.
Qed.

Lemma load_bytes_length m off n : length (load_bytes m off n) = n.
Proof. unfold load_bytes. now rewrite length_map, length_seq. Qed.

Lemma load_store_same m off bs :
  load_bytes (store_bytes m off bs) off (length bs) = bs.
Proof.
  apply nth_ext with (d := 0) (d' := 0).
  - apply load_bytes_length.
  - intros k Hk. rewrite load_bytes_length in Hk.
    rewrite load_bytes_nth by exact Hk.
    now apply store_bytes_inside.
Qed.

(** ** The scene writer ([gp_write_scene], preprocessor [main.c]) *)

Module SceneWriter.

(** Modelled from the spec: the record declarations of [gp.h] and
    [bvh_compress.h] are not part of the sources at hand; the spec gives the
    strides of the four buffers (80-byte CWBVH nodes, 16-byte faces, 32-byte
    vertices, 32-byte materials) and the 24-byte AABB. *)
Definition sizeof_gp_bvhcc_node : Z := 80.
Definition sizeof_gp_face : Z := 16.
Definition sizeof_gp_vertex : Z := 32.
Definition sizeof_gp_material : Z := 32.
Definition sizeof_gp_aabb : Z := 24.

(** [gp_camera] is declared in the source: three [gp_vec3] and one [float]. *)
Definition sizeof_gp_camera : Z := 40.

Record program_options := {
  image_width : Z;
  image_height : Z
}.

(** A [float] is kept as its 32-bit pattern: the writer only copies it. *)
Record gp_vertex := {
  pos : Z * Z * Z;
  norm : Z * Z * Z;
  uv : Z * Z
}.

(** The parts of [gp_scene] and [gp_bvhcc] the writer reads. Arrays that are
    copied wholesale are kept as the bytes they occupy in memory. *)
Record gp_scene := {
  node_count : Z;
  nodes : list Z;
  aabb : list Z;
  camera : list Z;
  face_count : Z;
  faces : list Z;
  vertex_count : Z;
  vertices : list gp_vertex;
  material_count : Z;
  materials : list Z
}.

(** The offsets and sizes computed at the top of [gp_write_scene]
    ([uint64_t] arithmetic). *)
Record layout := {
  node_buf_offset : Z;
  node_buf_size : Z;
  face_buf_offset : Z;
  face_buf_size : Z;
  vertex_buf_offset : Z;
  vertex_buf_size : Z;
  material_buf_offset : Z;
  material_buf_size : Z;
  file_size : Z
}.

Definition header_size : Z := 256.

Definition scene_layout (scene : gp_scene) : layout :=
  let node_off := header_size in
  let node_sz := wrap64 (node_count scene * sizeof_gp_bvhcc_node) in
  let face_off := wrap64 (node_off + node_sz) in
  let face_sz := wrap64 (face_count scene * sizeof_gp_face) in
  let vertex_off := wrap64 (face_off + face_sz) in
  let vertex_sz := wrap64 (vertex_count scene * sizeof_gp_vertex) in
  let material_off := wrap64 (vertex_off + vertex_sz) in
  let material_sz := wrap64 (material_count scene * sizeof_gp_material) in
  {| node_buf_offset := node_off;
     node_buf_size := node_sz;
     face_buf_offset := face_off;
     face_buf_size := face_sz;
     vertex_buf_offset := vertex_off;
     vertex_buf_size := vertex_sz;
     material_buf_offset := material_off;
     material_buf_size := material_sz;
     file_size := wrap64 (material_off + material_sz) |}.

(** [memcpy(&buffer[off], src, n)]: exactly [n] bytes are copied. *)
Definition memcpy (m : mem) (off : Z) (src : list Z) (n : Z) : mem :=
  store_bytes m off (firstn (Z.to_nat n) src).

(** The twelve header fields, in the order of the source. *)
Definition write_header (opts : program_options) (scene : gp_scene)
    (l : layout) (buffer : mem) : mem :=
  let b := memcpy buffer 0 (le_bytes 4 (image_width opts)) 4 in
  let b := memcpy b 4 (le_bytes 4 (image_height opts)) 4 in
  let b := memcpy b 8 (le_bytes 8 (node_buf_offset l)) 8 in
  let b := memcpy b 16 (le_bytes 8 (node_buf_size l)) 8 in
  let b := memcpy b 24 (le_bytes 8 (face_buf_offset l)) 8 in
  let b := memcpy b 32 (le_bytes 8 (face_buf_size l)) 8 in
  let b := memcpy b 40 (le_bytes 8 (vertex_buf_offset l)) 8 in
  let b := memcpy b 48 (le_bytes 8 (vertex_buf_size l)) 8 in
  let b := memcpy b 56 (le_bytes 8 (material_buf_offset l)) 8 in
  let b := memcpy b 64 (le_bytes 8 (material_buf_size l)) 8 in
  let b := memcpy b 72 (aabb scene) sizeof_gp_aabb in
  memcpy b 96 (camera scene) sizeof_gp_camera.

(** One iteration of the vertex loop: eight 4-byte copies at
    [&buffer[vertex_buf_offset + i * 32]]; [i * 32] is [uint32_t]
    arithmetic. *)
Definition write_vertex (voff : Z) (buffer : mem) (i : Z) (v : gp_vertex) : mem :=
  let ptr := wrap64 (voff + wrap32 (i * 32)) in
  let '(px, py, pz) := pos v in
  let '(nx, ny, nz) := norm v in
  let '(u0, u1) := uv v in
  let b := memcpy buffer (ptr + 0) (le_bytes 4 px) 4 in
  let b := memcpy b (ptr + 4) (le_bytes 4 py) 4 in
  let b := memcpy b (ptr + 8) (le_bytes 4 pz) 4 in
  let b := memcpy b (ptr + 12) (le_bytes 4 u0) 4 in
  let b := memcpy b (ptr + 16) (le_bytes 4 nx) 4 in
  let b := memcpy b (ptr + 20) (le_bytes 4 ny) 4 in
  let b := memcpy b (ptr + 24) (le_bytes 4 nz) 4 in
  memcpy b (ptr + 28) (le_bytes 4 u1) 4.

Fixpoint write_vertices (voff : Z) (buffer : mem) (i : Z) (vs : list gp_vertex) : mem :=
  match vs with
  | [] => buffer
  | v :: vs' => write_vertices voff (write_vertex voff buffer i v) (i + 1) vs'
  end.

(** [gp_write_scene]. [heap] is the content of the block that
    [malloc(file_size)] returns, which C leaves indeterminate; the result is
    the [file_size] bytes handed to [gp_write_file]. *)
Definition gp_write_scene_buffer (heap : mem) (opts : program_options)
    (scene : gp_scene) : mem :=
  let l := scene_layout scene in
  let buffer := write_header opts scene l heap in
  let buffer := memcpy buffer (node_buf_offset l) (nodes scene) (node_buf_size l) in
  let buffer := memcpy buffer (face_buf_offset l) (faces scene) (face_buf_size l) in
  let buffer :=
    write_vertices (vertex_buf_offset l) buffer 0
      (firstn (Z.to_nat (vertex_count scene)) (vertices scene)) in
  memcpy buffer (material_buf_offset l) (materials scene) (material_buf_size l).

Definition gp_write_scene (heap : mem) (opts : program_options)
    (scene : gp_scene) : list Z :=
  load_bytes (gp_write_scene_buffer heap opts scene) 0
    (Z.to_nat (file_size (scene_layout scene))).

(** The 64-bit header field stored at byte [off] of a written file. *)
Definition header_u64 (file : list Z) (off : nat) : Z :=
  le_value (firstn 8 (skipn off file)).

(** The counts are [uint32_t] fields. *)
Definition counts_in_range (scene : gp_scene) : Prop :=
  is_u32 (node_count scene) /\ is_u32 (face_count scene) /\
  is_u32 (vertex_count scene) /\ is_u32 (material_count scene).

(** *** Reading the written bytes back *)

Lemma memcpy_outside m off src n i :
  0 <= n -> i < off \/ off + n <= i -> memcpy m off src n i = m i.
Proof.
  intros Hn Hi. unfold memcpy. apply store_bytes_outside.
  pose proof (firstn_le_length (Z.to_nat n) src) as Hlen. lia.
Qed.

Lemma load_memcpy_other m off src n k len :
  0 <= n -> off + n <= k \/ k + Z.of_nat len <= off ->
  load_bytes (memcpy m off src n) k len = load_bytes m k len.
Proof.
  intros Hn Hd. apply load_bytes_ext. intros i Hi.
  apply memcpy_outside; lia.
Qed.

Lemma load_memcpy_same m off src n :
  length src = n -> load_bytes (memcpy m off src (Z.of_nat n)) off n = src.
Proof.
  intros Hlen. unfold memcpy. rewrite Nat2Z.id.
  rewrite <- Hlen at 1 2. rewrite firstn_all.
  apply load_store_same.
Qed.

Lemma load_write_vertex_below voff m i v k len :
  0 <= voff -> voff + 2 ^ 32 <= 2 ^ 64 -> k + Z.of_nat len <= voff ->
  load_bytes (write_vertex voff m i v) k len = load_bytes m k len.
Proof.
  intros Hv Hfit Hk. unfold write_vertex.
  destruct (pos v) as [[px py] pz], (norm v) as [[nx ny] nz], (uv v) as [u0 u1].
  pose proof (wrap32_range (i * 32)) as Hw.
  rewrite (wrap64_small (voff + wrap32 (i * 32))) by lia.
  repeat (rewrite load_memcpy_other by lia). reflexivity.
Qed.

Lemma load_write_vertices_below voff vs m i k len :
  0 <= voff -> voff + 2 ^ 32 <= 2 ^ 64 -> k + Z.of_nat len <= voff ->
  load_bytes (write_vertices voff m i vs) k len = load_bytes m k len.
Proof.
  intros Hv Hfit Hk. revert m i.
  induction vs as [|v vs IH]; intros m i; simpl; [reflexivity|].
  rewrite IH. now apply load_write_vertex_below.
Qed.

Lemma header_u64_load m n off :
  (off + 8 <= n)%nat ->
  header_u64 (load_bytes m 0 n) off = le_value (load_bytes m (Z.of_nat off) 8).
Proof.
  intros Hn. unfold header_u64. f_equal.
  apply nth_ext with (d := 0) (d' := 0).
  - rewrite length_firstn, length_skipn, !load_bytes_length. lia.
  - intros k Hk.
    rewrite length_firstn, length_skipn, load_bytes_length in Hk.
    rewrite nth_firstn.
    replace (k <? 8)%nat with true by (symmetry; apply Nat.ltb_lt; lia).
    rewrite nth_skipn, !load_bytes_nth by lia.
    f_equal. lia.
Qed.

(** Without wrap-around the layout is the running sum of the buffer sizes. *)
Lemma scene_layout_exact scene :
  counts_in_range scene ->
  let l := scene_layout scene in
  node_buf_offset l = 256 /\
  node_buf_size l = node_count scene * 80 /\
  face_buf_offset l = 256 + node_count scene * 80 /\
  face_buf_size l = face_count scene * 16 /\
  vertex_buf_offset l = 256 + node_count scene * 80 + face_count scene * 16 /\
  vertex_buf_size l = vertex_count scene * 32 /\
  material_buf_offset l =
    256 + node_count scene * 80 + face_count scene * 16 + vertex_count scene * 32 /\
  material_buf_size l = material_count scene * 32 /\
  file_size l =
    256 + node_count scene * 80 + face_count scene * 16 + vertex_count scene * 32
    + material_count scene * 32.
Proof.
  intros (Hn & Hf & Hv & Hm). unfold is_u32 in *.
  unfold scene_layout, header_size, sizeof_gp_bvhcc_node, sizeof_gp_face,
    sizeof_gp_vertex, sizeof_gp_material. cbn [node_buf_offset node_buf_size
    face_buf_offset face_buf_size vertex_buf_offset vertex_buf_size
    material_buf_offset material_buf_size file_size].
  assert (E1 : wrap64 (node_count scene * 80) = node_count scene * 80)
    by (apply wrap64_small; lia).
  assert (E2 : wrap64 (face_count scene * 16) = face_count scene * 16)
    by (apply wrap64_small; lia).
  assert (E3 : wrap64 (vertex_count scene * 32) = vertex_count scene * 32)
    by (apply wrap64_small; lia).
  assert (E4 : wrap64 (material_count scene * 32) = material_count scene * 32)
    by (apply wrap64_small; lia).
  rewrite E1, E2, E3, E4.
  rewrite (wrap64_small (256 + node_count scene * 80)) by lia.
  rewrite (wrap64_small (256 + node_count scene * 80 + face_count scene * 16)) by lia.
  rewrite (wrap64_small (256 + node_count scene * 80 + face_count scene * 16
                         + vertex_count scene * 32)) by lia.
  rewrite (wrap64_small (256 + node_count scene * 80 + face_count scene * 16
                         + vertex_count scene * 32 + material_count scene * 32)) by lia.
  repeat split; reflexivity.
Qed.

(** The first 256 bytes of the buffer are those left by [write_header]: the
    four buffers are all copied at or past offset 256. *)
Lemma load_buffer_header heap opts scene k len :
  counts_in_range scene -> k + Z.of_nat len <= 256 ->
  load_bytes (gp_write_scene_buffer heap opts scene) k len =
  load_bytes (write_header opts scene (scene_layout scene) heap) k len.
Proof.
  intros Hc Hk.
  pose proof (scene_layout_exact scene Hc) as
    (E1 & E2 & E3 & E4 & E5 & E6 & E7 & E8 & _).
  destruct Hc as (Hn & Hf & Hv & Hm). unfold is_u32 in *.
  unfold gp_write_scene_buffer.
  rewrite load_memcpy_other by lia.
  rewrite load_write_vertices_below by lia.
  rewrite !load_memcpy_other by lia.
  reflexivity.
Qed.

Ltac header_field :=
  unfold write_header, sizeof_gp_aabb, sizeof_gp_camera;
  repeat (rewrite load_memcpy_other by (simpl; lia));
  apply (load_memcpy_same _ _ _ 8%nat); apply le_bytes_length.

Lemma load_header_fields opts scene l heap :
  let h := write_header opts scene l heap in
  load_bytes h 8 8 = le_bytes 8 (node_buf_offset l) /\
  load_bytes h 16 8 = le_bytes 8 (node_buf_size l) /\
  load_bytes h 24 8 = le_bytes 8 (face_buf_offset l) /\
  load_bytes h 32 8 = le_bytes 8 (face_buf_size l) /\
  load_bytes h 40 8 = le_bytes 8 (vertex_buf_offset l) /\
  load_bytes h 48 8 = le_bytes 8 (vertex_buf_size l) /\
  load_bytes h 56 8 = le_bytes 8 (material_buf_offset l) /\
  load_bytes h 64 8 = le_bytes 8 (material_buf_size l).
Proof.
  cbv zeta. repeat split; header_field.
Qed.

Lemma gp_write_scene_length heap opts scene :
  length (gp_write_scene heap opts scene) = Z.to_nat (file_size (scene_layout scene)).
Proof. unfold gp_write_scene. apply load_bytes_length. Qed.

Lemma load_bytes_one m m' k :
  load_bytes m k 1 = load_bytes m' k 1 -> m k = m' k.
Proof.
  unfold load_bytes. simpl. rewrite Z.add_0_r. intros H. now injection H.
Qed.

(** A small scene used to exercise the writer: one node, two faces, three
    vertices, one material, every payload byte [1]. *)
Definition sample_options : program_options :=
  {| image_width := 1200; image_height := 1200 |}.

Definition sample_vertex : gp_vertex :=
  {| pos := (1, 2, 3); norm := (4, 5, 6); uv := (7, 8) |}.

Definition sample_scene : gp_scene :=
  {| node_count := 1; nodes := repeat 1 80;
     aabb := repeat 1 24; camera := repeat 1 40;
     face_count := 2; faces := repeat 1 32;
     vertex_count := 3; vertices := repeat sample_vertex 3;
     material_count := 1; materials := repeat 1 32 |}.

(** A recycled heap block: every byte is [0xAA]. *)
Definition stale_heap : mem := fun _ => 170.

Lemma sample_scene_in_range : counts_in_range sample_scene.
Proof. unfold counts_in_range, is_u32. simpl. lia. Qed.

(** C5. For every scene written by [gp_write_scene], the header fields read
    back from the file satisfy: node offset = 256; node offset + node size =
    face offset; face offset + face size = vertex offset; vertex offset +
    vertex size = material offset; material offset + material size = length of
    the file; and the sizes are node_count * 80, face_count * 16,
    vertex_count * 32 and material_count * 32. *)
Theorem header_offsets_chain heap opts scene :
  counts_in_range scene ->
  let file := gp_write_scene heap opts scene in
  header_u64 file 8 = 256 /\
  header_u64 file 8 + header_u64 file 16 = header_u64 file 24 /\
  header_u64 file 24 + header_u64 file 32 = header_u64 file 40 /\
  header_u64 file 40 + header_u64 file 48 = header_u64 file 56 /\
  header_u64 file 56 + header_u64 file 64 = Z.of_nat (length file) /\
  header_u64 file 16 = node_count scene * 80 /\
  header_u64 file 32 = face_count scene * 16 /\
  header_u64 file 48 = vertex_count scene * 32 /\
  header_u64 file 64 = material_count scene * 32.
Proof.
  intros Hc file.
  pose proof (scene_layout_exact scene Hc) as
    (E1 & E2 & E3 & E4 & E5 & E6 & E7 & E8 & E9).
  pose proof (load_header_fields opts scene (scene_layout scene) heap) as
    (F1 & F2 & F3 & F4 & F5 & F6 & F7 & F8).
  assert (Hlen : Z.of_nat (length file) = file_size (scene_layout scene)).
  { subst file. rewrite gp_write_scene_length.
    destruct Hc as (Hn & Hf & Hv & Hm). unfold is_u32 in *. lia. }
  assert (Hfield : forall off v,
             (off + 8 <= 256)%nat ->
             load_bytes (write_header opts scene (scene_layout scene) heap)
               (Z.of_nat off) 8 = le_bytes 8 v ->
             0 <= v < 2 ^ 64 ->
             header_u64 file off = v).
  { intros off v Hoff Hload Hv. subst file. unfold gp_write_scene.
    rewrite header_u64_load.
    - rewrite load_buffer_header by (try exact Hc; lia).
      rewrite Hload. now apply le_value_bytes64.
    - destruct Hc as (Hn & Hf & Hvv & Hm). unfold is_u32 in *. lia. }
  destruct Hc as (Hn & Hf & Hv & Hm). unfold is_u32 in *.
  rewrite (Hfield 8%nat _ ltac:(lia) F1) by lia.
  rewrite (Hfield 16%nat _ ltac:(lia) F2) by lia.
  rewrite (Hfield 24%nat _ ltac:(lia) F3) by lia.
  rewrite (Hfield 32%nat _ ltac:(lia) F4) by lia.
  rewrite (Hfield 40%nat _ ltac:(lia) F5) by lia.
  rewrite (Hfield 48%nat _ ltac:(lia) F6) by lia.
  rewrite (Hfield 56%nat _ ltac:(lia) F7) by lia.
  rewrite (Hfield 64%nat _ ltac:(lia) F8) by lia.
  rewrite Hlen. lia.
Qed.

Lemma header_offsets_chain_witness :
  counts_in_range sample_scene /\
  header_u64 (gp_write_scene stale_heap sample_options sample_scene) 56
  + header_u64 (gp_write_scene stale_heap sample_options sample_scene) 64
  = Z.of_nat (length (gp_write_scene stale_heap sample_options sample_scene)).
Proof.
  split.
  - exact sample_scene_in_range.
  - exact (proj1 (proj2 (proj2 (proj2 (proj2
      (header_offsets_chain stale_heap sample_options sample_scene
         sample_scene_in_range)))))).
Defined.

(** [gp_write_scene] never stores into header bytes 136..255. *)
Lemma reserved_bytes_untouched heap opts scene j :
  counts_in_range scene -> 136 <= j < 256 ->
  gp_write_scene_buffer heap opts scene j = heap j.
Proof.
  intros Hc Hj. apply load_bytes_one.
  rewrite load_buffer_header by (try exact Hc; simpl; lia).
  unfold write_header, sizeof_gp_aabb, sizeof_gp_camera.
  repeat (rewrite load_memcpy_other by (simpl; lia)).
  reflexivity.
Qed.

(** None of the 120 reserved header bytes at offsets 136..255 is written:
    in the file each holds the byte the freshly allocated buffer had at that
    offset. *)
Lemma reserved_bytes_are_heap_content heap opts scene i :
  counts_in_range scene -> (136 <= i < 256)%nat ->
  nth i (gp_write_scene heap opts scene) 0 = heap (Z.of_nat i).
Proof.
  intros Hc Hi. unfold gp_write_scene.
  pose proof (scene_layout_exact scene Hc) as (_ & _ & _ & _ & _ & _ & _ & _ & E9).
  rewrite load_bytes_nth.
  - rewrite Z.add_0_l. apply reserved_bytes_untouched; [exact Hc | lia].
  - destruct Hc as (Hn & Hf & Hv & Hm). unfold is_u32 in *. lia.
Qed.

(** C6. The claim is that the reserved header bytes 136..255 of every written
    file are zero. The writer allocates with [malloc] and never stores into
    them: over a recycled heap block full of [0xAA], the reserved bytes at
    offsets 136 and 255 of the sample scene's file are [0xAA], not zero. *)
Theorem reserved_bytes_not_zeroed :
  nth 136 (gp_write_scene stale_heap sample_options sample_scene) 0 = 170 /\
  nth 255 (gp_write_scene stale_heap sample_options sample_scene) 0 = 170.
Proof.
  split.
  - rewrite reserved_bytes_are_heap_content.
    + reflexivity.
    + exact sample_scene_in_range.
    + lia.
  - rewrite reserved_bytes_are_heap_content.
    + reflexivity.
    + exact sample_scene_in_range.
    + lia.
Qed.

(** *** Reading the payload back *)

(** The 32 bytes of one vertex in the file: position, first texture
    coordinate, normal, second texture coordinate. *)
Definition vertex_bytes (v : gp_vertex) : list Z :=
  let '(px, py, pz) := pos v in
  let '(nx, ny, nz) := norm v in
  let '(u0, u1) := uv v in
  le_bytes 4 px ++ le_bytes 4 py ++ le_bytes 4 pz ++ le_bytes 4 u0 ++
  le_bytes 4 nx ++ le_bytes 4 ny ++ le_bytes 4 nz ++ le_bytes 4 u1.

(** The [n] bytes of a file that start at byte [off]. *)
Definition file_slice (file : list Z) (off : Z) (n : nat) : list Z :=
  firstn n (skipn (Z.to_nat off) file).

Lemma file_slice_load m N off n :
  0 <= off -> (Z.to_nat off + n <= N)%nat ->
  file_slice (load_bytes m 0 N) off n = load_bytes m off n.
Proof.
  intros Hoff Hn. unfold file_slice.
  apply nth_ext with (d := 0) (d' := 0).
  - rewrite length_firstn, length_skipn, !load_bytes_length. lia.
  - intros k Hk.
    rewrite length_firstn, length_skipn, load_bytes_length in Hk.
    rewrite nth_firstn.
    replace (k <? n)%nat with true by (symmetry; apply Nat.ltb_lt; lia).
    rewrite nth_skipn, !load_bytes_nth by lia.
    f_equal. lia.
Qed.

Lemma load_bytes_app m k a b :
  load_bytes m k (a + b) = load_bytes m k a ++ load_bytes m (k + Z.of_nat a) b.
Proof.
  apply nth_ext with (d := 0) (d' := 0).
  - rewrite length_app, !load_bytes_length. reflexivity.
  - intros j Hj. rewrite load_bytes_length in Hj.
    rewrite load_bytes_nth by exact Hj.
    destruct (Nat.lt_ge_cases j a) as [Hlt | Hge].
    + rewrite app_nth1 by (now rewrite load_bytes_length).
      now rewrite load_bytes_nth.
    + rewrite app_nth2 by (now rewrite load_bytes_length).
      rewrite load_bytes_length, load_bytes_nth by lia. f_equal. lia.
Qed.

Lemma wrap32_stride i : 0 <= i -> wrap32 (i * 32) = 32 * (i mod 2 ^ 27).
Proof.
  intros Hi. unfold wrap32. change (2 ^ 32) with (32 * 2 ^ 27).
  rewrite (Z.mul_comm i 32). now rewrite Z.mul_mod_distr_l by lia.
Qed.

(** One vertex is written inside the 32-byte slot [wrap32 (i * 32)] past the
    start of the vertex buffer, whatever [i] is. *)
Lemma load_write_vertex_other voff m i v k len :
  0 <= voff -> voff + 2 ^ 32 <= 2 ^ 64 -> 0 <= i ->
  k + Z.of_nat len <= voff + wrap32 (i * 32) \/ voff + wrap32 (i * 32) + 32 <= k ->
  load_bytes (write_vertex voff m i v) k len = load_bytes m k len.
Proof.
  intros Hv Hfit Hi Hk. unfold write_vertex.
  destruct (pos v) as [[px py] pz], (norm v) as [[nx ny] nz], (uv v) as [u0 u1].
  pose proof (wrap32_range (i * 32)) as Hw.
  rewrite (wrap64_small (voff + wrap32 (i * 32))) by lia.
  repeat (rewrite load_memcpy_other by lia). reflexivity.
Qed.

Lemma load_memcpy_at m off off' src n :
  off' = off -> length src = n ->
  load_bytes (memcpy m off src (Z.of_nat n)) off' n = src.
Proof. intros ->. apply load_memcpy_same. Qed.

Lemma load_write_vertex_same voff m i v :
  0 <= voff -> voff + 2 ^ 32 <= 2 ^ 64 ->
  load_bytes (write_vertex voff m i v) (voff + wrap32 (i * 32)) 32 = vertex_bytes v.
Proof.
  intros Hv Hfit. unfold write_vertex, vertex_bytes.
  destruct (pos v) as [[px py] pz], (norm v) as [[nx ny] nz], (uv v) as [u0 u1].
  pose proof (wrap32_range (i * 32)) as Hw.
  rewrite (wrap64_small (voff + wrap32 (i * 32))) by lia.
  set (ptr := voff + wrap32 (i * 32)).
  change 32%nat with (4 + (4 + (4 + (4 + (4 + (4 + (4 + 4)))))))%nat.
  rewrite !load_bytes_app.
  repeat match goal with |- _ ++ _ = _ ++ _ => apply (f_equal2 (@app Z)) end.
  all: repeat (rewrite load_memcpy_other by lia);
       apply (load_memcpy_at _ _ _ _ 4%nat); [lia | apply le_bytes_length].
Qed.

(** The loop over the vertices stays inside the vertex buffer. *)
Lemma load_write_vertices_other voff vs m i k len :
  0 <= voff -> voff + 2 ^ 32 <= 2 ^ 64 -> 0 <= i ->
  k + Z.of_nat len <= voff \/ voff + 32 * (i + Z.of_nat (length vs)) <= k ->
  load_bytes (write_vertices voff m i vs) k len = load_bytes m k len.
Proof.
  intros Hv Hfit. revert m i.
  induction vs as [|v vs IH]; intros m i Hi Hk; cbn [write_vertices]; [reflexivity|].
  cbn [length] in Hk.
  rewrite IH by lia. apply load_write_vertex_other; try assumption.
  pose proof (wrap32_range (i * 32)) as Hw.
  rewrite wrap32_stride in * by exact Hi.
  assert (i mod 2 ^ 27 <= i) by (apply Z.mod_le; lia).
  pose proof (Z.mod_pos_bound i (2 ^ 27) ltac:(lia)). lia.
Qed.

Lemma wrap32_stride_small i : 0 <= i < 2 ^ 27 -> wrap32 (i * 32) = 32 * i.
Proof. intros Hi. rewrite wrap32_stride by lia. now rewrite Z.mod_small by lia. Qed.

Lemma load_write_vertices_before voff vs m i k len :
  0 <= voff -> voff + 2 ^ 32 <= 2 ^ 64 -> 0 <= i ->
  i + Z.of_nat (length vs) <= 2 ^ 27 -> k + Z.of_nat len <= voff + 32 * i ->
  load_bytes (write_vertices voff m i vs) k len = load_bytes m k len.
Proof.
  intros Hv Hfit. revert m i.
  induction vs as [|v vs IH]; intros m i Hi Hlen Hk; cbn [write_vertices]; [reflexivity|].
  cbn [length] in Hlen.
  rewrite IH by lia. apply load_write_vertex_other; try assumption.
  rewrite wrap32_stride_small by lia. lia.
Qed.

Lemma load_write_vertices_same voff vs m i j :
  0 <= voff -> voff + 2 ^ 32 <= 2 ^ 64 -> 0 <= i ->
  i + Z.of_nat (length vs) <= 2 ^ 27 -> (j < length vs)%nat ->
  load_bytes (write_vertices voff m i vs) (voff + 32 * (i + Z.of_nat j)) 32 =
  vertex_bytes (nth j vs {| pos := (0, 0, 0); norm := (0, 0, 0); uv := (0, 0) |}).
Proof.
  intros Hv Hfit. revert m i j.
  induction vs as [|v vs IH]; intros m i j Hi Hlen Hj; cbn [length] in *; [lia|].
  cbn [write_vertices].
  destruct j as [|j].
  - cbn [nth]. rewrite load_write_vertices_before by lia.
    replace (32 * (i + Z.of_nat 0)) with (wrap32 (i * 32))
      by (rewrite wrap32_stride_small by lia; lia).
    now apply load_write_vertex_same.
  - cbn [nth]. replace (i + Z.of_nat (S j)) with (i + 1 + Z.of_nat j) by lia.
    apply IH; lia.
Qed.

(** The header fields of the file are the layout the writer computed. *)
Lemma header_u64_layout heap opts scene :
  counts_in_range scene ->
  let file := gp_write_scene heap opts scene in
  let l := scene_layout scene in
  header_u64 file 8 = node_buf_offset l /\
  header_u64 file 24 = face_buf_offset l /\
  header_u64 file 40 = vertex_buf_offset l /\
  header_u64 file 56 = material_buf_offset l.
Proof.
  intros Hc file l.
  pose proof (scene_layout_exact scene Hc) as
    (E1 & E2 & E3 & E4 & E5 & E6 & E7 & E8 & E9).
  pose proof (load_header_fields opts scene (scene_layout scene) heap) as
    (F1 & F2 & F3 & F4 & F5 & F6 & F7 & F8).
  assert (Hfield : forall off v,
             (off + 8 <= 256)%nat ->
             load_bytes (write_header opts scene (scene_layout scene) heap)
               (Z.of_nat off) 8 = le_bytes 8 v ->
             0 <= v < 2 ^ 64 ->
             header_u64 file off = v).
  { intros off v Hoff Hload Hv. subst file. unfold gp_write_scene.
    rewrite header_u64_load.
    - rewrite load_buffer_header by (try exact Hc; lia).
      rewrite Hload. now apply le_value_bytes64.
    - destruct Hc as (Hn & Hf & Hvv & Hm). unfold is_u32 in *. lia. }
  destruct Hc as (Hn & Hf & Hv & Hm). unfold is_u32 in *. subst l.
  rewrite (Hfield 8%nat _ ltac:(lia) F1) by lia.
  rewrite (Hfield 24%nat _ ltac:(lia) F3) by lia.
  rewrite (Hfield 40%nat _ ltac:(lia) F5) by lia.
  rewrite (Hfield 56%nat _ ltac:(lia) F7) by lia.
  repeat split; reflexivity.
Qed.

(** X7. The node, face and material arrays are stored intact in the file, each
    at the offset its header field gives: a reader that follows the header
    finds the bytes the writer was handed. *)
Theorem buffers_read_back heap opts scene :
  counts_in_range scene ->
  Z.of_nat (length (nodes scene)) = node_count scene * 80 ->
  Z.of_nat (length (faces scene)) = face_count scene * 16 ->
  Z.of_nat (length (materials scene)) = material_count scene * 32 ->
  let file := gp_write_scene heap opts scene in
  file_slice file (header_u64 file 8) (length (nodes scene)) = nodes scene /\
  file_slice file (header_u64 file 24) (length (faces scene)) = faces scene /\
  file_slice file (header_u64 file 56) (length (materials scene)) = materials scene.
Proof.
  intros Hc Hnodes Hfaces Hmats file.
  pose proof (header_u64_layout heap opts scene Hc) as (H8 & H24 & _ & H56).
  cbv zeta in H8, H24, H56. fold file in H8, H24, H56. rewrite H8, H24, H56.
  pose proof (scene_layout_exact scene Hc) as
    (E1 & E2 & E3 & E4 & E5 & E6 & E7 & E8 & E9).
  cbv zeta in E1, E2, E3, E4, E5, E6, E7, E8, E9.
  destruct Hc as (Hn & Hf & Hv & Hm). unfold is_u32 in *.
  subst file. unfold gp_write_scene.
  rewrite !file_slice_load by lia.
  unfold gp_write_scene_buffer. rewrite E2, E4, E8.
  rewrite <- Hnodes, <- Hfaces, <- Hmats.
  split; [|split].
  - rewrite load_memcpy_other by lia.
    rewrite load_write_vertices_below by lia.
    rewrite load_memcpy_other by lia.
    apply load_memcpy_same. reflexivity.
  - rewrite load_memcpy_other by lia.
    rewrite load_write_vertices_below by lia.
    apply load_memcpy_same. reflexivity.
  - apply load_memcpy_same. reflexivity.
Qed.

Lemma sample_scene_arrays :
  Z.of_nat (length (nodes sample_scene)) = node_count sample_scene * 80 /\
  Z.of_nat (length (faces sample_scene)) = face_count sample_scene * 16 /\
  Z.of_nat (length (materials sample_scene)) = material_count sample_scene * 32.
Proof. repeat split. Qed.

Lemma buffers_read_back_witness :
  counts_in_range sample_scene /\
  file_slice (gp_write_scene stale_heap sample_options sample_scene)
    (header_u64 (gp_write_scene stale_heap sample_options sample_scene) 8)
    (length (nodes sample_scene)) = nodes sample_scene.
Proof.
  split; [exact sample_scene_in_range|].
  exact (proj1 (buffers_read_back stale_heap sample_options sample_scene
                  sample_scene_in_range
                  (proj1 sample_scene_arrays)
                  (proj1 (proj2 sample_scene_arrays))
                  (proj2 (proj2 sample_scene_arrays)))).
Defined.

Definition zero_vertex : gp_vertex :=
  {| pos := (0, 0, 0); norm := (0, 0, 0); uv := (0, 0) |}.

(** X8. Vertex [i] occupies the 32 bytes at [vertex offset + 32 i] of the
    file, in the order position, first texture coordinate, normal, second
    texture coordinate, for scenes of at most [2 ^ 27] vertices (the byte
    offset [i * 32] is computed in 32 bits). *)
Theorem vertex_read_back heap opts scene i :
  counts_in_range scene ->
  Z.of_nat (length (vertices scene)) = vertex_count scene ->
  vertex_count scene <= 2 ^ 27 ->
  0 <= i < vertex_count scene ->
  let file := gp_write_scene heap opts scene in
  file_slice file (header_u64 file 40 + 32 * i) 32 =
  vertex_bytes (nth (Z.to_nat i) (vertices scene) zero_vertex).
Proof.
  intros Hc Hlen Hmax Hi file.
  pose proof (header_u64_layout heap opts scene Hc) as (_ & _ & H40 & _).
  cbv zeta in H40. fold file in H40. rewrite H40.
  pose proof (scene_layout_exact scene Hc) as
    (E1 & E2 & E3 & E4 & E5 & E6 & E7 & E8 & E9).
  cbv zeta in E1, E2, E3, E4, E5, E6, E7, E8, E9.
  destruct Hc as (Hn & Hf & Hv & Hm). unfold is_u32 in *.
  subst file. unfold gp_write_scene.
  rewrite file_slice_load by lia.
  unfold gp_write_scene_buffer.
  rewrite load_memcpy_other by lia.
  rewrite firstn_all2 by lia.
  replace (32 * i) with (32 * (0 + Z.of_nat (Z.to_nat i))) by lia.
  apply load_write_vertices_same; lia.
Qed.

Lemma vertex_read_back_witness :
  counts_in_range sample_scene /\
  file_slice (gp_write_scene stale_heap sample_options sample_scene)
    (header_u64 (gp_write_scene stale_heap sample_options sample_scene) 40 + 32 * 2) 32 =
  vertex_bytes (nth (Z.to_nat 2) (vertices sample_scene) zero_vertex).
Proof.
  split; [exact sample_scene_in_range|].
  apply (vertex_read_back stale_heap sample_options sample_scene 2
           sample_scene_in_range).
  - reflexivity.
  - simpl. lia.
  - simpl. lia.
Defined.

(** X9. The image size, the bounding box and the camera are read back from
    the header bytes 0..7, 72..95 and 96..135 of the file. *)
Theorem header_scalars_read_back heap opts scene :
  counts_in_range scene ->
  length (aabb scene) = 24%nat -> length (camera scene) = 40%nat ->
  let file := gp_write_scene heap opts scene in
  file_slice file 0 4 = le_bytes 4 (image_width opts) /\
  file_slice file 4 4 = le_bytes 4 (image_height opts) /\
  file_slice file 72 24 = aabb scene /\
  file_slice file 96 40 = camera scene.
Proof.
  intros Hc Haabb Hcam file.
  pose proof (scene_layout_exact scene Hc) as (_ & _ & _ & _ & _ & _ & _ & _ & E9).
  cbv zeta in E9.
  assert (Hsize : 256 <= file_size (scene_layout scene))
    by (destruct Hc as (Hn & Hf & Hv & Hm); unfold is_u32 in *; lia).
  subst file. unfold gp_write_scene.
  rewrite !file_slice_load by lia.
  rewrite !load_buffer_header by (try exact Hc; simpl; lia).
  unfold write_header, sizeof_gp_aabb, sizeof_gp_camera.
  split; [|split; [|split]].
  - repeat (rewrite load_memcpy_other by (simpl; lia)).
    apply (load_memcpy_same _ _ _ 4%nat). apply le_bytes_length.
  - repeat (rewrite load_memcpy_other by (simpl; lia)).
    apply (load_memcpy_same _ _ _ 4%nat). apply le_bytes_length.
  - repeat (rewrite load_memcpy_other by (simpl; lia)).
    apply (load_memcpy_same _ _ _ 24%nat). exact Haabb.
  - apply (load_memcpy_same _ _ _ 40%nat). exact Hcam.
Qed.

Lemma header_scalars_read_back_witness :
  counts_in_range sample_scene /\
  file_slice (gp_write_scene stale_heap sample_options sample_scene) 96 40 =
  camera sample_scene.
Proof.
  split; [exact sample_scene_in_range|].
  exact (proj2 (proj2 (proj2
    (header_scalars_read_back stale_heap sample_options sample_scene
       sample_scene_in_range eq_refl eq_refl)))).
Defined.

End SceneWriter.

(** ** Loading the scene graph ([gp_load_scene] and its helpers) *)

Module SceneLoader.

Section Assimp.

(** Node names are compared with [strcmp]; floats, matrices and the Assimp
    and vector-math routines that work on them are left open. *)
Context {name : Type} `{EqDecision name}.
Context {float matrix4 matrix3 : Type}.
Variable float_zero : float.
Variable aiMultiplyMatrix4 : matrix4 -> matrix4 -> matrix4.
Variable aiMatrix3FromMatrix4 : matrix4 -> matrix3.
Variable aiMatrix3Inverse : matrix3 -> matrix3.
Variable aiTransposeMatrix3 : matrix3 -> matrix3.

Definition vec3 : Type := float * float * float.

Variable aiTransformVecByMatrix4 : vec3 -> matrix4 -> vec3.
Variable aiTransformVecByMatrix3 : vec3 -> matrix3 -> vec3.
Variable gp_vec3_normalize : vec3 -> vec3.

(** [struct aiNode]: name, transformation, the indices of its meshes in
    [aiScene::mMeshes], and its children. *)
#[local] Unset Elimination Schemes.
Inductive aiNode :=
  AiNode (mName : name) (mTransformation : matrix4) (mMeshes : list Z)
         (mChildren : list aiNode).
#[local] Set Elimination Schemes.

Definition mName (n : aiNode) : name := let 'AiNode x _ _ _ := n in x.
Definition mTransformation (n : aiNode) : matrix4 := let 'AiNode _ x _ _ := n in x.
Definition mMeshes (n : aiNode) : list Z := let 'AiNode _ _ x _ := n in x.
Definition mChildren (n : aiNode) : list aiNode := let 'AiNode _ _ _ x := n in x.

(** [struct aiFace] is its index array; [struct aiMesh] has the faces, the
    vertex positions and normals and the material index. *)
Definition aiFace : Type := list Z.

Record aiMesh := {
  mFaces : list aiFace;
  mVertices : list vec3;
  mNormals : list vec3;
  mMaterialIndex : Z;
}.

Definition mNumFaces (m : aiMesh) : Z := Z.of_nat (length (mFaces m)).
Definition mNumVertices (m : aiMesh) : Z := Z.of_nat (length (mVertices m)).

Record gp_face := { v_i : Z * Z * Z; mat_index : Z }.

Record gp_vertex := { pos : vec3; norm : vec3; uv : float * float }.

(** The two output arrays with their running indices. The arrays are
    memory: a store lands at its index, whatever was allocated. *)
Record geometry := {
  face_index : Z;
  faces : gmap Z gp_face;
  vertex_index : Z;
  vertices : gmap Z gp_vertex;
}.

(** *** [gp_assimp_find_node] *)

Fixpoint gp_assimp_find_node (ai_parent : aiNode) (n : name) : option aiNode :=
  match ai_parent with
  | AiNode _ _ _ children =>
      (fix loop (l : list aiNode) : option aiNode :=
         match l with
         | [] => None
         | ai_child :: rest =>
             if decide (mName ai_child = n) then Some ai_child
             else
               match gp_assimp_find_node ai_child n with
               | Some ai_target_node => Some ai_target_node
               | None => loop rest
               end
         end) children
  end.

(** *** [gp_assimp_add_node_mesh] *)

(** The face loop of one mesh; [None] is the failed [assert]. *)
Fixpoint add_faces (mat : Z) (fs : list aiFace) (g : geometry) : option geometry :=
  match fs with
  | [] => Some g
  | ai_face :: rest =>
      match ai_face with
      | [i0; i1; i2] =>
          let face :=
            {| v_i := (wrap32 (vertex_index g + i0),
                       wrap32 (vertex_index g + i1),
                       wrap32 (vertex_index g + i2));
               mat_index := mat |} in
          add_faces mat rest
            {| face_index := wrap32 (face_index g + 1);
               faces := <[face_index g := face]> (faces g);
               vertex_index := vertex_index g;
               vertices := vertices g |}
      | _ => None
      end
  end.

(** The vertex loop of one mesh, over the positions and normals still to
    do; [None] is a read past the end of [mNormals]. *)
Fixpoint add_vertices (ai_trans : matrix4) (ai_norm_trans : matrix3)
    (positions normals : list vec3) (g : geometry) : option geometry :=
  match positions with
  | [] => Some g
  | ai_position :: positions' =>
      match normals with
      | [] => None
      | ai_normal :: normals' =>
          let ai_position := aiTransformVecByMatrix4 ai_position ai_trans in
          let ai_normal := aiTransformVecByMatrix3 ai_normal ai_norm_trans in
          let vertex :=
            {| pos := ai_position;
               norm := gp_vec3_normalize ai_normal;
               uv := (float_zero, float_zero) |} in
          add_vertices ai_trans ai_norm_trans positions' normals'
            {| face_index := face_index g;
               faces := faces g;
               vertex_index := wrap32 (vertex_index g + 1);
               vertices := <[vertex_index g := vertex]> (vertices g) |}
      end
  end.

Definition add_mesh (ai_trans : matrix4) (ai_norm_trans : matrix3) (ai_mesh : aiMesh)
    (g : geometry) : option geometry :=
  match add_faces (mMaterialIndex ai_mesh) (mFaces ai_mesh) g with
  | None => None
  | Some g => add_vertices ai_trans ai_norm_trans (mVertices ai_mesh) (mNormals ai_mesh) g
  end.

(** The loop over [ai_node->mMeshes]; the mesh indices are unsigned, and
    [None] also stands for one that is not an index into the scene's
    meshes. *)
Fixpoint add_meshes (scene_meshes : list aiMesh) (ai_trans : matrix4)
    (ai_norm_trans : matrix3) (node_meshes : list Z) (g : geometry) : option geometry :=
  match node_meshes with
  | [] => Some g
  | m :: rest =>
      if m <? 0 then None
      else
        match scene_meshes !! Z.to_nat m with
        | None => None
        | Some ai_mesh =>
            match add_mesh ai_trans ai_norm_trans ai_mesh g with
            | None => None
            | Some g => add_meshes scene_meshes ai_trans ai_norm_trans rest g
            end
        end
  end.

Definition norm_trans_of (ai_trans : matrix4) : matrix3 :=
  aiTransposeMatrix3 (aiMatrix3Inverse (aiMatrix3FromMatrix4 ai_trans)).

Fixpoint gp_assimp_add_node_mesh (scene_meshes : list aiMesh) (ai_node : aiNode)
    (ai_parent_transform : matrix4) (g : geometry) : option geometry :=
  match ai_node with
  | AiNode _ transformation node_meshes children =>
      let ai_trans := aiMultiplyMatrix4 ai_parent_transform transformation in
      let ai_norm_trans := norm_trans_of ai_trans in
      match add_meshes scene_meshes ai_trans ai_norm_trans node_meshes g with
      | None => None
      | Some g =>
          (fix loop (l : list aiNode) (g : geometry) : option geometry :=
             match l with
             | [] => Some g
             | child :: rest =>
                 match gp_assimp_add_node_mesh scene_meshes child ai_trans g with
                 | None => None
                 | Some g => loop rest g
                 end
             end) children g
      end
  end.

(** *** The geometry part of [gp_load_scene] *)

(** The counting loop over [ai_scene->mMeshes]: the sizes of the two
    allocations, in elements. *)
Definition count_geometry (scene_meshes : list aiMesh) : Z * Z :=
  fold_left
    (fun '(vertex_count, face_count) ai_mesh =>
       (wrap32 (vertex_count + mNumVertices ai_mesh),
        wrap32 (face_count + mNumFaces ai_mesh)))
    scene_meshes (0, 0).

Definition empty_geometry : geometry :=
  {| face_index := 0; faces := ∅; vertex_index := 0; vertices := ∅ |}.

(** The allocated element counts and what the scene graph walk wrote. *)
Definition load_geometry (scene_meshes : list aiMesh) (root : aiNode)
    (ai_root_trans : matrix4) : Z * Z * option geometry :=
  (count_geometry scene_meshes,
   gp_assimp_add_node_mesh scene_meshes root ai_root_trans empty_geometry).


(** *** What the walk over the scene graph does *)

(** The proper descendants of a node, parents before children and siblings
    in order. *)
Fixpoint descendants (n : aiNode) : list aiNode :=
  match n with
  | AiNode _ _ _ children => flat_map (fun c => c :: descendants c) children
  end.

(** The mesh instances below a node in the order of the walk, each with the
    transformation accumulated from the root down to its node. *)
Fixpoint instances (n : aiNode) (ai_parent_transform : matrix4) : list (matrix4 * Z) :=
  match n with
  | AiNode _ transformation node_meshes children =>
      let ai_trans := aiMultiplyMatrix4 ai_parent_transform transformation in
      map (pair ai_trans) node_meshes
      ++ flat_map (fun c => instances c ai_trans) children
  end.

(** The mesh indices the nodes refer to, in the order of the walk. *)
Fixpoint mesh_refs (n : aiNode) : list Z :=
  match n with
  | AiNode _ _ node_meshes children => node_meshes ++ flat_map mesh_refs children
  end.

Definition referenced (scene_meshes : list aiMesh) (refs : list Z) : list aiMesh :=
  omap (fun m => scene_meshes !! Z.to_nat m) refs.

Definition total (f : aiMesh -> Z) (ms : list aiMesh) : Z :=
  fold_right (fun m acc => f m + acc) 0 ms.

(** The vertex [add_vertices] builds. *)
Definition make_vertex (ai_trans : matrix4) (position normal : vec3) : gp_vertex :=
  {| pos := aiTransformVecByMatrix4 position ai_trans;
     norm := gp_vec3_normalize (aiTransformVecByMatrix3 normal (norm_trans_of ai_trans));
     uv := (float_zero, float_zero) |}.


(** *** Facts *)

Lemma aiNode_ind (P : aiNode -> Prop) :
  (forall n t ms children, Forall P children -> P (AiNode n t ms children)) ->
  forall node, P node.
Proof.
  intros Hstep. fix IH 1. intros [n t ms children]. apply Hstep.
  induction children as [|c rest IHrest]; constructor; [apply IH | exact IHrest].
Qed.

Lemma find_app_first {A} (f : A -> bool) (l1 l2 : list A) :
  find f (l1 ++ l2) =
  match find f l1 with Some x => Some x | None => find f l2 end.
Proof.
  induction l1 as [|x l1 IH]; cbn [app find]; [reflexivity|].
  destruct (f x); [reflexivity | exact IH].
Qed.

Lemma find_node_is_first_descendant node n :
  gp_assimp_find_node node n =
  find (fun c => bool_decide (mName c = n)) (descendants node).
Proof.
  induction node as [nm t ms children IH] using aiNode_ind.
  cbn [gp_assimp_find_node descendants].
  induction children as [|c rest IHrest]; [reflexivity|].
  cbn [flat_map]. rewrite <- app_comm_cons. cbn [find].
  inversion IH as [|? ? Hc Hrest]; subst.
  destruct (decide (mName c = n)) as [Heq|Hne].
  - now rewrite bool_decide_eq_true_2.
  - rewrite bool_decide_eq_false_2 by exact Hne.
    rewrite find_app_first, <- Hc.
    destruct (gp_assimp_find_node c n); [reflexivity|].
    exact (IHrest Hrest).
Qed.


Lemma find_first_split {A} (f : A -> bool) (l : list A) x :
  find f l = Some x ->
  exists before after,
    l = before ++ x :: after /\ f x = true /\
    forall y, In y before -> f y = false.
Proof.
  induction l as [|y l IH]; cbn [find]; [discriminate|].
  destruct (f y) eqn:Ey.
  - intros [= ->]. exists [], l. repeat split; [exact Ey | intros ? []].
  - intros Hfind. destruct (IH Hfind) as (before & after & -> & Hx & Hbefore).
    exists (y :: before), after. repeat split; [exact Hx|].
    intros z [<- | Hz]; [exact Ey | now apply Hbefore].
Qed.

(** X20. [gp_assimp_find_node] returns the first proper descendant of the
    node it is given, parents before children, that has the name, and [NULL]
    exactly when no proper descendant has it; the node itself is never
    looked at. *)
Theorem find_node_first_proper_descendant node n :
  (gp_assimp_find_node node n = None <->
   forall d, In d (descendants node) -> mName d <> n) /\
  (forall target, gp_assimp_find_node node n = Some target ->
     mName target = n /\
     exists before after,
       descendants node = before ++ target :: after /\
       forall d, In d before -> mName d <> n).
Proof.
  rewrite find_node_is_first_descendant. split.
  - split.
    + intros Hnone d Hd Hname.
      pose proof (find_none _ _ Hnone d Hd) as Hf. cbn in Hf.
      now rewrite bool_decide_eq_true_2 in Hf.
    + intros Hall.
      destruct (find _ (descendants node)) as [d|] eqn:Hfind; [|reflexivity].
      apply find_some in Hfind as [Hd Hf].
      apply bool_decide_eq_true_1 in Hf. now destruct (Hall d Hd).
  - intros target Hfind.
    destruct (find_first_split _ _ _ Hfind) as (before & after & Hsplit & Hf & Hbefore).
    split; [now apply bool_decide_eq_true_1 in Hf|].
    exists before, after. split; [exact Hsplit|].
    intros d Hd Hname. specialize (Hbefore d Hd). cbn in Hbefore.
    now rewrite bool_decide_eq_true_2 in Hbefore.
Qed.

(** **** The geometry the walk writes *)

Section Geometry.

Variable scene_meshes : list aiMesh.


(** A face is built from a mesh instance when it has the material of the
    mesh and the corner indices of one of its faces, moved by the place [b]
    of the instance's vertices in the vertex array, and the vertex array has
    the transformed vertices of the mesh from [b] on. *)
Definition built_from (I : list (matrix4 * Z)) (V : gmap Z gp_vertex)
    (face : gp_face) : Prop :=
  exists ai_trans m ai_mesh i0 i1 i2 b,
    In (ai_trans, m) I /\
    scene_meshes !! Z.to_nat m = Some ai_mesh /\
    In [i0; i1; i2] (mFaces ai_mesh) /\
    mat_index face = mMaterialIndex ai_mesh /\
    v_i face = (wrap32 (b + i0), wrap32 (b + i1), wrap32 (b + i2)) /\
    forall (i : nat) position,
      mVertices ai_mesh !! i = Some position ->
      exists normal,
        mNormals ai_mesh !! i = Some normal /\
        V !! (b + Z.of_nat i) = Some (make_vertex ai_trans position normal).

Definition well_built (I : list (matrix4 * Z)) (g : geometry) : Prop :=
  face_index g = total mNumFaces (referenced scene_meshes (map snd I)) /\
  vertex_index g = total mNumVertices (referenced scene_meshes (map snd I)) /\
  (forall k, is_Some (faces g !! k) <-> 0 <= k < face_index g) /\
  (forall k, is_Some (vertices g !! k) <-> 0 <= k < vertex_index g) /\
  forall k face, faces g !! k = Some face -> built_from I (vertices g) face.

Lemma total_nonneg f ms : (forall m, 0 <= f m) -> 0 <= total f ms.
Proof.
  intros Hf. unfold total. induction ms as [|m ms IH]; cbn [fold_right]; [lia|].
  specialize (Hf m). lia.
Qed.

Lemma total_app f ms1 ms2 : total f (ms1 ++ ms2) = total f ms1 + total f ms2.
Proof.
  unfold total. induction ms1 as [|m ms1 IH]; cbn [app fold_right]; [reflexivity|].
  lia.
Qed.

Lemma referenced_app refs1 refs2 :
  referenced scene_meshes (refs1 ++ refs2)
  = referenced scene_meshes refs1 ++ referenced scene_meshes refs2.
Proof. apply omap_app. Qed.

Lemma mNumFaces_nonneg m : 0 <= mNumFaces m.
Proof. unfold mNumFaces. lia. Qed.

Lemma mNumVertices_nonneg m : 0 <= mNumVertices m.
Proof. unfold mNumVertices. lia. Qed.

Lemma add_faces_spec mat fs :
  forall g g',
    add_faces mat fs g = Some g' ->
    0 <= face_index g -> face_index g + Z.of_nat (length fs) < 2 ^ 32 ->
    face_index g' = face_index g + Z.of_nat (length fs) /\
    vertex_index g' = vertex_index g /\
    vertices g' = vertices g /\
    (forall k, k < face_index g -> faces g' !! k = faces g !! k) /\
    (forall k, is_Some (faces g' !! k) <->
               is_Some (faces g !! k) \/ face_index g <= k < face_index g') /\
    (forall k face, face_index g <= k -> faces g' !! k = Some face ->
       faces g !! k = Some face \/
       exists i0 i1 i2,
         In [i0; i1; i2] fs /\ mat_index face = mat /\
         v_i face = (wrap32 (vertex_index g + i0), wrap32 (vertex_index g + i1),
                     wrap32 (vertex_index g + i2))).
Proof.
  induction fs as [|ai_face rest IH]; intros g g' Hadd Hnn Hfit.
  - injection Hadd as <-. cbn [length]. rewrite Z.add_0_r.
    split; [lia|]. split; [reflexivity|]. split; [reflexivity|].
    split; [reflexivity|]. split.
    + intros k. split; [now left | intros [?|?]; [assumption | lia]].
    + intros k face _ Hface. now left.
  - cbn [add_faces] in Hadd.
    destruct ai_face as [|i0 [|i1 [|i2 [|? ?]]]]; try discriminate.
    cbn [length] in Hfit.
    apply IH in Hadd; cbn [face_index faces vertex_index vertices] in *.
    2: { unfold wrap32. apply Z.mod_pos_bound. lia. }
    2: { rewrite wrap32_small by lia. lia. }
    rewrite wrap32_small in Hadd by lia.
    destruct Hadd as (Hfi & Hvi & Hv & Hlow & Hdom & Hnew).
    cbn [length]. repeat split.
    + lia.
    + exact Hvi.
    + exact Hv.
    + intros k Hk. rewrite Hlow by lia. apply lookup_insert_ne. lia.
    + rewrite Hdom. intros [Hsome | Hrange]; [|right; lia].
      destruct (decide (k = face_index g)) as [->|Hne]; [right; lia|].
      rewrite lookup_insert_ne in Hsome by congruence. now left.
    + intros [Hsome | Hrange]; apply Hdom.
      * left. destruct (decide (k = face_index g)) as [->|Hne].
        -- rewrite lookup_insert_eq. eauto.
        -- now rewrite lookup_insert_ne by congruence.
      * destruct (decide (k = face_index g)) as [->|Hne].
        -- left. rewrite lookup_insert_eq. eauto.
        -- right. lia.
    + intros k face Hk Hface.
      destruct (decide (k = face_index g)) as [->|Hne].
      * rewrite Hlow in Hface by lia. rewrite lookup_insert_eq in Hface.
        injection Hface as <-. right. exists i0, i1, i2.
        split; [now left|]. split; reflexivity.
      * destruct (Hnew k face ltac:(lia) Hface) as [Hold | (j0 & j1 & j2 & Hin & Hrest)].
        -- left. now rewrite lookup_insert_ne in Hold by congruence.
        -- right. exists j0, j1, j2. split; [now right | exact Hrest].
Qed.


Lemma add_vertices_spec ai_trans ps :
  forall ns g g',
    add_vertices ai_trans (norm_trans_of ai_trans) ps ns g = Some g' ->
    0 <= vertex_index g -> vertex_index g + Z.of_nat (length ps) < 2 ^ 32 ->
    vertex_index g' = vertex_index g + Z.of_nat (length ps) /\
    face_index g' = face_index g /\
    faces g' = faces g /\
    (forall k, k < vertex_index g -> vertices g' !! k = vertices g !! k) /\
    (forall k, is_Some (vertices g' !! k) <->
               is_Some (vertices g !! k) \/ vertex_index g <= k < vertex_index g') /\
    (forall (i : nat) position,
       ps !! i = Some position ->
       exists normal,
         ns !! i = Some normal /\
         vertices g' !! (vertex_index g + Z.of_nat i)
         = Some (make_vertex ai_trans position normal)).
Proof.
  induction ps as [|p ps IH]; intros ns g g' Hadd Hnn Hfit.
  - injection Hadd as <-. cbn [length]. rewrite Z.add_0_r.
    split; [lia|]. split; [reflexivity|]. split; [reflexivity|].
    split; [reflexivity|]. split.
    + intros k. split; [now left | intros [?|?]; [assumption | lia]].
    + intros i position Hi. discriminate.
  - cbn [add_vertices] in Hadd. destruct ns as [|nrm ns]; [discriminate|].
    cbn [length] in Hfit.
    apply IH in Hadd; cbn [face_index faces vertex_index vertices] in *.
    2: { unfold wrap32. apply Z.mod_pos_bound. lia. }
    2: { rewrite wrap32_small by lia. lia. }
    rewrite wrap32_small in Hadd by lia.
    destruct Hadd as (Hvi & Hfi & Hf & Hlow & Hdom & Hnew).
    cbn [length]. split; [lia|]. split; [exact Hfi|]. split; [exact Hf|].
    split; [|split].
    + intros k Hk. rewrite Hlow by lia. apply lookup_insert_ne. lia.
    + intros k. rewrite Hdom. split.
      * intros [Hsome | Hrange]; [|right; lia].
        destruct (decide (k = vertex_index g)) as [->|Hne]; [right; lia|].
        rewrite lookup_insert_ne in Hsome by congruence. now left.
      * intros [Hsome | Hrange].
        -- left. destruct (decide (k = vertex_index g)) as [->|Hne].
           ++ rewrite lookup_insert_eq. eauto.
           ++ now rewrite lookup_insert_ne by congruence.
        -- destruct (decide (k = vertex_index g)) as [->|Hne].
           ++ left. rewrite lookup_insert_eq. eauto.
           ++ right. lia.
    + intros [|i] position Hi.
      * injection Hi as <-. exists nrm. split; [reflexivity|].
        rewrite Z.add_0_r, Hlow by lia. apply lookup_insert_eq.
      * destruct (Hnew i position Hi) as (normal & Hn & Hv).
        exists normal. split; [exact Hn|].
        replace (vertex_index g + Z.of_nat (S i))
          with (vertex_index g + 1 + Z.of_nat i) by lia.
        exact Hv.
Qed.

Lemma built_from_grows I I' V V' face :
  built_from I V face ->
  (forall x, In x I -> In x I') ->
  (forall k, is_Some (V !! k) -> V' !! k = V !! k) ->
  built_from I' V' face.
Proof.
  intros (t & m & mesh & i0 & i1 & i2 & b & Hin & Hm & Hf & Hmat & Hvi & Hvs) HI HV.
  exists t, m, mesh, i0, i1, i2, b. repeat (split; [auto; fail|]).
  intros i position Hi. destruct (Hvs i position Hi) as (normal & Hn & Hv).
  exists normal. split; [exact Hn|]. rewrite HV; [exact Hv|]. rewrite Hv. eauto.
Qed.

Lemma add_mesh_built I ai_trans m ai_mesh g g' :
  add_mesh ai_trans (norm_trans_of ai_trans) ai_mesh g = Some g' ->
  0 <= m -> scene_meshes !! Z.to_nat m = Some ai_mesh ->
  well_built I g ->
  face_index g + mNumFaces ai_mesh < 2 ^ 32 ->
  vertex_index g + mNumVertices ai_mesh < 2 ^ 32 ->
  well_built (I ++ [(ai_trans, m)]) g'.
Proof.
  unfold add_mesh. intros Hadd Hm Hmesh (Hfi & Hvi & Hfdom & Hvdom & Hbuilt) Hffit Hvfit.
  assert (Hfnn : 0 <= face_index g)
    by (rewrite Hfi; apply total_nonneg, mNumFaces_nonneg).
  assert (Hvnn : 0 <= vertex_index g)
    by (rewrite Hvi; apply total_nonneg, mNumVertices_nonneg).
  destruct (add_faces (mMaterialIndex ai_mesh) (mFaces ai_mesh) g) as [g1|] eqn:Hfaces;
    [|discriminate].
  destruct (add_faces_spec _ _ _ _ Hfaces Hfnn Hffit)
    as (Hfi1 & Hvi1 & Hv1 & Hflow & Hfdom1 & Hfnew).
  assert (Hvnn1 : 0 <= vertex_index g1) by now rewrite Hvi1.
  assert (Hvfit1 : vertex_index g1 + Z.of_nat (length (mVertices ai_mesh)) < 2 ^ 32)
    by now rewrite Hvi1.
  destruct (add_vertices_spec _ _ _ _ _ Hadd Hvnn1 Hvfit1)
    as (Hvi2 & Hfi2 & Hf2 & Hvlow & Hvdom2 & Hvnew).
  assert (Hrefs : referenced scene_meshes (map snd (I ++ [(ai_trans, m)]))
                  = referenced scene_meshes (map snd I) ++ [ai_mesh]).
  { rewrite map_app, referenced_app. f_equal. cbn. unfold referenced.
    cbn. now rewrite Hmesh. }
  unfold well_built. rewrite Hrefs, !total_app. unfold total at 2 4. cbn [fold_right].
  split; [rewrite Hfi2, Hfi1, Hfi; fold (mNumFaces ai_mesh); lia|].
  split; [rewrite Hvi2, Hvi1, Hvi; fold (mNumVertices ai_mesh); lia|].
  split; [|split].
  - intros k. rewrite Hf2, Hfdom1, Hfdom, Hfi2. lia.
  - intros k. rewrite Hvdom2, Hv1, Hvdom, Hvi1. lia.
  - intros k face. rewrite Hf2. intros Hface.
    assert (Hkeep : forall j, is_Some (vertices g !! j) ->
                              vertices g' !! j = vertices g !! j).
    { intros j Hj. apply Hvdom in Hj. rewrite Hvlow by lia. now rewrite Hv1. }
    destruct (Z_lt_le_dec k (face_index g)) as [Hlt | Hge].
    + rewrite Hflow in Hface by exact Hlt.
      apply (built_from_grows I _ (vertices g)); [now apply Hbuilt with k | | exact Hkeep].
      intros x Hx. apply in_or_app. now left.
    + destruct (Hfnew k face Hge Hface) as [Hold | (i0 & i1 & i2 & Hin & Hmat & Hcorners)].
      * apply (built_from_grows I _ (vertices g)); [now apply Hbuilt with k | | exact Hkeep].
        intros x Hx. apply in_or_app. now left.
      * exists ai_trans, m, ai_mesh, i0, i1, i2, (vertex_index g).
        split; [apply in_or_app; right; now left|].
        split; [exact Hmesh|]. split; [exact Hin|]. split; [exact Hmat|].
        split; [exact Hcorners|].
        intros i position Hi. rewrite <- Hvi1. now apply Hvnew.
Qed.


(** The counters do not wrap while the meshes [refs] are added. *)
Definition fits (refs : list Z) (g : geometry) : Prop :=
  face_index g + total mNumFaces (referenced scene_meshes refs) < 2 ^ 32 /\
  vertex_index g + total mNumVertices (referenced scene_meshes refs) < 2 ^ 32.

Lemma map_snd_pair (t : matrix4) (ms : list Z) : map snd (map (pair t) ms) = ms.
Proof. induction ms as [|m ms IH]; cbn [map snd]; [reflexivity | now rewrite IH]. Qed.

Lemma instances_refs node :
  forall t, map snd (instances node t) = mesh_refs node.
Proof.
  induction node as [nm tr ms children IH] using aiNode_ind. intros t.
  cbn [instances mesh_refs]. rewrite map_app, map_snd_pair. f_equal.
  induction children as [|c rest IHrest]; [reflexivity|].
  inversion IH as [|? ? Hc Hrest]; subst.
  cbn [flat_map]. rewrite map_app, Hc. f_equal. exact (IHrest Hrest).
Qed.

Lemma fits_app_l refs1 refs2 g : fits (refs1 ++ refs2) g -> fits refs1 g.
Proof.
  unfold fits. rewrite referenced_app, !total_app.
  pose proof (total_nonneg mNumFaces (referenced scene_meshes refs2) mNumFaces_nonneg).
  pose proof (total_nonneg mNumVertices (referenced scene_meshes refs2)
                mNumVertices_nonneg).
  lia.
Qed.

Lemma fits_app_r I refs1 refs2 g g1 L :
  fits (refs1 ++ refs2) g -> well_built I g -> well_built (I ++ L) g1 ->
  map snd L = refs1 -> fits refs2 g1.
Proof.
  unfold fits. intros [Hf Hv] (Hfi & Hvi & _) (Hfi1 & Hvi1 & _) <-.
  rewrite referenced_app, !total_app in Hf, Hv.
  rewrite map_app, referenced_app, !total_app in Hfi1, Hvi1. lia.
Qed.

Lemma add_meshes_built ai_trans ms :
  forall I g g',
    add_meshes scene_meshes ai_trans (norm_trans_of ai_trans) ms g = Some g' ->
    well_built I g -> fits ms g ->
    well_built (I ++ map (pair ai_trans) ms) g'.
Proof.
  induction ms as [|m ms IH]; intros I g g' Hadd Hwb Hfits.
  - injection Hadd as <-. cbn [map]. now rewrite app_nil_r.
  - cbn [add_meshes] in Hadd.
    destruct (m <? 0) eqn:Hneg; [discriminate|]. apply Z.ltb_ge in Hneg.
    destruct (scene_meshes !! Z.to_nat m) as [ai_mesh|] eqn:Hmesh; [|discriminate].
    destruct (add_mesh ai_trans (norm_trans_of ai_trans) ai_mesh g) as [g1|] eqn:Hone;
      [|discriminate].
    assert (Hfit1 : fits [m] g) by exact (fits_app_l [m] ms g Hfits).
    assert (Hwb1 : well_built (I ++ [(ai_trans, m)]) g1).
    { apply (add_mesh_built I ai_trans m ai_mesh g g1 Hone Hneg Hmesh Hwb).
      - destruct Hfit1 as [Hf _]. unfold referenced in Hf. cbn in Hf.
        rewrite Hmesh in Hf. cbn in Hf. lia.
      - destruct Hfit1 as [_ Hv]. unfold referenced in Hv. cbn in Hv.
        rewrite Hmesh in Hv. cbn in Hv. lia. }
    cbn [map]. replace (I ++ (ai_trans, m) :: map (pair ai_trans) ms)
      with ((I ++ [(ai_trans, m)]) ++ map (pair ai_trans) ms)
      by now rewrite <- app_assoc.
    apply (IH _ g1 g' Hadd Hwb1).
    exact (fits_app_r I [m] ms g g1 [(ai_trans, m)] Hfits Hwb Hwb1 eq_refl).
Qed.

Lemma add_node_built node :
  forall ai_parent_transform I g g',
    gp_assimp_add_node_mesh scene_meshes node ai_parent_transform g = Some g' ->
    well_built I g -> fits (mesh_refs node) g ->
    well_built (I ++ instances node ai_parent_transform) g'.
Proof.
  induction node as [nm tr ms children IH] using aiNode_ind.
  intros t0 I g g' Hadd Hwb Hfits.
  cbn [gp_assimp_add_node_mesh instances] in *. cbv zeta in *.
  set (t := aiMultiplyMatrix4 t0 tr) in *.
  destruct (add_meshes scene_meshes t (norm_trans_of t) ms g) as [g1|] eqn:Hown; [|discriminate].
  cbn [mesh_refs] in Hfits.
  pose proof (add_meshes_built t ms I g g1 Hown Hwb (fits_app_l _ _ _ Hfits)) as Hwb1.
  pose proof (fits_app_r I ms _ g g1 (map (pair t) ms) Hfits Hwb Hwb1
                (map_snd_pair t ms)) as Hfits1.
  rewrite app_assoc.
  revert Hadd Hwb1 Hfits1. generalize (I ++ map (pair t) ms) as J. clear Hwb Hfits Hown.
  revert g1. induction children as [|c rest IHrest]; intros g1 J Hadd Hwb1 Hfits1.
  - injection Hadd as <-. cbn [flat_map]. now rewrite app_nil_r.
  - inversion IH as [|? ? Hc Hrest]; subst.
    destruct (gp_assimp_add_node_mesh scene_meshes c t g1) as [g2|] eqn:Hchild; [|discriminate].
    cbn [flat_map] in *.
    pose proof (Hc t J g1 g2 Hchild Hwb1 (fits_app_l _ _ _ Hfits1)) as Hwb2.
    pose proof (fits_app_r J _ _ g1 g2 (instances c t) Hfits1 Hwb1 Hwb2
                  (instances_refs c t)) as Hfits2.
    rewrite app_assoc. exact (IHrest Hrest g2 _ Hadd Hwb2 Hfits2).
Qed.

Lemma well_built_empty : well_built [] empty_geometry.
Proof.
  unfold well_built, empty_geometry. cbn [face_index vertex_index faces vertices map].
  split; [reflexivity|]. split; [reflexivity|]. split; [|split].
  - intros k. rewrite lookup_empty. split; [intros [? [=]] | lia].
  - intros k. rewrite lookup_empty. split; [intros [? [=]] | lia].
  - intros k face. rewrite lookup_empty. discriminate.
Qed.


Lemma total_Permutation f ms1 ms2 : Permutation ms1 ms2 -> total f ms1 = total f ms2.
Proof.
  unfold total. induction 1 as [|m ms1 ms2 _ IH|m1 m2 ms|ms1 ms2 ms3 _ IH1 _ IH2];
    cbn [fold_right]; lia.
Qed.

Lemma referenced_cons ms m refs :
  referenced ms (m :: refs) =
  match ms !! Z.to_nat m with
  | Some ai_mesh => ai_mesh :: referenced ms refs
  | None => referenced ms refs
  end.
Proof. reflexivity. Qed.

Lemma referenced_from pre :
  forall pre0,
    referenced (pre0 ++ pre) (map Z.of_nat (seq (length pre0) (length pre))) = pre.
Proof.
  induction pre as [|x pre IH]; intros pre0; [reflexivity|].
  cbn [length seq map]. rewrite referenced_cons.
  rewrite Nat2Z.id, list_lookup_middle by reflexivity.
  f_equal. specialize (IH (pre0 ++ [x])).
  rewrite <- app_assoc, length_app in IH. cbn [app length] in IH.
  rewrite Nat.add_1_r in IH. exact IH.
Qed.

Lemma referenced_all :
  referenced scene_meshes (map Z.of_nat (seq 0 (length scene_meshes))) = scene_meshes.
Proof. exact (referenced_from scene_meshes []). Qed.

Lemma count_geometry_from ms :
  forall vertex_count face_count,
    0 <= vertex_count -> 0 <= face_count ->
    vertex_count + total mNumVertices ms < 2 ^ 32 ->
    face_count + total mNumFaces ms < 2 ^ 32 ->
    fold_left
      (fun '(vertex_count, face_count) ai_mesh =>
         (wrap32 (vertex_count + mNumVertices ai_mesh),
          wrap32 (face_count + mNumFaces ai_mesh)))
      ms (vertex_count, face_count)
    = (vertex_count + total mNumVertices ms, face_count + total mNumFaces ms).
Proof.
  induction ms as [|m ms IH]; intros vc fc Hv Hf Hvfit Hffit.
  - cbn. now rewrite !Z.add_0_r.
  - unfold total in *. cbn [fold_left fold_right] in *.
    pose proof (mNumVertices_nonneg m). pose proof (mNumFaces_nonneg m).
    pose proof (total_nonneg mNumVertices ms mNumVertices_nonneg) as Hvs.
    pose proof (total_nonneg mNumFaces ms mNumFaces_nonneg) as Hfs.
    unfold total in Hvs, Hfs.
    rewrite !wrap32_small by lia. rewrite IH by lia. f_equal; lia.
Qed.

(** X21. Every face the walk over the scene graph writes is a face of some
    mesh of some node, with that mesh's material, and its corner indices are
    the mesh's moved to where the vertices of this instance of the mesh were
    written, transformed by the transformations accumulated from the root to
    the node; faces and vertices fill their arrays from index 0 without a
    gap. The counters are [uint32_t] and must not wrap. *)
Theorem walk_writes_transformed_meshes root ai_root_trans g :
  gp_assimp_add_node_mesh scene_meshes root ai_root_trans empty_geometry = Some g ->
  total mNumFaces (referenced scene_meshes (mesh_refs root)) < 2 ^ 32 ->
  total mNumVertices (referenced scene_meshes (mesh_refs root)) < 2 ^ 32 ->
  (forall k, is_Some (faces g !! k) <-> 0 <= k < face_index g) /\
  (forall k, is_Some (vertices g !! k) <-> 0 <= k < vertex_index g) /\
  forall k face,
    faces g !! k = Some face ->
    built_from (instances root ai_root_trans) (vertices g) face.
Proof.
  intros Hwalk Hf Hv.
  destruct (add_node_built root ai_root_trans [] empty_geometry g Hwalk well_built_empty)
    as (_ & _ & Hfdom & Hvdom & Hbuilt).
  - split; cbn [empty_geometry face_index vertex_index]; lia.
  - split; [exact Hfdom|]. split; [exact Hvdom | exact Hbuilt].
Qed.

(** X22. The walk writes one copy of a mesh for every node that refers to
    it: the counters end at the face and vertex totals over the references.
    When every mesh of the scene is referred to by exactly one node, these
    are the element counts [gp_load_scene] allocated, so the arrays are
    filled exactly. *)
Theorem walk_fills_the_allocation root ai_root_trans counts g :
  load_geometry scene_meshes root ai_root_trans = (counts, Some g) ->
  total mNumFaces (referenced scene_meshes (mesh_refs root)) < 2 ^ 32 ->
  total mNumVertices (referenced scene_meshes (mesh_refs root)) < 2 ^ 32 ->
  face_index g = total mNumFaces (referenced scene_meshes (mesh_refs root)) /\
  vertex_index g = total mNumVertices (referenced scene_meshes (mesh_refs root)) /\
  (Permutation (mesh_refs root) (map Z.of_nat (seq 0 (length scene_meshes))) ->
   counts = (vertex_index g, face_index g)).
Proof.
  unfold load_geometry. intros [= <- Hwalk] Hf Hv.
  destruct (add_node_built root ai_root_trans [] empty_geometry g Hwalk well_built_empty)
    as (Hfi & Hvi & _).
  { split; cbn [empty_geometry face_index vertex_index]; lia. }
  cbn [app] in Hfi, Hvi. rewrite instances_refs in Hfi, Hvi.
  split; [exact Hfi|]. split; [exact Hvi|].
  intros Hperm.
  assert (Hall : Permutation (referenced scene_meshes (mesh_refs root)) scene_meshes).
  { rewrite <- referenced_all at 2. unfold referenced.
    now apply omap_Permutation. }
  rewrite (total_Permutation mNumFaces _ _ Hall) in Hf, Hfi.
  rewrite (total_Permutation mNumVertices _ _ Hall) in Hv, Hvi.
  unfold count_geometry. rewrite count_geometry_from by lia.
  now rewrite Hfi, Hvi.
Qed.

End Geometry.

End Assimp.

(** *** A small scene graph *)

(** Integers stand in for floats and matrices: a matrix is a shift along all
    three axes, and composing two adds them. *)
Definition shift_vec (v : Z * Z * Z) (m : Z) : Z * Z * Z :=
  let '(x, y, z) := v in (x + m, y + m, z + m).

Definition sample_walk :=
  gp_assimp_add_node_mesh (name:=Z) 0 Z.add id Z.opp id shift_vec shift_vec id.

Definition sample_meshes : list (aiMesh (float:=Z)) :=
  [ {| mFaces := [[0; 1; 2]];
       mVertices := [(0, 0, 0); (1, 0, 0); (0, 1, 0)];
       mNormals := [(0, 0, 1); (0, 0, 1); (0, 0, 1)];
       mMaterialIndex := 0 |};
    {| mFaces := [[0; 1; 2]; [2; 1; 3]];
       mVertices := [(0, 0, 0); (1, 0, 0); (0, 1, 0); (1, 1, 0)];
       mNormals := [(0, 0, 1); (0, 0, 1); (0, 0, 1); (0, 0, 1)];
       mMaterialIndex := 1 |} ].

Definition sample_root : aiNode (name:=Z) (matrix4:=Z) :=
  AiNode 0 0 [0] [AiNode 1 5 [1] []].

Definition sample_geometry : geometry (float:=Z) :=
  default empty_geometry (sample_walk sample_meshes sample_root 0 empty_geometry).

Definition sample_face : gp_face := {| v_i := (5, 4, 6); mat_index := 1 |}.

Lemma sample_walk_result :
  sample_walk sample_meshes sample_root 0 empty_geometry = Some sample_geometry.
Proof. vm_compute. reflexivity. Qed.

Lemma walk_writes_transformed_meshes_witness :
  faces sample_geometry !! 2 = Some sample_face /\
  built_from 0 id Z.opp id shift_vec shift_vec id sample_meshes
    (instances Z.add sample_root 0) (vertices sample_geometry) sample_face.
Proof.
  assert (Hface : faces sample_geometry !! 2 = Some sample_face)
    by (vm_compute; reflexivity).
  split; [exact Hface|].
  refine (proj2 (proj2 (walk_writes_transformed_meshes 0 Z.add id Z.opp id shift_vec
                          shift_vec id sample_meshes sample_root 0 sample_geometry
                          sample_walk_result _ _)) 2 sample_face Hface);
    vm_compute; reflexivity.
Defined.

Lemma walk_fills_the_allocation_witness :
  face_index sample_geometry = 3 /\ vertex_index sample_geometry = 7 /\
  count_geometry sample_meshes = (vertex_index sample_geometry, face_index sample_geometry).
Proof.
  assert (Hload : load_geometry 0 Z.add id Z.opp id shift_vec shift_vec id
                    sample_meshes sample_root 0
                  = (count_geometry sample_meshes, Some sample_geometry))
    by (vm_compute; reflexivity).
  destruct (walk_fills_the_allocation 0 Z.add id Z.opp id shift_vec shift_vec id
              sample_meshes sample_root 0 _ sample_geometry Hload)
    as (Hf & Hv & Hperm); [vm_compute; reflexivity | vm_compute; reflexivity |].
  split; [rewrite Hf; vm_compute; reflexivity|].
  split; [rewrite Hv; vm_compute; reflexivity|].
  apply Hperm. apply Permutation_refl.
Defined.

End SceneLoader.

(** ** The command line of the scene preprocessor ([gp_parse_args]) *)

Module ProgramOptions.

(** [strpbrk]: the rest of [s] from its first character that occurs in
    [accept]. *)
Fixpoint occurs (c : Ascii.ascii) (accept : string) : bool :=
  match accept with
  | EmptyString => false
  | String a accept' => Ascii.eqb c a || occurs c accept'
  end.

Fixpoint strpbrk (s accept : string) : option string :=
  match s with
  | EmptyString => None
  | String c s' => if occurs c accept then Some s else strpbrk s' accept
  end.

(** [strstr]: where [needle] first occurs in [haystack], as an offset. *)
Definition strstr (haystack needle : string) : option nat :=
  String.index 0 needle haystack.

Section Parser.

(** [strtol] (base 10) and [strtof] yield the value and how far [endptr]
    got; the three float defaults are [1.0f], [10.0f] and [100.0f]. *)
Context {float : Type}.
Variable strtol : string -> Z * nat.
Variable strtof : string -> float * nat.
Variable DEFAULT_SR_FRONT : float.
Variable DEFAULT_SR_BACK : float.
Variable DEFAULT_SR_OUTSIDE_FRUSTUM : float.

Definition DEFAULT_IMAGE_WIDTH : Z := 1200.
Definition DEFAULT_IMAGE_HEIGHT : Z := 1200.

Record program_options := {
  input_path : string;
  output_path : string;
  image_width : Z;
  image_height : Z;
  sr_front : float;
  sr_back : float;
  sr_outside_frustum : float;
}.

Definition set_image_width (o : program_options) (v : Z) : program_options :=
  {| input_path := input_path o; output_path := output_path o;
     image_width := v; image_height := image_height o;
     sr_front := sr_front o; sr_back := sr_back o;
     sr_outside_frustum := sr_outside_frustum o |}.

Definition set_image_height (o : program_options) (v : Z) : program_options :=
  {| input_path := input_path o; output_path := output_path o;
     image_width := image_width o; image_height := v;
     sr_front := sr_front o; sr_back := sr_back o;
     sr_outside_frustum := sr_outside_frustum o |}.

Definition set_sr_front (o : program_options) (v : float) : program_options :=
  {| input_path := input_path o; output_path := output_path o;
     image_width := image_width o; image_height := image_height o;
     sr_front := v; sr_back := sr_back o;
     sr_outside_frustum := sr_outside_frustum o |}.

Definition set_sr_back (o : program_options) (v : float) : program_options :=
  {| input_path := input_path o; output_path := output_path o;
     image_width := image_width o; image_height := image_height o;
     sr_front := sr_front o; sr_back := v;
     sr_outside_frustum := sr_outside_frustum o |}.

Definition set_sr_outside_frustum (o : program_options) (v : float)
    : program_options :=
  {| input_path := input_path o; output_path := output_path o;
     image_width := image_width o; image_height := image_height o;
     sr_front := sr_front o; sr_back := sr_back o;
     sr_outside_frustum := v |}.

(** [strstr(arg, option) == arg]. *)
Definition begins_with (arg option : string) : bool :=
  bool_decide (strstr arg option = Some 0%nat).

(** [fail = (endptr == value)], then the exit. *)
Definition unless_nothing_read (consumed : nat) (options : program_options)
    : option program_options :=
  if (consumed =? 0)%nat then None else Some options.

(** The body of the loop over [argv\[3\]] and up; [None] is
    [gp_print_usage_and_exit]. *)
Definition parse_arg (arg : string) (options : program_options)
    : option program_options :=
  match strpbrk arg "=" with
  | None => None
  | Some at_equals =>
      let value := match at_equals with String _ v => v | EmptyString => EmptyString end in
      if begins_with arg "--image-width=" then
        let '(v, consumed) := strtol value in
        unless_nothing_read consumed (set_image_width options (wrap32 v))
      else if begins_with arg "--image-height=" then
        let '(v, consumed) := strtol value in
        unless_nothing_read consumed (set_image_height options (wrap32 v))
      else if begins_with arg "--sr-front=" then
        let '(v, consumed) := strtof value in
        unless_nothing_read consumed (set_sr_front options v)
      else if begins_with arg "--sr-back=" then
        let '(v, consumed) := strtof value in
        unless_nothing_read consumed (set_sr_back options v)
      else if begins_with arg "--sr-outside-frustum=" then
        let '(v, consumed) := strtof value in
        unless_nothing_read consumed (set_sr_outside_frustum options v)
      else None
  end.

Fixpoint parse_rest (args : list string) (options : program_options)
    : option program_options :=
  match args with
  | [] => Some options
  | arg :: rest =>
      match parse_arg arg options with
      | None => None
      | Some options => parse_rest rest options
      end
  end.

(** [gp_parse_args], [argc] being the length of [argv]. *)
Definition gp_parse_args (argv : list string) : option program_options :=
  match argv with
  | _ :: argv1 :: argv2 :: rest =>
      parse_rest rest
        {| input_path := argv1; output_path := argv2;
           image_width := DEFAULT_IMAGE_WIDTH; image_height := DEFAULT_IMAGE_HEIGHT;
           sr_front := DEFAULT_SR_FRONT; sr_back := DEFAULT_SR_BACK;
           sr_outside_frustum := DEFAULT_SR_OUTSIDE_FRUSTUM |}
  | _ => None
  end.


(** *** What is accepted, and what the options end up as *)

Inductive option_kind :=
  | ImageWidth
  | ImageHeight
  | SrFront
  | SrBack
  | SrOutsideFrustum.

Definition option_name (k : option_kind) : string :=
  match k with
  | ImageWidth => "--image-width="
  | ImageHeight => "--image-height="
  | SrFront => "--sr-front="
  | SrBack => "--sr-back="
  | SrOutsideFrustum => "--sr-outside-frustum="
  end.

(** How many characters of its value an option's conversion reads. *)
Definition consumed (k : option_kind) (value : string) : nat :=
  match k with
  | ImageWidth | ImageHeight => snd (strtol value)
  | SrFront | SrBack | SrOutsideFrustum => snd (strtof value)
  end.

(** The argument [arg] without the leading [p], if it begins with [p]. *)
Fixpoint strip_prefix (p arg : string) : option string :=
  match p with
  | EmptyString => Some arg
  | String a p' =>
      match arg with
      | EmptyString => None
      | String b arg' => if Ascii.eqb a b then strip_prefix p' arg' else None
      end
  end.

(** The values given for option [k], in the order of the arguments. *)
Definition values (k : option_kind) (args : list string) : list string :=
  omap (strip_prefix (option_name k)) args.

Definition well_formed (arg : string) : Prop :=
  exists k value, arg = option_name k +:+ value /\ consumed k value <> 0%nat.

Lemma strip_prefix_app p :
  forall arg value, strip_prefix p arg = Some value <-> arg = p +:+ value.
Proof.
  induction p as [|a p IH]; intros arg value; cbn [strip_prefix String.append].
  - split; [now intros [= ->] | now intros ->].
  - destruct arg as [|b arg]; [split; discriminate|].
    destruct (Ascii.eqb_spec a b) as [<- | Hne].
    + rewrite IH. split; [now intros -> | now intros [= ->]].
    + split; [discriminate | intros [= Hab _]; congruence].
Qed.

Lemma prefix_strip p :
  forall arg, String.prefix p arg = true <-> is_Some (strip_prefix p arg).
Proof.
  induction p as [|a p IH]; intros arg.
  - destruct arg; cbn; split; eauto.
  - destruct arg as [|b arg]; cbn [String.prefix strip_prefix].
    + split; [discriminate | intros [? [=]]].
    + destruct (Ascii.ascii_dec a b) as [<- | Hne].
      * rewrite Ascii.eqb_refl. apply IH.
      * destruct (Ascii.eqb_spec a b); [contradiction|].
        split; [discriminate | intros [? [=]]].
Qed.

Lemma begins_with_prefix arg p : begins_with arg p = String.prefix p arg.
Proof.
  unfold begins_with, strstr.
  destruct (String.prefix p arg) eqn:Hp.
  - apply bool_decide_eq_true_2.
    destruct arg as [|b arg]; cbn [String.index].
    + destruct p; [reflexivity | discriminate].
    + now rewrite Hp.
  - apply bool_decide_eq_false_2. intros Hindex.
    apply String.index_correct1 in Hindex.
    apply String.prefix_correct in Hindex. congruence.
Qed.

Lemma begins_with_option arg k :
  begins_with arg (option_name k) = true <->
  exists value, arg = option_name k +:+ value.
Proof.
  rewrite begins_with_prefix, prefix_strip. split.
  - intros [value Hv]. exists value. now apply strip_prefix_app.
  - intros [value Hv]. exists value. now apply strip_prefix_app.
Qed.

Lemma begins_with_other k k' value :
  k <> k' -> begins_with (option_name k +:+ value) (option_name k') = false.
Proof.
  intros Hne. rewrite begins_with_prefix.
  destruct k, k'; try contradiction; reflexivity.
Qed.

Lemma begins_with_same k value :
  begins_with (option_name k +:+ value) (option_name k) = true.
Proof. apply begins_with_option. now exists value. Qed.

Lemma strpbrk_option k value :
  strpbrk (option_name k +:+ value) "=" = Some ("=" +:+ value).
Proof. destruct k; reflexivity. Qed.


(** What an accepted option does to the options. *)
Definition apply_option (k : option_kind) (value : string) (o : program_options)
    : program_options :=
  match k with
  | ImageWidth => set_image_width o (wrap32 (fst (strtol value)))
  | ImageHeight => set_image_height o (wrap32 (fst (strtol value)))
  | SrFront => set_sr_front o (fst (strtof value))
  | SrBack => set_sr_back o (fst (strtof value))
  | SrOutsideFrustum => set_sr_outside_frustum o (fst (strtof value))
  end.

Lemma parse_arg_option k value o :
  parse_arg (option_name k +:+ value) o
  = unless_nothing_read (consumed k value) (apply_option k value o).
Proof.
  unfold parse_arg. rewrite strpbrk_option.
  change (match "=" +:+ value with EmptyString => EmptyString | String _ v => v end)
    with value.
  change "--image-width="%string with (option_name ImageWidth).
  change "--image-height="%string with (option_name ImageHeight).
  change "--sr-front="%string with (option_name SrFront).
  change "--sr-back="%string with (option_name SrBack).
  change "--sr-outside-frustum="%string with (option_name SrOutsideFrustum).
  destruct k; unfold consumed, apply_option;
    repeat (first [ rewrite begins_with_same
                  | rewrite begins_with_other by discriminate ]);
    destruct (strtol value), (strtof value); reflexivity.
Qed.

Lemma parse_arg_begins arg o o' :
  parse_arg arg o = Some o' -> exists k, begins_with arg (option_name k) = true.
Proof.
  unfold parse_arg. destruct (strpbrk arg "="); [|discriminate].
  destruct (begins_with arg "--image-width=") eqn:H1; [now exists ImageWidth|].
  destruct (begins_with arg "--image-height=") eqn:H2; [now exists ImageHeight|].
  destruct (begins_with arg "--sr-front=") eqn:H3; [now exists SrFront|].
  destruct (begins_with arg "--sr-back=") eqn:H4; [now exists SrBack|].
  destruct (begins_with arg "--sr-outside-frustum=") eqn:H5;
    [now exists SrOutsideFrustum | discriminate].
Qed.

Lemma parse_arg_Some arg o o' :
  parse_arg arg o = Some o' <->
  exists k value,
    arg = option_name k +:+ value /\ consumed k value <> 0%nat /\
    o' = apply_option k value o.
Proof.
  split.
  - intros Hparse. destruct (parse_arg_begins _ _ _ Hparse) as [k Hk].
    apply begins_with_option in Hk as [value ->].
    rewrite parse_arg_option in Hparse. unfold unless_nothing_read in Hparse.
    destruct (consumed k value =? 0)%nat eqn:Hc; [discriminate|].
    injection Hparse as <-. apply Nat.eqb_neq in Hc. eauto.
  - intros (k & value & -> & Hc & ->). rewrite parse_arg_option.
    unfold unless_nothing_read. apply Nat.eqb_neq in Hc. now rewrite Hc.
Qed.

Lemma parse_rest_accepts args :
  forall o, is_Some (parse_rest args o) <-> Forall well_formed args.
Proof.
  induction args as [|arg args IH]; intros o; cbn [parse_rest].
  - split; [constructor | eauto].
  - split.
    + destruct (parse_arg arg o) as [o1|] eqn:Hone; [|intros [? [=]]].
      intros Hrest. apply parse_arg_Some in Hone as (k & value & -> & Hc & _).
      constructor; [now exists k, value | now apply (IH o1)].
    + intros Hall. inversion Hall as [|? ? (k & value & -> & Hc) Hrest]; subst.
      rewrite (proj2 (parse_arg_Some _ o (apply_option k value o)))
        by (exists k, value; auto).
      now apply IH.
Qed.

(** X26. [gp_parse_args] returns, instead of printing the usage and exiting,
    exactly when there are at least the two paths and every further argument
    is one of the five options followed by a value of which [strtol] or
    [strtof] reads at least one character. Anything else, an option name
    that is not at the very start or has no [=] among them, ends the
    program. *)
Theorem parse_args_accepts argv :
  is_Some (gp_parse_args argv) <->
  (3 <= length argv)%nat /\ Forall well_formed (drop 3 argv).
Proof.
  unfold gp_parse_args.
  destruct argv as [|argv0 [|argv1 [|argv2 rest]]]; cbn [length drop].
  - split; [intros [? [=]] | lia].
  - split; [intros [? [=]] | lia].
  - split; [intros [? [=]] | lia].
  - rewrite parse_rest_accepts. split; [split; [lia | assumption] | tauto].
Qed.

(** The value an option would take: from its last occurrence, else what it
    was. *)
Definition last_value {A} (read : string -> A) (k : option_kind)
    (args : list string) (before : A) : A :=
  from_option read before (last (values k args)).

Lemma values_cons_same k value args :
  values k ((option_name k +:+ value) :: args) = value :: values k args.
Proof.
  unfold values. cbn [omap list_omap].
  now rewrite (proj2 (strip_prefix_app (option_name k) _ value) eq_refl).
Qed.

Lemma values_cons_other k k' value args :
  k <> k' -> values k' ((option_name k +:+ value) :: args) = values k' args.
Proof.
  intros Hne. unfold values. cbn [omap list_omap].
  destruct (strip_prefix (option_name k') (option_name k +:+ value)) as [v|] eqn:Hs;
    [|reflexivity].
  exfalso. pose proof (begins_with_other k k' value Hne) as Hb.
  rewrite begins_with_prefix in Hb.
  assert (Hp : String.prefix (option_name k') (option_name k +:+ value) = true)
    by (apply prefix_strip; eauto).
  congruence.
Qed.

Lemma last_value_cons_same {A} (read : string -> A) k value args before :
  last_value read k ((option_name k +:+ value) :: args) before
  = last_value read k args (read value).
Proof.
  unfold last_value. rewrite values_cons_same.
  destruct (values k args) as [|v vs] eqn:Hv; [reflexivity|].
  rewrite last_cons_cons.
  destruct (last (v :: vs)) eqn:Hlast; [reflexivity|].
  now apply last_None in Hlast.
Qed.

Lemma last_value_cons_other {A} (read : string -> A) k k' value args before :
  k <> k' ->
  last_value read k' ((option_name k +:+ value) :: args) before
  = last_value read k' args before.
Proof. intros Hne. unfold last_value. now rewrite values_cons_other. Qed.

Lemma parse_rest_values args :
  forall o o',
    parse_rest args o = Some o' ->
    input_path o' = input_path o /\ output_path o' = output_path o /\
    image_width o' =
      last_value (fun v => wrap32 (fst (strtol v))) ImageWidth args (image_width o) /\
    image_height o' =
      last_value (fun v => wrap32 (fst (strtol v))) ImageHeight args (image_height o) /\
    sr_front o' = last_value (fun v => fst (strtof v)) SrFront args (sr_front o) /\
    sr_back o' = last_value (fun v => fst (strtof v)) SrBack args (sr_back o) /\
    sr_outside_frustum o' =
      last_value (fun v => fst (strtof v)) SrOutsideFrustum args (sr_outside_frustum o).
Proof.
  induction args as [|arg args IH]; intros o o' Hparse; cbn [parse_rest] in Hparse.
  - injection Hparse as <-. unfold last_value. cbn. auto 10.
  - destruct (parse_arg arg o) as [o1|] eqn:Hone; [|discriminate].
    apply parse_arg_Some in Hone as (k & value & -> & _ & ->).
    destruct (IH _ _ Hparse) as (Hi & Ho & Hw & Hh & Hf & Hb & Hu).
    rewrite Hi, Ho, Hw, Hh, Hf, Hb, Hu.
    destruct k; cbn [apply_option];
      repeat (first [ rewrite last_value_cons_same
                    | rewrite last_value_cons_other by discriminate ]);
      auto 10.
Qed.

(** X27. When [gp_parse_args] returns, the two paths are [argv\[1\]] and
    [argv\[2\]], and each of the five options has the value converted from
    its last occurrence among the further arguments, or its default when it
    does not occur; the image sizes are the [long] of [strtol] cut to
    [uint32_t]. *)
Theorem parsed_options_are_last_given argv options :
  gp_parse_args argv = Some options ->
  argv !! 1%nat = Some (input_path options) /\
  argv !! 2%nat = Some (output_path options) /\
  image_width options =
    last_value (fun v => wrap32 (fst (strtol v))) ImageWidth (drop 3 argv)
      DEFAULT_IMAGE_WIDTH /\
  image_height options =
    last_value (fun v => wrap32 (fst (strtol v))) ImageHeight (drop 3 argv)
      DEFAULT_IMAGE_HEIGHT /\
  sr_front options =
    last_value (fun v => fst (strtof v)) SrFront (drop 3 argv) DEFAULT_SR_FRONT /\
  sr_back options =
    last_value (fun v => fst (strtof v)) SrBack (drop 3 argv) DEFAULT_SR_BACK /\
  sr_outside_frustum options =
    last_value (fun v => fst (strtof v)) SrOutsideFrustum (drop 3 argv)
      DEFAULT_SR_OUTSIDE_FRUSTUM.
Proof.
  unfold gp_parse_args.
  destruct argv as [|argv0 [|argv1 [|argv2 rest]]]; try discriminate.
  intros Hparse. apply parse_rest_values in Hparse.
  cbn [input_path output_path image_width image_height sr_front sr_back
       sr_outside_frustum] in Hparse.
  destruct Hparse as (-> & -> & Hrest). cbn [drop]. auto.
Qed.

End Parser.

(** *** A command line *)

(** Leading decimal digits, standing in for [strtol] and [strtof]. *)
Fixpoint read_digits (s : string) (acc : Z) : Z * nat :=
  match s with
  | EmptyString => (acc, 0%nat)
  | String c s' =>
      let d := Z.of_nat (Ascii.nat_of_ascii c) - 48 in
      if (0 <=? d) && (d <=? 9) then
        let '(v, n) := read_digits s' (10 * acc + d) in (v, S n)
      else (acc, 0%nat)
  end.

Definition sample_argv : list string :=
  [ "gp"; "cornell.glb"; "scene.gsd";
    "--image-width=640"; "--sr-back=7"; "--image-width=800" ]%string.

Lemma parsed_options_are_last_given_witness :
  exists options,
    gp_parse_args (fun s => read_digits s 0) (fun s => read_digits s 0) 1 10 100
      sample_argv = Some options /\
    image_width options = 800 /\ image_height options = 1200 /\
    sr_back options = 7 /\ sr_front options = 1.
Proof.
  destruct (gp_parse_args (fun s => read_digits s 0) (fun s => read_digits s 0)
              1 10 100 sample_argv) as [options|] eqn:Hparse;
    [|vm_compute in Hparse; discriminate].
  exists options. split; [reflexivity|].
  destruct (parsed_options_are_last_given _ _ _ _ _ _ _ Hparse)
    as (_ & _ & Hw & Hh & Hf & Hb & _).
  rewrite Hw, Hh, Hf, Hb. vm_compute. auto.
Defined.

End ProgramOptions.

(** ** The render pass ([HdGatlingRenderPass::_Execute]) *)

Module RenderPass.

(** The members [_Execute] keeps from one frame to the next. *)
Record pass_state := {
  m_lastSceneStateVersion : Z;
  m_lastSprimIndexVersion : Z;
  m_lastRenderSettingsVersion : Z;
  m_lastVisChangeCount : Z;
  m_lastAovId : Z
}.

(** What one call of [_Execute] observes: the four guards that return early,
    then the counters read from the change tracker and the render delegate,
    and the id of the bound AOV. *)
Record frame := {
  has_camera : bool;
  has_aov_bindings : bool;
  aov_supported : bool;
  format_is_float32vec4 : bool;
  sceneStateVersion : Z;
  sprimIndexVersion : Z;
  visibilityChangeCount : Z;
  renderSettingsStateVersion : Z;
  aovId : Z
}.

(** The outcome of the change detection: whether [giInvalidateFramebuffer]
    was called, the two change flags used for the cache rebuilds further
    down, and the updated members. *)
Record detection := {
  invalidated : bool;
  renderSettingsChanged : bool;
  visibilityChanged : bool;
  aovChanged : bool;
  state_after : pass_state
}.

Definition neqb (a b : Z) : bool := negb (a =? b).

(** [_Execute] up to and including the update of the [m_last*] members.
    [None] is one of the early returns, taken before any counter is read. *)
Definition execute_detect (st : pass_state) (f : frame) : option detection :=
  if negb (has_camera f) then None
  else if negb (has_aov_bindings f) then None
  else if negb (aov_supported f) then None
  else if negb (format_is_float32vec4 f) then None
  else
    let sceneChanged := neqb (sceneStateVersion f) (m_lastSceneStateVersion st) in
    let renderSettingsChanged :=
      neqb (renderSettingsStateVersion f) (m_lastRenderSettingsVersion st) in
    let visibilityChanged := neqb (m_lastVisChangeCount st) (visibilityChangeCount f) in
    let aovChanged := neqb (aovId f) (m_lastAovId st) in
    Some {|
      invalidated := sceneChanged || renderSettingsChanged || visibilityChanged || aovChanged;
      renderSettingsChanged := renderSettingsChanged;
      visibilityChanged := visibilityChanged;
      aovChanged := aovChanged;
      state_after := {|
        m_lastSceneStateVersion := sceneStateVersion f;
        m_lastSprimIndexVersion := sprimIndexVersion f;
        m_lastRenderSettingsVersion := renderSettingsStateVersion f;
        m_lastVisChangeCount := visibilityChangeCount f;
        m_lastAovId := aovId f |}
    |}.

(** Frames rendered one after the other, each starting from the members the
    previous one left. *)
Fixpoint execute_frames (st : pass_state) (fs : list frame) : list (option detection) :=
  match fs with
  | [] => []
  | f :: fs' =>
      let r := execute_detect st f in
      r :: execute_frames (match r with Some d => state_after d | None => st end) fs'
  end.

Definition regular_frame (scene sprim vis settings aov : Z) : frame :=
  {| has_camera := true; has_aov_bindings := true; aov_supported := true;
     format_is_float32vec4 := true;
     sceneStateVersion := scene; sprimIndexVersion := sprim;
     visibilityChangeCount := vis; renderSettingsStateVersion := settings;
     aovId := aov |}.

(** The members as the constructor leaves them ([UINT32_MAX]); the
    constructor does not initialise [m_lastAovId]. *)
Definition initial_state (aov0 : Z) : pass_state :=
  {| m_lastSceneStateVersion := 4294967295;
     m_lastSprimIndexVersion := 4294967295;
     m_lastRenderSettingsVersion := 4294967295;
     m_lastVisChangeCount := 4294967295;
     m_lastAovId := aov0 |}.

(** The framebuffer is invalidated exactly when the scene-state version, the
    render-settings version, the visibility change count or the AOV id
    differs from the remembered one. The sprim-index version is read and
    remembered but takes no part. *)
Lemma invalidated_iff st f d :
  execute_detect st f = Some d ->
  invalidated d = true <->
  (sceneStateVersion f <> m_lastSceneStateVersion st \/
   renderSettingsStateVersion f <> m_lastRenderSettingsVersion st \/
   visibilityChangeCount f <> m_lastVisChangeCount st \/
   aovId f <> m_lastAovId st).
Proof.
  unfold execute_detect.
  destruct (has_camera f), (has_aov_bindings f), (aov_supported f),
    (format_is_float32vec4 f); simpl; try discriminate.
  intros [= <-]. cbn [invalidated].
  rewrite !orb_true_iff. unfold neqb. rewrite !negb_true_iff, !Z.eqb_neq.
  intuition congruence.
Qed.

Lemma sprim_version_remembered st f d :
  execute_detect st f = Some d ->
  m_lastSprimIndexVersion (state_after d) = sprimIndexVersion f.
Proof.
  unfold execute_detect.
  destruct (has_camera f), (has_aov_bindings f), (aov_supported f),
    (format_is_float32vec4 f); simpl; try discriminate.
  now intros [= <-].
Qed.

(** C4. The claim is that a change of any of the four counters, the
    sprim-index version among them, invalidates the framebuffer. Two frames
    that differ only in the sprim-index version (7 then 8): the second frame
    reads a counter that differs from the remembered one, remembers the new
    value, and does not invalidate. *)
Theorem sprim_change_not_invalidating :
  map (option_map invalidated)
    (execute_frames (initial_state 0)
       [regular_frame 3 7 5 2 0; regular_frame 3 8 5 2 0])
  = [Some true; Some false] /\
  map (option_map (fun d => m_lastSprimIndexVersion (state_after d)))
    (execute_frames (initial_state 0)
       [regular_frame 3 7 5 2 0; regular_frame 3 8 5 2 0])
  = [Some 7; Some 8].
Proof.
  split.
  - cbn [execute_frames map]. unfold execute_detect, regular_frame.
    cbn. reflexivity.
  - cbn [execute_frames map]. unfold execute_detect, regular_frame.
    cbn. reflexivity.
Qed.

(** *** Frames that are skipped, frames that repeat *)

(** The four guards at the top of [_Execute]. *)
Definition passes_guards (f : frame) : bool :=
  has_camera f && has_aov_bindings f && aov_supported f && format_is_float32vec4 f.

Lemma execute_detect_skips st f : passes_guards f = false -> execute_detect st f = None.
Proof.
  unfold passes_guards, execute_detect.
  destruct (has_camera f), (has_aov_bindings f), (aov_supported f),
    (format_is_float32vec4 f); cbn; congruence.
Qed.

Lemma execute_detect_runs st f :
  passes_guards f = true ->
  exists d,
    execute_detect st f = Some d /\
    (invalidated d = true <->
     (sceneStateVersion f <> m_lastSceneStateVersion st \/
      renderSettingsStateVersion f <> m_lastRenderSettingsVersion st \/
      visibilityChangeCount f <> m_lastVisChangeCount st \/
      aovId f <> m_lastAovId st)).
Proof.
  intros Hg. destruct (execute_detect st f) as [d|] eqn:Hd.
  - exists d. split; [reflexivity|]. exact (invalidated_iff st f d Hd).
  - exfalso. unfold passes_guards, execute_detect in *.
    destruct (has_camera f), (has_aov_bindings f), (aov_supported f),
      (format_is_float32vec4 f); cbn in *; congruence.
Qed.

Lemma execute_frames_skipped st skipped fs :
  Forall (fun f => passes_guards f = false) skipped ->
  execute_frames st (skipped ++ fs)
  = map (fun _ => None) skipped ++ execute_frames st fs.
Proof.
  induction 1 as [|f skipped Hf _ IH]; [reflexivity|].
  cbn [app execute_frames map]. rewrite (execute_detect_skips st f Hf).
  now rewrite IH.
Qed.

Lemma state_after_remembers st f d :
  execute_detect st f = Some d ->
  m_lastSceneStateVersion (state_after d) = sceneStateVersion f /\
  m_lastRenderSettingsVersion (state_after d) = renderSettingsStateVersion f /\
  m_lastVisChangeCount (state_after d) = visibilityChangeCount f /\
  m_lastAovId (state_after d) = aovId f.
Proof.
  unfold execute_detect.
  destruct (has_camera f), (has_aov_bindings f), (aov_supported f),
    (format_is_float32vec4 f); cbn; try discriminate.
  now intros [= <-].
Qed.

(** X23. A frame that gets past the guards is compared with the last frame
    that did, whatever happened in between: when [_Execute] ran for [f1],
    then returned early any number of times, and now runs for [f2], the
    framebuffer is invalidated exactly when the scene-state version, the
    render-settings version, the visibility change count or the AOV id of
    [f2] differs from that of [f1]. In particular the same frame again
    never invalidates. *)
Theorem invalidated_since_last_rendered_frame st f1 d1 skipped f2 :
  execute_detect st f1 = Some d1 ->
  Forall (fun f => passes_guards f = false) skipped ->
  passes_guards f2 = true ->
  exists d2,
    List.last (execute_frames st (f1 :: skipped ++ [f2])) None = Some d2 /\
    (invalidated d2 = true <->
     (sceneStateVersion f2 <> sceneStateVersion f1 \/
      renderSettingsStateVersion f2 <> renderSettingsStateVersion f1 \/
      visibilityChangeCount f2 <> visibilityChangeCount f1 \/
      aovId f2 <> aovId f1)).
Proof.
  intros H1 Hskipped H2.
  destruct (execute_detect_runs (state_after d1) f2 H2) as (d2 & Hd2 & Hinv).
  destruct (state_after_remembers st f1 d1 H1) as (Hs & Hr & Hv & Ha).
  rewrite Hs, Hr, Hv, Ha in Hinv.
  exists d2. split; [|exact Hinv].
  cbn [execute_frames]. rewrite H1.
  rewrite (execute_frames_skipped _ _ _ Hskipped).
  cbn [execute_frames]. rewrite Hd2.
  cbn [map]. exact (last_last (Some d1 :: map (fun _ => None) skipped) (Some d2) None).
Qed.

Lemma invalidated_since_last_rendered_frame_witness :
  exists d2,
    List.last (execute_frames (initial_state 0)
            (regular_frame 3 7 5 2 0
             :: [ {| has_camera := false; has_aov_bindings := true;
                     aov_supported := true; format_is_float32vec4 := true;
                     sceneStateVersion := 9; sprimIndexVersion := 9;
                     visibilityChangeCount := 9; renderSettingsStateVersion := 9;
                     aovId := 1 |} ]
             ++ [regular_frame 3 8 5 2 0])) None = Some d2 /\
    invalidated d2 = false.
Proof.
  destruct (invalidated_since_last_rendered_frame (initial_state 0)
              (regular_frame 3 7 5 2 0)
              (default {| invalidated := false; renderSettingsChanged := false;
                          visibilityChanged := false; aovChanged := false;
                          state_after := initial_state 0 |}
                 (execute_detect (initial_state 0) (regular_frame 3 7 5 2 0)))
              [ {| has_camera := false; has_aov_bindings := true;
                   aov_supported := true; format_is_float32vec4 := true;
                   sceneStateVersion := 9; sprimIndexVersion := 9;
                   visibilityChangeCount := 9; renderSettingsStateVersion := 9;
                   aovId := 1 |} ]
              (regular_frame 3 8 5 2 0))
    as (d2 & Hlast & Hinv).
  - vm_compute. reflexivity.
  - constructor; [reflexivity | constructor].
  - reflexivity.
  - exists d2. split; [exact Hlast|].
    destruct (invalidated d2); [|reflexivity].
    destruct (proj1 Hinv eq_refl) as [H|[H|[H|H]]]; now destruct H.
Defined.

(** *** Choosing the AOV *)

Section Aov.

Context {token : Type} `{Countable token}.

(** [s_aovIdMappings] and the id [_GetAovId] starts from. *)
Variable s_aovIdMappings : gmap token Z.
Variable GI_AOV_ID_COLOR : Z.

(** An AOV binding with the address of its render buffer; a render buffer
    is kept as its converged flag. *)
Record HdRenderPassAovBinding := { aovName : token; renderBuffer : Z }.

Fixpoint _FilterAovBinding (aovBindings : list HdRenderPassAovBinding)
    (render_buffers : gmap Z bool)
    : option HdRenderPassAovBinding * gmap Z bool :=
  match aovBindings with
  | [] => (None, render_buffers)
  | aovBinding :: rest =>
      match s_aovIdMappings !! aovName aovBinding with
      | Some _ => (Some aovBinding, render_buffers)
      | None =>
          _FilterAovBinding rest (<[renderBuffer aovBinding := true]> render_buffers)
      end
  end.

(** [_GetAovId]: the id, and whether [TF_CODING_ERROR] was raised. *)
Definition _GetAovId (name : token) : Z * bool :=
  match s_aovIdMappings !! name with
  | Some id => (id, false)
  | None => (GI_AOV_ID_COLOR, true)
  end.

(** The render buffers of [skipped] are converged, the others are as they
    were. *)
Definition marked (skipped : list HdRenderPassAovBinding)
    (before after : gmap Z bool) : Prop :=
  forall p,
    (In p (map renderBuffer skipped) -> after !! p = Some true) /\
    (~ In p (map renderBuffer skipped) -> after !! p = before !! p).

Lemma marked_nil render_buffers : marked [] render_buffers render_buffers.
Proof. intros p. split; [intros [] | reflexivity]. Qed.

Lemma marked_cons b skipped before after :
  marked skipped (<[renderBuffer b := true]> before) after ->
  marked (b :: skipped) before after.
Proof.
  intros Hm p. destruct (Hm p) as [Hin Hout]. cbn [map]. split.
  - intros Hp. destruct (In_dec Z.eq_dec p (map renderBuffer skipped)) as [Hs | Hs];
      [now apply Hin|].
    destruct Hp as [<- | Hp]; [|contradiction].
    rewrite (Hout Hs). apply lookup_insert_eq.
  - intros Hp. rewrite Hout by (intros Hs; apply Hp; now right).
    apply lookup_insert_ne. intros Heq. apply Hp. now left.
Qed.

(** X24. [_FilterAovBinding] returns the first binding whose AOV name is in
    [s_aovIdMappings], and marks the render buffers of exactly the bindings
    before it as converged; it returns null, with every render buffer
    marked, when no binding is supported. For the binding it returns,
    [_GetAovId] finds the id in the table, so the coding error in
    [_GetAovId] cannot be raised from [_Execute]. *)
Theorem filter_returns_first_supported_binding aovBindings render_buffers :
  match _FilterAovBinding aovBindings render_buffers with
  | (Some aovBinding, render_buffers') =>
      exists skipped rest id,
        aovBindings = skipped ++ aovBinding :: rest /\
        Forall (fun b => s_aovIdMappings !! aovName b = None) skipped /\
        s_aovIdMappings !! aovName aovBinding = Some id /\
        _GetAovId (aovName aovBinding) = (id, false) /\
        marked skipped render_buffers render_buffers'
  | (None, render_buffers') =>
      Forall (fun b => s_aovIdMappings !! aovName b = None) aovBindings /\
      marked aovBindings render_buffers render_buffers'
  end.
Proof.
  revert render_buffers.
  induction aovBindings as [|b bs IH]; intros render_buffers; cbn [_FilterAovBinding].
  - split; [constructor | apply marked_nil].
  - destruct (s_aovIdMappings !! aovName b) as [id|] eqn:Hb.
    + exists [], bs, id. split; [reflexivity|]. split; [constructor|].
      split; [exact Hb|]. split; [unfold _GetAovId; now rewrite Hb | apply marked_nil].
    + specialize (IH (<[renderBuffer b := true]> render_buffers)).
      destruct (_FilterAovBinding bs _) as [[found|] after].
      * destruct IH as (skipped & rest & id & -> & Hskipped & Hid & Hget & Hmarked).
        exists (b :: skipped), rest, id. split; [reflexivity|].
        split; [now constructor|]. split; [exact Hid|]. split; [exact Hget|].
        now apply marked_cons.
      * destruct IH as [Hall Hmarked]. split; [now constructor | now apply marked_cons].
Qed.

End Aov.

(** *** Materials in [_BakeMeshes] *)

(** What the loop body of [_BakeMeshes] sees of one rprim: whether the cast
    yields a mesh and the mesh is visible, the string of its material id
    (empty for the empty path), what compiling the material's network gives
    (nothing when there is no material sprim, no network, or the compiler
    fails), whether the mesh has a color, the material name made from the
    color and what [giCreateMaterialFromMtlxStr] gives for it. Materials are
    pointers. *)
Record rprim := {
  is_mesh : bool;
  IsVisible : bool;
  materialIdStr : string;
  CompileNetwork : option Z;
  HasColor : bool;
  colorIdStr : string;
  giCreateMaterialFromMtlxStr : option Z
}.

(** [materials], [m_materials] and [materialMap]. *)
Record bake_state := {
  materials : list Z;
  m_materials : list Z;
  materialMap : gmap string Z
}.

(** The material part of a [GiMeshDesc]: the index, and
    [materials\[materialIndex\]] if that is an element. *)
Record mesh_desc := {
  materialIndex : Z;
  desc_material : option Z
}.

Definition IsEmpty (id : string) : bool := bool_decide (id = EmptyString).

(** [materials.push_back(giMat); materialMap\[key\] = materialIndex] with
    [materialIndex = materials.size()]. *)
Definition register (st : bake_state) (m_materials' : list Z) (key : string)
    (giMat : Z) : Z * bake_state :=
  let materialIndex := wrap32 (Z.of_nat (length (materials st))) in
  (materialIndex,
   {| materials := materials st ++ [giMat];
      m_materials := m_materials';
      materialMap := <[key := materialIndex]> (materialMap st) |}).

(** The body of the loop up to [_BakeMeshGeometry]: the material index of
    the mesh and the state. *)
Definition choose_material (st : bake_state) (r : rprim) : Z * bake_state :=
  match (if IsEmpty (materialIdStr r) then None
         else materialMap st !! materialIdStr r) with
  | Some found => (found, st)
  | None =>
      match CompileNetwork r with
      | Some giMat =>
          register st (m_materials st ++ [giMat]) (materialIdStr r) giMat
      | None =>
          if HasColor r then
            match materialMap st !! colorIdStr r with
            | Some found => (found, st)
            | None =>
                match giCreateMaterialFromMtlxStr r with
                | Some giColorMat =>
                    register st (m_materials st ++ [giColorMat]) (colorIdStr r)
                      giColorMat
                | None => (0, st)
                end
            end
          else (0, st)
      end
  end.

(** One pass through the loop body; [None] for an rprim that is skipped. *)
Definition bake_rprim (st : bake_state) (r : rprim) : option mesh_desc * bake_state :=
  if negb (is_mesh r) then (None, st)
  else if negb (IsVisible r) then (None, st)
  else
    let '(materialIndex, st) := choose_material st r in
    (Some {| materialIndex := materialIndex;
             desc_material := materials st !! Z.to_nat materialIndex |}, st).

Fixpoint bake_rprims (st : bake_state) (rprims : list rprim)
    : list (option mesh_desc) * bake_state :=
  match rprims with
  | [] => ([], st)
  | r :: rest =>
      let '(d, st) := bake_rprim st r in
      let '(ds, st) := bake_rprims st rest in
      (d :: ds, st)
  end.

(** The state before the loop: [m_materials] is cleared, the default
    material gets index 0 and the empty name. *)
Definition before_loop (m_defaultMaterial : Z) : bake_state :=
  {| materials := [m_defaultMaterial]; m_materials := [];
     materialMap := {[ EmptyString := 0 ]} |}.

(** [_BakeMeshes], its material bookkeeping. *)
Definition _BakeMeshes (m_defaultMaterial : Z) (rprims : list rprim)
    : list (option mesh_desc) * bake_state :=
  bake_rprims (before_loop m_defaultMaterial) rprims.


(** Every index in [materialMap] is an index into [materials]. *)
Definition indices_valid (st : bake_state) : Prop :=
  forall key v, materialMap st !! key = Some v ->
                0 <= v < Z.of_nat (length (materials st)).

(** From [st] to [st'] the materials were only appended to and no named
    entry of the map was changed. *)
Definition extends (st st' : bake_state) : Prop :=
  (exists more, materials st' = materials st ++ more) /\
  forall key v, key <> EmptyString -> materialMap st !! key = Some v ->
                materialMap st' !! key = Some v.

Lemma extends_refl st : extends st st.
Proof. split; [exists []; now rewrite app_nil_r | auto]. Qed.

Lemma extends_trans st1 st2 st3 : extends st1 st2 -> extends st2 st3 -> extends st1 st3.
Proof.
  intros [[m1 H1] K1] [[m2 H2] K2]. split; [|auto].
  exists (m1 ++ m2). now rewrite H2, H1, app_assoc.
Qed.

Lemma extends_lookup st st' v m :
  extends st st' -> materials st !! v = Some m -> materials st' !! v = Some m.
Proof. intros [[more ->] _] Hv. now apply lookup_app_l_Some. Qed.

Lemma register_spec st ms key giMat idx st' :
  register st ms key giMat = (idx, st') ->
  indices_valid st ->
  (key <> EmptyString -> materialMap st !! key = None) ->
  indices_valid st' /\ extends st st' /\
  0 <= idx < Z.of_nat (length (materials st')) /\
  materialMap st' !! key = Some idx.
Proof.
  unfold register. intros [= <- <-] Hvalid Hfresh.
  unfold indices_valid, extends. cbn [materials materialMap].
  rewrite length_app. cbn [length].
  assert (Hidx : 0 <= wrap32 (Z.of_nat (length (materials st)))
                 <= Z.of_nat (length (materials st))).
  { unfold wrap32. split; [apply Z.mod_pos_bound; lia|].
    apply Z.mod_le; lia. }
  split; [|split; [|split]].
  - intros k v. destruct (decide (k = key)) as [->|Hne].
    + rewrite lookup_insert_eq. intros [= <-]. lia.
    + rewrite lookup_insert_ne by congruence. intros Hk.
      specialize (Hvalid k v Hk). lia.
  - split; [now exists [giMat]|]. intros k v Hk Hlook.
    destruct (decide (k = key)) as [->|Hne].
    + rewrite Hfresh in Hlook by exact Hk. discriminate.
    + now rewrite lookup_insert_ne by congruence.
  - lia.
  - apply lookup_insert_eq.
Qed.

Lemma choose_material_spec st r idx st' :
  choose_material st r = (idx, st') ->
  indices_valid st -> (0 < length (materials st))%nat ->
  indices_valid st' /\ extends st st' /\
  0 <= idx < Z.of_nat (length (materials st')) /\
  (materialIdStr r <> EmptyString ->
   is_Some (CompileNetwork r) \/ is_Some (materialMap st !! materialIdStr r) ->
   materialMap st' !! materialIdStr r = Some idx).
Proof.
  unfold choose_material, IsEmpty. intros Hchoose Hvalid Hdefault.
  destruct (decide (materialIdStr r = EmptyString)) as [Hempty | Hnamed].
  - rewrite bool_decide_eq_true_2 in Hchoose by exact Hempty.
    destruct (CompileNetwork r) as [giMat|].
    + destruct (register_spec _ _ _ _ _ _ Hchoose Hvalid) as (Hv & He & Hi & _);
        [congruence | tauto].
    + destruct (HasColor r).
      * destruct (materialMap st !! colorIdStr r) as [found|] eqn:Hcolor.
        -- injection Hchoose as <- <-.
           split; [exact Hvalid|]. split; [apply extends_refl|].
           split; [exact (Hvalid _ _ Hcolor) | tauto].
        -- destruct (giCreateMaterialFromMtlxStr r) as [giColorMat|].
           ++ destruct (register_spec _ _ _ _ _ _ Hchoose Hvalid) as (Hv & He & Hi & _);
                [auto | tauto].
           ++ injection Hchoose as <- <-.
              split; [exact Hvalid|]. split; [apply extends_refl|].
              split; [lia | tauto].
      * injection Hchoose as <- <-.
        split; [exact Hvalid|]. split; [apply extends_refl|]. split; [lia | tauto].
  - rewrite bool_decide_eq_false_2 in Hchoose by exact Hnamed.
    destruct (materialMap st !! materialIdStr r) as [found|] eqn:Hfound.
    + injection Hchoose as <- <-.
      split; [exact Hvalid|]. split; [apply extends_refl|].
      split; [exact (Hvalid _ _ Hfound) | auto].
    + destruct (CompileNetwork r) as [giMat|].
      * destruct (register_spec _ _ _ _ _ _ Hchoose Hvalid) as (Hv & He & Hi & Hk);
          auto.
      * assert (Hno : forall P : Prop,
                   is_Some (@None Z) \/ is_Some (@None Z) -> P)
          by (intros P [[? [=]] | [? [=]]]).
        destruct (HasColor r).
        -- destruct (materialMap st !! colorIdStr r) as [found|] eqn:Hcolor.
           ++ injection Hchoose as <- <-.
              split; [exact Hvalid|]. split; [apply extends_refl|].
              split; [exact (Hvalid _ _ Hcolor) | intros _; apply Hno].
           ++ destruct (giCreateMaterialFromMtlxStr r) as [giColorMat|].
              ** destruct (register_spec _ _ _ _ _ _ Hchoose Hvalid)
                   as (Hv & He & Hi & _); [auto|].
                 split; [exact Hv|]. split; [exact He|].
                 split; [exact Hi | intros _; apply Hno].
              ** injection Hchoose as <- <-.
                 split; [exact Hvalid|]. split; [apply extends_refl|].
                 split; [lia | intros _; apply Hno].
        -- injection Hchoose as <- <-.
           split; [exact Hvalid|]. split; [apply extends_refl|].
           split; [lia | intros _; apply Hno].
Qed.


(** The rprims that get as far as [_BakeMeshGeometry]. *)
Definition is_baked (r : rprim) : bool := is_mesh r && IsVisible r.

Lemma extends_nonempty st st' :
  extends st st' -> (0 < length (materials st))%nat -> (0 < length (materials st'))%nat.
Proof. intros [[more ->] _]. rewrite length_app. lia. Qed.

Lemma bake_rprim_spec st r d st' :
  bake_rprim st r = (d, st') ->
  indices_valid st -> (0 < length (materials st))%nat ->
  indices_valid st' /\ extends st st' /\
  (is_baked r = false -> d = None) /\
  (is_baked r = true ->
   exists desc m,
     d = Some desc /\ desc_material desc = Some m /\
     0 <= materialIndex desc /\
     materials st' !! Z.to_nat (materialIndex desc) = Some m /\
     (materialIdStr r <> EmptyString ->
      is_Some (CompileNetwork r) \/ is_Some (materialMap st !! materialIdStr r) ->
      materialMap st' !! materialIdStr r = Some (materialIndex desc))).
Proof.
  unfold bake_rprim, is_baked. intros Hbake Hvalid Hdefault.
  destruct (is_mesh r); cbn [negb andb] in *.
  2: { injection Hbake as <- <-.
       split; [exact Hvalid|]. split; [apply extends_refl|].
       split; [reflexivity | discriminate]. }
  destruct (IsVisible r); cbn [negb] in *.
  2: { injection Hbake as <- <-.
       split; [exact Hvalid|]. split; [apply extends_refl|].
       split; [reflexivity | discriminate]. }
  destruct (choose_material st r) as [idx st1] eqn:Hchoose.
  injection Hbake as <- <-.
  destruct (choose_material_spec _ _ _ _ Hchoose Hvalid Hdefault)
    as (Hv & He & Hi & Hk).
  split; [exact Hv|]. split; [exact He|]. split; [discriminate|]. intros _.
  destruct (materials st1 !! Z.to_nat idx) as [m|] eqn:Hm.
  - exists {| materialIndex := idx; desc_material := Some m |}, m.
    cbn [materialIndex desc_material]. repeat split; [lia | exact Hm | exact Hk].
  - apply lookup_ge_None in Hm. lia.
Qed.

Lemma bake_rprims_spec rprims :
  forall st outs st',
    bake_rprims st rprims = (outs, st') ->
    indices_valid st -> (0 < length (materials st))%nat ->
    indices_valid st' /\ extends st st' /\
    Forall (fun o => forall d, o = Some d -> is_Some (desc_material d)) outs.
Proof.
  induction rprims as [|r rest IH]; intros st outs st' Hbake Hvalid Hdefault;
    cbn [bake_rprims] in Hbake.
  - injection Hbake as <- <-.
    split; [exact Hvalid|]. split; [apply extends_refl | constructor].
  - destruct (bake_rprim st r) as [d st1] eqn:Hone.
    destruct (bake_rprims st1 rest) as [ds st2] eqn:Hrest.
    injection Hbake as <- <-.
    destruct (bake_rprim_spec _ _ _ _ Hone Hvalid Hdefault) as (Hv1 & He1 & Hskip & Hdone).
    destruct (IH _ _ _ Hrest Hv1 (extends_nonempty _ _ He1 Hdefault))
      as (Hv2 & He2 & Hall).
    split; [exact Hv2|]. split; [exact (extends_trans _ _ _ He1 He2)|].
    constructor; [|exact Hall].
    intros desc ->. destruct (is_baked r) eqn:Hb; [|now specialize (Hskip eq_refl)].
    destruct (Hdone eq_refl) as (desc' & m & [= <-] & Hm & _). rewrite Hm. eauto.
Qed.

(** A named material that is in the map keeps its index and its material
    for every mesh that follows. *)
Lemma named_material_persists between :
  forall st rj after outs st' id v m,
    bake_rprims st (between ++ rj :: after) = (outs, st') ->
    indices_valid st -> (0 < length (materials st))%nat ->
    id <> EmptyString -> materialMap st !! id = Some v ->
    materials st !! Z.to_nat v = Some m ->
    is_baked rj = true -> materialIdStr rj = id ->
    exists dj,
      outs !! length between = Some (Some dj) /\
      materialIndex dj = v /\ desc_material dj = Some m.
Proof.
  induction between as [|r between IH];
    intros st rj after outs st' id v m Hbake Hvalid Hdefault Hnamed Hmap Hmat Hbaked Hid;
    cbn [app bake_rprims] in Hbake.
  - destruct (bake_rprim st rj) as [d st1] eqn:Hone.
    destruct (bake_rprims st1 after) as [ds st2].
    injection Hbake as <- <-. cbn [length].
    unfold bake_rprim, is_baked in *.
    destruct (is_mesh rj), (IsVisible rj); try discriminate. cbn [negb] in Hone.
    unfold choose_material, IsEmpty in Hone. subst id.
    rewrite bool_decide_eq_false_2, Hmap in Hone by exact Hnamed.
    injection Hone as <- <-. rewrite Hmat.
    eexists. split; [reflexivity|]. split; reflexivity.
  - destruct (bake_rprim st r) as [d st1] eqn:Hone.
    destruct (bake_rprims st1 (between ++ rj :: after)) as [ds st2] eqn:Hrest.
    injection Hbake as <- <-.
    destruct (bake_rprim_spec _ _ _ _ Hone Hvalid Hdefault) as (Hv1 & He1 & _).
    destruct (IH st1 rj after ds st2 id v m Hrest Hv1 (extends_nonempty _ _ He1 Hdefault)
                Hnamed (proj2 He1 id v Hnamed Hmap) (extends_lookup _ _ _ _ He1 Hmat)
                Hbaked Hid) as (dj & Hdj & Hrest').
    exists dj. split; [exact Hdj | exact Hrest'].
Qed.

Lemma shared_from before :
  forall st ri between rj after outs st',
    bake_rprims st (before ++ ri :: between ++ rj :: after) = (outs, st') ->
    indices_valid st -> (0 < length (materials st))%nat ->
    is_baked ri = true -> is_baked rj = true ->
    materialIdStr ri <> EmptyString -> materialIdStr rj = materialIdStr ri ->
    is_Some (CompileNetwork ri) ->
    exists di dj m,
      outs !! length before = Some (Some di) /\
      outs !! (length before + S (length between))%nat = Some (Some dj) /\
      materialIndex dj = materialIndex di /\
      desc_material di = Some m /\ desc_material dj = Some m.
Proof.
  induction before as [|r before IH];
    intros st ri between rj after outs st' Hbake Hvalid Hdefault Hi Hj Hnamed Hsame Hcompiled;
    cbn [app bake_rprims] in Hbake.
  - destruct (bake_rprim st ri) as [d st1] eqn:Hone.
    destruct (bake_rprims st1 (between ++ rj :: after)) as [ds st2] eqn:Hrest.
    injection Hbake as <- <-.
    destruct (bake_rprim_spec _ _ _ _ Hone Hvalid Hdefault) as (Hv1 & He1 & _ & Hdone).
    destruct (Hdone Hi) as (di & m & -> & Hdm & Hnn & Hm & Hkey).
    specialize (Hkey Hnamed (or_introl Hcompiled)).
    destruct (named_material_persists between st1 rj after ds st2 (materialIdStr ri)
                (materialIndex di) m Hrest Hv1 (extends_nonempty _ _ He1 Hdefault)
                Hnamed Hkey Hm Hj Hsame) as (dj & Hdj & Hidx & Hmat).
    exists di, dj, m. cbn [length Nat.add].
    split; [reflexivity|]. split; [exact Hdj|]. auto.
  - destruct (bake_rprim st r) as [d st1] eqn:Hone.
    destruct (bake_rprims st1 (before ++ ri :: between ++ rj :: after))
      as [ds st2] eqn:Hrest.
    injection Hbake as <- <-.
    destruct (bake_rprim_spec _ _ _ _ Hone Hvalid Hdefault) as (Hv1 & He1 & _).
    exact (IH st1 ri between rj after ds st2 Hrest Hv1 (extends_nonempty _ _ He1 Hdefault)
             Hi Hj Hnamed Hsame Hcompiled).
Qed.

Lemma initial_indices_valid m_defaultMaterial :
  indices_valid (before_loop m_defaultMaterial).
Proof.
  intros key v. unfold before_loop. cbn [materialMap materials length].
  intros Hlook. apply lookup_singleton_Some in Hlook as [_ <-]. lia.
Qed.


Definition sample_rprim (id : string) (compiled : option Z) : rprim :=
  {| is_mesh := true; IsVisible := true; materialIdStr := id;
     CompileNetwork := compiled; HasColor := false; colorIdStr := EmptyString;
     giCreateMaterialFromMtlxStr := None |}.


End RenderPass.

(** ** Baking mesh geometry ([_BakeMeshGeometry] and the tangent
    calculation) *)

Module MeshBaking.

(** [array\[i\]]: the element, if [i] is an index into the array. *)
Definition at_index {A} (array : list A) (i : Z) : option A :=
  if i <? 0 then None else array !! Z.to_nat i.

Section Baking.

(** Single-precision arithmetic and comparisons, the float literals that
    occur, and the [GfVec3f] and [GfMatrix4d] operations are left open. *)
Context {float matrix : Type}.
Variable fadd : float -> float -> float.
Variable fsub : float -> float -> float.
Variable fmul : float -> float -> float.
Variable fdiv : float -> float -> float.
Variable fneg : float -> float.
Variable fabsf : float -> float.
Variable abs : float -> float.
Variable fgt : float -> float -> bool.
Variable fge : float -> float -> bool.
Variable flt : float -> float -> bool.
Variable fle : float -> float -> bool.
Variable f_0 : float.
Variable f_1 : float.
Variable f_0_5 : float.
Variable EPS : float.

Definition GfVec3f : Type := float * float * float.
Definition GfVec2f : Type := float * float.
Definition GfVec3i : Type := Z * Z * Z.

Variable vadd : GfVec3f -> GfVec3f -> GfVec3f.
Variable vsub : GfVec3f -> GfVec3f -> GfVec3f.
Variable vscale : GfVec3f -> float -> GfVec3f.
Variable GfDot : GfVec3f -> GfVec3f -> float.
Variable GfCross : GfVec3f -> GfVec3f -> GfVec3f.
Variable GetNormalized : GfVec3f -> GfVec3f.
Variable GetLength : GfVec3f -> float.
Variable Normalize : GfVec3f -> GfVec3f.
Variable GetInverse : matrix -> matrix.
Variable GetTranspose : matrix -> matrix.
Variable Transform : matrix -> GfVec3f -> GfVec3f.
Variable TransformDir : matrix -> GfVec3f -> GfVec3f.

Definition XAxis : GfVec3f := (f_1, f_0, f_0).
Definition YAxis : GfVec3f := (f_0, f_1, f_0).
Definition ZAxis : GfVec3f := (f_0, f_0, f_1).

Definition x_of (v : GfVec3f) : float := fst (fst v).
Definition y_of (v : GfVec3f) : float := snd (fst v).
Definition z_of (v : GfVec3f) : float := snd v.

(** [HdGatlingMesh::VertexAttr]. *)
Record VertexAttr (T : Type) := {
  array : list T;
  indexed : bool
}.
Arguments array {T}.
Arguments indexed {T}.

(** What [_BakeMeshGeometry] gets from the mesh. *)
Record HdGatlingMesh := {
  GetFaces : list GfVec3i;
  GetPoints : list GfVec3f;
  GetNormals : VertexAttr GfVec3f;
  GetTexCoords : VertexAttr GfVec2f;
  GetTangents : VertexAttr GfVec3f;
  GetBitangentSigns : VertexAttr float
}.

Record GiVertex := {
  pos : GfVec3f;
  norm : GfVec3f;
  u : float;
  v : float;
  tangent : GfVec3f;
  bitangentSign : float
}.

Record GiFace := { v_i : Z * Z * Z }.

(** The primvar index of corner [k] of face [i]: the vertex index when the
    primvar is indexed, else [i * 3 + k]. *)
Definition primvar_index (is_indexed : bool) (vertex_index i k : Z) : Z :=
  if is_indexed then vertex_index else i * 3 + k.

Definition _CalculateBitangentSign (n t b : GfVec3f) : float :=
  if fgt (GfDot (GfCross t b) n) f_0 then f_1 else fneg f_1.

(** [array\[i\] += d] for an index that is in range. *)
Definition add_at (array : list GfVec3f) (i : Z) (d : GfVec3f) : list GfVec3f :=
  match at_index array i with
  | Some old => <[Z.to_nat i := vadd old d]> array
  | None => array
  end.

(** *** [_CalculateTextureTangents] *)

(** One pass through the first loop, for face [i]: the three accumulators
    after it. [None] is a read outside an array. *)
Definition accumulate_face (meshPoints : list GfVec3f)
    (meshNormals : VertexAttr GfVec3f) (meshTexCoords : VertexAttr GfVec2f)
    (i : Z) (f : GfVec3i)
    (acc : list GfVec3f * list GfVec3f * list GfVec3f)
    : option (list GfVec3f * list GfVec3f * list GfVec3f) :=
  let '(tangents, bitangents, normals) := acc in
  let tangentCount := Z.of_nat (length (array meshNormals)) in
  let '(f0, f1, f2) := f in
  p0 ← at_index meshPoints f0;
  p1 ← at_index meshPoints f1;
  p2 ← at_index meshPoints f2;
  t0 ← at_index (array meshTexCoords) (primvar_index (indexed meshTexCoords) f0 i 0);
  t1 ← at_index (array meshTexCoords) (primvar_index (indexed meshTexCoords) f1 i 1);
  t2 ← at_index (array meshTexCoords) (primvar_index (indexed meshTexCoords) f2 i 2);
  let e1 := vsub p1 p0 in
  let e2 := vsub p2 p0 in
  let x1 := fsub (fst t1) (fst t0) in
  let x2 := fsub (fst t2) (fst t0) in
  let y1 := fsub (snd t1) (snd t0) in
  let y2 := fsub (snd t2) (snd t0) in
  let denom := fsub (fmul x1 y2) (fmul x2 y1) in
  let '(t, b) :=
    if fgt (fabsf denom) EPS then
      let r := fdiv f_1 denom in
      (vscale (vsub (vscale e1 y2) (vscale e2 y1)) r,
       vscale (vsub (vscale e2 x1) (vscale e1 x2)) r)
    else (YAxis, XAxis) in
  let outIndex0 := primvar_index (indexed meshNormals) f0 i 0 in
  let outIndex1 := primvar_index (indexed meshNormals) f1 i 1 in
  let outIndex2 := primvar_index (indexed meshNormals) f2 i 2 in
  let beyond idx := (idx <? 0) || (tangentCount <=? idx) in
  if beyond outIndex0 || beyond outIndex1 || beyond outIndex2 then
    Some (tangents, bitangents, normals)
  else
    n0 ← at_index (array meshNormals) outIndex0;
    n1 ← at_index (array meshNormals) outIndex1;
    n2 ← at_index (array meshNormals) outIndex2;
    let normals := add_at (add_at (add_at normals outIndex0 n0) outIndex1 n1) outIndex2 n2 in
    let tangents := add_at (add_at (add_at tangents outIndex0 t) outIndex1 t) outIndex2 t in
    let bitangents :=
      add_at (add_at (add_at bitangents outIndex0 b) outIndex1 b) outIndex2 b in
    Some (tangents, bitangents, normals).

Fixpoint accumulate_faces (meshPoints : list GfVec3f)
    (meshNormals : VertexAttr GfVec3f) (meshTexCoords : VertexAttr GfVec2f)
    (i : Z) (meshFaces : list GfVec3i)
    (acc : list GfVec3f * list GfVec3f * list GfVec3f)
    : option (list GfVec3f * list GfVec3f * list GfVec3f) :=
  match meshFaces with
  | [] => Some acc
  | f :: rest =>
      acc ← accumulate_face meshPoints meshNormals meshTexCoords i f acc;
      accumulate_faces meshPoints meshNormals meshTexCoords (i + 1) rest acc
  end.

(** One pass through the second loop: the tangent and the bitangent sign
    for a normal with its accumulated tangent and bitangent. *)
Definition orthogonalize (normal t b : GfVec3f) : GfVec3f * float :=
  let n := GetNormalized normal in
  let t := vsub t (vscale n (GfDot n t)) in
  let b := vsub (vsub b (vscale n (GfDot n b))) (vscale t (GfDot t b)) in
  let tLen := GetLength t in
  let bLen := GetLength b in
  let t := if fgt tLen f_0 then GetNormalized t else t in
  let b := if fgt bLen f_0 then GetNormalized b else b in
  let '(t, b) :=
    if fle tLen EPS || fle bLen EPS then
      if fgt tLen f_0_5 then (t, GfCross n t)
      else if fgt bLen f_0_5 then (GfCross b n, b)
      else
        let d0 := abs (x_of n) in
        let d1 := abs (y_of n) in
        let d2 := abs (z_of n) in
        let axis :=
          if flt d0 d1 then (if flt d0 d2 then XAxis else ZAxis)
          else if flt d1 d2 then YAxis
          else ZAxis in
        let t := GfCross n axis in
        (t, GfCross n t)
    else (t, b) in
  (t, _CalculateBitangentSign n t b).

(** The new [meshTangents] and [meshBitangentSigns]. *)
Definition _CalculateTextureTangents (meshFaces : list GfVec3i)
    (meshPoints : list GfVec3f) (meshNormals : VertexAttr GfVec3f)
    (meshTexCoords : VertexAttr GfVec2f) : option (list GfVec3f * list float) :=
  let tangentCount := length (array meshNormals) in
  let zero := (f_0, f_0, f_0) in
  '(tangents, bitangents, _) ←
    accumulate_faces meshPoints meshNormals meshTexCoords 0 meshFaces
      (replicate tangentCount zero, replicate tangentCount zero,
       replicate tangentCount zero);
  let results :=
    map (fun '(normal, t, b) => orthogonalize normal t b)
      (zip (zip (array meshNormals) tangents) bitangents) in
  Some (map fst results, map snd results).

(** *** [_CalculateFallbackTangents] *)

Definition _DuffOrthonormalBasis (n : GfVec3f) : GfVec3f * GfVec3f :=
  let nSign := if fge (z_of n) f_0 then f_1 else fneg f_1 in
  let a := fdiv (fneg f_1) (fadd nSign (z_of n)) in
  let b := fmul (fmul (x_of n) (y_of n)) a in
  ((fadd f_1 (fmul (fmul (fmul nSign (x_of n)) (x_of n)) a),
    fmul nSign b,
    fmul (fneg nSign) (x_of n)),
   (b, fadd nSign (fmul (fmul (y_of n) (y_of n)) a), fneg (y_of n))).

Definition _CalculateFallbackTangents (meshNormals : VertexAttr GfVec3f)
    : list GfVec3f * list float :=
  let results :=
    map (fun normal =>
           let '(tangent, bitangent) := _DuffOrthonormalBasis normal in
           (tangent, _CalculateBitangentSign normal tangent bitangent))
      (array meshNormals) in
  (map fst results, map snd results).

(** *** [_CalculateTangents] *)

Definition _CalculateTangents (meshFaces : list GfVec3i) (meshPoints : list GfVec3f)
    (meshNormals : VertexAttr GfVec3f) (meshTexCoords : VertexAttr GfVec2f)
    : option (VertexAttr GfVec3f * VertexAttr float) :=
  let hasTexCoords := (0 <? length (array meshTexCoords))%nat in
  '(tangents, signs) ←
    (if hasTexCoords then
       _CalculateTextureTangents meshFaces meshPoints meshNormals meshTexCoords
     else Some (_CalculateFallbackTangents meshNormals));
  Some ({| array := tangents; indexed := indexed meshNormals |},
        {| array := signs; indexed := indexed meshNormals |}).


(** *** [_MakeGiVertex] and [_BakeMeshGeometry] *)

Definition _MakeGiVertex (transform normalMatrix : matrix) (point normal : GfVec3f)
    (texCoords : GfVec2f) (tangent : GfVec3f) (bitangentSign : float) : GiVertex :=
  let newPoint := Transform transform point in
  let newNormal := Normalize (TransformDir normalMatrix normal) in
  let newTangent := Normalize (Transform transform tangent) in
  {| pos := newPoint; norm := newNormal;
     u := fst texCoords; v := fsub f_1 (snd texCoords);
     tangent := newTangent; bitangentSign := bitangentSign |}.

Definition corners (t : Z * Z * Z) : list Z := let '(a, b, c) := t in [a; b; c].

Section Loops.

Variable transform : matrix.
Variable normalMatrix : matrix.
Variable meshPoints : list GfVec3f.
Variable meshNormals : VertexAttr GfVec3f.
Variable meshTexCoords : VertexAttr GfVec2f.
Variable meshTangents : VertexAttr GfVec3f.
Variable meshBitangentSigns : VertexAttr float.

Definition hasTexCoords : bool := (0 <? length (array meshTexCoords))%nat.

(** The vertex for corner [j] of face [i] when some primvar is not
    indexed. *)
Definition corner_vertex (i j vertex_index : Z) : option GiVertex :=
  point ← at_index meshPoints vertex_index;
  normal ← at_index (array meshNormals)
              (primvar_index (indexed meshNormals) vertex_index i j);
  texCoords ←
    (if hasTexCoords then
       at_index (array meshTexCoords)
         (primvar_index (indexed meshTexCoords) vertex_index i j)
     else Some (f_0, f_0));
  tangent ← at_index (array meshTangents)
               (primvar_index (indexed meshTangents) vertex_index i j);
  bitangentSign ← at_index (array meshBitangentSigns)
                     (primvar_index (indexed meshBitangentSigns) vertex_index i j);
  Some (_MakeGiVertex transform normalMatrix point normal texCoords tangent
          bitangentSign).

(** The loop over the faces, from face [i] on. *)
Fixpoint bake_faces (isAnyPrimvarNotIndexed : bool) (vertexOffset i : Z)
    (meshFaces : list GfVec3i) (faces : list GiFace) (vertices : list GiVertex)
    : option (list GiFace * list GiVertex) :=
  match meshFaces with
  | [] => Some (faces, vertices)
  | vertexIndices :: rest =>
      let '(i0, i1, i2) := vertexIndices in
      let face :=
        {| v_i :=
             (wrap32 (vertexOffset + (if isAnyPrimvarNotIndexed then i * 3 + 0 else i0)),
              wrap32 (vertexOffset + (if isAnyPrimvarNotIndexed then i * 3 + 1 else i1)),
              wrap32 (vertexOffset + (if isAnyPrimvarNotIndexed then i * 3 + 2 else i2)))
        |} in
      vertices ←
        (if isAnyPrimvarNotIndexed then
           vertex0 ← corner_vertex i 0 i0;
           vertex1 ← corner_vertex i 1 i1;
           vertex2 ← corner_vertex i 2 i2;
           Some (vertices ++ [vertex0; vertex1; vertex2])
         else Some vertices);
      bake_faces isAnyPrimvarNotIndexed vertexOffset (i + 1) rest (faces ++ [face])
        vertices
  end.

(** The loop over the points, from point [j] on, when all primvars are
    indexed. *)
Fixpoint bake_points (j : Z) (points : list GfVec3f) (vertices : list GiVertex)
    : option (list GiVertex) :=
  match points with
  | [] => Some vertices
  | point :: rest =>
      normal ← at_index (array meshNormals) j;
      texCoords ←
        (if hasTexCoords then at_index (array meshTexCoords) j else Some (f_0, f_0));
      tangent ← at_index (array meshTangents) j;
      bitangentSign ← at_index (array meshBitangentSigns) j;
      bake_points (j + 1) rest
        (vertices ++ [_MakeGiVertex transform normalMatrix point normal texCoords
                        tangent bitangentSign])
  end.

End Loops.

(** [_BakeMeshGeometry]: [faces] and [vertices] as it leaves them; [None]
    is a read outside an array. The material index is not used. *)
Definition _BakeMeshGeometry (mesh : HdGatlingMesh) (transform : matrix)
    (materialIndex : Z) (faces : list GiFace) (vertices : list GiVertex)
    : option (list GiFace * list GiVertex) :=
  let normalMatrix := GetTranspose (GetInverse transform) in
  let meshFaces := GetFaces mesh in
  let meshPoints := GetPoints mesh in
  let meshNormals := GetNormals mesh in
  let meshTexCoords := GetTexCoords mesh in
  let meshTangents := GetTangents mesh in
  let meshBitangentSigns := GetBitangentSigns mesh in
  let calcTangents := bool_decide (array meshTangents = []) in
  let calcBitangentSigns := bool_decide (array meshBitangentSigns = []) in
  let meshBitangentSigns :=
    if negb calcTangents && calcBitangentSigns then
      let signCount :=
        Nat.max (length (array meshNormals)) (length (array meshTangents)) in
      {| array := replicate signCount f_1;
         indexed := indexed meshNormals && indexed meshTangents |}
    else meshBitangentSigns in
  '(meshTangents, meshBitangentSigns) ←
    (if calcTangents then
       _CalculateTangents meshFaces meshPoints meshNormals meshTexCoords
     else Some (meshTangents, meshBitangentSigns));
  let isAnyPrimvarNotIndexed :=
    negb (indexed meshNormals) || negb (indexed meshTexCoords)
    || negb (indexed meshTangents) in
  let vertexOffset := wrap32 (Z.of_nat (length vertices)) in
  '(faces, vertices) ←
    bake_faces transform normalMatrix meshPoints meshNormals meshTexCoords
      meshTangents meshBitangentSigns isAnyPrimvarNotIndexed vertexOffset 0
      meshFaces faces vertices;
  if isAnyPrimvarNotIndexed then Some (faces, vertices)
  else
    vertices ←
      bake_points transform normalMatrix meshNormals meshTexCoords meshTangents
        meshBitangentSigns 0 meshPoints vertices;
    Some (faces, vertices).


(** *** Facts *)

(** A baked vertex that holds the transformed [point]. *)
Definition holds_point (transform : matrix) (vertices : list GiVertex)
    (baked_index : Z) (point : GfVec3f) : Prop :=
  exists vertex,
    at_index vertices baked_index = Some vertex /\
    pos vertex = Transform transform point.

Lemma at_index_app_r {A} (l1 l2 : list A) (n : nat) :
  at_index (l1 ++ l2) (Z.of_nat (length l1) + Z.of_nat n) = l2 !! n.
Proof.
  unfold at_index.
  replace (Z.of_nat (length l1) + Z.of_nat n <? 0) with false
    by (symmetry; apply Z.ltb_ge; lia).
  replace (Z.to_nat (Z.of_nat (length l1) + Z.of_nat n)) with (length l1 + n)%nat by lia.
  now rewrite lookup_app_r, Nat.add_comm, Nat.add_sub by lia.
Qed.

Lemma at_index_Some {A} (l : list A) i x :
  at_index l i = Some x -> 0 <= i /\ l !! Z.to_nat i = Some x.
Proof.
  unfold at_index. destruct (Z.ltb_spec i 0); [discriminate|]. auto.
Qed.

Section LoopFacts.

Variable transform : matrix.
Variable normalMatrix : matrix.
Variable meshPoints : list GfVec3f.
Variable meshNormals : VertexAttr GfVec3f.
Variable meshTexCoords : VertexAttr GfVec2f.
Variable meshTangents : VertexAttr GfVec3f.
Variable meshBitangentSigns : VertexAttr float.

Local Abbreviation this_corner_vertex :=
  (corner_vertex transform normalMatrix meshPoints meshNormals meshTexCoords
     meshTangents meshBitangentSigns).
Local Abbreviation these_faces :=
  (bake_faces transform normalMatrix meshPoints meshNormals meshTexCoords
     meshTangents meshBitangentSigns).
Local Abbreviation these_points :=
  (bake_points transform normalMatrix meshNormals meshTexCoords meshTangents
     meshBitangentSigns).

Lemma corner_vertex_point i j vertex_index vertex :
  this_corner_vertex i j vertex_index = Some vertex ->
  exists point,
    at_index meshPoints vertex_index = Some point /\
    pos vertex = Transform transform point.
Proof.
  unfold corner_vertex. intros Hv.
  destruct (at_index meshPoints vertex_index) as [point|]; [|discriminate].
  cbn [mbind option_bind] in Hv.
  destruct (at_index (array meshNormals) _) as [normal|]; [|discriminate].
  cbn [mbind option_bind] in Hv.
  destruct (if hasTexCoords meshTexCoords then _ else _) as [texCoords|];
    [|discriminate].
  cbn [mbind option_bind] in Hv.
  destruct (at_index (array meshTangents) _) as [tangent|]; [|discriminate].
  cbn [mbind option_bind] in Hv.
  destruct (at_index (array meshBitangentSigns) _) as [sign|]; [|discriminate].
  cbn [mbind option_bind] in Hv. injection Hv as <-.
  exists point. split; reflexivity.
Qed.

(** With a primvar that is not indexed, face [i + n] gets the three
    vertices that are appended for it. *)
Lemma bake_faces_unindexed vertexOffset meshFaces :
  forall i faces vertices faces' vertices',
    these_faces true vertexOffset i meshFaces faces vertices = Some (faces', vertices') ->
    exists new_faces new_vertices,
      faces' = faces ++ new_faces /\ vertices' = vertices ++ new_vertices /\
      length new_faces = length meshFaces /\
      length new_vertices = (3 * length meshFaces)%nat /\
      forall n vertexIndices,
        meshFaces !! n = Some vertexIndices ->
        new_faces !! n =
          Some {| v_i := (wrap32 (vertexOffset + ((i + Z.of_nat n) * 3 + 0)),
                          wrap32 (vertexOffset + ((i + Z.of_nat n) * 3 + 1)),
                          wrap32 (vertexOffset + ((i + Z.of_nat n) * 3 + 2))) |} /\
        Forall2 (fun vertex_index k =>
                   exists vertex point,
                     new_vertices !! (3 * n + k)%nat = Some vertex /\
                     at_index meshPoints vertex_index = Some point /\
                     pos vertex = Transform transform point)
          (corners vertexIndices) [0; 1; 2]%nat.
Proof.
  induction meshFaces as [|[[i0 i1] i2] rest IH];
    intros i faces vertices faces' vertices' Hbake; cbn [bake_faces] in Hbake.
  - injection Hbake as <- <-. exists [], []. rewrite !app_nil_r.
    split; [reflexivity|]. split; [reflexivity|]. split; [reflexivity|].
    split; [reflexivity|]. intros n f Hn. discriminate.
  - destruct (this_corner_vertex i 0 i0) as [vertex0|] eqn:H0; [|discriminate].
    destruct (this_corner_vertex i 1 i1) as [vertex1|] eqn:H1; [|discriminate].
    destruct (this_corner_vertex i 2 i2) as [vertex2|] eqn:H2; [|discriminate].
    cbn [mbind option_bind] in Hbake.
    apply IH in Hbake as (nf & nv & -> & -> & Hlf & Hlv & Hrest).
    exists ({| v_i := (wrap32 (vertexOffset + (i * 3 + 0)),
                       wrap32 (vertexOffset + (i * 3 + 1)),
                       wrap32 (vertexOffset + (i * 3 + 2))) |} :: nf),
           ([vertex0; vertex1; vertex2] ++ nv).
    rewrite <- !app_assoc. split; [reflexivity|]. split; [reflexivity|].
    split; [cbn [length]; lia|]. split; [rewrite length_app; cbn [length]; lia|].
    intros [|n] f Hn.
    + injection Hn as <-. split.
      * change (Z.of_nat 0) with 0. now replace (i + 0) with i by lia.
      * destruct (corner_vertex_point _ _ _ _ H0) as (p0 & Hp0 & Hv0).
        destruct (corner_vertex_point _ _ _ _ H1) as (p1 & Hp1 & Hv1).
        destruct (corner_vertex_point _ _ _ _ H2) as (p2 & Hp2 & Hv2).
        cbn [corners]. repeat constructor.
        -- exists vertex0, p0. auto.
        -- exists vertex1, p1. auto.
        -- exists vertex2, p2. auto.
    + cbn [lookup list_lookup] in Hn. destruct (Hrest n f Hn) as [Hface Hcorners].
      split.
      * transitivity (nf !! n); [reflexivity|]. rewrite Hface.
        now replace (i + Z.of_nat (S n)) with (i + 1 + Z.of_nat n) by lia.
      * eapply Forall2_impl; [exact Hcorners|].
        intros vertex_index k (vertex & point & Hv & Hp & Hpos).
        exists vertex, point. split; [|auto].
        replace (3 * S n + k)%nat with (S (S (S (3 * n + k))))%nat by lia.
        exact Hv.
Qed.

(** With all primvars indexed the face loop only moves the vertex
    indices. *)
Lemma bake_faces_indexed vertexOffset meshFaces :
  forall i faces vertices faces' vertices',
    these_faces false vertexOffset i meshFaces faces vertices = Some (faces', vertices') ->
    vertices' = vertices /\
    exists new_faces,
      faces' = faces ++ new_faces /\ length new_faces = length meshFaces /\
      forall n i0 i1 i2,
        meshFaces !! n = Some (i0, i1, i2) ->
        new_faces !! n =
          Some {| v_i := (wrap32 (vertexOffset + i0), wrap32 (vertexOffset + i1),
                          wrap32 (vertexOffset + i2)) |}.
Proof.
  induction meshFaces as [|[[j0 j1] j2] rest IH];
    intros i faces vertices faces' vertices' Hbake; cbn [bake_faces] in Hbake.
  - injection Hbake as <- <-. split; [reflexivity|]. exists [].
    rewrite app_nil_r. split; [reflexivity|]. split; [reflexivity|].
    intros n i0 i1 i2 Hn. discriminate.
  - cbn [mbind option_bind] in Hbake.
    apply IH in Hbake as (-> & nf & -> & Hlf & Hrest).
    split; [reflexivity|].
    exists ({| v_i := (wrap32 (vertexOffset + j0), wrap32 (vertexOffset + j1),
                       wrap32 (vertexOffset + j2)) |} :: nf).
    rewrite <- app_assoc. split; [reflexivity|]. split; [cbn [length]; lia|].
    intros [|n] i0 i1 i2 Hn.
    + now injection Hn as <- <- <-.
    + exact (Hrest n i0 i1 i2 Hn).
Qed.

Lemma bake_points_spec points :
  forall j vertices vertices',
    these_points j points vertices = Some vertices' ->
    exists new_vertices,
      vertices' = vertices ++ new_vertices /\
      length new_vertices = length points /\
      forall n point,
        points !! n = Some point ->
        exists vertex,
          new_vertices !! n = Some vertex /\ pos vertex = Transform transform point.
Proof.
  induction points as [|point rest IH]; intros j vertices vertices' Hbake;
    cbn [bake_points] in Hbake.
  - injection Hbake as <-. exists []. rewrite app_nil_r.
    split; [reflexivity|]. split; [reflexivity|]. intros n p Hn. discriminate.
  - destruct (at_index (array meshNormals) j) as [normal|]; [|discriminate].
    cbn [mbind option_bind] in Hbake.
    destruct (if hasTexCoords meshTexCoords then _ else _) as [texCoords|];
      [|discriminate].
    cbn [mbind option_bind] in Hbake.
    destruct (at_index (array meshTangents) j) as [tangent|]; [|discriminate].
    cbn [mbind option_bind] in Hbake.
    destruct (at_index (array meshBitangentSigns) j) as [sign|]; [|discriminate].
    cbn [mbind option_bind] in Hbake.
    apply IH in Hbake as (nv & -> & Hlen & Hrest).
    eexists (_ :: nv). rewrite <- app_assoc. split; [reflexivity|].
    split; [cbn [length]; lia|].
    intros [|n] p Hn.
    + injection Hn as <-. eexists. split; reflexivity.
    + exact (Hrest n p Hn).
Qed.

End LoopFacts.


Lemma holds_appended transform (vertices new_vertices : list GiVertex) k n vertex point :
  new_vertices !! n = Some vertex ->
  pos vertex = Transform transform point ->
  k = Z.of_nat (length vertices) + Z.of_nat n ->
  Z.of_nat (length (vertices ++ new_vertices)) < 2 ^ 32 ->
  holds_point transform (vertices ++ new_vertices) (wrap32 k) point.
Proof.
  intros Hv Hpos -> Hfit. exists vertex. split; [|exact Hpos].
  pose proof (lookup_lt_Some _ _ _ Hv) as Hn. rewrite length_app in Hfit.
  rewrite wrap32_small by lia. now rewrite at_index_app_r.
Qed.

(** X30. [_BakeMeshGeometry] keeps the geometry of the mesh: it appends one
    face per mesh face, and each corner of a baked face refers to a baked
    vertex that holds the transformed mesh point the corner of the mesh face
    refers to, whether the vertices are baked per point (all primvars
    indexed) or three per face. The vertex array must stay below [2 ^ 32]
    entries, the face's indices being [uint32_t]. *)
Theorem baked_corners_keep_their_points mesh transform materialIndex faces vertices
    faces' vertices' :
  _BakeMeshGeometry mesh transform materialIndex faces vertices
  = Some (faces', vertices') ->
  Z.of_nat (length vertices') < 2 ^ 32 ->
  exists new_faces new_vertices,
    faces' = faces ++ new_faces /\ vertices' = vertices ++ new_vertices /\
    length new_faces = length (GetFaces mesh) /\
    forall n vertexIndices face,
      GetFaces mesh !! n = Some vertexIndices ->
      new_faces !! n = Some face ->
      Forall2 (fun vertex_index baked_index =>
                 forall point,
                   at_index (GetPoints mesh) vertex_index = Some point ->
                   holds_point transform vertices' baked_index point)
        (corners vertexIndices) (corners (v_i face)).
Proof.
  unfold _BakeMeshGeometry. cbv zeta. intros Hbake Hfit.
  destruct (if bool_decide (array (GetTangents mesh) = []) then _ else _)
    as [[meshTangents meshBitangentSigns]|]; [|discriminate].
  cbn [mbind option_bind] in Hbake.
  set (isAny := negb (indexed (GetNormals mesh)) || negb (indexed (GetTexCoords mesh))
                || negb (indexed meshTangents)) in *.
  destruct (bake_faces _ _ _ _ _ _ _ isAny _ 0 _ faces vertices)
    as [[faces1 vertices1]|] eqn:Hfaces; [|discriminate].
  cbn [mbind option_bind] in Hbake.
  destruct isAny.
  - injection Hbake as <- <-.
    apply bake_faces_unindexed in Hfaces as (nf & nv & -> & -> & Hlf & Hlv & Hall).
    exists nf, nv. split; [reflexivity|]. split; [reflexivity|]. split; [exact Hlf|].
    intros n [[i0 i1] i2] face Hn Hface.
    destruct (Hall n _ Hn) as [Hface' Hcorners]. rewrite Hface' in Hface.
    injection Hface as <-. cbn [v_i corners] in *.
    assert (Hoff : wrap32 (Z.of_nat (length vertices)) = Z.of_nat (length vertices))
      by (apply wrap32_small; rewrite length_app in Hfit; lia).
    rewrite Hoff.
    inversion Hcorners as [|? ? ? ? (v0 & p0 & Hv0 & Hp0 & Hpos0) Hc1]; subst.
    inversion Hc1 as [|? ? ? ? (v1 & p1 & Hv1 & Hp1 & Hpos1) Hc2]; subst.
    inversion Hc2 as [|? ? ? ? (v2 & p2 & Hv2 & Hp2 & Hpos2) _]; subst.
    repeat constructor; intros point Hpoint.
    + rewrite Hp0 in Hpoint. injection Hpoint as <-.
      apply (holds_appended transform vertices nv _ (3 * n + 0) v0); auto. lia.
    + rewrite Hp1 in Hpoint. injection Hpoint as <-.
      apply (holds_appended transform vertices nv _ (3 * n + 1) v1); auto. lia.
    + rewrite Hp2 in Hpoint. injection Hpoint as <-.
      apply (holds_appended transform vertices nv _ (3 * n + 2) v2); auto. lia.
  - apply bake_faces_indexed in Hfaces as (-> & nf & -> & Hlf & Hall).
    destruct (bake_points _ _ _ _ _ _ 0 _ vertices) as [vertices2|] eqn:Hpoints;
      [|discriminate].
    cbn [mbind option_bind] in Hbake. injection Hbake as <- <-.
    apply bake_points_spec in Hpoints as (nv & -> & Hlv & Hpts).
    exists nf, nv. split; [reflexivity|]. split; [reflexivity|]. split; [exact Hlf|].
    intros n [[i0 i1] i2] face Hn Hface.
    rewrite (Hall n i0 i1 i2 Hn) in Hface. injection Hface as <-.
    cbn [v_i corners].
    assert (Hoff : wrap32 (Z.of_nat (length vertices)) = Z.of_nat (length vertices))
      by (apply wrap32_small; rewrite length_app in Hfit; lia).
    rewrite Hoff.
    repeat constructor; intros point Hpoint;
      apply at_index_Some in Hpoint as [Hnn Hpoint];
      destruct (Hpts _ _ Hpoint) as (vertex & Hv & Hpos);
      apply (holds_appended transform vertices nv _ _ vertex point Hv Hpos); auto; lia.
Qed.

End Baking.

(** *** A small mesh *)

(** Integers stand in for floats, a matrix is a shift along all three axes,
    and normalizing does nothing. *)
Definition lift2 (f : Z -> Z -> Z) (a b : Z * Z * Z) : Z * Z * Z :=
  let '(a0, a1, a2) := a in
  let '(b0, b1, b2) := b in (f a0 b0, f a1 b1, f a2 b2).

Definition int_dot (a b : Z * Z * Z) : Z :=
  let '(a0, a1, a2) := a in
  let '(b0, b1, b2) := b in a0 * b0 + a1 * b1 + a2 * b2.

Definition int_cross (a b : Z * Z * Z) : Z * Z * Z :=
  let '(a0, a1, a2) := a in
  let '(b0, b1, b2) := b in
  (a1 * b2 - a2 * b1, a2 * b0 - a0 * b2, a0 * b1 - a1 * b0).

Definition int_shift (m : Z) (a : Z * Z * Z) : Z * Z * Z :=
  let '(a0, a1, a2) := a in (a0 + m, a1 + m, a2 + m).

Definition sample_bake :=
  _BakeMeshGeometry (float:=Z) (matrix:=Z)
    Z.add Z.sub Z.mul Z.div Z.opp Z.abs Z.abs Z.gtb Z.geb Z.ltb Z.leb 0 1 0 0
    (lift2 Z.add) (lift2 Z.sub) (fun a k => lift2 Z.mul a (k, k, k)) int_dot int_cross
    id (fun a => int_dot a a) id Z.opp id int_shift (fun _ a => a).

(** Two triangles over four points, with a normal per face corner, no
    texture coordinates and no authored tangents. *)
Definition sample_mesh : HdGatlingMesh (float:=Z) :=
  {| GetFaces := [(0, 1, 2); (2, 1, 3)];
     GetPoints := [(0, 0, 0); (1, 0, 0); (0, 1, 0); (1, 1, 0)];
     GetNormals :=
       {| array := [(0, 0, 1); (0, 0, 1); (0, 0, 1); (0, 0, 1); (0, 0, 1); (0, 0, 1)];
          indexed := false |};
     GetTexCoords := {| array := []; indexed := true |};
     GetTangents := {| array := []; indexed := true |};
     GetBitangentSigns := {| array := []; indexed := true |} |}.

Definition sample_baked : list GiFace * list (GiVertex (float:=Z)) :=
  default ([], []) (sample_bake sample_mesh 10 0 [] []).

Lemma sample_bake_result : sample_bake sample_mesh 10 0 [] [] = Some sample_baked.
Proof. vm_compute. reflexivity. Qed.

Lemma baked_corners_keep_their_points_witness :
  fst sample_baked !! 1%nat = Some {| v_i := (3, 4, 5) |} /\
  holds_point int_shift 10 (snd sample_baked) 5 (1, 1, 0).
Proof.
  assert (Hface : fst sample_baked !! 1%nat = Some {| v_i := (3, 4, 5) |})
    by (vm_compute; reflexivity).
  split; [exact Hface|].
  destruct (baked_corners_keep_their_points
              Z.add Z.sub Z.mul Z.div Z.opp Z.abs Z.abs Z.gtb Z.geb Z.ltb Z.leb 0 1 0 0
              (lift2 Z.add) (lift2 Z.sub) (fun a k => lift2 Z.mul a (k, k, k))
              int_dot int_cross id (fun a => int_dot a a) id Z.opp id int_shift
              (fun _ a => a) sample_mesh 10 0 [] [] (fst sample_baked)
              (snd sample_baked))
    as (new_faces & new_vertices & Hfaces & _ & _ & Hcorners).
  - rewrite <- surjective_pairing. exact sample_bake_result.
  - vm_compute. reflexivity.
  - cbn [app] in Hfaces. subst new_faces.
    specialize (Hcorners 1%nat (2, 1, 3) {| v_i := (3, 4, 5) |} eq_refl Hface).
    cbn [corners v_i] in Hcorners.
    inversion Hcorners as [|? ? ? ? _ Hc1]; subst.
    inversion Hc1 as [|? ? ? ? _ Hc2]; subst.
    inversion Hc2 as [|? ? ? ? Hthird _]; subst.
    exact (Hthird (1, 1, 0) eq_refl).
Defined.

End MeshBaking.

(** ** Translating material networks ([MaterialNetworkTranslator.cpp]) *)

Module MaterialNetwork.

(** A [TfToken] is its string. *)
Definition TfToken : Type := string.

(** The private tokens: USD node types and their MaterialX equivalents. *)
Definition UsdPreviewSurface : TfToken := "UsdPreviewSurface"%string.
Definition UsdUVTexture : TfToken := "UsdUVTexture"%string.
Definition UsdTransform2d : TfToken := "UsdTransform2d"%string.
Definition UsdPrimvarReader_float : TfToken := "UsdPrimvarReader_float"%string.
Definition UsdPrimvarReader_float2 : TfToken := "UsdPrimvarReader_float2"%string.
Definition UsdPrimvarReader_float3 : TfToken := "UsdPrimvarReader_float3"%string.
Definition UsdPrimvarReader_float4 : TfToken := "UsdPrimvarReader_float4"%string.
Definition UsdPrimvarReader_int : TfToken := "UsdPrimvarReader_int"%string.
Definition UsdPrimvarReader_string : TfToken := "UsdPrimvarReader_string"%string.
Definition UsdPrimvarReader_normal : TfToken := "UsdPrimvarReader_normal"%string.
Definition UsdPrimvarReader_point : TfToken := "UsdPrimvarReader_point"%string.
Definition UsdPrimvarReader_vector : TfToken := "UsdPrimvarReader_vector"%string.
Definition UsdPrimvarReader_matrix : TfToken := "UsdPrimvarReader_matrix"%string.
Definition ND_UsdPreviewSurface_surfaceshader : TfToken :=
  "ND_UsdPreviewSurface_surfaceshader"%string.
Definition ND_UsdUVTexture : TfToken := "ND_UsdUVTexture"%string.
Definition ND_UsdPrimvarReader_integer : TfToken := "ND_UsdPrimvarReader_integer"%string.
Definition ND_UsdPrimvarReader_boolean : TfToken := "ND_UsdPrimvarReader_boolean"%string.
Definition ND_UsdPrimvarReader_string : TfToken := "ND_UsdPrimvarReader_string"%string.
Definition ND_UsdPrimvarReader_float : TfToken := "ND_UsdPrimvarReader_float"%string.
Definition ND_UsdPrimvarReader_vector2 : TfToken := "ND_UsdPrimvarReader_vector2"%string.
Definition ND_UsdPrimvarReader_vector3 : TfToken := "ND_UsdPrimvarReader_vector3"%string.
Definition ND_UsdPrimvarReader_vector4 : TfToken := "ND_UsdPrimvarReader_vector4"%string.
Definition ND_UsdTransform2d : TfToken := "ND_UsdTransform2d"%string.
Definition ND_UsdPrimvarReader_matrix44 : TfToken := "ND_UsdPrimvarReader_matrix44"%string.

Section Translator.

(** Paths, parameter maps and input connections are carried along; the
    shader registry answers whether a node type is a MaterialX node. *)
Context {SdfPath : Type} `{EqDecision SdfPath}.
Context {parameter_map connection_map : Type}.
Variable is_mtlx_shader_node : TfToken -> bool.
Variable surface : TfToken.

Record HdMaterialNode2 := {
  nodeTypeId : TfToken;
  parameters : parameter_map;
  inputConnections : connection_map;
}.

Record HdMaterialConnection2 := {
  upstreamNode : SdfPath;
  upstreamOutputName : TfToken;
}.

(** [nodes] and [terminals] are [std::map]s: their entries in key order. *)
Record HdMaterialNetwork2 := {
  nodes : list (SdfPath * HdMaterialNode2);
  terminals : list (TfToken * HdMaterialConnection2);
  primvars : list TfToken;
}.

(** [std::map::find]. *)
Definition map_find {K V} `{EqDecision K} (m : list (K * V)) (key : K) : option V :=
  option_map snd (find (fun entry => bool_decide (fst entry = key)) m).

(** The chain of comparisons in the loop body of
    [_ConvertNodesToMaterialXNodes]; [None] is the final [else]. *)
Definition materialx_equivalent (nodeTypeId : TfToken) : option TfToken :=
  if bool_decide (nodeTypeId = UsdPreviewSurface) then
    Some ND_UsdPreviewSurface_surfaceshader
  else if bool_decide (nodeTypeId = UsdUVTexture) then Some ND_UsdUVTexture
  else if bool_decide (nodeTypeId = UsdTransform2d) then Some ND_UsdTransform2d
  else if bool_decide (nodeTypeId = UsdPrimvarReader_float) then
    Some ND_UsdPrimvarReader_float
  else if bool_decide (nodeTypeId = UsdPrimvarReader_float2) then
    Some ND_UsdPrimvarReader_vector2
  else if bool_decide (nodeTypeId = UsdPrimvarReader_float3) then
    Some ND_UsdPrimvarReader_vector3
  else if bool_decide (nodeTypeId = UsdPrimvarReader_float4) then
    Some ND_UsdPrimvarReader_vector4
  else if bool_decide (nodeTypeId = UsdPrimvarReader_int) then
    Some ND_UsdPrimvarReader_integer
  else if bool_decide (nodeTypeId = UsdPrimvarReader_string) then
    Some ND_UsdPrimvarReader_string
  else if bool_decide (nodeTypeId = UsdPrimvarReader_normal) then
    Some ND_UsdPrimvarReader_vector3
  else if bool_decide (nodeTypeId = UsdPrimvarReader_point) then
    Some ND_UsdPrimvarReader_vector3
  else if bool_decide (nodeTypeId = UsdPrimvarReader_vector) then
    Some ND_UsdPrimvarReader_vector3
  else if bool_decide (nodeTypeId = UsdPrimvarReader_matrix) then
    Some ND_UsdPrimvarReader_matrix44
  else None.

Definition with_type (node : HdMaterialNode2) (t : TfToken) : HdMaterialNode2 :=
  {| nodeTypeId := t; parameters := parameters node;
     inputConnections := inputConnections node |}.

(** The loop over [mtlxNetwork.nodes]: the return value and the nodes as the
    loop leaves them. When it returns [false], the nodes before the one that
    could not be translated have been rewritten already. *)
Fixpoint convert_nodes (ns : list (SdfPath * HdMaterialNode2))
    : bool * list (SdfPath * HdMaterialNode2) :=
  match ns with
  | [] => (true, [])
  | (path, node) :: rest =>
      if is_mtlx_shader_node (nodeTypeId node) then
        let '(ok, rest') := convert_nodes rest in (ok, (path, node) :: rest')
      else
        match materialx_equivalent (nodeTypeId node) with
        | Some t =>
            let '(ok, rest') := convert_nodes rest in
            (ok, (path, with_type node t) :: rest')
        | None => (false, (path, node) :: rest)
        end
  end.

(** [_ConvertNodesToMaterialXNodes]: the return value and [mtlxNetwork]. *)
Definition _ConvertNodesToMaterialXNodes (network : HdMaterialNetwork2)
    : bool * HdMaterialNetwork2 :=
  let '(ok, ns) := convert_nodes (nodes network) in
  (ok, {| nodes := ns; terminals := terminals network; primvars := primvars network |}).

(** [_GetMaterialNetworkSurfaceTerminal]: the return value and the two
    out-parameters, which start as the caller passes them. *)
Definition _GetMaterialNetworkSurfaceTerminal (network2 : HdMaterialNetwork2)
    (terminalNode : HdMaterialNode2) (terminalPath : SdfPath)
    : bool * HdMaterialNode2 * SdfPath :=
  match map_find (terminals network2) surface with
  | None => (false, terminalNode, terminalPath)
  | Some connection =>
      let terminalPath := upstreamNode connection in
      match map_find (nodes network2) terminalPath with
      | None => (false, terminalNode, terminalPath)
      | Some node => (true, node, terminalPath)
      end
  end.


(** *** Facts *)

(** What the conversion may do to a node: nothing, when the registry knows
    its type as a MaterialX node; else replace the type by its MaterialX
    equivalent. *)
Definition converted (node node' : HdMaterialNode2) : Prop :=
  parameters node' = parameters node /\
  inputConnections node' = inputConnections node /\
  ((is_mtlx_shader_node (nodeTypeId node) = true /\
    nodeTypeId node' = nodeTypeId node) \/
   (is_mtlx_shader_node (nodeTypeId node) = false /\
    materialx_equivalent (nodeTypeId node) = Some (nodeTypeId node'))).

Lemma convert_nodes_converted ns :
  forall ns',
    convert_nodes ns = (true, ns') ->
    Forall2 (fun entry entry' =>
               fst entry' = fst entry /\ converted (snd entry) (snd entry')) ns ns'.
Proof.
  induction ns as [|[path node] rest IH]; intros ns' Hconv; cbn [convert_nodes] in Hconv.
  - injection Hconv as <-. constructor.
  - destruct (is_mtlx_shader_node (nodeTypeId node)) eqn:Hreg.
    + destruct (convert_nodes rest) as [ok rest'].
      injection Hconv as -> <-. constructor; [|now apply IH].
      cbn [fst snd]. split; [reflexivity|]. unfold converted. auto.
    + destruct (materialx_equivalent (nodeTypeId node)) as [t|] eqn:Ht; [|discriminate].
      destruct (convert_nodes rest) as [ok rest'].
      injection Hconv as -> <-. constructor; [|now apply IH].
      cbn [fst snd]. split; [reflexivity|]. unfold converted, with_type.
      cbn [parameters inputConnections nodeTypeId]. auto.
Qed.

Lemma map_find_converted (ns ns' : list (SdfPath * HdMaterialNode2)) key :
  Forall2 (fun entry entry' =>
             fst entry' = fst entry /\ converted (snd entry) (snd entry')) ns ns' ->
  match map_find ns key, map_find ns' key with
  | Some node, Some node' => converted node node'
  | None, None => True
  | _, _ => False
  end.
Proof.
  unfold map_find. induction 1 as [|[p n] [p' n'] ns ns' [Hkey Hc] _ IH]; [exact I|].
  cbn [fst snd] in Hkey, Hc. subst p'. cbn [find fst].
  destruct (bool_decide (p = key)); [exact Hc | exact IH].
Qed.

(** X25. A successful [_ConvertNodesToMaterialXNodes] does not disturb the
    lookup of the surface terminal: [_GetMaterialNetworkSurfaceTerminal]
    succeeds on the converted network exactly when it does on the original,
    with the same terminal path, and the terminal node it yields has the same
    parameters and input connections; its type is the original one when the
    registry knows that as a MaterialX node, and otherwise the MaterialX
    equivalent of the original type. *)
Theorem conversion_keeps_surface_terminal network mtlxNetwork node0 path0 :
  _ConvertNodesToMaterialXNodes network = (true, mtlxNetwork) ->
  let '(found, node, path) :=
    _GetMaterialNetworkSurfaceTerminal network node0 path0 in
  let '(found', node', path') :=
    _GetMaterialNetworkSurfaceTerminal mtlxNetwork node0 path0 in
  found' = found /\ path' = path /\
  (found = true -> converted node node') /\
  (found = false -> node' = node).
Proof.
  unfold _ConvertNodesToMaterialXNodes.
  destruct (convert_nodes (nodes network)) as [ok ns'] eqn:Hconv.
  intros [= -> <-]. apply convert_nodes_converted in Hconv.
  unfold _GetMaterialNetworkSurfaceTerminal. cbn [terminals nodes].
  destruct (map_find (terminals network) surface) as [connection|].
  - pose proof (map_find_converted _ _ (upstreamNode connection) Hconv) as Hfind.
    destruct (map_find (nodes network) (upstreamNode connection)) as [node|],
      (map_find ns' (upstreamNode connection)) as [node'|]; try contradiction.
    + split; [reflexivity|]. split; [reflexivity|].
      split; [intros _; exact Hfind | discriminate].
    + split; [reflexivity|]. split; [reflexivity|].
      split; [discriminate | reflexivity].
  - split; [reflexivity|]. split; [reflexivity|].
    split; [discriminate | reflexivity].
Qed.

End Translator.

(** *** A small network *)

Definition sample_registry (t : TfToken) : bool :=
  bool_decide (t = "ND_standard_surface_surfaceshader"%string).

Definition sample_network : HdMaterialNetwork2 (SdfPath:=Z) :=
  {| nodes :=
       [ (1, {| nodeTypeId := UsdPreviewSurface; parameters := 10;
                inputConnections := [2] |});
         (2, {| nodeTypeId := UsdUVTexture; parameters := 20;
                inputConnections := [] |}) ];
     terminals :=
       [ ("surface"%string,
          {| upstreamNode := 1; upstreamOutputName := "surface"%string |}) ];
     primvars := [] |}.

Definition blank_node : HdMaterialNode2 (parameter_map:=Z) (connection_map:=list Z) :=
  {| nodeTypeId := EmptyString; parameters := 0; inputConnections := [] |}.

Lemma conversion_keeps_surface_terminal_witness :
  exists mtlxNetwork node,
    _ConvertNodesToMaterialXNodes sample_registry sample_network = (true, mtlxNetwork) /\
    _GetMaterialNetworkSurfaceTerminal "surface"%string mtlxNetwork blank_node 0
    = (true, node, 1) /\
    parameters node = 10.
Proof.
  destruct (_ConvertNodesToMaterialXNodes sample_registry sample_network)
    as [ok mtlxNetwork] eqn:Hconv.
  assert (Hok : ok = true) by (vm_compute in Hconv; congruence). subst ok.
  pose proof (conversion_keeps_surface_terminal sample_registry "surface"%string
                sample_network mtlxNetwork blank_node 0 Hconv) as Hkeep.
  assert (Horig : _GetMaterialNetworkSurfaceTerminal "surface"%string sample_network
                    blank_node 0
                  = (true, {| nodeTypeId := UsdPreviewSurface; parameters := 10;
                              inputConnections := [2] |}, 1))
    by (vm_compute; reflexivity).
  rewrite Horig in Hkeep.
  destruct (_GetMaterialNetworkSurfaceTerminal "surface"%string mtlxNetwork blank_node 0)
    as [[found' node'] path'] eqn:Hget.
  destruct Hkeep as (-> & -> & Hconverted & _).
  exists mtlxNetwork, node'. split; [reflexivity|]. split; [exact Hget|].
  exact (proj1 (Hconverted eq_refl)).
Defined.

End MaterialNetwork.

(** ** Gamma correction in the command-line renderer ([main.cpp]) *)

Module Gatling.

Section Gamma.

(** Single-precision arithmetic, [std::pow] and [std::abs] are left open, as
    are the five float literals. *)
Context {float : Type}.
Variable fmul : float -> float -> float.
Variable fsub : float -> float -> float.
Variable fdiv : float -> float -> float.
Variable fleb : float -> float -> bool.
Variable std_pow : float -> float -> float.
Variable std_abs : float -> float.
Variable f_12_92 : float.
Variable f_1_0 : float.
Variable f_2_4 : float.
Variable f_1_055 : float.
Variable f_0_055 : float.
Variable f_0_0031308 : float.

Definition AccurateLinearToSrgb (linearValue : float) : float :=
  let sRgbLo := fmul linearValue f_12_92 in
  let sRgbHi :=
    fsub (fmul (std_pow (std_abs linearValue) (fdiv f_1_0 f_2_4)) f_1_055) f_0_055 in
  if fleb linearValue f_0_0031308 then sRgbLo else sRgbHi.

(** The mapped render buffer, by float index. *)
Definition float_mem : Type := Z -> float.

Definition store (m : float_mem) (i : Z) (v : float) : float_mem :=
  fun j => if j =? i then v else m j.

(** One pass through the body of the loop. *)
Definition correct_pixel (mappedMem : float_mem) (i : Z) : float_mem :=
  let m := store mappedMem (i * 4 + 0) (AccurateLinearToSrgb (mappedMem (i * 4 + 0))) in
  let m := store m (i * 4 + 1) (AccurateLinearToSrgb (m (i * 4 + 1))) in
  store m (i * 4 + 2) (AccurateLinearToSrgb (m (i * 4 + 2))).

(** [for (int i = ...; i < pixelCount; i++)], with [n] passes to go. *)
Fixpoint correct_pixels (n : nat) (i : Z) (mappedMem : float_mem) : float_mem :=
  match n with
  | O => mappedMem
  | S n' => correct_pixels n' (i + 1) (correct_pixel mappedMem i)
  end.

(** An [unsigned int] read as [int]. *)
Definition to_int (z : Z) : Z := if z <? 2 ^ 31 then z else z - 2 ^ 32.

(** The gamma correction step of [main]. *)
Definition gamma_correction (gammaCorrection : bool) (width height : Z)
    (mappedMem : float_mem) : float_mem :=
  if gammaCorrection then
    let pixelCount := to_int (wrap32 (width * height)) in
    correct_pixels (Z.to_nat pixelCount) 0 mappedMem
  else mappedMem.

Lemma correct_pixel_spec m i k :
  correct_pixel m i k =
  if (i * 4 <=? k) && (k <=? i * 4 + 2) then AccurateLinearToSrgb (m k) else m k.
Proof.
  unfold correct_pixel, store.
  repeat match goal with
         | |- context [?a =? ?b] => destruct (Z.eqb_spec a b); try lia
         end;
    subst;
    repeat match goal with
           | |- context [?a <=? ?b] => destruct (Z.leb_spec a b); try lia
           end;
    cbn [andb]; try reflexivity; try lia.
Qed.

Lemma correct_pixels_spec n :
  forall i m k,
    correct_pixels n i m k =
    if (i * 4 <=? k) && (k <? (i + Z.of_nat n) * 4) && negb (k mod 4 =? 3)
    then AccurateLinearToSrgb (m k) else m k.
Proof.
  induction n as [|n IH]; intros i m k; cbn [correct_pixels].
  - replace ((i * 4 <=? k) && (k <? (i + Z.of_nat 0) * 4)) with false;
      [reflexivity|].
    symmetry. apply andb_false_iff.
    destruct (Z.leb_spec (i * 4) k); [right; apply Z.ltb_ge; lia | now left].
  - rewrite IH, correct_pixel_spec.
    destruct (Z.leb_spec (i * 4) k), (Z.leb_spec ((i + 1) * 4) k),
      (Z.leb_spec k (i * 4 + 2)), (Z.ltb_spec k ((i + 1 + Z.of_nat n) * 4)),
      (Z.ltb_spec k ((i + Z.of_nat (S n)) * 4)), (Z.eqb_spec (k mod 4) 3);
      cbn [andb negb]; try reflexivity; try lia;
      exfalso; Z.div_mod_to_equations; lia.
Qed.

(** X28. With gamma correction on, every red, green and blue value of the
    [width * height] pixels is replaced by [AccurateLinearToSrgb] of its
    original value, once; the alpha values and everything behind the image
    are left as they were. The pixel count must fit the [int] arithmetic of
    the loop. *)
Theorem gamma_correction_converts_rgb_once width height mappedMem k :
  0 <= width * height -> 4 * (width * height) < 2 ^ 31 ->
  gamma_correction true width height mappedMem k =
  if (0 <=? k) && (k <? 4 * (width * height)) && negb (k mod 4 =? 3)
  then AccurateLinearToSrgb (mappedMem k) else mappedMem k.
Proof.
  intros Hnn Hfit. unfold gamma_correction.
  rewrite wrap32_small by lia. unfold to_int.
  replace (width * height <? 2 ^ 31) with true by (symmetry; apply Z.ltb_lt; lia).
  rewrite correct_pixels_spec, Z2Nat.id by exact Hnn.
  replace (0 * 4) with 0 by reflexivity.
  replace ((0 + width * height) * 4) with (4 * (width * height)) by lia.
  reflexivity.
Qed.

End Gamma.

Lemma gamma_correction_converts_rgb_once_witness :
  gamma_correction Z.mul Z.sub Z.div Z.leb Z.pow Z.abs 13 2 1 1 0 0 true 2 1
    (fun k => k) 5 = 25 /\
  gamma_correction Z.mul Z.sub Z.div Z.leb Z.pow Z.abs 13 2 1 1 0 0 true 2 1
    (fun k => k) 7 = 7.
Proof.
  split.
  - rewrite (gamma_correction_converts_rgb_once Z.mul Z.sub Z.div Z.leb Z.pow Z.abs
               13 2 1 1 0 0 2 1 (fun k => k) 5); [reflexivity | lia | lia].
  - vm_compute. reflexivity.
Defined.

End Gatling.

(** ** The device abstraction ([cgpu.c], [resource_store.c]) *)

Module Cgpu.

(** *** Handles and the handle store *)

(** A 64-bit handle: a slot index and the generation it was issued for. *)
Record handle := { h_index : Z; h_version : Z }.

Record slot := { slot_version : Z; slot_allocated : bool }.

(** Modelled from the spec: [handle_store.c] is not part of the sources at
    hand. A slab of slots, each with a generation counter; freed slots go to
    a free list with their generation incremented; a handle is valid iff its
    slot is allocated and its generation is the slot's current one; freeing
    a handle that is not valid changes nothing. *)
Record handle_store := {
  slots : gmap Z slot;
  max_index : Z;
  free_indices : list Z
}.

Definition handle_store_create : handle_store :=
  {| slots := ∅; max_index := 0; free_indices := [] |}.

Definition handle_store_is_handle_valid (hs : handle_store) (h : handle) : bool :=
  match slots hs !! h_index h with
  | Some s => slot_allocated s && (slot_version s =? h_version h)
  | None => false
  end.

Definition handle_store_create_handle (hs : handle_store) : handle * handle_store :=
  match free_indices hs with
  | i :: rest =>
      let v := match slots hs !! i with Some s => slot_version s | None => 0 end in
      ({| h_index := i; h_version := v |},
       {| slots := <[i := {| slot_version := v; slot_allocated := true |}]> (slots hs);
          max_index := max_index hs;
          free_indices := rest |})
  | [] =>
      let i := max_index hs in
      ({| h_index := i; h_version := 0 |},
       {| slots := <[i := {| slot_version := 0; slot_allocated := true |}]> (slots hs);
          max_index := i + 1;
          free_indices := [] |})
  end.

Definition handle_store_free_handle (hs : handle_store) (h : handle) : handle_store :=
  if handle_store_is_handle_valid hs h then
    {| slots := <[h_index h :=
                  {| slot_version := h_version h + 1; slot_allocated := false |}]> (slots hs);
       max_index := max_index hs;
       free_indices := h_index h :: free_indices hs |}
  else hs.

Definition handle_store_get_index (h : handle) : Z := h_index h.

(** *** The resource store ([resource_store.c]) *)

(** The slab of objects is kept as a map from slot index to object; a slot
    never written holds [blank] (the slab is not initialised). The growth of
    the slab in [resource_store_get] does not show at this level. *)
Record resource_store (A : Type) := {
  store_handles : handle_store;
  objects : gmap Z A;
  blank : A
}.
Arguments store_handles {A} _.
Arguments objects {A} _.
Arguments blank {A} _.

Definition resource_store_create {A} (blank : A) : resource_store A :=
  {| store_handles := handle_store_create; objects := ∅; blank := blank |}.

Definition resource_store_create_handle {A} (rs : resource_store A)
    : handle * resource_store A :=
  let '(h, hs) := handle_store_create_handle (store_handles rs) in
  (h, {| store_handles := hs; objects := objects rs; blank := blank rs |}).

Definition resource_store_free_handle {A} (rs : resource_store A) (h : handle)
    : resource_store A :=
  {| store_handles := handle_store_free_handle (store_handles rs) h;
     objects := objects rs; blank := blank rs |}.

Definition resource_store_get {A} (rs : resource_store A) (h : handle) : option A :=
  if handle_store_is_handle_valid (store_handles rs) h then
    Some (default (blank rs) (objects rs !! handle_store_get_index h))
  else None.

(** A store through the pointer [resource_store_get] returned. *)
Definition resource_store_put {A} (rs : resource_store A) (h : handle) (v : A)
    : resource_store A :=
  {| store_handles := store_handles rs;
     objects := <[handle_store_get_index h := v]> (objects rs);
     blank := blank rs |}.

(** A handle is live when [resource_store_get] resolves it. *)
Definition live {A} (rs : resource_store A) (h : handle) : bool :=
  handle_store_is_handle_valid (store_handles rs) h.

Lemma create_handle_valid hs :
  handle_store_is_handle_valid (snd (handle_store_create_handle hs))
    (fst (handle_store_create_handle hs)) = true.
Proof.
  unfold handle_store_create_handle, handle_store_is_handle_valid.
  destruct (free_indices hs) as [|i rest]; cbn [fst snd slots h_index h_version];
    rewrite lookup_insert_eq; cbn [slot_allocated slot_version andb];
    apply Z.eqb_refl.
Qed.

Lemma free_handle_invalid hs h :
  handle_store_is_handle_valid (handle_store_free_handle hs h) h = false.
Proof.
  unfold handle_store_free_handle.
  destruct (handle_store_is_handle_valid hs h) eqn:E; [|exact E].
  unfold handle_store_is_handle_valid. cbn [slots].
  rewrite lookup_insert_eq. reflexivity.
Qed.

Lemma resource_create_live {A} (rs : resource_store A) :
  live (snd (resource_store_create_handle rs)) (fst (resource_store_create_handle rs)) = true.
Proof.
  unfold resource_store_create_handle, live.
  pose proof (create_handle_valid (store_handles rs)) as H.
  destruct (handle_store_create_handle (store_handles rs)) as [h hs]. exact H.
Qed.

Lemma resource_free_not_live {A} (rs : resource_store A) h :
  live (resource_store_free_handle rs h) h = false.
Proof. unfold live, resource_store_free_handle. cbn. apply free_handle_invalid. Qed.

(** *** Resource constructors *)

(** What a constructor leaves behind: its return value, the handle written
    to the caller's out-parameter (if it got that far) and the store. *)
Record creation (A : Type) := {
  succeeded : bool;
  out_handle : option handle;
  store_after : resource_store A
}.
Arguments succeeded {A} _.
Arguments out_handle {A} _.
Arguments store_after {A} _.

Definition fail_early {A} (rs : resource_store A) : creation A :=
  {| succeeded := false; out_handle := None; store_after := rs |}.

Section Constructors.

(** The device store is only read by the constructors below. *)
Context {D : Type} (idevice_store : resource_store D).
Context {A : Type}.

(** [cgpu_create_sampler]: one driver call, [vkCreateSampler]. *)
Definition cgpu_create_sampler (device : handle) (vkCreateSampler_ok : bool)
    (isampler : A) (isampler_store : resource_store A) : creation A :=
  match resource_store_get idevice_store device with
  | None => fail_early isampler_store
  | Some _ =>
      let '(h, st) := resource_store_create_handle isampler_store in
      match resource_store_get st h with
      | None => {| succeeded := false; out_handle := Some h; store_after := st |}
      | Some _ =>
          if negb vkCreateSampler_ok then
            {| succeeded := false; out_handle := Some h;
               store_after := resource_store_free_handle st h |}
          else
            {| succeeded := true; out_handle := Some h;
               store_after := resource_store_put st h isampler |}
      end
  end.

(** [cgpu_create_fence]: one driver call, [vkCreateFence]. *)
Definition cgpu_create_fence (device : handle) (vkCreateFence_ok : bool)
    (ifence : A) (ifence_store : resource_store A) : creation A :=
  match resource_store_get idevice_store device with
  | None => fail_early ifence_store
  | Some _ =>
      let '(h, st) := resource_store_create_handle ifence_store in
      match resource_store_get st h with
      | None => {| succeeded := false; out_handle := Some h; store_after := st |}
      | Some _ =>
          if negb vkCreateFence_ok then
            {| succeeded := false; out_handle := Some h;
               store_after := resource_store_free_handle st h |}
          else
            {| succeeded := true; out_handle := Some h;
               store_after := resource_store_put st h ifence |}
      end
  end.

(** [cgpu_create_buffer]: one driver call, [vmaCreateBuffer]. *)
Definition cgpu_create_buffer (device : handle) (vmaCreateBuffer_ok : bool)
    (ibuffer : A) (ibuffer_store : resource_store A) : creation A :=
  match resource_store_get idevice_store device with
  | None => fail_early ibuffer_store
  | Some _ =>
      let '(h, st) := resource_store_create_handle ibuffer_store in
      match resource_store_get st h with
      | None => {| succeeded := false; out_handle := Some h; store_after := st |}
      | Some _ =>
          if negb vmaCreateBuffer_ok then
            {| succeeded := false; out_handle := Some h;
               store_after := resource_store_free_handle st h |}
          else
            {| succeeded := true; out_handle := Some h;
               store_after := resource_store_put st h ibuffer |}
      end
  end.

(** [cgpu_create_shader]: [vkCreateShaderModule], then the reflection. *)
Definition cgpu_create_shader (device : handle)
    (vkCreateShaderModule_ok reflection_ok : bool)
    (ishader : A) (ishader_store : resource_store A) : creation A :=
  match resource_store_get idevice_store device with
  | None => fail_early ishader_store
  | Some _ =>
      let '(h, st) := resource_store_create_handle ishader_store in
      match resource_store_get st h with
      | None => {| succeeded := false; out_handle := Some h; store_after := st |}
      | Some _ =>
          if negb vkCreateShaderModule_ok then
            {| succeeded := false; out_handle := Some h;
               store_after := resource_store_free_handle st h |}
          else if negb reflection_ok then
            {| succeeded := false; out_handle := Some h;
               store_after := resource_store_free_handle st h |}
          else
            {| succeeded := true; out_handle := Some h;
               store_after := resource_store_put st h ishader |}
      end
  end.

(** [cgpu_create_image]: [vmaCreateImage], then [vkCreateImageView]. *)
Definition cgpu_create_image (device : handle)
    (vmaCreateImage_ok vkCreateImageView_ok : bool)
    (iimage : A) (iimage_store : resource_store A) : creation A :=
  match resource_store_get idevice_store device with
  | None => fail_early iimage_store
  | Some _ =>
      let '(h, st) := resource_store_create_handle iimage_store in
      match resource_store_get st h with
      | None => {| succeeded := false; out_handle := Some h; store_after := st |}
      | Some _ =>
          if negb vmaCreateImage_ok then
            {| succeeded := false; out_handle := Some h;
               store_after := resource_store_free_handle st h |}
          else if negb vkCreateImageView_ok then
            {| succeeded := false; out_handle := Some h;
               store_after := resource_store_free_handle st h |}
          else
            {| succeeded := true; out_handle := Some h;
               store_after := resource_store_put st h iimage |}
      end
  end.

(** [cgpu_create_pipeline]: the shader is resolved as well; then
    [cgpu_create_pipeline_descriptors], [cgpu_create_pipeline_layout] and
    [vkCreateComputePipelines]. *)
Definition cgpu_create_pipeline {S} (ishader_store : resource_store S)
    (device shader : handle)
    (descriptors_ok layout_ok vkCreateComputePipelines_ok : bool)
    (ipipeline : A) (ipipeline_store : resource_store A) : creation A :=
  match resource_store_get idevice_store device with
  | None => fail_early ipipeline_store
  | Some _ =>
      match resource_store_get ishader_store shader with
      | None => fail_early ipipeline_store
      | Some _ =>
          let '(h, st) := resource_store_create_handle ipipeline_store in
          match resource_store_get st h with
          | None => {| succeeded := false; out_handle := Some h; store_after := st |}
          | Some _ =>
              if negb descriptors_ok then
                {| succeeded := false; out_handle := Some h;
                   store_after := resource_store_free_handle st h |}
              else if negb layout_ok then
                {| succeeded := false; out_handle := Some h;
                   store_after := resource_store_free_handle st h |}
              else if negb vkCreateComputePipelines_ok then
                {| succeeded := false; out_handle := Some h;
                   store_after := resource_store_free_handle st h |}
              else
                {| succeeded := true; out_handle := Some h;
                   store_after := resource_store_put st h ipipeline |}
          end
      end
  end.

(** [cgpu_create_command_buffer]: the device handle is stored into the new
    object before [vkAllocateCommandBuffers] is called; when that call fails
    the function returns without a call of [resource_store_free_handle]. *)
Definition cgpu_create_command_buffer (device : handle)
    (vkAllocateCommandBuffers_ok : bool)
    (with_device icommand_buffer : A) (icommand_buffer_store : resource_store A)
    : creation A :=
  match resource_store_get idevice_store device with
  | None => fail_early icommand_buffer_store
  | Some _ =>
      let '(h, st) := resource_store_create_handle icommand_buffer_store in
      match resource_store_get st h with
      | None => {| succeeded := false; out_handle := Some h; store_after := st |}
      | Some _ =>
          let st := resource_store_put st h with_device in
          if negb vkAllocateCommandBuffers_ok then
            {| succeeded := false; out_handle := Some h; store_after := st |}
          else
            {| succeeded := true; out_handle := Some h;
               store_after := resource_store_put st h icommand_buffer |}
      end
  end.

End Constructors.

(** [cgpu_create_device] allocates from the device store itself. Each of its
    failure sites, in source order, frees the handle first. *)
Inductive device_failure :=
  | TooManyPhysicalDevices | NoPhysicalDevice | UnsupportedVulkanVersion
  | SubgroupFeaturesMissing | TooManyDeviceExtensions | ExtensionMissing
  | TooManyQueueFamilies | NoSuitableQueueFamily | CreateDeviceFailed
  | CreateCommandPoolFailed | CreateQueryPoolFailed | CreateAllocatorFailed.

Definition cgpu_create_device {D} (failure : option device_failure) (idevice : D)
    (idevice_store : resource_store D) : creation D :=
  let '(h, st) := resource_store_create_handle idevice_store in
  match resource_store_get st h with
  | None => {| succeeded := false; out_handle := Some h; store_after := st |}
  | Some _ =>
      match failure with
      | Some _ =>
          {| succeeded := false; out_handle := Some h;
             store_after := resource_store_free_handle st h |}
      | None =>
          {| succeeded := true; out_handle := Some h;
             store_after := resource_store_put st h idevice |}
      end
  end.

(** *** Failed creations and the handle they allocated *)

Lemma resource_get_after_create {A} (rs : resource_store A) :
  exists v,
    resource_store_get (snd (resource_store_create_handle rs))
      (fst (resource_store_create_handle rs)) = Some v.
Proof.
  pose proof (resource_create_live rs) as H. unfold live in H.
  unfold resource_store_get. rewrite H. eauto.
Qed.

Lemma live_put {A} (rs : resource_store A) h h' v :
  live (resource_store_put rs h v) h' = live rs h'.
Proof. reflexivity. Qed.

(** The handle a failed creation hands back, read against the store it
    leaves: [Some true] when that handle still resolves. *)
Definition handed_back_live {A} (c : creation A) : option bool :=
  option_map (live (store_after c)) (out_handle c).

Ltac constructor_cases rs :=
  let Hget := fresh "Hget" in
  destruct (resource_get_after_create rs) as [? Hget];
  destruct (resource_store_create_handle rs) as [? ?] eqn:?;
  cbn [fst snd] in Hget; rewrite Hget.

Section ConstructorFacts.

Context {D : Type} (idevice_store : resource_store D).
Context {A : Type}.

Lemma sampler_failure_frees device drv (o : A) rs :
  succeeded (cgpu_create_sampler idevice_store device drv o rs) = false ->
  handed_back_live (cgpu_create_sampler idevice_store device drv o rs) <> Some true.
Proof.
  unfold cgpu_create_sampler, handed_back_live.
  destruct (resource_store_get idevice_store device); [|discriminate].
  constructor_cases rs. destruct drv; cbn; [discriminate|].
  intros _. rewrite resource_free_not_live. discriminate.
Qed.

Lemma fence_failure_frees device drv (o : A) rs :
  succeeded (cgpu_create_fence idevice_store device drv o rs) = false ->
  handed_back_live (cgpu_create_fence idevice_store device drv o rs) <> Some true.
Proof.
  unfold cgpu_create_fence, handed_back_live.
  destruct (resource_store_get idevice_store device); [|discriminate].
  constructor_cases rs. destruct drv; cbn; [discriminate|].
  intros _. rewrite resource_free_not_live. discriminate.
Qed.

Lemma buffer_failure_frees device drv (o : A) rs :
  succeeded (cgpu_create_buffer idevice_store device drv o rs) = false ->
  handed_back_live (cgpu_create_buffer idevice_store device drv o rs) <> Some true.
Proof.
  unfold cgpu_create_buffer, handed_back_live.
  destruct (resource_store_get idevice_store device); [|discriminate].
  constructor_cases rs. destruct drv; cbn; [discriminate|].
  intros _. rewrite resource_free_not_live. discriminate.
Qed.

Lemma shader_failure_frees device drv1 drv2 (o : A) rs :
  succeeded (cgpu_create_shader idevice_store device drv1 drv2 o rs) = false ->
  handed_back_live (cgpu_create_shader idevice_store device drv1 drv2 o rs) <> Some true.
Proof.
  unfold cgpu_create_shader, handed_back_live.
  destruct (resource_store_get idevice_store device); [|discriminate].
  constructor_cases rs. destruct drv1, drv2; cbn; try discriminate;
    intros _; rewrite resource_free_not_live; discriminate.
Qed.

Lemma image_failure_frees device drv1 drv2 (o : A) rs :
  succeeded (cgpu_create_image idevice_store device drv1 drv2 o rs) = false ->
  handed_back_live (cgpu_create_image idevice_store device drv1 drv2 o rs) <> Some true.
Proof.
  unfold cgpu_create_image, handed_back_live.
  destruct (resource_store_get idevice_store device); [|discriminate].
  constructor_cases rs. destruct drv1, drv2; cbn; try discriminate;
    intros _; rewrite resource_free_not_live; discriminate.
Qed.

Lemma pipeline_failure_frees {S} (shaders : resource_store S) device shader
    drv1 drv2 drv3 (o : A) rs :
  succeeded (cgpu_create_pipeline idevice_store shaders device shader
               drv1 drv2 drv3 o rs) = false ->
  handed_back_live (cgpu_create_pipeline idevice_store shaders device shader
                      drv1 drv2 drv3 o rs) <> Some true.
Proof.
  unfold cgpu_create_pipeline, handed_back_live.
  destruct (resource_store_get idevice_store device); [|discriminate].
  destruct (resource_store_get shaders shader); [|discriminate].
  constructor_cases rs. destruct drv1, drv2, drv3; cbn; try discriminate;
    intros _; rewrite resource_free_not_live; discriminate.
Qed.

(** The command-buffer constructor is the odd one out: whenever the device
    resolves and [vkAllocateCommandBuffers] fails, it returns failure and the
    handle it wrote to the out-parameter still resolves. *)
Lemma command_buffer_failure_leaks device d (o1 o2 : A) rs :
  resource_store_get idevice_store device = Some d ->
  succeeded (cgpu_create_command_buffer idevice_store device false o1 o2 rs) = false /\
  handed_back_live (cgpu_create_command_buffer idevice_store device false o1 o2 rs)
  = Some true.
Proof.
  intros Hdev. unfold cgpu_create_command_buffer, handed_back_live. rewrite Hdev.
  pose proof (resource_create_live rs) as Hlive.
  constructor_cases rs. cbn. cbn [fst snd] in Hlive.
  rewrite live_put, Hlive. auto.
Qed.

End ConstructorFacts.

Lemma device_failure_frees {D} f (o : D) rs :
  succeeded (cgpu_create_device f o rs) = false ->
  handed_back_live (cgpu_create_device f o rs) <> Some true.
Proof.
  unfold cgpu_create_device, handed_back_live.
  constructor_cases rs. destruct f; cbn; [|discriminate].
  intros _. rewrite resource_free_not_live. discriminate.
Qed.

(** A device store with one live device, and its handle. *)
Definition one_device_store : resource_store unit :=
  store_after (cgpu_create_device None tt (resource_store_create tt)).

Definition the_device : handle := {| h_index := 0; h_version := 0 |}.

Lemma the_device_resolves : resource_store_get one_device_store the_device = Some tt.
Proof. reflexivity. Qed.

(** C10. The claim is that every [cgpu_create_*] constructor frees the handle
    it allocated when the driver call fails. With a live device and a failing
    driver call, [cgpu_create_fence] hands back a handle that no longer
    resolves, but [cgpu_create_command_buffer] returns failure and leaves the
    handle it allocated live in the command-buffer store. *)
Theorem command_buffer_handle_not_freed :
  let fence :=
    cgpu_create_fence one_device_store the_device false tt (resource_store_create tt) in
  let cmd :=
    cgpu_create_command_buffer one_device_store the_device false tt tt
      (resource_store_create tt) in
  succeeded fence = false /\ handed_back_live fence = Some false /\
  succeeded cmd = false /\ handed_back_live cmd = Some true.
Proof.
  cbv zeta.
  destruct (command_buffer_failure_leaks one_device_store the_device tt tt tt
              (resource_store_create tt) the_device_resolves) as [Hc1 Hc2].
  split; [reflexivity|].
  split; [reflexivity|].
  split; [exact Hc1 | exact Hc2].
Qed.

(** *** Images, pipelines and bindings *)

Inductive VkImageLayout :=
  | VK_IMAGE_LAYOUT_UNDEFINED
  | VK_IMAGE_LAYOUT_GENERAL
  | VK_IMAGE_LAYOUT_SHADER_READ_ONLY_OPTIMAL.

Inductive VkDescriptorType :=
  | VK_DESCRIPTOR_TYPE_SAMPLER
  | VK_DESCRIPTOR_TYPE_SAMPLED_IMAGE
  | VK_DESCRIPTOR_TYPE_STORAGE_IMAGE
  | VK_DESCRIPTOR_TYPE_STORAGE_BUFFER
  | VK_DESCRIPTOR_TYPE_UNIFORM_BUFFER.

Definition layout_eqb (a b : VkImageLayout) : bool :=
  match a, b with
  | VK_IMAGE_LAYOUT_UNDEFINED, VK_IMAGE_LAYOUT_UNDEFINED => true
  | VK_IMAGE_LAYOUT_GENERAL, VK_IMAGE_LAYOUT_GENERAL => true
  | VK_IMAGE_LAYOUT_SHADER_READ_ONLY_OPTIMAL, VK_IMAGE_LAYOUT_SHADER_READ_ONLY_OPTIMAL => true
  | _, _ => false
  end.

Lemma layout_eqb_eq a b : layout_eqb a b = true <-> a = b.
Proof. destruct a, b; simpl; split; intros H; congruence. Qed.

Definition VK_ACCESS_SHADER_READ_BIT : Z := 32.
Definition VK_ACCESS_SHADER_WRITE_BIT : Z := 64.
Definition VK_ACCESS_MEMORY_WRITE_BIT : Z := 65536.

Definition MAX_DESCRIPTOR_BUFFER_INFOS : Z := 64.
Definition MAX_DESCRIPTOR_IMAGE_INFOS : Z := 2048.
Definition MAX_WRITE_DESCRIPTOR_SETS : Z := 128.
Definition MAX_IMAGE_MEMORY_BARRIERS : Z := 2048.

(** Modelled from the spec: [cgpu.h] is not part of the sources at hand;
    [CGPU_WHOLE_SIZE] is taken to be the all-ones 64-bit value. *)
Definition CGPU_WHOLE_SIZE : Z := 2 ^ 64 - 1.

(** The tracked part of [cgpu_iimage]. *)
Record cgpu_iimage := {
  image : Z;
  image_view : Z;
  layout : VkImageLayout;
  access_mask : Z
}.

Record cgpu_ibuffer := { buffer : Z; size : Z }.
Record cgpu_isampler := { sampler : Z }.

Record cgpu_shader_reflection_binding := {
  binding : Z;
  descriptor_type : VkDescriptorType;
  count : Z;
  read_access : bool;
  write_access : bool
}.

Record cgpu_ishader := { reflection : list cgpu_shader_reflection_binding }.

Record VkDescriptorSetLayoutBinding := {
  lb_binding : Z;
  lb_descriptorType : VkDescriptorType;
  lb_descriptorCount : Z
}.

Record cgpu_ipipeline := {
  descriptor_set_layout_bindings : list VkDescriptorSetLayoutBinding;
  shader : handle
}.

Record cgpu_idevice := { minStorageBufferOffsetAlignment : Z }.
Record cgpu_icommand_buffer := { device : handle }.

Record cgpu_buffer_binding := {
  bb_binding : Z; bb_index : Z; bb_buffer : handle; bb_offset : Z; bb_size : Z
}.
Record cgpu_image_binding := { ib_binding : Z; ib_index : Z; ib_image : handle }.
Record cgpu_sampler_binding := { sb_binding : Z; sb_index : Z; sb_sampler : handle }.

Record cgpu_bindings := {
  p_buffers : list cgpu_buffer_binding;
  p_images : list cgpu_image_binding;
  p_samplers : list cgpu_sampler_binding
}.

Record VkImageMemoryBarrier := {
  srcAccessMask : Z;
  dstAccessMask : Z;
  oldLayout : VkImageLayout;
  newLayout : VkImageLayout;
  barrier_image : Z
}.

(** The failures, by the message the source prints. *)
Inductive cgpu_error :=
  | InvalidHandle
  | HardcodedLimitReached
  | DescriptorSetBindingMismatch
  | ResourceBindingMismatch
  | OffsetNotAligned.

Inductive cgpu_result (S : Type) :=
  | Ok (s : S)
  | Err (e : cgpu_error) (s : S).
Arguments Ok {S} _.
Arguments Err {S} _ _.

(** The process-wide stores the two functions touch. *)
Record stores := {
  idevice_store : resource_store cgpu_idevice;
  ibuffer_store : resource_store cgpu_ibuffer;
  iimage_store : resource_store cgpu_iimage;
  ishader_store : resource_store cgpu_ishader;
  ipipeline_store : resource_store cgpu_ipipeline;
  icommand_buffer_store : resource_store cgpu_icommand_buffer;
  isampler_store : resource_store cgpu_isampler
}.

(** *** [cgpu_transition_image_layouts_for_shader] *)

(** The loop state: the image store (images are updated in place) and the
    [barriers] array, filled from index 0; [barrier_count] is its length. *)
Record transition_state := {
  images : resource_store cgpu_iimage;
  barriers : list VkImageMemoryBarrier
}.

(** The search [for k] over the caller's image bindings: the first entry with
    this binding and index. *)
Definition find_image_binding (p : list cgpu_image_binding) (b j : Z)
    : option cgpu_image_binding :=
  List.find (fun ib => (ib_binding ib =? b) && (ib_index ib =? j)) p.

(** The layout a binding requires; [None] is "not an image". *)
Definition required_layout (t : VkDescriptorType) : option VkImageLayout :=
  match t with
  | VK_DESCRIPTOR_TYPE_SAMPLED_IMAGE => Some VK_IMAGE_LAYOUT_SHADER_READ_ONLY_OPTIMAL
  | VK_DESCRIPTOR_TYPE_STORAGE_IMAGE => Some VK_IMAGE_LAYOUT_GENERAL
  | _ => None
  end.

(** The access mask computed in the loop body: the second [if] overwrites
    what the first one assigned. *)
Definition shader_access_mask (rb : cgpu_shader_reflection_binding) : Z :=
  let access_mask := 0 in
  let access_mask := if read_access rb then VK_ACCESS_SHADER_READ_BIT else access_mask in
  let access_mask := if write_access rb then VK_ACCESS_SHADER_WRITE_BIT else access_mask in
  access_mask.

(** The body of the loop [for j]. *)
Definition transition_slot (p : list cgpu_image_binding)
    (rb : cgpu_shader_reflection_binding) (new_layout : VkImageLayout) (j : Z)
    (st : transition_state) : cgpu_result transition_state :=
  match find_image_binding p (binding rb) j with
  | None => Err DescriptorSetBindingMismatch st
  | Some image_binding =>
      match resource_store_get (images st) (ib_image image_binding) with
      | None => Err InvalidHandle st
      | Some iimage =>
          let old_layout := layout iimage in
          if layout_eqb new_layout old_layout then Ok st
          else
            let access_mask := shader_access_mask rb in
            if Z.of_nat (length (barriers st)) >=? MAX_IMAGE_MEMORY_BARRIERS then
              Err HardcodedLimitReached st
            else
              let barrier :=
                {| srcAccessMask := Cgpu.access_mask iimage;
                   dstAccessMask := access_mask;
                   oldLayout := old_layout;
                   newLayout := new_layout;
                   barrier_image := image iimage |} in
              Ok {| images :=
                      resource_store_put (images st) (ib_image image_binding)
                        {| image := image iimage;
                           image_view := image_view iimage;
                           layout := new_layout;
                           access_mask := access_mask |};
                    barriers := barriers st ++ [barrier] |}
      end
  end.

(** The indices [0 .. n-1] of a [uint32_t] loop counter. *)
Definition indices (n : Z) : list Z := map Z.of_nat (seq 0 (Z.to_nat n)).

Fixpoint transition_slots (p : list cgpu_image_binding)
    (rb : cgpu_shader_reflection_binding) (new_layout : VkImageLayout)
    (js : list Z) (st : transition_state) : cgpu_result transition_state :=
  match js with
  | [] => Ok st
  | j :: js' =>
      match transition_slot p rb new_layout j st with
      | Ok st' => transition_slots p rb new_layout js' st'
      | Err e st' => Err e st'
      end
  end.

(** The loop [for i] over the reflected bindings. *)
Fixpoint transition_bindings (p : list cgpu_image_binding)
    (rbs : list cgpu_shader_reflection_binding) (st : transition_state)
    : cgpu_result transition_state :=
  match rbs with
  | [] => Ok st
  | rb :: rbs' =>
      match required_layout (descriptor_type rb) with
      | None => transition_bindings p rbs' st
      | Some new_layout =>
          match transition_slots p rb new_layout (indices (count rb)) st with
          | Ok st' => transition_bindings p rbs' st'
          | Err e st' => Err e st'
          end
      end
  end.

(** [cgpu_transition_image_layouts_for_shader]. On success the barriers are
    handed to [vkCmdPipelineBarrier] when there is at least one. *)
Definition cgpu_transition_image_layouts_for_shader (s : stores)
    (ipipeline : cgpu_ipipeline) (icommand_buffer : cgpu_icommand_buffer)
    (p : list cgpu_image_binding) : cgpu_result transition_state :=
  let st0 := {| images := iimage_store s; barriers := [] |} in
  match resource_store_get (ishader_store s) (shader ipipeline) with
  | None => Err InvalidHandle st0
  | Some ishader =>
      match resource_store_get (idevice_store s) (device icommand_buffer) with
      | None => Err InvalidHandle st0
      | Some idevice => transition_bindings p (reflection ishader) st0
      end
  end.

(** *** [cgpu_cmd_update_bindings] *)

Record VkDescriptorBufferInfo := { bi_buffer : Z; bi_offset : Z; bi_range : Z }.

Record VkDescriptorImageInfo := {
  ii_sampler : option Z;
  ii_imageView : option Z;
  ii_imageLayout : VkImageLayout
}.

(** [pBufferInfo] and [pImageInfo] point into the scratch arrays; they are
    kept as the index pointed at. *)
Record VkWriteDescriptorSet := {
  dstBinding : Z;
  descriptorCount : Z;
  descriptorType : VkDescriptorType;
  pBufferInfo : option Z;
  pImageInfo : option Z
}.

Inductive scratch_array := BufferInfos | ImageInfos | WriteDescriptorSets.

Definition capacity (a : scratch_array) : Z :=
  match a with
  | BufferInfos => MAX_DESCRIPTOR_BUFFER_INFOS
  | ImageInfos => MAX_DESCRIPTOR_IMAGE_INFOS
  | WriteDescriptorSets => MAX_WRITE_DESCRIPTOR_SETS
  end.

(** The locals of the function: the three scratch arrays as the entries
    stored so far (the counters are their lengths), the write-descriptor set
    under construction, and a log of every store [array[index] = ...] in
    program order. *)
Record update_state := {
  buffer_infos : list VkDescriptorBufferInfo;
  image_infos : list VkDescriptorImageInfo;
  write_descriptor_sets : list VkWriteDescriptorSet;
  current_write : VkWriteDescriptorSet;
  array_stores : list (scratch_array * Z)
}.

Definition buffer_info_count (u : update_state) : Z := Z.of_nat (length (buffer_infos u)).
Definition image_info_count (u : update_state) : Z := Z.of_nat (length (image_infos u)).
Definition write_descriptor_set_count (u : update_state) : Z :=
  Z.of_nat (length (write_descriptor_sets u)).

Definition find_buffer_binding (p : list cgpu_buffer_binding) (b j : Z) :=
  List.find (fun bb => negb (negb (bb_binding bb =? b) || negb (bb_index bb =? j))) p.

Definition find_sampler_binding (p : list cgpu_sampler_binding) (b j : Z) :=
  List.find (fun sb => negb (negb (sb_binding sb =? b) || negb (sb_index sb =? j))) p.

Definition find_image_binding' (p : list cgpu_image_binding) (b j : Z) :=
  List.find (fun ib => negb (negb (ib_binding ib =? b) || negb (ib_index ib =? j))) p.

Definition push_buffer_info (u : update_state) (j : Z) (bi : VkDescriptorBufferInfo)
    : update_state :=
  let idx := buffer_info_count u in
  {| buffer_infos := buffer_infos u ++ [bi];
     image_infos := image_infos u;
     write_descriptor_sets := write_descriptor_sets u;
     current_write :=
       if j =? 0 then
         {| dstBinding := dstBinding (current_write u);
            descriptorCount := descriptorCount (current_write u);
            descriptorType := descriptorType (current_write u);
            pBufferInfo := Some idx;
            pImageInfo := pImageInfo (current_write u) |}
       else current_write u;
     array_stores := array_stores u ++ [(BufferInfos, idx)] |}.

Definition push_image_info (u : update_state) (j : Z) (ii : VkDescriptorImageInfo)
    : update_state :=
  let idx := image_info_count u in
  {| buffer_infos := buffer_infos u;
     image_infos := image_infos u ++ [ii];
     write_descriptor_sets := write_descriptor_sets u;
     current_write :=
       if j =? 0 then
         {| dstBinding := dstBinding (current_write u);
            descriptorCount := descriptorCount (current_write u);
            descriptorType := descriptorType (current_write u);
            pBufferInfo := pBufferInfo (current_write u);
            pImageInfo := Some idx |}
       else current_write u;
     array_stores := array_stores u ++ [(ImageInfos, idx)] |}.

(** The body of the loop [for j] over one layout binding's descriptors. *)
Definition update_slot (s : stores) (idevice : cgpu_idevice) (b : cgpu_bindings)
    (lb : VkDescriptorSetLayoutBinding) (j : Z) (u : update_state)
    : cgpu_result update_state :=
  match lb_descriptorType lb with
  | VK_DESCRIPTOR_TYPE_STORAGE_BUFFER =>
      match find_buffer_binding (p_buffers b) (lb_binding lb) j with
      | None => Err ResourceBindingMismatch u
      | Some buffer_binding =>
          match resource_store_get (ibuffer_store s) (bb_buffer buffer_binding) with
          | None => Err InvalidHandle u
          | Some ibuffer =>
              if negb (bb_offset buffer_binding mod minStorageBufferOffsetAlignment idevice =? 0)
              then Err OffsetNotAligned u
              else if image_info_count u >=? MAX_DESCRIPTOR_BUFFER_INFOS
              then Err HardcodedLimitReached u
              else
                Ok (push_buffer_info u j
                      {| bi_buffer := buffer ibuffer;
                         bi_offset := bb_offset buffer_binding;
                         bi_range :=
                           if bb_size buffer_binding =? CGPU_WHOLE_SIZE
                           then wrap64 (size ibuffer - bb_offset buffer_binding)
                           else bb_size buffer_binding |})
          end
      end
  | VK_DESCRIPTOR_TYPE_STORAGE_IMAGE | VK_DESCRIPTOR_TYPE_SAMPLED_IMAGE =>
      match find_image_binding' (p_images b) (lb_binding lb) j with
      | None => Err ResourceBindingMismatch u
      | Some image_binding =>
          match resource_store_get (iimage_store s) (ib_image image_binding) with
          | None => Err InvalidHandle u
          | Some iimage =>
              if image_info_count u >=? MAX_DESCRIPTOR_IMAGE_INFOS
              then Err HardcodedLimitReached u
              else
                Ok (push_image_info u j
                      {| ii_sampler := None;
                         ii_imageView := Some (image_view iimage);
                         ii_imageLayout := layout iimage |})
          end
      end
  | VK_DESCRIPTOR_TYPE_SAMPLER =>
      match find_sampler_binding (p_samplers b) (lb_binding lb) j with
      | None => Err ResourceBindingMismatch u
      | Some sampler_binding =>
          match resource_store_get (isampler_store s) (sb_sampler sampler_binding) with
          | None => Err InvalidHandle u
          | Some isampler =>
              if image_info_count u >=? MAX_DESCRIPTOR_IMAGE_INFOS
              then Err HardcodedLimitReached u
              else
                Ok (push_image_info u j
                      {| ii_sampler := Some (sampler isampler);
                         ii_imageView := None;
                         ii_imageLayout := VK_IMAGE_LAYOUT_UNDEFINED |})
          end
      end
  | _ => Err ResourceBindingMismatch u
  end.

Fixpoint update_slots (s : stores) (idevice : cgpu_idevice) (b : cgpu_bindings)
    (lb : VkDescriptorSetLayoutBinding) (js : list Z) (u : update_state)
    : cgpu_result update_state :=
  match js with
  | [] => Ok u
  | j :: js' =>
      match update_slot s idevice b lb j u with
      | Ok u' => update_slots s idevice b lb js' u'
      | Err e u' => Err e u'
      end
  end.

(** The write-descriptor set is stored into its array slot when the binding
    is entered and filled in through the pointer afterwards; [current_write]
    holds it meanwhile and it is put into the list when the binding is done. *)
Definition begin_write (lb : VkDescriptorSetLayoutBinding) (u : update_state)
    : update_state :=
  {| buffer_infos := buffer_infos u;
     image_infos := image_infos u;
     write_descriptor_sets := write_descriptor_sets u;
     current_write :=
       {| dstBinding := lb_binding lb;
          descriptorCount := lb_descriptorCount lb;
          descriptorType := lb_descriptorType lb;
          pBufferInfo := None;
          pImageInfo := None |};
     array_stores := array_stores u ++ [(WriteDescriptorSets, write_descriptor_set_count u)] |}.

Definition end_write (u : update_state) : update_state :=
  {| buffer_infos := buffer_infos u;
     image_infos := image_infos u;
     write_descriptor_sets := write_descriptor_sets u ++ [current_write u];
     current_write := current_write u;
     array_stores := array_stores u |}.

(** The loop [for i] over the pipeline's layout bindings. *)
Fixpoint update_layout_bindings (s : stores) (idevice : cgpu_idevice)
    (b : cgpu_bindings) (lbs : list VkDescriptorSetLayoutBinding)
    (u : update_state) : cgpu_result update_state :=
  match lbs with
  | [] => Ok u
  | lb :: lbs' =>
      if write_descriptor_set_count u >=? MAX_WRITE_DESCRIPTOR_SETS then
        Err HardcodedLimitReached u
      else
        match update_slots s idevice b lb (indices (lb_descriptorCount lb))
                (begin_write lb u) with
        | Ok u' => update_layout_bindings s idevice b lbs' (end_write u')
        | Err e u' => Err e u'
        end
  end.

Definition empty_write : VkWriteDescriptorSet :=
  {| dstBinding := 0; descriptorCount := 0;
     descriptorType := VK_DESCRIPTOR_TYPE_SAMPLER;
     pBufferInfo := None; pImageInfo := None |}.

Definition initial_update_state : update_state :=
  {| buffer_infos := []; image_infos := []; write_descriptor_sets := [];
     current_write := empty_write; array_stores := [] |}.

(** What [cgpu_cmd_update_bindings] leaves: the stores (only the image store
    changes), the barriers recorded by the layout transition and the locals
    at the point of return. *)
Record update_outcome := {
  stores_after : stores;
  recorded_barriers : list VkImageMemoryBarrier;
  locals : update_state
}.

Definition with_images (s : stores) (im : resource_store cgpu_iimage) : stores :=
  {| idevice_store := idevice_store s;
     ibuffer_store := ibuffer_store s;
     iimage_store := im;
     ishader_store := ishader_store s;
     ipipeline_store := ipipeline_store s;
     icommand_buffer_store := icommand_buffer_store s;
     isampler_store := isampler_store s |}.

Definition cgpu_cmd_update_bindings (s : stores) (command_buffer pipeline : handle)
    (bindings : cgpu_bindings) : cgpu_result update_outcome :=
  let untouched :=
    {| stores_after := s; recorded_barriers := []; locals := initial_update_state |} in
  match resource_store_get (icommand_buffer_store s) command_buffer with
  | None => Err InvalidHandle untouched
  | Some icommand_buffer =>
      match resource_store_get (idevice_store s) (device icommand_buffer) with
      | None => Err InvalidHandle untouched
      | Some idevice =>
          match resource_store_get (ipipeline_store s) pipeline with
          | None => Err InvalidHandle untouched
          | Some ipipeline =>
              match cgpu_transition_image_layouts_for_shader s ipipeline
                      icommand_buffer (p_images bindings) with
              | Err e t =>
                  Err e {| stores_after := with_images s (images t);
                           recorded_barriers := [];
                           locals := initial_update_state |}
              | Ok t =>
                  let s' := with_images s (images t) in
                  match update_layout_bindings s' idevice bindings
                          (descriptor_set_layout_bindings ipipeline)
                          initial_update_state with
                  | Err e u =>
                      Err e {| stores_after := s'; recorded_barriers := barriers t;
                               locals := u |}
                  | Ok u =>
                      Ok {| stores_after := s'; recorded_barriers := barriers t;
                            locals := u |}
                  end
              end
          end
      end
  end.

(** *** What the layout transition leaves in the image store *)

Definition handle_eqb (a b : handle) : bool :=
  (h_index a =? h_index b) && (h_version a =? h_version b).

Lemma handle_eqb_eq a b : handle_eqb a b = true <-> a = b.
Proof.
  unfold handle_eqb. rewrite andb_true_iff, !Z.eqb_eq.
  destruct a, b; cbn. split; [intros [-> ->]; reflexivity | intros [= -> ->]; auto].
Qed.

(** Two valid handles of one slot are the same handle. *)
Lemma valid_same_index hs h1 h2 :
  handle_store_is_handle_valid hs h1 = true ->
  handle_store_is_handle_valid hs h2 = true ->
  h_index h1 = h_index h2 -> h1 = h2.
Proof.
  unfold handle_store_is_handle_valid. intros H1 H2 Hi. rewrite <- Hi in H2.
  destruct (slots hs !! h_index h1) as [sl|]; [|discriminate].
  apply andb_true_iff in H1 as [_ H1]. apply andb_true_iff in H2 as [_ H2].
  apply Z.eqb_eq in H1, H2. destruct h1, h2; cbn in *. congruence.
Qed.

Lemma get_Some_live {A} (rs : resource_store A) h v :
  resource_store_get rs h = Some v -> live rs h = true.
Proof.
  unfold resource_store_get, live.
  destruct (handle_store_is_handle_valid _ _); [reflexivity | discriminate].
Qed.

Lemma get_put_same {A} (rs : resource_store A) h v :
  live rs h = true -> resource_store_get (resource_store_put rs h v) h = Some v.
Proof.
  unfold live, resource_store_get, resource_store_put. cbn. intros ->.
  now rewrite lookup_insert_eq.
Qed.

Lemma get_put_other {A} (rs : resource_store A) h h' v :
  h_index h' <> h_index h ->
  resource_store_get (resource_store_put rs h v) h' = resource_store_get rs h'.
Proof.
  unfold resource_store_get, resource_store_put, handle_store_get_index. cbn.
  intros Hne. now rewrite lookup_insert_ne by congruence.
Qed.

(** Reading handle [h'] after a store through the valid handle [h]. *)
Lemma get_put_cases {A} (rs : resource_store A) h h' v w :
  live rs h = true ->
  resource_store_get (resource_store_put rs h v) h' = Some w ->
  (h' = h /\ w = v) \/ (h' <> h /\ resource_store_get rs h' = Some w).
Proof.
  intros Hh Hget.
  destruct (Z.eq_dec (h_index h') (h_index h)) as [Hi|Hi].
  - assert (h' = h).
    { apply (valid_same_index (store_handles rs)); [|exact Hh|exact Hi].
      apply get_Some_live in Hget. exact Hget. }
    subst h'. rewrite get_put_same in Hget by exact Hh. left. split; congruence.
  - rewrite get_put_other in Hget by exact Hi. right. split; [congruence | exact Hget].
Qed.

(** One successful pass through the loop body: the slot names a live image;
    either its layout already is the required one and nothing changes, or
    the image gets the required layout and the computed access mask. *)
Lemma transition_slot_Ok p rb L j st st' :
  transition_slot p rb L j st = Ok st' ->
  exists ib img,
    find_image_binding p (binding rb) j = Some ib /\
    resource_store_get (images st) (ib_image ib) = Some img /\
    ((layout img = L /\ st' = st) \/
     (layout img <> L /\
      images st' =
        resource_store_put (images st) (ib_image ib)
          {| image := image img; image_view := image_view img;
             layout := L; access_mask := shader_access_mask rb |})).
Proof.
  unfold transition_slot. intros H.
  destruct (find_image_binding p (binding rb) j) as [ib|]; [|discriminate].
  destruct (resource_store_get (images st) (ib_image ib)) as [img|] eqn:Hget;
    [|discriminate].
  exists ib, img. split; [reflexivity|]. split; [exact Hget|].
  destruct (layout_eqb L (layout img)) eqn:El.
  - apply layout_eqb_eq in El. injection H as <-. left. auto.
  - destruct (_ >=? _); [discriminate|]. injection H as <-. right. split.
    + intros Heq. rewrite Heq in El.
      assert (layout_eqb L L = true) by (now apply layout_eqb_eq). congruence.
    + reflexivity.
Qed.

(** A property of the image behind handle [h]. *)
Definition image_has (P : cgpu_iimage -> Prop) (h : handle) (st : transition_state) : Prop :=
  exists img, resource_store_get (images st) h = Some img /\ P img.

(** The loop body keeps [image_has P h] when it either does not change the
    image's layout-and-mask pair or lands in [P] again. *)
Lemma transition_slot_keeps (P : cgpu_iimage -> Prop) h p rb L j st st' :
  transition_slot p rb L j st = Ok st' ->
  (forall ib img,
      find_image_binding p (binding rb) j = Some ib -> ib_image ib = h ->
      P img -> layout img <> L ->
      P {| image := image img; image_view := image_view img;
           layout := L; access_mask := shader_access_mask rb |}) ->
  image_has P h st -> image_has P h st'.
Proof.
  intros Hstep Hnew (img & Hget & HP).
  destruct (transition_slot_Ok _ _ _ _ _ _ Hstep) as (ib & img1 & Hfind & Hget1 & Hcase).
  destruct Hcase as [[_ ->] | [Hne Himages]].
  - exists img. auto.
  - unfold image_has. rewrite Himages.
    destruct (Z.eq_dec (h_index h) (h_index (ib_image ib))) as [Hi|Hi].
    + assert (Heq : h = ib_image ib).
      { apply (valid_same_index (store_handles (images st))); [| |exact Hi].
        - exact (get_Some_live _ _ _ Hget).
        - exact (get_Some_live _ _ _ Hget1). }
      subst h. rewrite get_put_same by exact (get_Some_live _ _ _ Hget1).
      eexists. split; [reflexivity|].
      assert (img1 = img) by congruence. subst img1.
      now apply (Hnew ib).
    + rewrite get_put_other by exact Hi. exists img. auto.
Qed.

(** The loop body establishes the required layout for the image it names. *)
Lemma transition_slot_sets p rb L j st st' ib :
  transition_slot p rb L j st = Ok st' ->
  find_image_binding p (binding rb) j = Some ib ->
  image_has (fun img => layout img = L) (ib_image ib) st'.
Proof.
  intros Hstep Hfind.
  destruct (transition_slot_Ok _ _ _ _ _ _ Hstep) as (ib' & img & Hfind' & Hget & Hcase).
  assert (ib' = ib) by congruence. subst ib'.
  destruct Hcase as [[Hl ->] | [Hne Himages]].
  - exists img. auto.
  - unfold image_has. rewrite Himages.
    rewrite get_put_same by exact (get_Some_live _ _ _ Hget).
    eexists. split; reflexivity.
Qed.

(** The image slots of a reflection in the order the two nested loops visit
    them: the binding, the layout it requires and the array index. *)
Definition image_slot : Type := cgpu_shader_reflection_binding * VkImageLayout * Z.

Definition image_slots (rbs : list cgpu_shader_reflection_binding) : list image_slot :=
  flat_map
    (fun rb =>
       match required_layout (descriptor_type rb) with
       | Some L => map (fun j => (rb, L, j)) (indices (count rb))
       | None => []
       end)
    rbs.

Fixpoint run_slots (p : list cgpu_image_binding) (sl : list image_slot)
    (st : transition_state) : cgpu_result transition_state :=
  match sl with
  | [] => Ok st
  | (rb, L, j) :: sl' =>
      match transition_slot p rb L j st with
      | Ok st' => run_slots p sl' st'
      | Err e st' => Err e st'
      end
  end.

Lemma run_slots_app p sl1 sl2 st :
  run_slots p (sl1 ++ sl2) st =
  match run_slots p sl1 st with
  | Ok st' => run_slots p sl2 st'
  | Err e st' => Err e st'
  end.
Proof.
  revert st. induction sl1 as [|[[rb L] j] sl1 IH]; intros st; simpl; [reflexivity|].
  destruct (transition_slot p rb L j st); [apply IH | reflexivity].
Qed.

Lemma transition_slots_run p rb L js st :
  transition_slots p rb L js st = run_slots p (map (fun j => (rb, L, j)) js) st.
Proof.
  revert st. induction js as [|j js IH]; intros st; simpl; [reflexivity|].
  destruct (transition_slot p rb L j st); [apply IH | reflexivity].
Qed.

(** The nested loops are one pass over [image_slots]. *)
Lemma transition_bindings_run p rbs st :
  transition_bindings p rbs st = run_slots p (image_slots rbs) st.
Proof.
  revert st. induction rbs as [|rb rbs IH]; intros st; [reflexivity|].
  cbn [transition_bindings image_slots flat_map]. rewrite run_slots_app.
  destruct (required_layout (descriptor_type rb)) as [L|].
  - rewrite <- transition_slots_run.
    destruct (transition_slots p rb L (indices (count rb)) st); [apply IH | reflexivity].
  - simpl. apply IH.
Qed.

(** Whether a slot names the image behind handle [h]. *)
Definition slot_binds (p : list cgpu_image_binding) (h : handle) (s : image_slot) : bool :=
  let '(rb, _, j) := s in
  match find_image_binding p (binding rb) j with
  | Some ib => handle_eqb (ib_image ib) h
  | None => false
  end.

(** The slots that name [h], in visiting order. *)
Definition binders (p : list cgpu_image_binding) (sl : list image_slot) (h : handle)
    : list image_slot :=
  List.filter (slot_binds p h) sl.

Lemma binders_cons p s sl h :
  binders p (s :: sl) h =
  if slot_binds p h s then s :: binders p sl h else binders p sl h.
Proof. reflexivity. Qed.

Lemma slot_binds_true p h rb L j :
  slot_binds p h (rb, L, j) = true <->
  exists ib, find_image_binding p (binding rb) j = Some ib /\ ib_image ib = h.
Proof.
  unfold slot_binds. destruct (find_image_binding p (binding rb) j) as [ib|].
  - rewrite handle_eqb_eq. split; [eauto | intros (ib' & [= <-] & H); exact H].
  - split; [discriminate | intros (ib' & H & _); discriminate].
Qed.

Lemma in_binders p sl h rb L j ib :
  In (rb, L, j) sl -> find_image_binding p (binding rb) j = Some ib ->
  ib_image ib = h -> In (rb, L, j) (binders p sl h).
Proof.
  intros Hin Hfind Hh. unfold binders. apply filter_In. split; [exact Hin|].
  apply slot_binds_true. eauto.
Qed.

Lemma run_slots_cons_Ok p rb L j sl st st' :
  run_slots p ((rb, L, j) :: sl) st = Ok st' ->
  exists st1, transition_slot p rb L j st = Ok st1 /\ run_slots p sl st1 = Ok st'.
Proof.
  cbn [run_slots].
  destruct (transition_slot p rb L j st) as [st1|]; [eauto | discriminate].
Qed.

Lemma run_slots_keeps (P : cgpu_iimage -> Prop) h p sl st st' :
  run_slots p sl st = Ok st' ->
  (forall rb L j img,
      In (rb, L, j) (binders p sl h) -> P img -> layout img <> L ->
      P {| image := image img; image_view := image_view img;
           layout := L; access_mask := shader_access_mask rb |}) ->
  image_has P h st -> image_has P h st'.
Proof.
  revert st. induction sl as [|[[rb L] j] sl IH]; intros st Hrun Hnew HP.
  - cbn in Hrun. now injection Hrun as <-.
  - apply run_slots_cons_Ok in Hrun as (st1 & Hstep & Hrun).
    rewrite binders_cons in Hnew.
    apply (IH st1 Hrun).
    + intros rb' L' j' img Hin. apply (Hnew rb' L' j').
      destruct (slot_binds p h (rb, L, j)); [now right | exact Hin].
    + eapply transition_slot_keeps; [exact Hstep | | exact HP].
      intros ib img Hfind Hh. apply (Hnew rb L j).
      replace (slot_binds p h (rb, L, j)) with true; [now left|].
      symmetry. apply slot_binds_true. eauto.
Qed.

Lemma run_slots_handles p sl st st' :
  run_slots p sl st = Ok st' ->
  store_handles (images st') = store_handles (images st).
Proof.
  revert st. induction sl as [|[[rb L] j] sl IH]; intros st Hrun.
  - cbn in Hrun. now injection Hrun as <-.
  - apply run_slots_cons_Ok in Hrun as (st1 & Hstep & Hrun).
    rewrite (IH st1 Hrun).
    destruct (transition_slot_Ok _ _ _ _ _ _ Hstep) as (ib & img & _ & _ & Hcase).
    destruct Hcase as [[_ ->] | [_ ->]]; reflexivity.
Qed.

(** A handle named by one of the visited slots is live. *)
Lemma run_slots_binder_live p sl st st' h :
  run_slots p sl st = Ok st' -> binders p sl h <> [] -> live (images st) h = true.
Proof.
  revert st. induction sl as [|[[rb L] j] sl IH]; intros st Hrun Hb.
  - now contradiction Hb.
  - apply run_slots_cons_Ok in Hrun as (st1 & Hstep & Hrun).
    destruct (transition_slot_Ok _ _ _ _ _ _ Hstep) as (ib & img & Hfind & Hget & Hcase).
    rewrite binders_cons in Hb.
    destruct (slot_binds p h (rb, L, j)) eqn:Hs.
    + apply slot_binds_true in Hs as (ib' & Hfind' & Hh).
      assert (ib' = ib) by congruence. subst ib' h.
      exact (get_Some_live _ _ _ Hget).
    + pose proof (IH st1 Hrun Hb) as Hlive. unfold live in *.
      destruct Hcase as [[_ ->] | [_ Himg]]; [exact Hlive|].
      rewrite Himg in Hlive. exact Hlive.
Qed.

(** After the pass, an image whose binders all require layout [L0] has it. *)
Lemma run_slots_sets p sl st st' h L0 :
  run_slots p sl st = Ok st' ->
  binders p sl h <> [] ->
  (forall rb L j, In (rb, L, j) (binders p sl h) -> L = L0) ->
  image_has (fun img => layout img = L0) h st'.
Proof.
  revert st. induction sl as [|[[rb L] j] sl IH]; intros st Hrun Hb Hall.
  - now contradiction Hb.
  - apply run_slots_cons_Ok in Hrun as (st1 & Hstep & Hrun).
    rewrite binders_cons in Hb, Hall.
    destruct (slot_binds p h (rb, L, j)) eqn:Hs.
    + assert (L = L0) by (apply (Hall rb L j); now left). subst L.
      apply (run_slots_keeps _ h p sl st1 st' Hrun).
      * intros rb' L' j' img Hin _ _. cbn.
        apply (Hall rb' L' j'). now right.
      * apply slot_binds_true in Hs as (ib & Hfind & Hh). subst h.
        eapply transition_slot_sets; eauto.
    + apply (IH st1 Hrun Hb Hall).
Qed.

(** The image behind [h] after the pass, when every slot naming it requires
    layout [L0]: it has layout [L0]; it is untouched if it had that layout
    already; otherwise its access mask is the one computed for its binders. *)
Lemma run_slots_tracking p sl st st' h L0 img0 :
  run_slots p sl st = Ok st' ->
  binders p sl h <> [] ->
  (forall rb L j, In (rb, L, j) (binders p sl h) -> L = L0) ->
  resource_store_get (images st) h = Some img0 ->
  exists img',
    resource_store_get (images st') h = Some img' /\
    layout img' = L0 /\
    (layout img0 = L0 -> img' = img0) /\
    (layout img0 <> L0 ->
     forall acc,
       (forall rb L j, In (rb, L, j) (binders p sl h) -> shader_access_mask rb = acc) ->
       access_mask img' = acc).
Proof.
  intros Hrun Hb Hall Hget0.
  destruct (run_slots_sets _ _ _ _ _ _ Hrun Hb Hall) as (img' & Hget' & Hl').
  exists img'. split; [exact Hget'|]. split; [exact Hl'|]. split.
  - intros Hl0.
    assert (Hkeep : image_has (fun img => img = img0) h st').
    { apply (run_slots_keeps _ h p sl st st' Hrun).
      - intros rb L j img Hin -> Hne.
        rewrite (Hall rb L j Hin) in Hne. now contradiction Hne.
      - exists img0. auto. }
    destruct Hkeep as (img'' & Hget'' & ->). congruence.
  - intros Hl0 acc Hacc.
    assert (Hkeep : image_has
              (fun img => img = img0 \/ (layout img = L0 /\ access_mask img = acc)) h st').
    { apply (run_slots_keeps _ h p sl st st' Hrun).
      - intros rb L j img Hin _ _. right. cbn.
        split; [exact (Hall rb L j Hin) | exact (Hacc rb L j Hin)].
      - exists img0. auto. }
    destruct Hkeep as (img'' & Hget'' & Hcase).
    assert (img'' = img') by congruence. subst img''.
    destruct Hcase as [-> | [_ Ha]]; [now contradiction Hl0 | exact Ha].
Qed.

#[global] Instance VkDescriptorType_eq_dec : EqDecision VkDescriptorType.
Proof. solve_decision. Defined.

(** The reflection [cgpu_cmd_update_bindings] works from: that of the shader
    of the pipeline. *)
Definition reflection_of (s : stores) (pipeline : handle)
    : list cgpu_shader_reflection_binding :=
  match resource_store_get (ipipeline_store s) pipeline with
  | Some ipipeline =>
      match resource_store_get (ishader_store s) (shader ipipeline) with
      | Some ishader => reflection ishader
      | None => []
      end
  | None => []
  end.

(** [h] is bound at some image slot of the reflection, and every image slot
    that names it belongs to a binding of descriptor type [t]. *)
Definition bound_only_as (t : VkDescriptorType)
    (rbs : list cgpu_shader_reflection_binding) (p : list cgpu_image_binding)
    (h : handle) : bool :=
  let bl := binders p (image_slots rbs) h in
  negb (Nat.eqb (length bl) 0) &&
  forallb (fun s : image_slot => bool_decide (descriptor_type (fst (fst s)) = t)) bl.

(** The access the reflection reports for a binding. *)
Definition reflected_access (rb : cgpu_shader_reflection_binding) : Z :=
  Z.lor (if read_access rb then VK_ACCESS_SHADER_READ_BIT else 0)
        (if write_access rb then VK_ACCESS_SHADER_WRITE_BIT else 0).

(** Every slot naming [h] reflects access [acc], and none is both read and
    written. *)
Definition reflects_access (acc : Z)
    (rbs : list cgpu_shader_reflection_binding) (p : list cgpu_image_binding)
    (h : handle) : bool :=
  forallb
    (fun s : image_slot =>
       negb (read_access (fst (fst s)) && write_access (fst (fst s))) &&
       (reflected_access (fst (fst s)) =? acc))
    (binders p (image_slots rbs) h).

Lemma shader_access_mask_single rb :
  read_access rb && write_access rb = false ->
  shader_access_mask rb = reflected_access rb.
Proof.
  unfold shader_access_mask, reflected_access.
  destruct (read_access rb), (write_access rb); simpl; intros H;
    try discriminate; reflexivity.
Qed.

Lemma image_slots_layout rb L j rbs :
  In (rb, L, j) (image_slots rbs) -> required_layout (descriptor_type rb) = Some L.
Proof.
  unfold image_slots. rewrite in_flat_map. intros (rb' & _ & Hin).
  destruct (required_layout (descriptor_type rb')) as [L'|] eqn:E; [|destruct Hin].
  apply in_map_iff in Hin as (j' & [= <- <- <-] & _). exact E.
Qed.

(** The tracking part of the claim, on the layout transition itself. *)
Lemma transition_tracking s ipipeline icommand_buffer ishader p t L h st' :
  cgpu_transition_image_layouts_for_shader s ipipeline icommand_buffer p = Ok st' ->
  resource_store_get (ishader_store s) (shader ipipeline) = Some ishader ->
  required_layout t = Some L ->
  bound_only_as t (reflection ishader) p h = true ->
  exists before after,
    resource_store_get (iimage_store s) h = Some before /\
    resource_store_get (images st') h = Some after /\
    layout after = L /\
    (layout before = L -> after = before) /\
    (layout before <> L ->
     forall acc, reflects_access acc (reflection ishader) p h = true ->
                 access_mask after = acc).
Proof.
  unfold cgpu_transition_image_layouts_for_shader. intros Hrun Hsh Ht Hb.
  rewrite Hsh in Hrun.
  destruct (resource_store_get (idevice_store s) (device icommand_buffer));
    [|discriminate].
  rewrite transition_bindings_run in Hrun.
  unfold bound_only_as in Hb. apply andb_true_iff in Hb as [Hne Hty].
  set (sl := image_slots (reflection ishader)) in *.
  assert (Hb : binders p sl h <> []).
  { intros E. rewrite E in Hne. discriminate. }
  assert (Hall : forall rb L' j, In (rb, L', j) (binders p sl h) -> L' = L).
  { intros rb L' j Hin. rewrite forallb_forall in Hty.
    pose proof (Hty _ Hin) as Hd. apply bool_decide_eq_true_1 in Hd. cbn in Hd.
    unfold binders in Hin. apply filter_In in Hin as [Hin _].
    apply image_slots_layout in Hin. congruence. }
  pose proof (run_slots_binder_live _ _ _ _ _ Hrun Hb) as Hlive.
  cbn [images] in Hlive.
  assert (exists before, resource_store_get (iimage_store s) h = Some before)
    as [before Hget0].
  { unfold resource_store_get. unfold live in Hlive. rewrite Hlive. eauto. }
  destruct (run_slots_tracking _ _ _ _ _ _ _ Hrun Hb Hall Hget0)
    as (after & Hget' & Hl & Hsame & Hacc).
  exists before, after. repeat split; try assumption.
  intros Hne' acc Hr. apply (Hacc Hne').
  intros rb L' j Hin. unfold reflects_access in Hr. rewrite forallb_forall in Hr.
  pose proof (Hr _ Hin) as Hd. cbn in Hd.
  apply andb_true_iff in Hd as [Hsingle Heq].
  apply negb_true_iff in Hsingle. apply Z.eqb_eq in Heq.
  now rewrite shader_access_mask_single.
Qed.

(** *** The guards of the other scratch arrays *)

(** Every store into [image_infos] and [write_descriptor_sets] lies inside
    the array. *)
Definition others_in_range (u : update_state) : Prop :=
  forall a i, In (a, i) (array_stores u) -> a <> BufferInfos -> 0 <= i < capacity a.

Lemma others_in_range_app u a i stores' :
  others_in_range u ->
  (a <> BufferInfos -> 0 <= i < capacity a) ->
  stores' = array_stores u ++ [(a, i)] ->
  forall a' i', In (a', i') stores' -> a' <> BufferInfos -> 0 <= i' < capacity a'.
Proof.
  intros Hu Hnew -> a' i' Hin Hne.
  apply in_app_or in Hin. destruct Hin as [Hin | [Heq | []]].
  - now apply Hu.
  - injection Heq as <- <-. now apply Hnew.
Qed.

Lemma update_slot_in_range s idevice b lb j u u' :
  update_slot s idevice b lb j u = Ok u' -> others_in_range u -> others_in_range u'.
Proof.
  unfold update_slot. intros Hstep Hu.
  destruct (lb_descriptorType lb); try discriminate.
  - destruct (find_sampler_binding _ _ _); [|discriminate].
    destruct (resource_store_get _ _); [|discriminate].
    destruct (image_info_count u >=? MAX_DESCRIPTOR_IMAGE_INFOS) eqn:E; [discriminate|].
    injection Hstep as <-. unfold others_in_range.
    eapply others_in_range_app; [exact Hu | | reflexivity].
    intros _. unfold image_info_count in *. cbn [capacity]. lia.
  - destruct (find_image_binding' _ _ _); [|discriminate].
    destruct (resource_store_get _ _); [|discriminate].
    destruct (image_info_count u >=? MAX_DESCRIPTOR_IMAGE_INFOS) eqn:E; [discriminate|].
    injection Hstep as <-. unfold others_in_range.
    eapply others_in_range_app; [exact Hu | | reflexivity].
    intros _. unfold image_info_count in *. cbn [capacity]. lia.
  - destruct (find_image_binding' _ _ _); [|discriminate].
    destruct (resource_store_get _ _); [|discriminate].
    destruct (image_info_count u >=? MAX_DESCRIPTOR_IMAGE_INFOS) eqn:E; [discriminate|].
    injection Hstep as <-. unfold others_in_range.
    eapply others_in_range_app; [exact Hu | | reflexivity].
    intros _. unfold image_info_count in *. cbn [capacity]. lia.
  - destruct (find_buffer_binding _ _ _); [|discriminate].
    destruct (resource_store_get _ _); [|discriminate].
    destruct (negb _); [discriminate|].
    destruct (image_info_count u >=? MAX_DESCRIPTOR_BUFFER_INFOS); [discriminate|].
    injection Hstep as <-. unfold others_in_range.
    eapply others_in_range_app; [exact Hu | | reflexivity].
    intros Hne. now contradiction Hne.
Qed.

Lemma update_slots_in_range s idevice b lb js u u' :
  update_slots s idevice b lb js u = Ok u' -> others_in_range u -> others_in_range u'.
Proof.
  revert u. induction js as [|j js IH]; intros u; simpl.
  - now intros [= <-].
  - destruct (update_slot s idevice b lb j u) as [u1|] eqn:E; [|discriminate].
    intros Hrest Hu. apply (IH u1 Hrest). eapply update_slot_in_range; eauto.
Qed.

Lemma update_layout_bindings_in_range s idevice b lbs u u' :
  update_layout_bindings s idevice b lbs u = Ok u' ->
  others_in_range u -> others_in_range u'.
Proof.
  revert u. induction lbs as [|lb lbs IH]; intros u; simpl.
  - now intros [= <-].
  - destruct (write_descriptor_set_count u >=? MAX_WRITE_DESCRIPTOR_SETS) eqn:E;
      [discriminate|].
    destruct (update_slots _ _ _ _ _ _) as [u1|] eqn:E1; [|discriminate].
    intros Hrest Hu. apply (IH _ Hrest).
    assert (H1 : others_in_range u1).
    { eapply update_slots_in_range; [exact E1|].
      unfold others_in_range. cbn [begin_write array_stores].
      eapply others_in_range_app; [exact Hu | | reflexivity].
      intros _. unfold write_descriptor_set_count in *. cbn [capacity]. lia. }
    exact H1.
Qed.

(** On success, the stores into [image_infos] and [write_descriptor_sets]
    all lie inside their arrays: those two guards test the array's own
    counter. *)
Lemma other_scratch_arrays_guarded s cb pl b out :
  cgpu_cmd_update_bindings s cb pl b = Ok out -> others_in_range (locals out).
Proof.
  unfold cgpu_cmd_update_bindings.
  destruct (resource_store_get _ cb); [|discriminate].
  destruct (resource_store_get (idevice_store s) _); [|discriminate].
  destruct (resource_store_get _ pl); [|discriminate].
  destruct (cgpu_transition_image_layouts_for_shader _ _ _ _); [|discriminate].
  destruct (update_layout_bindings _ _ _ _ _) as [u|] eqn:E; [|discriminate].
  intros [= <-]. cbn [locals].
  eapply update_layout_bindings_in_range; [exact E|].
  intros a i [].
Qed.

(** The barrier array of the layout transition is guarded by its own counter
    as well: it never holds more than [MAX_IMAGE_MEMORY_BARRIERS] entries. *)
Lemma transition_slot_barriers p rb L j st st' :
  transition_slot p rb L j st = Ok st' ->
  Z.of_nat (length (barriers st)) <= MAX_IMAGE_MEMORY_BARRIERS ->
  Z.of_nat (length (barriers st')) <= MAX_IMAGE_MEMORY_BARRIERS.
Proof.
  unfold transition_slot.
  destruct (find_image_binding p (binding rb) j); [|discriminate].
  destruct (resource_store_get _ _); [|discriminate].
  destruct (layout_eqb _ _); [now intros [= <-]|].
  destruct (_ >=? _) eqn:E; [discriminate|].
  intros [= <-] _. cbn [barriers]. rewrite length_app. cbn [length]. lia.
Qed.

Lemma barriers_guarded s ipipeline icommand_buffer p st' :
  cgpu_transition_image_layouts_for_shader s ipipeline icommand_buffer p = Ok st' ->
  Z.of_nat (length (barriers st')) <= MAX_IMAGE_MEMORY_BARRIERS.
Proof.
  unfold cgpu_transition_image_layouts_for_shader.
  destruct (resource_store_get _ _) as [ishader|]; [|discriminate].
  destruct (resource_store_get _ _) as [idevice|]; [|discriminate].
  rewrite transition_bindings_run.
  generalize (image_slots (reflection ishader)).
  assert (H0 : Z.of_nat (length (barriers
                 {| images := iimage_store s; barriers := [] |}))
               <= MAX_IMAGE_MEMORY_BARRIERS) by (cbn; unfold MAX_IMAGE_MEMORY_BARRIERS; lia).
  revert H0. generalize {| images := iimage_store s; barriers := [] |}.
  intros st H0 sl. revert st H0.
  induction sl as [|[[rb L] j] sl IH]; intros st H0 Hrun.
  - cbn in Hrun. now injection Hrun as <-.
  - apply run_slots_cons_Ok in Hrun as (st1 & Hstep & Hrun).
    apply (IH st1); [|exact Hrun].
    eapply transition_slot_barriers; eauto.
Qed.

(** The append to [buffer_infos] goes through whenever fewer than
    [MAX_DESCRIPTOR_BUFFER_INFOS] image infos have been collected, however
    many buffer infos there are already. *)
Lemma buffer_info_store_unguarded s idevice b lb j u buffer_binding ibuffer :
  lb_descriptorType lb = VK_DESCRIPTOR_TYPE_STORAGE_BUFFER ->
  find_buffer_binding (p_buffers b) (lb_binding lb) j = Some buffer_binding ->
  resource_store_get (ibuffer_store s) (bb_buffer buffer_binding) = Some ibuffer ->
  bb_offset buffer_binding mod minStorageBufferOffsetAlignment idevice = 0 ->
  image_info_count u < MAX_DESCRIPTOR_BUFFER_INFOS ->
  exists u',
    update_slot s idevice b lb j u = Ok u' /\
    array_stores u' = array_stores u ++ [(BufferInfos, buffer_info_count u)].
Proof.
  intros Htype Hfind Hget Haligned Himages.
  unfold update_slot. rewrite Htype, Hfind, Hget, Haligned.
  cbn [Z.eqb negb].
  replace (image_info_count u >=? MAX_DESCRIPTOR_BUFFER_INFOS) with false
    by (symmetry; rewrite Z.geb_leb; apply Z.leb_gt; exact Himages).
  eexists. split; reflexivity.
Qed.

(** *** A pipeline with an array of 65 storage buffers *)

(** A store holding exactly one object; its handle is [first_handle]. *)
Definition single_store {A} (blank obj : A) : resource_store A :=
  let '(h, st) := resource_store_create_handle (resource_store_create blank) in
  resource_store_put st h obj.

Definition first_handle : handle := {| h_index := 0; h_version := 0 |}.

Definition blank_image : cgpu_iimage :=
  {| image := 0; image_view := 0; layout := VK_IMAGE_LAYOUT_UNDEFINED; access_mask := 0 |}.

Definition buffer_array_reflection : cgpu_shader_reflection_binding :=
  {| binding := 0; descriptor_type := VK_DESCRIPTOR_TYPE_STORAGE_BUFFER;
     count := 65; read_access := true; write_access := false |}.

Definition buffer_array_stores : stores :=
  {| idevice_store := single_store {| minStorageBufferOffsetAlignment := 16 |}
                        {| minStorageBufferOffsetAlignment := 16 |};
     ibuffer_store := single_store {| buffer := 0; size := 0 |}
                        {| buffer := 77; size := 4096 |};
     iimage_store := resource_store_create blank_image;
     ishader_store := single_store {| reflection := [] |}
                        {| reflection := [buffer_array_reflection] |};
     ipipeline_store :=
       single_store
         {| descriptor_set_layout_bindings := []; shader := first_handle |}
         {| descriptor_set_layout_bindings :=
              [{| lb_binding := 0;
                  lb_descriptorType := VK_DESCRIPTOR_TYPE_STORAGE_BUFFER;
                  lb_descriptorCount := 65 |}];
            shader := first_handle |};
     icommand_buffer_store :=
       single_store {| device := first_handle |} {| device := first_handle |};
     isampler_store := resource_store_create {| sampler := 0 |} |}.

(** One buffer binding per array element, all naming the same buffer. *)
Definition buffer_array_bindings : cgpu_bindings :=
  {| p_buffers :=
       map (fun j => {| bb_binding := 0; bb_index := j; bb_buffer := first_handle;
                        bb_offset := 0; bb_size := CGPU_WHOLE_SIZE |})
           (indices 65);
     p_images := [];
     p_samplers := [] |}.

(** The stores into a scratch array at or past its capacity. *)
Definition out_of_bounds_stores (u : update_state) : list (scratch_array * Z) :=
  filter (fun e => bool_decide (capacity (fst e) <= snd e)) (array_stores u).

(** C8. The claim is that an append to a full scratch array is caught before
    the store, and that a buffer info is only appended while
    [buffer_info_count < MAX_DESCRIPTOR_BUFFER_INFOS]. The guard before the
    append to [buffer_infos] tests [image_info_count]: with 65 storage-buffer
    descriptors and no image the call succeeds and the 65th buffer info is
    stored at [buffer_infos[64]], one past the end of the 64-entry array. *)
Theorem buffer_infos_overflow :
  match cgpu_cmd_update_bindings buffer_array_stores first_handle first_handle
          buffer_array_bindings with
  | Ok out =>
      buffer_info_count (locals out) = 65 /\
      out_of_bounds_stores (locals out) = [(BufferInfos, 64)]
  | Err _ _ => False
  end.
Proof.
  vm_compute. split; reflexivity.
Qed.

(** *** Tracked image state after [cgpu_cmd_update_bindings] *)

Lemma update_bindings_Ok s cb pl b out :
  cgpu_cmd_update_bindings s cb pl b = Ok out ->
  exists icommand_buffer ipipeline st',
    resource_store_get (ipipeline_store s) pl = Some ipipeline /\
    cgpu_transition_image_layouts_for_shader s ipipeline icommand_buffer (p_images b)
    = Ok st' /\
    iimage_store (stores_after out) = images st'.
Proof.
  unfold cgpu_cmd_update_bindings.
  destruct (resource_store_get _ cb) as [icb|]; [|discriminate].
  destruct (resource_store_get (idevice_store s) _) as [idev|]; [|discriminate].
  destruct (resource_store_get _ pl) as [ipl|]; [|discriminate].
  destruct (cgpu_transition_image_layouts_for_shader _ _ _ _) as [st'|] eqn:Et;
    [|discriminate].
  destruct (update_layout_bindings _ _ _ _ _) as [u|]; [|discriminate].
  intros [= <-]. exists icb, ipl, st'. auto.
Qed.

(** The tracking state [cgpu_cmd_copy_buffer_to_image] leaves on the image
    it uploads to: layout [General], access mask or-ed with [MemoryWrite],
    unless the layout is [General] already. *)
Definition copy_buffer_to_image_tracking (iimage : cgpu_iimage) : cgpu_iimage :=
  if negb (layout_eqb (layout iimage) VK_IMAGE_LAYOUT_GENERAL) then
    {| image := image iimage; image_view := image_view iimage;
       layout := VK_IMAGE_LAYOUT_GENERAL;
       access_mask := Z.lor (access_mask iimage) VK_ACCESS_MEMORY_WRITE_BIT |}
  else iimage.

(** One image bound at slot 0 of binding 0 of a single-binding pipeline. *)
Definition one_image_stores (rb : cgpu_shader_reflection_binding)
    (iimage : cgpu_iimage) : stores :=
  {| idevice_store := single_store {| minStorageBufferOffsetAlignment := 16 |}
                        {| minStorageBufferOffsetAlignment := 16 |};
     ibuffer_store := resource_store_create {| buffer := 0; size := 0 |};
     iimage_store := single_store blank_image iimage;
     ishader_store := single_store {| reflection := [] |} {| reflection := [rb] |};
     ipipeline_store :=
       single_store
         {| descriptor_set_layout_bindings := []; shader := first_handle |}
         {| descriptor_set_layout_bindings :=
              [{| lb_binding := binding rb;
                  lb_descriptorType := descriptor_type rb;
                  lb_descriptorCount := count rb |}];
            shader := first_handle |};
     icommand_buffer_store :=
       single_store {| device := first_handle |} {| device := first_handle |};
     isampler_store := resource_store_create {| sampler := 0 |} |}.

Definition one_image_bindings : cgpu_bindings :=
  {| p_buffers := [];
     p_images := [{| ib_binding := 0; ib_index := 0; ib_image := first_handle |}];
     p_samplers := [] |}.

Definition image_binding_of (t : VkDescriptorType) (r w : bool)
    : cgpu_shader_reflection_binding :=
  {| binding := 0; descriptor_type := t; count := 1;
     read_access := r; write_access := w |}.

(** The layout and access mask tracked for the first image after the call,
    if the call succeeds. *)
Definition tracked_after (s : stores) (b : cgpu_bindings) : option (VkImageLayout * Z) :=
  match cgpu_cmd_update_bindings s first_handle first_handle b with
  | Ok out =>
      option_map (fun i => (layout i, access_mask i))
        (resource_store_get (iimage_store (stores_after out)) first_handle)
  | Err _ _ => None
  end.

(** C7, as stated, fails. A freshly created image is uploaded to with
    [cgpu_cmd_copy_buffer_to_image] (tracked as [General], [MemoryWrite]) and
    then bound at a storage-image binding that the shader only reads: the
    call succeeds, the layout matches already, and the tracked access mask
    stays [MemoryWrite] (65536) although the reflected access is
    [ShaderRead] (32). *)
Lemma storage_image_mask_not_updated :
  tracked_after
    (one_image_stores (image_binding_of VK_DESCRIPTOR_TYPE_STORAGE_IMAGE true false)
       (copy_buffer_to_image_tracking blank_image))
    one_image_bindings
  = Some (VK_IMAGE_LAYOUT_GENERAL, 65536) /\
  reflected_access (image_binding_of VK_DESCRIPTOR_TYPE_STORAGE_IMAGE true false) = 32.
Proof. split; vm_compute; reflexivity. Qed.

(** The other way the access mask departs from the reflection: for a
    storage image that is both read and written and does need a transition,
    the second assignment replaces the first, and the mask is [ShaderWrite]
    (64) alone, not [ShaderRead|ShaderWrite] (96). *)
Lemma read_write_storage_image_mask :
  tracked_after
    (one_image_stores (image_binding_of VK_DESCRIPTOR_TYPE_STORAGE_IMAGE true true)
       blank_image)
    one_image_bindings
  = Some (VK_IMAGE_LAYOUT_GENERAL, 64) /\
  reflected_access (image_binding_of VK_DESCRIPTOR_TYPE_STORAGE_IMAGE true true) = 96.
Proof. split; vm_compute; reflexivity. Qed.

(** C7 (amended). After [cgpu_cmd_update_bindings] returns successfully, an
    image that is bound at image slots of one descriptor type only has the
    layout that type requires ([ShaderReadOnly] for sampled, [General] for
    storage). If it had that layout before the call, its tracked layout and
    access mask are what they were; if the call changed its layout, its
    tracked access mask is the reflected access of its binding ([ShaderRead]
    for read-only, [ShaderWrite] for write-only), provided all slots naming
    it reflect that access and none is both read and written. *)
Theorem tracked_image_after_update_bindings s cb pl b out t L h :
  cgpu_cmd_update_bindings s cb pl b = Ok out ->
  required_layout t = Some L ->
  bound_only_as t (reflection_of s pl) (p_images b) h = true ->
  exists before after,
    resource_store_get (iimage_store s) h = Some before /\
    resource_store_get (iimage_store (stores_after out)) h = Some after /\
    layout after = L /\
    (layout before = L -> after = before) /\
    (layout before <> L ->
     forall acc, reflects_access acc (reflection_of s pl) (p_images b) h = true ->
                 access_mask after = acc).
Proof.
  intros Hok Ht Hb.
  destruct (update_bindings_Ok _ _ _ _ _ Hok) as (icb & ipl & st' & Hpl & Htr & Himg).
  unfold reflection_of in *. rewrite Hpl in *.
  destruct (resource_store_get (ishader_store s) (shader ipl)) as [ish|] eqn:Hsh.
  - rewrite Himg. eapply transition_tracking; eauto.
  - unfold bound_only_as in Hb. cbn in Hb. discriminate.
Qed.

Definition outcome_of {S} (r : cgpu_result S) : S :=
  match r with Ok o => o | Err _ o => o end.

Definition sampled_stores : stores :=
  one_image_stores (image_binding_of VK_DESCRIPTOR_TYPE_SAMPLED_IMAGE true false)
    blank_image.

Lemma tracked_image_after_update_bindings_witness :
  exists before after,
    resource_store_get (iimage_store sampled_stores) first_handle = Some before /\
    resource_store_get
      (iimage_store (stores_after
         (outcome_of (cgpu_cmd_update_bindings sampled_stores first_handle
                        first_handle one_image_bindings))))
      first_handle = Some after /\
    layout after = VK_IMAGE_LAYOUT_SHADER_READ_ONLY_OPTIMAL /\
    (layout before = VK_IMAGE_LAYOUT_SHADER_READ_ONLY_OPTIMAL -> after = before) /\
    (layout before <> VK_IMAGE_LAYOUT_SHADER_READ_ONLY_OPTIMAL ->
     forall acc,
       reflects_access acc (reflection_of sampled_stores first_handle)
         (p_images one_image_bindings) first_handle = true ->
       access_mask after = acc).
Proof.
  apply (tracked_image_after_update_bindings sampled_stores first_handle first_handle
           one_image_bindings _ VK_DESCRIPTOR_TYPE_SAMPLED_IMAGE).
  - vm_compute. reflexivity.
  - reflexivity.
  - vm_compute. reflexivity.
Defined.

(** *** [cgpu_create_pipeline_descriptors] *)

Definition MAX_DESCRIPTOR_SET_LAYOUT_BINDINGS : Z := 128.

Inductive descriptors_failure :=
  | TooManyBindings
  | CreateDescriptorSetLayoutFailed
  | InvalidDescriptorType
  | CreateDescriptorPoolFailed
  | AllocateDescriptorSetsFailed.

(** What the function leaves in the pipeline and hands to
    [vkCreateDescriptorPool]. *)
Record pipeline_descriptors := {
  layout_bindings : list VkDescriptorSetLayoutBinding;
  pool_sizes : list (VkDescriptorType * Z)
}.

(** The four [uint32_t] counters of the second loop. *)
Record descriptor_counts := {
  buffer_count : Z;
  storage_image_count : Z;
  sampled_image_count : Z;
  sampler_count : Z
}.

(** The second loop [for i]; [None] is the [default] case of the [switch]. *)
Fixpoint count_descriptors (bindings : list cgpu_shader_reflection_binding)
    (c : descriptor_counts) : option descriptor_counts :=
  match bindings with
  | [] => Some c
  | b :: rest =>
      match descriptor_type b with
      | VK_DESCRIPTOR_TYPE_STORAGE_BUFFER =>
          count_descriptors rest
            {| buffer_count := wrap32 (buffer_count c + count b);
               storage_image_count := storage_image_count c;
               sampled_image_count := sampled_image_count c;
               sampler_count := sampler_count c |}
      | VK_DESCRIPTOR_TYPE_STORAGE_IMAGE =>
          count_descriptors rest
            {| buffer_count := buffer_count c;
               storage_image_count := wrap32 (storage_image_count c + count b);
               sampled_image_count := sampled_image_count c;
               sampler_count := sampler_count c |}
      | VK_DESCRIPTOR_TYPE_SAMPLED_IMAGE =>
          count_descriptors rest
            {| buffer_count := buffer_count c;
               storage_image_count := storage_image_count c;
               sampled_image_count := wrap32 (sampled_image_count c + count b);
               sampler_count := sampler_count c |}
      | VK_DESCRIPTOR_TYPE_SAMPLER =>
          count_descriptors rest
            {| buffer_count := buffer_count c;
               storage_image_count := storage_image_count c;
               sampled_image_count := sampled_image_count c;
               sampler_count := wrap32 (sampler_count c + count b) |}
      | _ => None
      end
  end.

(** The four [if (..._count > 0)] blocks that fill [pool_sizes]. *)
Definition make_pool_sizes (c : descriptor_counts) : list (VkDescriptorType * Z) :=
  let pool_sizes := [] in
  let pool_sizes :=
    if 0 <? buffer_count c
    then pool_sizes ++ [(VK_DESCRIPTOR_TYPE_STORAGE_BUFFER, buffer_count c)]
    else pool_sizes in
  let pool_sizes :=
    if 0 <? storage_image_count c
    then pool_sizes ++ [(VK_DESCRIPTOR_TYPE_STORAGE_IMAGE, storage_image_count c)]
    else pool_sizes in
  let pool_sizes :=
    if 0 <? sampled_image_count c
    then pool_sizes ++ [(VK_DESCRIPTOR_TYPE_SAMPLED_IMAGE, sampled_image_count c)]
    else pool_sizes in
  let pool_sizes :=
    if 0 <? sampler_count c
    then pool_sizes ++ [(VK_DESCRIPTOR_TYPE_SAMPLER, sampler_count c)]
    else pool_sizes in
  pool_sizes.

Definition cgpu_create_pipeline_descriptors
    (bindings : list cgpu_shader_reflection_binding)
    (vkCreateDescriptorSetLayout_ok vkCreateDescriptorPool_ok
       vkAllocateDescriptorSets_ok : bool)
    : descriptors_failure + pipeline_descriptors :=
  let binding_count := Z.of_nat (length bindings) in
  if binding_count >=? MAX_DESCRIPTOR_SET_LAYOUT_BINDINGS then inl TooManyBindings
  else
    let descriptor_set_layout_bindings :=
      map (fun b => {| lb_binding := binding b;
                       lb_descriptorType := descriptor_type b;
                       lb_descriptorCount := count b |}) bindings in
    if negb vkCreateDescriptorSetLayout_ok then inl CreateDescriptorSetLayoutFailed
    else
      match count_descriptors bindings
              {| buffer_count := 0; storage_image_count := 0;
                 sampled_image_count := 0; sampler_count := 0 |} with
      | None => inl InvalidDescriptorType
      | Some c =>
          if negb vkCreateDescriptorPool_ok then inl CreateDescriptorPoolFailed
          else if negb vkAllocateDescriptorSets_ok then inl AllocateDescriptorSetsFailed
          else inr {| layout_bindings := descriptor_set_layout_bindings;
                      pool_sizes := make_pool_sizes c |}
      end.

Definition descriptor_type_eqb (a b : VkDescriptorType) : bool :=
  match a, b with
  | VK_DESCRIPTOR_TYPE_SAMPLER, VK_DESCRIPTOR_TYPE_SAMPLER
  | VK_DESCRIPTOR_TYPE_SAMPLED_IMAGE, VK_DESCRIPTOR_TYPE_SAMPLED_IMAGE
  | VK_DESCRIPTOR_TYPE_STORAGE_IMAGE, VK_DESCRIPTOR_TYPE_STORAGE_IMAGE
  | VK_DESCRIPTOR_TYPE_STORAGE_BUFFER, VK_DESCRIPTOR_TYPE_STORAGE_BUFFER
  | VK_DESCRIPTOR_TYPE_UNIFORM_BUFFER, VK_DESCRIPTOR_TYPE_UNIFORM_BUFFER => true
  | _, _ => false
  end.

(** The number of descriptors of one type that the reflected bindings
    declare, as a [uint32_t]. *)
Definition declared (t : VkDescriptorType)
    (bindings : list cgpu_shader_reflection_binding) : Z :=
  wrap32 (fold_right Z.add 0
            (map count (List.filter (fun b => descriptor_type_eqb (descriptor_type b) t) bindings))).

Lemma wrap32_add_l a b : wrap32 (wrap32 a + b) = wrap32 (a + b).
Proof. unfold wrap32. now rewrite Z.add_mod_idemp_l by lia. Qed.

Definition counts_from (c0 c : descriptor_counts)
    (bindings : list cgpu_shader_reflection_binding) : Prop :=
  let total t := fold_right Z.add 0
    (map count (List.filter (fun b => descriptor_type_eqb (descriptor_type b) t) bindings)) in
  buffer_count c = wrap32 (buffer_count c0 + total VK_DESCRIPTOR_TYPE_STORAGE_BUFFER) /\
  storage_image_count c =
    wrap32 (storage_image_count c0 + total VK_DESCRIPTOR_TYPE_STORAGE_IMAGE) /\
  sampled_image_count c =
    wrap32 (sampled_image_count c0 + total VK_DESCRIPTOR_TYPE_SAMPLED_IMAGE) /\
  sampler_count c = wrap32 (sampler_count c0 + total VK_DESCRIPTOR_TYPE_SAMPLER).

Lemma count_descriptors_total bindings c0 c :
  wrap32 (buffer_count c0) = buffer_count c0 ->
  wrap32 (storage_image_count c0) = storage_image_count c0 ->
  wrap32 (sampled_image_count c0) = sampled_image_count c0 ->
  wrap32 (sampler_count c0) = sampler_count c0 ->
  count_descriptors bindings c0 = Some c ->
  counts_from c0 c bindings /\
  Forall (fun b => descriptor_type b <> VK_DESCRIPTOR_TYPE_UNIFORM_BUFFER) bindings.
Proof.
  revert c0. induction bindings as [|b rest IH]; intros c0 H1 H2 H3 H4 Hrun.
  - cbn in Hrun. injection Hrun as <-. split; [|constructor].
    unfold counts_from. cbn. rewrite !Z.add_0_r. auto.
  - cbn [count_descriptors] in Hrun.
    assert (Hw : forall z, wrap32 (wrap32 z) = wrap32 z)
      by (intros z; apply wrap32_small, wrap32_range).
    destruct (descriptor_type b) eqn:Et; try discriminate;
      (apply IH in Hrun as [(E1 & E2 & E3 & E4) Hall]; cbn; auto);
      (split; [|constructor; [congruence | exact Hall]]);
      unfold counts_from; cbn [List.filter map fold_right]; rewrite Et;
      cbn [descriptor_type_eqb map fold_right List.filter];
      rewrite E1, E2, E3, E4; cbn;
      rewrite ?wrap32_add_l, ?Z.add_assoc; auto.
Qed.

Lemma no_uniform_buffers bindings :
  Forall (fun b => descriptor_type b <> VK_DESCRIPTOR_TYPE_UNIFORM_BUFFER) bindings ->
  declared VK_DESCRIPTOR_TYPE_UNIFORM_BUFFER bindings = 0.
Proof.
  intros Hall. unfold declared.
  replace (List.filter _ bindings) with (@nil cgpu_shader_reflection_binding);
    [reflexivity|].
  induction Hall as [|b rest Hb _ IH]; [reflexivity|].
  cbn [List.filter]. destruct (descriptor_type b); cbn; congruence.
Qed.

Lemma make_pool_sizes_spec c t n :
  In (t, n) (make_pool_sizes c) <->
  0 < n /\
  match t with
  | VK_DESCRIPTOR_TYPE_STORAGE_BUFFER => n = buffer_count c
  | VK_DESCRIPTOR_TYPE_STORAGE_IMAGE => n = storage_image_count c
  | VK_DESCRIPTOR_TYPE_SAMPLED_IMAGE => n = sampled_image_count c
  | VK_DESCRIPTOR_TYPE_SAMPLER => n = sampler_count c
  | VK_DESCRIPTOR_TYPE_UNIFORM_BUFFER => False
  end.
Proof.
  unfold make_pool_sizes. cbv zeta.
  destruct (0 <? buffer_count c) eqn:E1, (0 <? storage_image_count c) eqn:E2,
    (0 <? sampled_image_count c) eqn:E3, (0 <? sampler_count c) eqn:E4;
    rewrite ?Z.ltb_lt, ?Z.ltb_ge in *; cbn [app In];
    (split;
     [ intros Hin;
       repeat (destruct Hin as [Hin | Hin];
               [injection Hin as <- <-; split; [lia | reflexivity] |]);
       destruct Hin
     | intros [Hn Ht]; destruct t; subst; try tauto; try lia ]).
Qed.

Lemma make_pool_sizes_length c : (length (make_pool_sizes c) <= 4)%nat.
Proof.
  unfold make_pool_sizes. cbv zeta.
  destruct (0 <? buffer_count c), (0 <? storage_image_count c),
    (0 <? sampled_image_count c), (0 <? sampler_count c); cbn; lia.
Qed.

(** X10. When [cgpu_create_pipeline_descriptors] succeeds, the shader has
    fewer than 128 bindings, the descriptor set layout mirrors the reflected
    bindings one to one, and the descriptor pool is sized for exactly the
    descriptors they declare: one entry for every descriptor type with a
    non-zero total, holding that total (as a [uint32_t]), and nothing else. *)
Theorem pipeline_descriptors_match_reflection bindings ok1 ok2 ok3 pd :
  cgpu_create_pipeline_descriptors bindings ok1 ok2 ok3 = inr pd ->
  Z.of_nat (length bindings) < MAX_DESCRIPTOR_SET_LAYOUT_BINDINGS /\
  layout_bindings pd =
    map (fun b => {| lb_binding := binding b;
                     lb_descriptorType := descriptor_type b;
                     lb_descriptorCount := count b |}) bindings /\
  (forall t n, In (t, n) (pool_sizes pd) <-> n = declared t bindings /\ 0 < n) /\
  (length (pool_sizes pd) <= 4)%nat.
Proof.
  unfold cgpu_create_pipeline_descriptors.
  destruct (_ >=? _) eqn:Elimit; [discriminate|].
  destruct ok1; [|discriminate]. cbn [negb].
  destruct (count_descriptors bindings _) as [c|] eqn:Ecount; [|discriminate].
  destruct ok2; [|discriminate]. destruct ok3; [|discriminate]. cbn [negb].
  intros [= <-]. cbn [layout_bindings pool_sizes].
  rewrite Z.geb_leb in Elimit. apply Z.leb_gt in Elimit.
  apply count_descriptors_total in Ecount as [(E1 & E2 & E3 & E4) Hall];
    try reflexivity.
  cbn [buffer_count storage_image_count sampled_image_count sampler_count] in *.
  rewrite Z.add_0_l in E1, E2, E3, E4.
  split; [exact Elimit|]. split; [reflexivity|].
  split; [|apply make_pool_sizes_length].
  intros t n. rewrite make_pool_sizes_spec.
  destruct t; unfold declared; rewrite <- ?E1, <- ?E2, <- ?E3, <- ?E4;
    try tauto.
  pose proof (no_uniform_buffers bindings Hall) as Hz. unfold declared in Hz.
  rewrite Hz. lia.
Qed.

Definition sample_reflection : list cgpu_shader_reflection_binding :=
  [ {| binding := 0; descriptor_type := VK_DESCRIPTOR_TYPE_STORAGE_BUFFER; count := 2;
       read_access := true; write_access := true |};
    {| binding := 1; descriptor_type := VK_DESCRIPTOR_TYPE_SAMPLED_IMAGE; count := 16;
       read_access := true; write_access := false |};
    {| binding := 2; descriptor_type := VK_DESCRIPTOR_TYPE_STORAGE_BUFFER; count := 1;
       read_access := true; write_access := false |} ].

Lemma pipeline_descriptors_match_reflection_witness :
  exists pd,
    cgpu_create_pipeline_descriptors sample_reflection true true true = inr pd /\
    pool_sizes pd = [(VK_DESCRIPTOR_TYPE_STORAGE_BUFFER, 3);
                     (VK_DESCRIPTOR_TYPE_SAMPLED_IMAGE, 16)] /\
    (length (pool_sizes pd) <= 4)%nat.
Proof.
  eexists. split; [reflexivity|]. split; [reflexivity|].
  exact (proj2 (proj2 (proj2
    (pipeline_descriptors_match_reflection sample_reflection true true true _ eq_refl)))).
Defined.

(** *** The queue family chosen by [cgpu_create_device] *)

Definition VK_QUEUE_COMPUTE_BIT : Z := 2.
Definition VK_QUEUE_TRANSFER_BIT : Z := 4.

(** [(queueFlags & VK_QUEUE_COMPUTE_BIT) && (queueFlags & VK_QUEUE_TRANSFER_BIT)] *)
Definition computes_and_transfers (queueFlags : Z) : bool :=
  negb (Z.land queueFlags VK_QUEUE_COMPUTE_BIT =? 0) &&
  negb (Z.land queueFlags VK_QUEUE_TRANSFER_BIT =? 0).

(** The loop over [queue_families]: [i] is the loop counter,
    [queue_family_index] the [int32_t] that starts as [-1]; the loop has no
    [break]. *)
Fixpoint select_queue_family_from (queue_families : list Z) (i : Z)
    (queue_family_index : Z) : Z :=
  match queue_families with
  | [] => queue_family_index
  | queueFlags :: rest =>
      select_queue_family_from rest (i + 1)
        (if computes_and_transfers queueFlags then i else queue_family_index)
  end.

Definition select_queue_family (queue_families : list Z) : Z :=
  select_queue_family_from queue_families 0 (-1).

Lemma select_from_spec fams i idx :
  let r := select_queue_family_from fams i idx in
  (r = idx /\ Forall (fun f => computes_and_transfers f = false) fams) \/
  (exists k, (k < length fams)%nat /\ r = i + Z.of_nat k /\
             computes_and_transfers (nth k fams 0) = true /\
             forall j, (k < j < length fams)%nat ->
                       computes_and_transfers (nth j fams 0) = false).
Proof.
  revert i idx. induction fams as [|f rest IH]; intros i idx; cbn [select_queue_family_from].
  - left. split; [reflexivity | constructor].
  - cbv zeta in IH.
    destruct (IH (i + 1) (if computes_and_transfers f then i else idx))
      as [[Hr Hall] | (k & Hk & Hr & Hsuit & Hlast)].
    + destruct (computes_and_transfers f) eqn:Ef.
      * right. exists 0%nat. cbn [length nth]. split; [lia|]. split; [lia|].
        split; [exact Ef|]. intros j Hj. destruct j as [|j]; [lia|]. cbn [nth].
        rewrite List.Forall_forall in Hall. apply Hall, nth_In. lia.
      * left. split; [exact Hr | now constructor].
    + right. exists (S k). cbn [length nth]. split; [lia|]. split; [lia|].
      split; [exact Hsuit|]. intros j Hj. destruct j as [|j]; [lia|]. cbn [nth].
      apply Hlast. lia.
Qed.

(** X11. [cgpu_create_device] picks the last queue family that supports both
    compute and transfer: the index it ends with is [-1] exactly when no
    family does (the "no suitable queue family" failure), and otherwise it is
    the index of a family with both bits with no such family after it. *)
Theorem last_suitable_queue_family queue_families :
  let r := select_queue_family queue_families in
  (r = -1 <-> Forall (fun f => computes_and_transfers f = false) queue_families) /\
  (r <> -1 ->
   0 <= r < Z.of_nat (length queue_families) /\
   computes_and_transfers (nth (Z.to_nat r) queue_families 0) = true /\
   forall j, r < j < Z.of_nat (length queue_families) ->
             computes_and_transfers (nth (Z.to_nat j) queue_families 0) = false).
Proof.
  intros r. subst r. unfold select_queue_family.
  destruct (select_from_spec queue_families 0 (-1))
    as [[Hr Hall] | (k & Hk & Hr & Hsuit & Hlast)]; rewrite Hr.
  - split; [tauto | congruence].
  - split.
    + split; [lia|]. intros Hall. rewrite List.Forall_forall in Hall.
      rewrite (Hall (nth k queue_families 0)) in Hsuit by (apply nth_In; exact Hk).
      discriminate.
    + intros _. rewrite Z.add_0_l, Nat2Z.id.
      split; [lia|]. split; [exact Hsuit|].
      intros j Hj. apply Hlast. lia.
Qed.

(** *** [cgpu_cmd_pipeline_barrier] *)

Definition MAX_BUFFER_MEMORY_BARRIERS : Z := 64.
Definition MAX_MEMORY_BARRIERS : Z := 128.

Definition VK_ACCESS_UNIFORM_READ_BIT : Z := 8.
Definition VK_ACCESS_TRANSFER_READ_BIT : Z := 2048.
Definition VK_ACCESS_TRANSFER_WRITE_BIT : Z := 4096.
Definition VK_ACCESS_HOST_READ_BIT : Z := 8192.
Definition VK_ACCESS_HOST_WRITE_BIT : Z := 16384.
Definition VK_ACCESS_MEMORY_READ_BIT : Z := 32768.
Definition VK_WHOLE_SIZE : Z := 2 ^ 64 - 1.

Record cgpu_memory_barrier := {
  mb_src_access_flags : Z;
  mb_dst_access_flags : Z
}.

Record cgpu_buffer_memory_barrier := {
  bmb_src_access_flags : Z;
  bmb_dst_access_flags : Z;
  bmb_buffer : handle;
  bmb_offset : Z;
  bmb_size : Z
}.

Record cgpu_image_memory_barrier := {
  imb_image : handle;
  imb_access_mask : Z
}.

Record VkMemoryBarrier := { vmb_srcAccessMask : Z; vmb_dstAccessMask : Z }.

Record VkBufferMemoryBarrier := {
  vbb_srcAccessMask : Z;
  vbb_dstAccessMask : Z;
  vbb_buffer : Z;
  vbb_offset : Z;
  vbb_size : Z
}.

(** The three arrays handed to [vkCmdPipelineBarrier]. *)
Record barrier_call := {
  memory_barriers : list VkMemoryBarrier;
  buffer_memory_barriers : list VkBufferMemoryBarrier;
  image_memory_barriers : list VkImageMemoryBarrier
}.

(** The image store as the function leaves it, and the driver call it made
    (none when it returned early). *)
Record barrier_outcome := {
  images_after : resource_store cgpu_iimage;
  recorded : option barrier_call
}.

Section PipelineBarrier.

(** The values of the [CGPU_MEMORY_ACCESS_FLAG_*] constants: [cgpu.h] is not
    part of the sources at hand, so they are left open. *)
Variable CGPU_MEMORY_ACCESS_FLAG_UNIFORM_READ : Z.
Variable CGPU_MEMORY_ACCESS_FLAG_SHADER_READ : Z.
Variable CGPU_MEMORY_ACCESS_FLAG_SHADER_WRITE : Z.
Variable CGPU_MEMORY_ACCESS_FLAG_TRANSFER_READ : Z.
Variable CGPU_MEMORY_ACCESS_FLAG_TRANSFER_WRITE : Z.
Variable CGPU_MEMORY_ACCESS_FLAG_HOST_READ : Z.
Variable CGPU_MEMORY_ACCESS_FLAG_HOST_WRITE : Z.
Variable CGPU_MEMORY_ACCESS_FLAG_MEMORY_READ : Z.
Variable CGPU_MEMORY_ACCESS_FLAG_MEMORY_WRITE : Z.

(** [if ((flags & F) == F) vk_flags |= V;] *)
Definition translate_flag (flags f v vk_flags : Z) : Z :=
  if Z.land flags f =? f then Z.lor vk_flags v else vk_flags.

Definition cgpu_translate_access_flags (flags : Z) : Z :=
  let vk_flags := 0 in
  let vk_flags :=
    translate_flag flags CGPU_MEMORY_ACCESS_FLAG_UNIFORM_READ VK_ACCESS_UNIFORM_READ_BIT vk_flags in
  let vk_flags :=
    translate_flag flags CGPU_MEMORY_ACCESS_FLAG_SHADER_READ VK_ACCESS_SHADER_READ_BIT vk_flags in
  let vk_flags :=
    translate_flag flags CGPU_MEMORY_ACCESS_FLAG_SHADER_WRITE VK_ACCESS_SHADER_WRITE_BIT vk_flags in
  let vk_flags :=
    translate_flag flags CGPU_MEMORY_ACCESS_FLAG_TRANSFER_READ VK_ACCESS_TRANSFER_READ_BIT vk_flags in
  let vk_flags :=
    translate_flag flags CGPU_MEMORY_ACCESS_FLAG_TRANSFER_WRITE VK_ACCESS_TRANSFER_WRITE_BIT vk_flags in
  let vk_flags :=
    translate_flag flags CGPU_MEMORY_ACCESS_FLAG_HOST_READ VK_ACCESS_HOST_READ_BIT vk_flags in
  let vk_flags :=
    translate_flag flags CGPU_MEMORY_ACCESS_FLAG_HOST_WRITE VK_ACCESS_HOST_WRITE_BIT vk_flags in
  let vk_flags :=
    translate_flag flags CGPU_MEMORY_ACCESS_FLAG_MEMORY_READ VK_ACCESS_MEMORY_READ_BIT vk_flags in
  let vk_flags :=
    translate_flag flags CGPU_MEMORY_ACCESS_FLAG_MEMORY_WRITE VK_ACCESS_MEMORY_WRITE_BIT vk_flags in
  vk_flags.

(** The first loop: plain memory barriers. *)
Definition translate_memory_barrier (b_cgpu : cgpu_memory_barrier) : VkMemoryBarrier :=
  {| vmb_srcAccessMask := cgpu_translate_access_flags (mb_src_access_flags b_cgpu);
     vmb_dstAccessMask := cgpu_translate_access_flags (mb_dst_access_flags b_cgpu) |}.

(** The second loop; [None] is an unresolved buffer handle. *)
Fixpoint buffer_barrier_loop (buffers : resource_store cgpu_ibuffer)
    (bs : list cgpu_buffer_memory_barrier) : option (list VkBufferMemoryBarrier) :=
  match bs with
  | [] => Some []
  | b_cgpu :: rest =>
      match resource_store_get buffers (bmb_buffer b_cgpu) with
      | None => None
      | Some ibuffer =>
          let b_vk :=
            {| vbb_srcAccessMask := cgpu_translate_access_flags (bmb_src_access_flags b_cgpu);
               vbb_dstAccessMask := cgpu_translate_access_flags (bmb_dst_access_flags b_cgpu);
               vbb_buffer := buffer ibuffer;
               vbb_offset := bmb_offset b_cgpu;
               vbb_size := if bmb_size b_cgpu =? CGPU_WHOLE_SIZE then VK_WHOLE_SIZE
                           else bmb_size b_cgpu |} in
          option_map (cons b_vk) (buffer_barrier_loop buffers rest)
      end
  end.

(** The third loop: each image barrier is filled from the tracked state of
    its image, and the tracked access mask is overwritten at once. [None] is
    an unresolved image handle; the images updated before it stay updated. *)
Fixpoint image_barrier_loop (bs : list cgpu_image_memory_barrier)
    (images : resource_store cgpu_iimage)
    : resource_store cgpu_iimage * option (list VkImageMemoryBarrier) :=
  match bs with
  | [] => (images, Some [])
  | b_cgpu :: rest =>
      match resource_store_get images (imb_image b_cgpu) with
      | None => (images, None)
      | Some iimage =>
          let access_mask := cgpu_translate_access_flags (imb_access_mask b_cgpu) in
          let b_vk :=
            {| srcAccessMask := Cgpu.access_mask iimage;
               dstAccessMask := access_mask;
               oldLayout := layout iimage;
               newLayout := layout iimage;
               barrier_image := image iimage |} in
          let images :=
            resource_store_put images (imb_image b_cgpu)
              {| image := image iimage; image_view := image_view iimage;
                 layout := layout iimage; access_mask := access_mask |} in
          let '(images, r) := image_barrier_loop rest images in
          (images, option_map (cons b_vk) r)
      end
  end.

Definition cgpu_cmd_pipeline_barrier (s : stores) (command_buffer : handle)
    (p_barriers : list cgpu_memory_barrier)
    (p_buffer_barriers : list cgpu_buffer_memory_barrier)
    (p_image_barriers : list cgpu_image_memory_barrier)
    : cgpu_result barrier_outcome :=
  let untouched := {| images_after := iimage_store s; recorded := None |} in
  match resource_store_get (icommand_buffer_store s) command_buffer with
  | None => Err InvalidHandle untouched
  | Some icommand_buffer =>
      match resource_store_get (idevice_store s) (device icommand_buffer) with
      | None => Err InvalidHandle untouched
      | Some idevice =>
          if (Z.of_nat (length p_barriers) >=? MAX_MEMORY_BARRIERS)
             || (Z.of_nat (length p_buffer_barriers) >=? MAX_BUFFER_MEMORY_BARRIERS)
             || (Z.of_nat (length p_image_barriers) >=? MAX_IMAGE_MEMORY_BARRIERS)
          then Err HardcodedLimitReached untouched
          else
            let vk_memory_barriers := map translate_memory_barrier p_barriers in
            match buffer_barrier_loop (ibuffer_store s) p_buffer_barriers with
            | None => Err InvalidHandle untouched
            | Some vk_buffer_memory_barriers =>
                match image_barrier_loop p_image_barriers (iimage_store s) with
                | (images, None) =>
                    Err InvalidHandle {| images_after := images; recorded := None |}
                | (images, Some vk_image_memory_barriers) =>
                    Ok {| images_after := images;
                          recorded :=
                            Some {| memory_barriers := vk_memory_barriers;
                                    buffer_memory_barriers := vk_buffer_memory_barriers;
                                    image_memory_barriers := vk_image_memory_barriers |} |}
                end
            end
      end
  end.

(** The access mask the barriers leave on the image [h]: that of the last
    barrier that names it. *)
Fixpoint final_access_mask (bs : list cgpu_image_memory_barrier) (h : handle) (m : Z) : Z :=
  match bs with
  | [] => m
  | b :: rest =>
      final_access_mask rest h
        (if handle_eqb (imb_image b) h
         then cgpu_translate_access_flags (imb_access_mask b) else m)
  end.

Definition with_access_mask (iimage : cgpu_iimage) (m : Z) : cgpu_iimage :=
  {| image := image iimage; image_view := image_view iimage;
     layout := layout iimage; access_mask := m |}.

Lemma image_barrier_loop_live bs images h :
  live (fst (image_barrier_loop bs images)) h = live images h.
Proof.
  revert images. induction bs as [|b rest IH]; intros images; cbn [image_barrier_loop];
    [reflexivity|].
  destruct (resource_store_get images (imb_image b)) as [iimage|]; [|reflexivity].
  cbv zeta.
  specialize (IH (resource_store_put images (imb_image b)
                    {| image := image iimage; image_view := image_view iimage;
                       layout := layout iimage;
                       access_mask := cgpu_translate_access_flags (imb_access_mask b) |})).
  destruct (image_barrier_loop rest _) as [images' r]. cbn [fst] in *.
  rewrite IH. apply live_put.
Qed.

(** Whether the loop ends or stops half-way, an image keeps its handle, view
    and layout; its access mask is that of the last barrier processed that
    names it. *)
Lemma image_barrier_loop_tracking bs images h iimage :
  resource_store_get images h = Some iimage ->
  exists m,
    resource_store_get (fst (image_barrier_loop bs images)) h =
    Some (with_access_mask iimage m) /\
    (forall r, snd (image_barrier_loop bs images) = Some r ->
               m = final_access_mask bs h (access_mask iimage)).
Proof.
  revert images iimage. induction bs as [|b rest IH]; intros images iimage Hget;
    cbn [image_barrier_loop final_access_mask].
  - exists (access_mask iimage). cbn [fst snd]. split; [|reflexivity].
    rewrite Hget. destruct iimage; reflexivity.
  - destruct (resource_store_get images (imb_image b)) as [ib|] eqn:Eb.
    + cbv zeta.
      set (new := {| image := image ib; image_view := image_view ib; layout := layout ib;
                     access_mask := cgpu_translate_access_flags (imb_access_mask b) |}).
      assert (Hnext : resource_store_get (resource_store_put images (imb_image b) new) h =
                      Some (with_access_mask iimage
                              (if handle_eqb (imb_image b) h
                               then cgpu_translate_access_flags (imb_access_mask b)
                               else access_mask iimage))).
      { destruct (handle_eqb (imb_image b) h) eqn:Eh.
        - apply handle_eqb_eq in Eh. subst h. rewrite Hget in Eb. injection Eb as ->.
          apply get_put_same. exact (get_Some_live _ _ _ Hget).
        - rewrite get_put_other; [rewrite Hget; destruct iimage; reflexivity|].
          intros Hi. assert (h = imb_image b).
          { apply (valid_same_index (store_handles images));
              [exact (get_Some_live _ _ _ Hget) | exact (get_Some_live _ _ _ Eb) | exact Hi]. }
          subst h. assert (handle_eqb (imb_image b) (imb_image b) = true)
            by now apply handle_eqb_eq. congruence. }
      destruct (IH _ _ Hnext) as (m & Hm & Hfinal).
      destruct (image_barrier_loop rest _) as [images' r]. cbn [fst snd] in *.
      exists m. split; [exact Hm|].
      intros r' Hr. destruct r as [r0|]; [|discriminate]. exact (Hfinal r0 eq_refl).
    + cbn [fst snd]. exists (access_mask iimage). split; [|discriminate].
      rewrite Hget. destruct iimage; reflexivity.
Qed.

Lemma image_barrier_loop_recorded bs images r :
  snd (image_barrier_loop bs images) = Some r ->
  length r = length bs /\ Forall (fun b => oldLayout b = newLayout b) r.
Proof.
  revert images r. induction bs as [|b rest IH]; intros images r; cbn [image_barrier_loop].
  - intros [= <-]. split; [reflexivity | constructor].
  - destruct (resource_store_get images (imb_image b)) as [ib|]; [|discriminate].
    cbv zeta. specialize (IH (resource_store_put images (imb_image b)
                    {| image := image ib; image_view := image_view ib; layout := layout ib;
                       access_mask := cgpu_translate_access_flags (imb_access_mask b) |})).
    destruct (image_barrier_loop rest _) as [images' r']. cbn [snd] in *.
    destruct r' as [r'|]; [|discriminate]. intros [= <-].
    destruct (IH r' eq_refl) as [Hlen Hall]. cbn [length].
    split; [now rewrite Hlen | now constructor].
Qed.

Lemma buffer_barrier_loop_length buffers bs r :
  buffer_barrier_loop buffers bs = Some r -> length r = length bs.
Proof.
  revert r. induction bs as [|b rest IH]; intros r; cbn [buffer_barrier_loop].
  - now intros [= <-].
  - destruct (resource_store_get buffers (bmb_buffer b)); [|discriminate].
    destruct (buffer_barrier_loop buffers rest) as [r'|]; [|discriminate].
    intros [= <-]. cbn [length]. now rewrite (IH r' eq_refl).
Qed.

Definition outcome_of_barrier (r : cgpu_result barrier_outcome) : barrier_outcome :=
  match r with Ok o | Err _ o => o end.

(** X12. Whatever [cgpu_cmd_pipeline_barrier] returns, every image that
    resolved before the call still resolves after it, with the same Vulkan
    image, view and layout: the call only ever rewrites tracked access
    masks. *)
Theorem pipeline_barrier_keeps_layouts s cb bs bbs ibs h iimage :
  resource_store_get (iimage_store s) h = Some iimage ->
  exists m,
    resource_store_get
      (images_after (outcome_of_barrier (cgpu_cmd_pipeline_barrier s cb bs bbs ibs))) h
    = Some (with_access_mask iimage m).
Proof.
  intros Hget.
  assert (Hsame : resource_store_get (iimage_store s) h =
                  Some (with_access_mask iimage (access_mask iimage)))
    by (rewrite Hget; destruct iimage; reflexivity).
  unfold cgpu_cmd_pipeline_barrier. cbv zeta.
  destruct (resource_store_get (icommand_buffer_store s) cb) as [icb|]; [|eauto].
  destruct (resource_store_get (idevice_store s) _) as [idev|]; [|eauto].
  destruct (_ || _); [eauto|].
  destruct (buffer_barrier_loop _ _); [|eauto].
  destruct (image_barrier_loop_tracking ibs _ _ _ Hget) as (m & Hm & _).
  destruct (image_barrier_loop ibs (iimage_store s)) as [images [r|]];
    cbn [fst outcome_of_barrier images_after] in *; eauto.
Qed.

(** X13. When [cgpu_cmd_pipeline_barrier] succeeds, the three barrier counts
    are below their array limits, every image barrier it records keeps the
    layout ([oldLayout = newLayout]), and each image ends with the translated
    access mask of the last barrier that names it (its old mask if none
    does). *)
Theorem pipeline_barrier_tracking s cb bs bbs ibs out :
  cgpu_cmd_pipeline_barrier s cb bs bbs ibs = Ok out ->
  exists call,
    recorded out = Some call /\
    length (memory_barriers call) = length bs /\
    length (buffer_memory_barriers call) = length bbs /\
    length (image_memory_barriers call) = length ibs /\
    Z.of_nat (length bs) < MAX_MEMORY_BARRIERS /\
    Z.of_nat (length bbs) < MAX_BUFFER_MEMORY_BARRIERS /\
    Z.of_nat (length ibs) < MAX_IMAGE_MEMORY_BARRIERS /\
    Forall (fun b => oldLayout b = newLayout b) (image_memory_barriers call) /\
    forall h iimage,
      resource_store_get (iimage_store s) h = Some iimage ->
      resource_store_get (images_after out) h =
      Some (with_access_mask iimage (final_access_mask ibs h (access_mask iimage))).
Proof.
  unfold cgpu_cmd_pipeline_barrier. cbv zeta.
  destruct (resource_store_get (icommand_buffer_store s) cb) as [icb|]; [|discriminate].
  destruct (resource_store_get (idevice_store s) _) as [idev|]; [|discriminate].
  destruct (_ || _) eqn:Elimit; [discriminate|].
  apply orb_false_iff in Elimit as [Elimit E3].
  apply orb_false_iff in Elimit as [E1 E2].
  rewrite Z.geb_leb in E1, E2, E3. apply Z.leb_gt in E1, E2, E3.
  destruct (buffer_barrier_loop _ _) as [vk_buf|] eqn:Ebuf; [|discriminate].
  pose proof (image_barrier_loop_recorded ibs (iimage_store s)) as Hrec.
  pose proof (fun h iimage => image_barrier_loop_tracking ibs (iimage_store s) h iimage)
    as Htrack.
  destruct (image_barrier_loop ibs (iimage_store s)) as [images [vk_img|]];
    [|discriminate].
  cbn [fst snd] in *. intros [= <-]. cbn [recorded images_after].
  eexists. split; [reflexivity|]. cbn [memory_barriers buffer_memory_barriers
                                        image_memory_barriers].
  destruct (Hrec vk_img eq_refl) as [Hlen Hall].
  split; [apply length_map|]. split; [exact (buffer_barrier_loop_length _ _ _ Ebuf)|].
  split; [exact Hlen|]. split; [exact E1|]. split; [exact E2|]. split; [exact E3|].
  split; [exact Hall|].
  intros h iimage Hget. destruct (Htrack h iimage Hget) as (m & Hm & Hfinal).
  rewrite (Hfinal vk_img eq_refl) in Hm. exact Hm.
Qed.

End PipelineBarrier.

(** One storage image, freshly created, and a barrier on it. *)
Definition barrier_stores : stores :=
  one_image_stores
    {| binding := 0; descriptor_type := VK_DESCRIPTOR_TYPE_STORAGE_IMAGE; count := 1;
       read_access := true; write_access := true |}
    blank_image.

Definition sample_image_barrier : cgpu_image_memory_barrier :=
  {| imb_image := first_handle; imb_access_mask := 2 |}.

Lemma barrier_image_resolves :
  resource_store_get (iimage_store barrier_stores) first_handle = Some blank_image.
Proof. vm_compute. reflexivity. Qed.

Lemma pipeline_barrier_keeps_layouts_witness :
  exists m,
    resource_store_get
      (images_after
         (outcome_of_barrier
            (cgpu_cmd_pipeline_barrier 1 2 4 8 16 32 64 128 256 barrier_stores
               first_handle [] [] [sample_image_barrier]))) first_handle
    = Some (with_access_mask blank_image m).
Proof.
  exact (pipeline_barrier_keeps_layouts 1 2 4 8 16 32 64 128 256 barrier_stores
           first_handle [] [] [sample_image_barrier] first_handle blank_image
           barrier_image_resolves).
Defined.

Lemma pipeline_barrier_tracking_witness :
  exists out call,
    cgpu_cmd_pipeline_barrier 1 2 4 8 16 32 64 128 256 barrier_stores first_handle
      [] [] [sample_image_barrier] = Ok out /\
    recorded out = Some call /\
    length (image_memory_barriers call) = 1%nat.
Proof.
  destruct (cgpu_cmd_pipeline_barrier 1 2 4 8 16 32 64 128 256 barrier_stores
              first_handle [] [] [sample_image_barrier]) as [out|e out] eqn:E.
  - destruct (pipeline_barrier_tracking _ _ _ _ _ _ _ _ _ _ _ _ _ _ _ E)
      as (call & Hcall & _ & _ & Hlen & _).
    exists out, call. split; [reflexivity|]. split; [exact Hcall | exact Hlen].
  - vm_compute in E. discriminate.
Defined.

(** *** The scratch arrays of [cgpu_cmd_update_bindings], all but one *)

(** X14. When [cgpu_cmd_update_bindings] succeeds, every store into
    [image_infos] and [write_descriptor_sets] lies inside its array, and the
    layout transition has recorded at most [MAX_IMAGE_MEMORY_BARRIERS] image
    barriers: these three arrays are guarded by their own counters. *)
Theorem update_bindings_guarded_arrays s cb pl b out :
  cgpu_cmd_update_bindings s cb pl b = Ok out ->
  (forall a i, In (a, i) (array_stores (locals out)) -> a <> BufferInfos ->
               0 <= i < capacity a) /\
  Z.of_nat (length (recorded_barriers out)) <= MAX_IMAGE_MEMORY_BARRIERS.
Proof.
  intros Hok. split; [exact (other_scratch_arrays_guarded _ _ _ _ _ Hok)|].
  unfold cgpu_cmd_update_bindings in Hok.
  destruct (resource_store_get _ cb) as [icb|]; [|discriminate].
  destruct (resource_store_get (idevice_store s) _) as [idev|]; [|discriminate].
  destruct (resource_store_get _ pl) as [ipl|]; [|discriminate].
  destruct (cgpu_transition_image_layouts_for_shader _ _ _ _) as [t|] eqn:Et;
    [|discriminate].
  destruct (update_layout_bindings _ _ _ _ _) as [u|]; [|discriminate].
  injection Hok as <-. cbn [recorded_barriers].
  exact (barriers_guarded _ _ _ _ _ Et).
Qed.

Lemma update_bindings_guarded_arrays_witness :
  exists out,
    cgpu_cmd_update_bindings sampled_stores first_handle first_handle one_image_bindings
    = Ok out /\
    Z.of_nat (length (recorded_barriers out)) <= MAX_IMAGE_MEMORY_BARRIERS.
Proof.
  destruct (cgpu_cmd_update_bindings sampled_stores first_handle first_handle
              one_image_bindings) as [out|e out] eqn:E.
  - exists out. split; [reflexivity|].
    exact (proj2 (update_bindings_guarded_arrays _ _ _ _ _ E)).
  - vm_compute in E. discriminate.
Defined.

(** *** [cgpu_cmd_copy_buffer_to_image] *)

(** What the call records: the layout-transition barrier, if one was needed,
    and the layout passed to [vkCmdCopyBufferToImage]. *)
Record copy_outcome := {
  copy_images : resource_store cgpu_iimage;
  copy_barrier : option VkImageMemoryBarrier;
  copy_layout : option VkImageLayout
}.

Definition cgpu_cmd_copy_buffer_to_image (s : stores)
    (command_buffer buffer image : handle) : cgpu_result copy_outcome :=
  let untouched :=
    {| copy_images := iimage_store s; copy_barrier := None; copy_layout := None |} in
  match resource_store_get (icommand_buffer_store s) command_buffer with
  | None => Err InvalidHandle untouched
  | Some icommand_buffer =>
      match resource_store_get (idevice_store s) (device icommand_buffer) with
      | None => Err InvalidHandle untouched
      | Some idevice =>
          match resource_store_get (ibuffer_store s) buffer with
          | None => Err InvalidHandle untouched
          | Some ibuffer =>
              match resource_store_get (iimage_store s) image with
              | None => Err InvalidHandle untouched
              | Some iimage =>
                  if negb (layout_eqb (layout iimage) VK_IMAGE_LAYOUT_GENERAL) then
                    let access_mask :=
                      Z.lor (Cgpu.access_mask iimage) VK_ACCESS_MEMORY_WRITE_BIT in
                    let layout := VK_IMAGE_LAYOUT_GENERAL in
                    let barrier :=
                      {| srcAccessMask := Cgpu.access_mask iimage;
                         dstAccessMask := access_mask;
                         oldLayout := Cgpu.layout iimage;
                         newLayout := layout;
                         barrier_image := Cgpu.image iimage |} in
                    Ok {| copy_images :=
                            resource_store_put (iimage_store s) image
                              {| image := Cgpu.image iimage;
                                 image_view := image_view iimage;
                                 layout := layout;
                                 access_mask := access_mask |};
                          copy_barrier := Some barrier;
                          copy_layout := Some layout |}
                  else
                    Ok {| copy_images := iimage_store s; copy_barrier := None;
                          copy_layout := Some (Cgpu.layout iimage) |}
              end
          end
      end
  end.

(** X15. A successful [cgpu_cmd_copy_buffer_to_image] always copies into
    layout GENERAL and leaves the image tracked in that layout; the barrier it
    records, if any, starts from the tracked layout and access mask; and a
    second copy into the same image succeeds without a barrier and without
    changing the image store. *)
Theorem copy_buffer_to_image_settles s cb buf img out :
  cgpu_cmd_copy_buffer_to_image s cb buf img = Ok out ->
  copy_layout out = Some VK_IMAGE_LAYOUT_GENERAL /\
  (exists before after,
     resource_store_get (iimage_store s) img = Some before /\
     resource_store_get (copy_images out) img = Some after /\
     after = copy_buffer_to_image_tracking before /\
     layout after = VK_IMAGE_LAYOUT_GENERAL /\
     match copy_barrier out with
     | Some barrier =>
         layout before <> VK_IMAGE_LAYOUT_GENERAL /\
         oldLayout barrier = layout before /\
         srcAccessMask barrier = access_mask before /\
         newLayout barrier = VK_IMAGE_LAYOUT_GENERAL /\
         dstAccessMask barrier = access_mask after
     | None => layout before = VK_IMAGE_LAYOUT_GENERAL
     end) /\
  cgpu_cmd_copy_buffer_to_image (with_images s (copy_images out)) cb buf img =
  Ok {| copy_images := copy_images out; copy_barrier := None;
        copy_layout := Some VK_IMAGE_LAYOUT_GENERAL |}.
Proof.
  unfold cgpu_cmd_copy_buffer_to_image. cbv zeta.
  cbn [with_images icommand_buffer_store idevice_store ibuffer_store iimage_store].
  destruct (resource_store_get (icommand_buffer_store s) cb) as [icb|]; [|discriminate].
  destruct (resource_store_get (idevice_store s) _) as [idev|]; [|discriminate].
  destruct (resource_store_get (ibuffer_store s) buf) as [ibuf|]; [|discriminate].
  destruct (resource_store_get (iimage_store s) img) as [iimage|] eqn:Eimg; [|discriminate].
  unfold copy_buffer_to_image_tracking.
  destruct (layout_eqb (layout iimage) VK_IMAGE_LAYOUT_GENERAL) eqn:El; cbn [negb].
  - apply layout_eqb_eq in El. intros [= <-].
    cbn [copy_layout copy_images copy_barrier]. rewrite Eimg.
    assert (El' : layout_eqb (layout iimage) VK_IMAGE_LAYOUT_GENERAL = true)
      by now apply layout_eqb_eq.
    rewrite El'. cbn [negb]. rewrite El.
    split; [reflexivity|]. split; [|reflexivity].
    exists iimage, iimage. split; [reflexivity|]. split; [reflexivity|].
    split; [now rewrite El'|]. split; [exact El | exact El].
  - intros [= <-]. cbn [copy_layout copy_images copy_barrier].
    pose proof (get_Some_live _ _ _ Eimg) as Hlive.
    rewrite (get_put_same _ _ _ Hlive). cbn [layout layout_eqb negb].
    split; [reflexivity|]. split; [|reflexivity].
    eexists iimage, _. split; [reflexivity|]. split; [reflexivity|].
    split; [now rewrite El|]. split; [reflexivity|].
    cbn [oldLayout srcAccessMask newLayout dstAccessMask access_mask].
    split; [|repeat split].
    intros Heq. apply layout_eqb_eq in Heq. congruence.
Qed.

(** A device, a command buffer, a staging buffer and a fresh image. *)
Definition upload_stores : stores :=
  {| idevice_store := idevice_store barrier_stores;
     ibuffer_store := single_store {| buffer := 0; size := 0 |}
                        {| buffer := 77; size := 4096 |};
     iimage_store := iimage_store barrier_stores;
     ishader_store := ishader_store barrier_stores;
     ipipeline_store := ipipeline_store barrier_stores;
     icommand_buffer_store := icommand_buffer_store barrier_stores;
     isampler_store := isampler_store barrier_stores |}.

Lemma copy_buffer_to_image_settles_witness :
  exists out,
    cgpu_cmd_copy_buffer_to_image upload_stores first_handle first_handle first_handle
    = Ok out /\
    copy_layout out = Some VK_IMAGE_LAYOUT_GENERAL.
Proof.
  destruct (cgpu_cmd_copy_buffer_to_image upload_stores first_handle first_handle
              first_handle) as [out|e out] eqn:E.
  - exists out. split; [reflexivity|].
    exact (proj1 (copy_buffer_to_image_settles _ _ _ _ _ E)).
  - vm_compute in E. discriminate.
Defined.

(** *** The destructors *)

Section Destructors.

Context {D : Type} (idevice_store : resource_store D).
Context {A : Type}.

(** [cgpu_destroy_buffer], [cgpu_destroy_image], [cgpu_destroy_sampler],
    [cgpu_destroy_shader], [cgpu_destroy_pipeline], [cgpu_destroy_fence] and
    [cgpu_destroy_command_buffer] share one shape: the device and the object
    are resolved, the Vulkan objects are destroyed, and the handle is freed.
    The result is the return value and the object's store. *)
Definition cgpu_destroy_resource (device h : handle) (store : resource_store A)
    : bool * resource_store A :=
  match resource_store_get idevice_store device with
  | None => (false, store)
  | Some _ =>
      match resource_store_get store h with
      | None => (false, store)
      | Some _ => (true, resource_store_free_handle store h)
      end
  end.

Definition cgpu_destroy_buffer := cgpu_destroy_resource.
Definition cgpu_destroy_image := cgpu_destroy_resource.
Definition cgpu_destroy_sampler := cgpu_destroy_resource.
Definition cgpu_destroy_fence := cgpu_destroy_resource.

Lemma free_keeps_others (store : resource_store A) h h' v :
  resource_store_get store h = Some v -> h' <> h ->
  resource_store_get (resource_store_free_handle store h') h = Some v.
Proof.
  intros Hget Hne. pose proof (get_Some_live _ _ _ Hget) as Hlive.
  unfold resource_store_get, resource_store_free_handle, live in *.
  cbn [store_handles objects blank].
  unfold handle_store_free_handle.
  destruct (handle_store_is_handle_valid (store_handles store) h') eqn:Ev';
    [|exact Hget].
  assert (Hi : h_index h' <> h_index h).
  { intros Hi. apply Hne.
    exact (valid_same_index _ _ _ Ev' Hlive Hi). }
  rewrite Hlive in Hget.
  unfold handle_store_is_handle_valid in *. cbn [slots].
  rewrite lookup_insert_ne by exact Hi. rewrite Hlive. exact Hget.
Qed.

(** X16. A successful destroy retires the handle: it no longer resolves, a
    second destroy of it fails and changes nothing, and every other object of
    the store still resolves to what it was. (Handle validity is that of the
    handle store as the spec describes it.) *)
Theorem destroy_retires_handle device h store store' :
  cgpu_destroy_resource device h store = (true, store') ->
  resource_store_get store' h = None /\
  cgpu_destroy_resource device h store' = (false, store') /\
  forall h' v, h' <> h -> resource_store_get store h' = Some v ->
               resource_store_get store' h' = Some v.
Proof.
  unfold cgpu_destroy_resource.
  destruct (resource_store_get idevice_store device) as [idev|]; [|discriminate].
  destruct (resource_store_get store h) as [obj|] eqn:Eh; [|discriminate].
  intros [= <-].
  assert (Hdead : resource_store_get (resource_store_free_handle store h) h = None).
  { pose proof (resource_free_not_live store h) as Hnot.
    unfold resource_store_get. unfold live in Hnot. now rewrite Hnot. }
  split; [exact Hdead|]. split; [now rewrite Hdead|].
  intros h' v Hne Hget. now apply free_keeps_others.
Qed.

End Destructors.

Lemma destroy_retires_handle_witness :
  exists store',
    cgpu_destroy_resource (idevice_store upload_stores) first_handle first_handle
      (ibuffer_store upload_stores) = (true, store') /\
    resource_store_get store' first_handle = None.
Proof.
  destruct (cgpu_destroy_resource (idevice_store upload_stores) first_handle first_handle
              (ibuffer_store upload_stores)) as [[|] store'] eqn:E.
  - exists store'. split; [reflexivity|].
    exact (proj1 (destroy_retires_handle _ _ _ _ _ E)).
  - vm_compute in E. discriminate.
Defined.

End Cgpu.

(** ** The object slab of the resource store ([resource_store.c]) *)

Module ResourceStore.

(** The fields of [resource_store] the slab arithmetic uses, with the size
    in bytes of the block [objects] points to. The handle store is left out:
    [resource_store_get] is given the outcome of
    [handle_store_is_handle_valid] and the index of the handle. *)
Record resource_store := {
  allocated_bytes : Z;
  object_count : Z;
  item_byte_size : Z
}.

Section Slab.

(** [sizeof(void* )] *)
Variable ptr_size : Z.

(** [resource_store_create]; all arithmetic is [uint32_t]. *)
Definition resource_store_create (item_byte_size initial_capacity : Z) : resource_store :=
  let item_byte_size :=
    wrap32 (wrap32 (item_byte_size + ptr_size - 1) / ptr_size * ptr_size) in
  {| allocated_bytes := wrap32 (item_byte_size * initial_capacity);
     object_count := initial_capacity;
     item_byte_size := item_byte_size |}.

End Slab.

(** [resource_store_get]: [None] is [return false]; otherwise the store,
    grown if need be, and the byte offset of the object in the slab. *)
Definition resource_store_get (store : resource_store) (handle_valid : bool) (index : Z)
    : option (resource_store * Z) :=
  if negb handle_valid then None
  else
    let store :=
      if index >=? object_count store then
        let new_count := wrap32 (object_count store * 2) in
        {| allocated_bytes := wrap32 (new_count * item_byte_size store);
           object_count := new_count;
           item_byte_size := item_byte_size store |}
      else store in
    let object_index := wrap32 (item_byte_size store * index) in
    Some (store, object_index).

(** Successive calls of [resource_store_get] with valid handles of the given
    indices: the offsets returned, in order, and the final store. *)
Fixpoint resolve_all (store : resource_store) (indices : list Z)
    : list (resource_store * Z) :=
  match indices with
  | [] => []
  | index :: rest =>
      match resource_store_get store true index with
      | Some (store', object_index) => (store', object_index) :: resolve_all store' rest
      | None => []
      end
  end.

(** The slab holds [object_count] slots of [item_byte_size] bytes. *)
Definition well_formed (store : resource_store) : Prop :=
  0 < object_count store /\ 0 < item_byte_size store /\
  allocated_bytes store = object_count store * item_byte_size store.

(** The object at [object_index] lies inside the slab. *)
Definition in_slab (store : resource_store) (object_index : Z) : Prop :=
  0 <= object_index /\ object_index + item_byte_size store <= allocated_bytes store.

Lemma stride_bounds ptr_size item initial_capacity :
  0 < ptr_size -> 0 <= item -> item + ptr_size <= 2 ^ 32 ->
  let stride := item_byte_size (resource_store_create ptr_size item initial_capacity) in
  stride mod ptr_size = 0 /\ item <= stride < item + ptr_size.
Proof.
  intros Hp Hi Hfit stride. subst stride. cbn [resource_store_create item_byte_size].
  rewrite (wrap32_small (item + ptr_size - 1)) by lia.
  pose proof (Z.div_mod (item + ptr_size - 1) ptr_size ltac:(lia)) as Hdm.
  pose proof (Z.mod_pos_bound (item + ptr_size - 1) ptr_size Hp) as Hm.
  set (q := (item + ptr_size - 1) / ptr_size) in *.
  assert (Hq : 0 <= q) by (apply Z.div_pos; lia).
  assert (Hrange : item <= q * ptr_size < item + ptr_size) by nia.
  rewrite wrap32_small by nia.
  split; [apply Z.mod_mul; lia | exact Hrange].
Qed.

(** X17. The slot stride [resource_store_create] computes is the item size
    rounded up to the next multiple of the pointer size, and the slab it
    allocates holds [initial_capacity] such slots. *)
Theorem stride_rounds_up ptr_size item initial_capacity :
  0 < ptr_size -> 0 <= item -> item + ptr_size <= 2 ^ 32 ->
  0 <= initial_capacity -> (item + ptr_size) * initial_capacity < 2 ^ 32 ->
  let store := resource_store_create ptr_size item initial_capacity in
  item_byte_size store mod ptr_size = 0 /\
  item <= item_byte_size store < item + ptr_size /\
  allocated_bytes store = initial_capacity * item_byte_size store.
Proof.
  intros Hp Hi Hfit Hcap Hbytes store.
  pose proof (stride_bounds ptr_size item initial_capacity Hp Hi Hfit) as [Hmod Hrange].
  fold store in Hmod, Hrange.
  split; [exact Hmod|]. split; [exact Hrange|].
  subst store. unfold resource_store_create in *.
  cbn [allocated_bytes object_count item_byte_size] in *.
  rewrite (wrap32_small (_ * initial_capacity)) by nia. lia.
Qed.

Lemma stride_rounds_up_witness :
  (0 < 8) /\
  item_byte_size (resource_store_create 8 20 16) mod 8 = 0 /\
  20 <= item_byte_size (resource_store_create 8 20 16) < 20 + 8.
Proof.
  split; [lia|].
  pose proof (stride_rounds_up 8 20 16 ltac:(lia) ltac:(lia) ltac:(lia) ltac:(lia)
                ltac:(lia)) as (Hm & Hr & _).
  split; [exact Hm | exact Hr].
Defined.

Lemma get_in_slab store index store' object_index :
  well_formed store -> 0 <= index < 2 * object_count store ->
  2 * object_count store * item_byte_size store < 2 ^ 32 ->
  resource_store_get store true index = Some (store', object_index) ->
  well_formed store' /\ in_slab store' object_index /\
  index < object_count store' /\
  item_byte_size store' = item_byte_size store /\
  (object_count store' = object_count store \/
   (object_count store <= index /\ object_count store' = 2 * object_count store)).
Proof.
  intros (Hcount & Hitem & Halloc) Hindex Hfit.
  unfold resource_store_get. cbn [negb].
  destruct (index >=? object_count store) eqn:Egrow; intros [= <- <-];
    rewrite Z.geb_leb in Egrow; [apply Z.leb_le in Egrow | apply Z.leb_gt in Egrow];
    unfold well_formed, in_slab;
    cbn [object_count item_byte_size allocated_bytes].
  - rewrite (wrap32_small (object_count store * 2)) by nia.
    rewrite (wrap32_small (object_count store * 2 * item_byte_size store)) by nia.
    rewrite (wrap32_small (item_byte_size store * index)) by nia.
    split; [repeat split; nia|]. split; [split; nia|]. split; [lia|].
    split; [reflexivity|]. right. lia.
  - rewrite (wrap32_small (item_byte_size store * index)) by nia.
    split; [repeat split; nia|]. split; [split; nia|]. split; [lia|].
    split; [reflexivity|]. left. reflexivity.
Qed.

(** Indices as a handle store hands them out: each one is at most one past
    the highest index seen before ([hw] is that high-water mark). *)
Fixpoint dense (hw : Z) (indices : list Z) : Prop :=
  match indices with
  | [] => True
  | index :: rest => 0 <= index <= hw /\ dense (Z.max hw (index + 1)) rest
  end.

Lemma resolve_all_dense M indices : forall store hw,
  well_formed store -> hw <= object_count store -> object_count store <= 2 * M ->
  4 * M * item_byte_size store < 2 ^ 32 ->
  Forall (fun index => index < M) indices -> dense hw indices ->
  length (resolve_all store indices) = length indices /\
  Forall (fun r => in_slab (fst r) (snd r)) (resolve_all store indices).
Proof.
  induction indices as [|index rest IH]; intros store hw Hwf Hhw HM Hfit Hall Hdense;
    cbn [resolve_all].
  - split; [reflexivity | constructor].
  - destruct Hdense as [Hindex Hdense]. inversion Hall as [|? ? HiM Hrest]; subst.
    pose proof Hwf as (Hcount & Hitem & _).
    destruct (resource_store_get store true index) as [[store' off]|] eqn:Eget;
      [|discriminate Eget].
    assert (Hbytes : 2 * object_count store * item_byte_size store < 2 ^ 32).
    { apply Z.le_lt_trans with (4 * M * item_byte_size store); [|exact Hfit].
      apply Z.mul_le_mono_nonneg_r; lia. }
    assert (Hrange : 0 <= index < 2 * object_count store) by lia.
    destruct (get_in_slab store index store' off Hwf Hrange Hbytes Eget)
      as (Hwf' & Hin & Hlt & Hsize & Hgrow).
    destruct (IH store' (Z.max hw (index + 1)) Hwf') as [Hlen Hslab];
      [lia | destruct Hgrow as [-> | [Hle ->]]; lia | now rewrite Hsize
      | exact Hrest | exact Hdense |].
    cbn [length]. split; [now rewrite Hlen | constructor; [exact Hin | exact Hslab]].
Qed.

(** X18. As long as handle indices are dense (each at most one past the
    highest index resolved before, as when every created handle is resolved
    before the next is created), every object [resource_store_get] returns
    lies inside the slab, although the slab is only ever doubled once per
    call: the capacity keeps ahead of the indices. [M] bounds the indices and
    keeps the 32-bit byte arithmetic from wrapping. *)
Theorem dense_indices_stay_in_slab ptr_size item initial_capacity M indices :
  0 < ptr_size -> 0 < item -> item + ptr_size <= 2 ^ 32 ->
  0 < initial_capacity <= 2 * M ->
  4 * M * (item + ptr_size) < 2 ^ 32 ->
  Forall (fun index => index < M) indices -> dense 0 indices ->
  let store := resource_store_create ptr_size item initial_capacity in
  length (resolve_all store indices) = length indices /\
  Forall (fun r => in_slab (fst r) (snd r)) (resolve_all store indices).
Proof.
  intros Hp Hitem Hfit Hcap HM Hall Hdense store.
  pose proof (stride_bounds ptr_size item initial_capacity Hp ltac:(lia) Hfit)
    as [_ Hstride].
  fold store in Hstride.
  assert (Hsize : 0 < item_byte_size store < item + ptr_size) by lia.
  assert (Hwf : well_formed store).
  { split; [cbn; lia|]. split; [lia|].
    subst store. unfold resource_store_create in *.
    cbn [allocated_bytes object_count item_byte_size] in *.
    rewrite (wrap32_small (_ * initial_capacity)) by nia. lia. }
  apply (resolve_all_dense M indices store 0 Hwf); try assumption; [cbn; lia | cbn; lia | nia].
Qed.

Lemma dense_indices_stay_in_slab_witness :
  (0 < 8) /\
  Forall (fun r => in_slab (fst r) (snd r))
    (resolve_all (resource_store_create 8 20 1) [0; 1; 0; 2; 3; 4]).
Proof.
  split; [lia|].
  refine (proj2 (dense_indices_stay_in_slab 8 20 1 5 [0; 1; 0; 2; 3; 4] _ _ _ _ _ _ _));
    try lia.
  - repeat constructor; lia.
  - cbn. lia.
Defined.

End ResourceStore.


(** ** The traversal kernel ([test_face], [find_hit_closest], [find_hit_any]) *)

Module Traversal.

(** *** Floating point *)

(** The kernel's [float] type with the operations the traversal uses. The
    model does not fix a rounding: every statement below holds for any
    choice of these operations. [fltb] and [fleb] are GLSL's [<] and [<=];
    [a > b] is [fltb b a] and [a >= b] is [fleb b a]. *)
Class FloatOps (F : Type) := {
  fzero : F;
  fone : F;
  fadd : F -> F -> F;
  fsub : F -> F -> F;
  fmul : F -> F -> F;
  fdiv : F -> F -> F;
  fabs : F -> F;
  fltb : F -> F -> bool;
  fleb : F -> F -> bool;
  uintBitsToFloat : Z -> F;
  uint_to_float : Z -> F;
  float_to_uint : F -> Z
}.

(** Comparisons of numbers (no NaN): [<] is the complement of the converse
    [<=], and [<=] is a total preorder. *)
Class FloatOrder (F : Type) `{FloatOps F} : Prop := {
  flt_not_le : forall a b : F, fltb a b = negb (fleb b a);
  fle_trans : forall a b c : F, fleb a b = true -> fleb b c = true -> fleb a c = true;
  fle_total : forall a b : F, fleb a b = true \/ fleb b a = true
}.

(** *** Unsigned 32-bit operations *)

Definition unot32 (a : Z) : Z := Z.lxor a 0xFFFFFFFF.

Definition ushl32 (a n : Z) : Z := wrap32 (Z.shiftl a n).

Definition extract_byte (num byte_idx : Z) : Z :=
  Z.land (Z.shiftr num (byte_idx * 8)) 0xFF.

Definition sign_to_byte_mask4 (a : Z) : Z :=
  let a := Z.land a 0x80808080 in
  wrap32 (a + a - Z.shiftr a 7).

(** [findMSB] of a [uint]: the position of the highest set bit, [-1] for 0. *)
Definition findMSB (a : Z) : Z := if a =? 0 then -1 else Z.log2 a.

Fixpoint popcount (p : positive) : Z :=
  match p with
  | xH => 1
  | xO p' => popcount p'
  | xI p' => 1 + popcount p'
  end.

Definition bitCount (a : Z) : Z :=
  match a with
  | Zpos p => popcount p
  | _ => 0
  end.

(** *** Vectors and buffers *)

Record vec3 (F : Type) := { vx : F; vy : F; vz : F }.
Arguments vx {F} _.
Arguments vy {F} _.
Arguments vz {F} _.

Record uvec4 := { ux : Z; uy : Z; uz : Z; uw : Z }.

(** A CWBVH node as the kernel reads it: five 16-byte fields. *)
Record bvh_node := { f1 : uvec4; f2 : uvec4; f3 : uvec4; f4 : uvec4; f5 : uvec4 }.

Record face := { v_0 : Z; v_1 : Z; v_2 : Z; mat_index : Z }.

(** Only [field1.xyz], the position, is read by the traversal. *)
Record vertex (F : Type) := { field1_xyz : vec3 F }.
Arguments field1_xyz {F} _.

Record RayInfo (F : Type) := { origin : vec3 F; tmax : F; dir : vec3 F }.
Arguments origin {F} _.
Arguments tmax {F} _.
Arguments dir {F} _.

Record Hit_info (F : Type) := { face_idx : Z; bc : F * F }.
Arguments face_idx {F} _.
Arguments bc {F} _.

Definition zero_uvec4 : uvec4 := {| ux := 0; uy := 0; uz := 0; uw := 0 |}.
Definition zero_node : bvh_node :=
  {| f1 := zero_uvec4; f2 := zero_uvec4; f3 := zero_uvec4; f4 := zero_uvec4;
     f5 := zero_uvec4 |}.
Definition zero_face : face := {| v_0 := 0; v_1 := 0; v_2 := 0; mat_index := 0 |}.

Section Kernel.

Context {F : Type} `{FloatOps F}.

(** The compile-time constants injected as [#define]s. *)
Variable TRI_EPS : F.
Variable POSTPONE_RATIO : F.
Variable MAX_STACK_SIZE : Z.

(** The three storage buffers. A read past the end yields zeros. *)
Variable bvh_nodes : list bvh_node.
Variable faces : list face.
Variable vertices : list (vertex F).

Definition zero_vec3 : vec3 F := {| vx := fzero; vy := fzero; vz := fzero |}.

Definition node_at (i : Z) : bvh_node := nth (Z.to_nat i) bvh_nodes zero_node.
Definition face_at (i : Z) : face := nth (Z.to_nat i) faces zero_face.
Definition vertex_at (i : Z) : vec3 F :=
  field1_xyz (nth (Z.to_nat i) vertices {| field1_xyz := zero_vec3 |}).

Definition vsub (a b : vec3 F) : vec3 F :=
  {| vx := fsub (vx a) (vx b); vy := fsub (vy a) (vy b); vz := fsub (vz a) (vz b) |}.

Definition vmul (a b : vec3 F) : vec3 F :=
  {| vx := fmul (vx a) (vx b); vy := fmul (vy a) (vy b); vz := fmul (vz a) (vz b) |}.

Definition dot (a b : vec3 F) : F :=
  fadd (fadd (fmul (vx a) (vx b)) (fmul (vy a) (vy b))) (fmul (vz a) (vz b)).

Definition cross (a b : vec3 F) : vec3 F :=
  {| vx := fsub (fmul (vy a) (vz b)) (fmul (vy b) (vz a));
     vy := fsub (fmul (vz a) (vx b)) (fmul (vz b) (vx a));
     vz := fsub (fmul (vx a) (vy b)) (fmul (vx b) (vy a)) |}.

(** GLSL [max]: [y] if [x < y], otherwise [x]; [min]: [y] if [y < x]. *)
Definition fmax (x y : F) : F := if fltb x y then y else x.
Definition fmin (x y : F) : F := if fltb y x then y else x.

(** *** [test_face]: Moeller-Trumbore *)

(** The determinant and the distance the test computes. *)
Definition mt_det (ray : RayInfo F) (p0 p1 p2 : vec3 F) : F :=
  dot (vsub p1 p0) (cross (dir ray) (vsub p2 p0)).

Definition mt_t (ray : RayInfo F) (p0 p1 p2 : vec3 F) : F :=
  let e1 := vsub p1 p0 in
  let e2 := vsub p2 p0 in
  let inv_det := fdiv fone (mt_det ray p0 p1 p2) in
  let tvec := vsub (origin ray) p0 in
  fmul (dot e2 (cross tvec e1)) inv_det.

(** [Some (t, bc)] is [return true] with the two out-parameters. *)
Definition test_face (ray : RayInfo F) (p0 p1 p2 : vec3 F) : option (F * (F * F)) :=
  let e1 := vsub p1 p0 in
  let e2 := vsub p2 p0 in
  let p := cross (dir ray) e2 in
  let det := dot e1 p in
  if fltb (fabs det) TRI_EPS then None
  else
    let inv_det := fdiv fone det in
    let tvec := vsub (origin ray) p0 in
    let bc_x := fmul (dot tvec p) inv_det in
    if fltb bc_x fzero || fltb fone bc_x then None
    else
      let q := cross tvec e1 in
      let bc_y := fmul (dot (dir ray) q) inv_det in
      if fltb bc_y fzero || fltb fone (fadd bc_x bc_y) then None
      else
        let t := fmul (dot e2 q) inv_det in
        if fleb t fzero || fleb (tmax ray) t then None
        else Some (t, (bc_x, bc_y)).

(** *** Traversal state *)

(** A node group or face group: [(base index, bit mask)]. *)
Definition uvec2 : Type := Z * Z.

(** The locals that steer the traversal. [samples] counts the wavefront
    ballots taken so far; [stack_stores] lists the indices of every store
    [stack[i] = ...], most recent first. *)
Record control := {
  node_group : uvec2;
  stack : Z -> uvec2;
  stack_size : Z;
  samples : nat;
  stack_stores : list Z
}.

(** One call of [test_face] during the traversal: the face, [ray.tmax] at
    the time of the call, and the result. *)
Record test_event := {
  ev_face : Z;
  ev_tmax : F;
  ev_result : option (F * (F * F))
}.

(** What the traversal has found: the current [ray.tmax], the hit record,
    and the tests made so far, most recent first. *)
Record progress := {
  ray_tmax : F;
  hit : Hit_info F;
  tests : list test_event
}.

(** The active-lane count the wavefront ballot
    [subgroupBallotBitCount(subgroupBallot(true))] delivers at its [k]-th
    evaluation by this lane. *)
Variable ballot : nat -> Z.

Definition set_node_group (c : control) (g : uvec2) : control :=
  {| node_group := g; stack := stack c; stack_size := stack_size c;
     samples := samples c; stack_stores := stack_stores c |}.

Definition take_sample (c : control) : Z * control :=
  (ballot (samples c),
   {| node_group := node_group c; stack := stack c; stack_size := stack_size c;
      samples := S (samples c); stack_stores := stack_stores c |}).

(** [stack[stack_size] = g; stack_size++;] *)
Definition push (c : control) (g : uvec2) : control :=
  {| node_group := node_group c;
     stack := fun i => if i =? stack_size c then g else stack c i;
     stack_size := wrap32 (stack_size c + 1);
     samples := samples c;
     stack_stores := stack_size c :: stack_stores c |}.

(** [ASSERT(stack_size < MAX_STACK_SIZE, ...)] followed by the push.
    Modelled from the spec: the [ASSERT] macro is not part of the sources at
    hand; the spec makes stack overflow a fatal error, so a failed assertion
    ends the traversal ([None]). *)
Definition push_checked (c : control) (g : uvec2) : option control :=
  if stack_size c <? MAX_STACK_SIZE then Some (push c g) else None.

(** [stack_size--; node_group = stack[stack_size];] *)
Definition pop (c : control) : control :=
  let n := wrap32 (stack_size c - 1) in
  {| node_group := stack c n; stack := stack c; stack_size := n;
     samples := samples c; stack_stores := stack_stores c |}.

(** *** Visiting a node *)

Definition inv_dir_of (ray : RayInfo F) : vec3 F :=
  {| vx := fdiv fone (vx (dir ray));
     vy := fdiv fone (vy (dir ray));
     vz := fdiv fone (vz (dir ray)) |}.

Definition oct_inv4_of (ray : RayInfo F) : Z :=
  let oct_inv_x := if fleb fzero (vx (dir ray)) then 4 else 0 in
  let oct_inv_y := if fleb fzero (vy (dir ray)) then 2 else 0 in
  let oct_inv_z := if fleb fzero (vz (dir ray)) then 1 else 0 in
  wrap32 (Z.lor (Z.lor oct_inv_x oct_inv_y) oct_inv_z * 0x01010101).

(** The child to descend into and what is left of the node group:
    [(child_node_idx, node_group)] after [node_group.y &= ~(1u << child_bit_idx)]. *)
Definition pick_child (oct_inv4 : Z) (g : uvec2) : Z * uvec2 :=
  let child_bit_idx := wrap32 (findMSB (snd g)) in
  let slot_index := Z.lxor (wrap32 (child_bit_idx - 24)) (Z.land oct_inv4 0xFF) in
  let rel_idx := bitCount (Z.land (snd g) (unot32 (ushl32 0xFFFFFFFF slot_index))) in
  let child_node_idx := wrap32 (fst g + rel_idx) in
  (child_node_idx, (fst g, Z.land (snd g) (unot32 (ushl32 1 child_bit_idx)))).

(** One of the two 4-child passes over a node: the bits it adds to
    [hitmask]. *)
Definition pass_hitmask (node : bvh_node) (ray_tmax : F) (oct_inv4 : Z)
    (inv_dir local_inv_dir local_orig : vec3 F) (passIdx : Z) (hitmask : Z) : Z :=
  let first := passIdx =? 0 in
  let meta4 := if first then uz (f2 node) else uw (f2 node) in
  let is_inner4 := Z.land (Z.land meta4 (ushl32 meta4 1)) 0x10101010 in
  let inner_mask4 := sign_to_byte_mask4 (ushl32 is_inner4 3) in
  let bit_index4 := Z.land (Z.lxor meta4 (Z.land oct_inv4 inner_mask4)) 0x1F1F1F1F in
  let child_bits4 := Z.land (Z.shiftr meta4 5) 0x07070707 in
  let x_lt_0 := fltb (vx inv_dir) fzero in
  let y_lt_0 := fltb (vy inv_dir) fzero in
  let z_lt_0 := fltb (vz inv_dir) fzero in
  let q_lo_x := if first then ux (f3 node) else uy (f3 node) in
  let q_hi_x := if first then uz (f4 node) else uw (f4 node) in
  let q_lo_y := if first then uz (f3 node) else uw (f3 node) in
  let q_hi_y := if first then ux (f5 node) else uy (f5 node) in
  let q_lo_z := if first then ux (f4 node) else uy (f4 node) in
  let q_hi_z := if first then uz (f5 node) else uw (f5 node) in
  let s_q_lo_x := if x_lt_0 then q_hi_x else q_lo_x in
  let s_q_hi_x := if x_lt_0 then q_lo_x else q_hi_x in
  let s_q_lo_y := if y_lt_0 then q_hi_y else q_lo_y in
  let s_q_hi_y := if y_lt_0 then q_lo_y else q_hi_y in
  let s_q_lo_z := if z_lt_0 then q_hi_z else q_lo_z in
  let s_q_hi_z := if z_lt_0 then q_lo_z else q_hi_z in
  let lane (scale : F) (q : Z) (offset : F) (child_idx : Z) : F :=
    fadd (fmul scale (uint_to_float (extract_byte q child_idx))) offset in
  fold_left
    (fun hitmask child_idx =>
       let t_min_x := lane (vx local_inv_dir) s_q_lo_x (vx local_orig) child_idx in
       let t_max_x := lane (vx local_inv_dir) s_q_hi_x (vx local_orig) child_idx in
       let t_min_y := lane (vy local_inv_dir) s_q_lo_y (vy local_orig) child_idx in
       let t_max_y := lane (vy local_inv_dir) s_q_hi_y (vy local_orig) child_idx in
       let t_min_z := lane (vz local_inv_dir) s_q_lo_z (vz local_orig) child_idx in
       let t_max_z := lane (vz local_inv_dir) s_q_hi_z (vz local_orig) child_idx in
       let bmin := fmax (fmax t_min_x t_min_y) (fmax t_min_z fzero) in
       let bmax := fmin (fmin t_max_x t_max_y) (fmin t_max_z ray_tmax) in
       let is_intersected := fleb bmin bmax in
       if negb is_intersected then hitmask
       else
         let child_bits := extract_byte child_bits4 child_idx in
         let bit_index := extract_byte bit_index4 child_idx in
         Z.lor hitmask (ushl32 child_bits bit_index))
    [0; 1; 2; 3] hitmask.

(** The node group and face group a node yields for the ray:
    [(node_group, face_group)] as assigned at the end of the [else] branch. *)
Definition intersect_node (ray : RayInfo F) (ray_tmax : F) (child_node_idx : Z)
    : uvec2 * uvec2 :=
  let inv_dir := inv_dir_of ray in
  let oct_inv4 := oct_inv4_of ray in
  let node := node_at child_node_idx in
  let node_e_x := extract_byte (uw (f1 node)) 0 in
  let node_e_y := extract_byte (uw (f1 node)) 1 in
  let node_e_z := extract_byte (uw (f1 node)) 2 in
  let local_inv_dir :=
    vmul {| vx := uintBitsToFloat (ushl32 node_e_x 23);
            vy := uintBitsToFloat (ushl32 node_e_y 23);
            vz := uintBitsToFloat (ushl32 node_e_z 23) |} inv_dir in
  let p := {| vx := uintBitsToFloat (ux (f1 node));
              vy := uintBitsToFloat (uy (f1 node));
              vz := uintBitsToFloat (uz (f1 node)) |} in
  let local_orig := vmul (vsub p (origin ray)) inv_dir in
  let hitmask := 0 in
  let hitmask :=
    pass_hitmask node ray_tmax oct_inv4 inv_dir local_inv_dir local_orig 0 hitmask in
  let hitmask :=
    pass_hitmask node ray_tmax oct_inv4 inv_dir local_inv_dir local_orig 1 hitmask in
  let node_imask := extract_byte (uw (f1 node)) 3 in
  ((ux (f2 node), Z.lor (Z.land hitmask 0xFF000000) node_imask),
   (uy (f2 node), Z.land hitmask 0x00FFFFFF)).

(** The three positions of a face, fetched through the vertex buffer. *)
Definition triangle (face_index : Z) : vec3 F * vec3 F * vec3 F :=
  let f := face_at face_index in
  (vertex_at (v_0 f), vertex_at (v_1 f), vertex_at (v_2 f)).

Definition with_tmax (ray : RayInfo F) (t : F) : RayInfo F :=
  {| origin := origin ray; tmax := t; dir := dir ray |}.

Definition test_triangle (ray : RayInfo F) (t : F) (face_index : Z)
    : option (F * (F * F)) :=
  let '(p0, p1, p2) := triangle face_index in
  test_face (with_tmax ray t) p0 p1 p2.

(** [uint threshold = uint(active_inv_count1 * POSTPONE_RATIO);] *)
Definition postpone_threshold (active_inv_count1 : Z) : Z :=
  float_to_uint (fmul (uint_to_float active_inv_count1) POSTPONE_RATIO).

(** *** The face loop *)

(** How the loop [while (face_group.y != 0)] is left. [FacesFuel] stands for
    a loop that has not ended within the rounds it was given; each round
    clears the highest set bit of the mask, so 33 rounds always suffice
    (lemmas [closest_round_goes_on] and [any_round_goes_on] below). *)
Inductive face_exit :=
  | FacesDone
  | FacesPostponed
  | FacesHit
  | FacesFatal
  | FacesFuel.

(** [ray.tmax = temp_t; hit.bc = temp_bc; hit.face_idx = face_index;] when
    the test succeeded; the test is logged either way. *)
Definition record_test (ray : RayInfo F) (face_index : Z) (p : progress) : progress :=
  let r := test_triangle ray (ray_tmax p) face_index in
  {| ray_tmax := match r with Some (t, _) => t | None => ray_tmax p end;
     hit := match r with
            | Some (_, temp_bc) => {| face_idx := face_index; bc := temp_bc |}
            | None => hit p
            end;
     tests := {| ev_face := face_index; ev_tmax := ray_tmax p; ev_result := r |}
              :: tests p |}.

(** The postponement branch at the top of the face loop: [None] when the
    face group is to be tested; otherwise the face group is pushed. *)
Definition postpone (checked : bool) (active_inv_count1 : Z) (face_group : uvec2)
    (c : control) : control * option (face_exit * control) :=
  let threshold := postpone_threshold active_inv_count1 in
  let '(active_inv_count2, c) := take_sample c in
  if active_inv_count2 <? threshold then
    if checked then
      match push_checked c face_group with
      | Some c' => (c, Some (FacesPostponed, c'))
      | None => (c, Some (FacesFatal, c))
      end
    else (c, Some (FacesPostponed, push c face_group))
  else (c, None).

(** The face loop of [find_hit_closest]; [postponing] says whether
    [TRIANGLE_POSTPONING] is defined. *)
Fixpoint closest_faces (postponing : bool) (ray : RayInfo F) (n : nat)
    (active_inv_count1 : Z) (face_group : uvec2) (c : control) (p : progress)
    : face_exit * control * progress :=
  match n with
  | O => (FacesFuel, c, p)
  | S n' =>
      if snd face_group =? 0 then (FacesDone, c, p)
      else
        let '(c, postponed) :=
          if postponing then postpone true active_inv_count1 face_group c
          else (c, None) in
        match postponed with
        | Some (e, c') => (e, c', p)
        | None =>
            let face_rel_index := wrap32 (findMSB (snd face_group)) in
            let face_group :=
              (fst face_group,
               Z.land (snd face_group) (unot32 (ushl32 1 face_rel_index))) in
            let face_index := wrap32 (fst face_group + face_rel_index) in
            closest_faces postponing ray n' active_inv_count1 face_group c
              (record_test ray face_index p)
        end
  end.

(** The face loop of [find_hit_any]: the postponement branch is there
    whether or not [TRIANGLE_POSTPONING] is defined, the push is not
    preceded by an [ASSERT], and the first hit returns. *)
Fixpoint any_faces (ray : RayInfo F) (n : nat) (active_inv_count1 : Z)
    (face_group : uvec2) (c : control) (p : progress)
    : face_exit * control * progress :=
  match n with
  | O => (FacesFuel, c, p)
  | S n' =>
      if snd face_group =? 0 then (FacesDone, c, p)
      else
        let '(c, postponed) := postpone false active_inv_count1 face_group c in
        match postponed with
        | Some (e, c') => (e, c', p)
        | None =>
            let face_rel_index := wrap32 (findMSB (snd face_group)) in
            let face_group :=
              (fst face_group,
               Z.land (snd face_group) (unot32 (ushl32 1 face_rel_index))) in
            let face_index := wrap32 (fst face_group + face_rel_index) in
            let r := test_triangle ray (ray_tmax p) face_index in
            let p :=
              {| ray_tmax := ray_tmax p; hit := hit p;
                 tests := {| ev_face := face_index; ev_tmax := ray_tmax p;
                             ev_result := r |} :: tests p |} in
            match r with
            | Some _ => (FacesHit, c, p)
            | None => any_faces ray n' active_inv_count1 face_group c p
            end
        end
  end.

(** *** One round of [while (true)] *)

Inductive outcome :=
  | Running (c : control) (p : progress)
  | Returned (b : bool) (c : control) (p : progress)
  | Fatal (c : control) (p : progress)
  | Stalled (c : control) (p : progress).

(** The end of the loop body, common to both queries: go on with the node
    group, else pop the stack, else return [found]. *)
Definition next_round (found : bool) (c : control) (p : progress) : outcome :=
  if 0x00FFFFFF <? snd (node_group c) then Running c p
  else if 0 <? stack_size c then Running (pop c) p
  else Returned found c p.

(** The first half of the loop body of [find_hit_closest]: a node group that
    holds only faces becomes the face group; otherwise one child is entered,
    what is left of the node group is pushed, and the child node is
    intersected. [None] is a failed [ASSERT]. *)
Definition closest_enter (ray : RayInfo F) (c : control) (p : progress)
    : option (control * uvec2) :=
  if snd (node_group c) <=? 0x00FFFFFF then
    Some (set_node_group c (0, 0), node_group c)
  else
    let '(child_node_idx, rest) := pick_child (oct_inv4_of ray) (node_group c) in
    let pushed :=
      if 0x00FFFFFF <? snd rest then push_checked c rest else Some c in
    match pushed with
    | None => None
    | Some c =>
        let '(node_group, face_group) :=
          intersect_node ray (ray_tmax p) child_node_idx in
        Some (set_node_group c node_group, face_group)
    end.

Definition closest_round (postponing : bool) (ray : RayInfo F)
    (c : control) (p : progress) : outcome :=
  match closest_enter ray c p with
  | None => Fatal c p
  | Some (c, face_group) =>
      let '(active_inv_count1, c) :=
        if postponing then take_sample c else (0, c) in
      match closest_faces postponing ray 33 active_inv_count1 face_group c p with
      | (FacesFatal, c, p) => Fatal c p
      | (FacesFuel, c, p) => Stalled c p
      | (_, c, p) => next_round (negb (face_idx (hit p) =? 0xFFFFFFFF)) c p
      end
  end.

(** The same half in [find_hit_any]: the push is not checked. *)
Definition any_enter (ray : RayInfo F) (c : control) (p : progress)
    : control * uvec2 :=
  if snd (node_group c) <=? 0x00FFFFFF then
    (set_node_group c (0, 0), node_group c)
  else
    let '(child_node_idx, rest) := pick_child (oct_inv4_of ray) (node_group c) in
    let c := if 0x00FFFFFF <? snd rest then push c rest else c in
    let '(node_group, face_group) :=
      intersect_node ray (ray_tmax p) child_node_idx in
    (set_node_group c node_group, face_group).

Definition any_round (ray : RayInfo F) (c : control) (p : progress) : outcome :=
  let '(c, face_group) := any_enter ray c p in
  let '(active_inv_count1, c) := take_sample c in
  match any_faces ray 33 active_inv_count1 face_group c p with
  | (FacesHit, c, p) => Returned true c p
  | (FacesFatal, c, p) => Fatal c p
  | (FacesFuel, c, p) => Stalled c p
  | (_, c, p) => next_round false c p
  end.

(** *** The two queries *)

Definition initial_control : control :=
  {| node_group := (0, 0x80000000); stack := fun _ => (0, 0); stack_size := 0;
     samples := 0; stack_stores := [] |}.

Definition initial_progress (ray : RayInfo F) : progress :=
  {| ray_tmax := tmax ray;
     hit := {| face_idx := 0xFFFFFFFF; bc := (fzero, fzero) |};
     tests := [] |}.

(** How a query ends: it returns, it stops on a failed [ASSERT], or it is
    still going after [fuel] rounds of [while (true)]. *)
Inductive result :=
  | Finished (b : bool) (c : control) (p : progress)
  | Aborted (c : control) (p : progress)
  | StillRunning (c : control) (p : progress).

Fixpoint rounds (round : control -> progress -> outcome) (fuel : nat)
    (c : control) (p : progress) : result :=
  match fuel with
  | O => StillRunning c p
  | S fuel' =>
      match round c p with
      | Running c' p' => rounds round fuel' c' p'
      | Returned b c' p' => Finished b c' p'
      | Fatal c' p' => Aborted c' p'
      | Stalled c' p' => StillRunning c' p'
      end
  end.

(** [find_hit_closest]; the returned [ray.tmax] and [hit] are in the
    progress record. *)
Definition find_hit_closest (postponing : bool) (fuel : nat) (ray : RayInfo F) : result :=
  rounds (closest_round postponing ray) fuel initial_control (initial_progress ray).

(** [find_hit_any]. *)
Definition find_hit_any (fuel : nat) (ray : RayInfo F) : result :=
  rounds (any_round ray) fuel initial_control (initial_progress ray).

End Kernel.

(** The parts of a result, however the query ended. *)
Definition result_progress {F} (r : result (F:=F)) : progress (F:=F) :=
  match r with Finished _ _ p | Aborted _ p | StillRunning _ p => p end.

Definition result_control {F} (r : result (F:=F)) : control :=
  match r with Finished _ c _ | Aborted c _ | StillRunning c _ => c end.

Definition returned {F} (r : result (F:=F)) : option bool :=
  match r with Finished b _ _ => Some b | _ => None end.

Arguments ev_face {F} _.
Arguments ev_tmax {F} _.
Arguments ev_result {F} _.
Arguments ray_tmax {F} _.
Arguments hit {F} _.
Arguments tests {F} _.

(** *** What [test_face] reports *)

Section TestFace.

Context {F : Type} `{FloatOrder F}.
Variable TRI_EPS : F.

Lemma fle_false_lt (a b : F) : fleb a b = false -> fltb b a = true.
Proof. intros E. rewrite flt_not_le, E. reflexivity. Qed.

Lemma flt_true_le (a b : F) : fltb a b = true -> fleb a b = true.
Proof.
  rewrite flt_not_le. intros E. apply negb_true_iff in E.
  destruct (fle_total a b) as [Hab | Hba]; [exact Hab | congruence].
Qed.

Lemma flt_false_le (a b : F) : fltb a b = false -> fleb b a = true.
Proof. rewrite flt_not_le. intros E. now apply negb_false_iff in E. Qed.

(** A reported hit: the determinant is not culled, the distance is the one
    of the Moeller-Trumbore formula, and it lies strictly inside
    [(0, ray.tmax)]. *)
Lemma test_face_hit (ray : RayInfo F) p0 p1 p2 t bc :
  test_face TRI_EPS ray p0 p1 p2 = Some (t, bc) ->
  fleb TRI_EPS (fabs (mt_det ray p0 p1 p2)) = true /\
  t = mt_t ray p0 p1 p2 /\
  fltb fzero t = true /\
  fltb t (tmax ray) = true.
Proof.
  unfold test_face, mt_t, mt_det.
  set (e1 := vsub p1 p0). set (e2 := vsub p2 p0).
  set (det := dot e1 (cross (dir ray) e2)).
  destruct (fltb (fabs det) TRI_EPS) eqn:Edet; [discriminate|].
  destruct (_ || _); [discriminate|].
  destruct (_ || _); [discriminate|].
  destruct (fleb _ fzero || fleb (tmax ray) _) eqn:Et; [discriminate|].
  apply orb_false_iff in Et as [Et0 Etmax].
  intros [= <- <-].
  split; [now apply flt_false_le|]. split; [reflexivity|].
  split; now apply fle_false_lt.
Qed.

(** The same face tested against another [ray.tmax]: the outcome changes
    only through the comparison of the distance with that bound. *)
Lemma test_face_other_tmax (ray : RayInfo F) a0 a p0 p1 p2 t bc :
  test_face TRI_EPS (with_tmax ray a0) p0 p1 p2 = Some (t, bc) ->
  test_face TRI_EPS (with_tmax ray a) p0 p1 p2 =
  if fleb a t then None else Some (t, bc).
Proof.
  unfold test_face. cbn [dir origin tmax with_tmax].
  destruct (fltb _ TRI_EPS); [discriminate|].
  destruct (_ || _); [discriminate|].
  destruct (_ || _); [discriminate|].
  destruct (fleb _ fzero) eqn:Et0; [discriminate|].
  cbn [orb].
  destruct (fleb a0 _); [discriminate|].
  intros [= <- <-]. reflexivity.
Qed.

End TestFace.

(** *** Invariants of the two loops *)

Section LoopInvariants.

Context {F : Type} `{FloatOps F}.
Variable TRI_EPS : F.
Variable POSTPONE_RATIO : F.
Variable MAX_STACK_SIZE : Z.
Variable bvh_nodes : list bvh_node.
Variable faces : list face.
Variable vertices : list (vertex F).
Variable ballot : nat -> Z.

Local Abbreviation closest_faces :=
  (closest_faces TRI_EPS POSTPONE_RATIO MAX_STACK_SIZE faces vertices ballot).
Local Abbreviation closest_round :=
  (closest_round TRI_EPS POSTPONE_RATIO MAX_STACK_SIZE bvh_nodes faces vertices ballot).
Local Abbreviation record_test := (record_test TRI_EPS faces vertices).

(** A property of the progress record that every logged test of
    [find_hit_closest] maintains holds when the face loop is left. *)
Lemma closest_faces_progress (Inv : progress (F:=F) -> Prop) postponing ray :
  (forall face_index p, Inv p -> Inv (record_test ray face_index p)) ->
  forall n count1 face_group c p,
    Inv p -> Inv (snd (closest_faces postponing ray n count1 face_group c p)).
Proof.
  intros Hrec. induction n as [|n IH]; intros count1 face_group c p Hp;
    cbn [Traversal.closest_faces]; [exact Hp|].
  destruct (snd face_group =? 0); [exact Hp|].
  destruct (if postponing then _ else _) as [c1 [[e c2]|]]; [exact Hp|].
  apply IH. now apply Hrec.
Qed.

Lemma closest_round_progress (Inv : progress (F:=F) -> Prop) postponing ray :
  (forall face_index p, Inv p -> Inv (record_test ray face_index p)) ->
  forall c p, Inv p ->
    match closest_round postponing ray c p with
    | Running _ p' | Returned _ _ p' | Fatal _ p' | Stalled _ p' => Inv p'
    end.
Proof.
  intros Hrec c p Hp. unfold Traversal.closest_round.
  destruct (closest_enter _ _ _ _ _) as [[c1 fg]|]; [|exact Hp].
  destruct (if postponing then _ else _) as [count1 c2].
  pose proof (closest_faces_progress Inv postponing ray Hrec 33 count1 fg c2 p Hp) as Hf.
  destruct (closest_faces postponing ray 33 count1 fg c2 p) as [[e c3] p3].
  cbn [snd] in Hf. unfold next_round.
  destruct e; try exact Hf;
    destruct (_ <? snd _); try exact Hf; destruct (0 <? _); exact Hf.
Qed.

Lemma rounds_progress (Inv : progress (F:=F) -> Prop) round :
  (forall c p, Inv p ->
     match round c p with
     | Running _ p' | Returned _ _ p' | Fatal _ p' | Stalled _ p' => Inv p'
     end) ->
  forall fuel c p, Inv p ->
    match rounds round fuel c p with
    | Finished _ _ p' | Aborted _ p' | StillRunning _ p' => Inv p'
    end.
Proof.
  intros Hround. induction fuel as [|fuel IH]; intros c p Hp; cbn [rounds];
    [exact Hp|].
  pose proof (Hround c p Hp) as Hr.
  destruct (round c p) as [c' p'|b c' p'|c' p'|c' p']; try exact Hr.
  now apply IH.
Qed.

End LoopInvariants.

(** *** The log of [find_hit_closest] *)

Section ClosestLog.

Context {F : Type} `{FloatOrder F}.
Variable TRI_EPS : F.
Variable faces : list face.
Variable vertices : list (vertex F).
Variable ray : RayInfo F.

Local Abbreviation record_test := (record_test TRI_EPS faces vertices).
Local Abbreviation test_triangle := (test_triangle TRI_EPS faces vertices).

(** [ray.tmax] after one logged test: the hit distance if the test
    succeeded, otherwise what it was. *)
Definition tmax_after (ev : test_event (F:=F)) : F :=
  match ev_result ev with
  | Some (t, _) => t
  | None => ev_tmax ev
  end.

(** [ray.tmax] after a whole log (most recent test first). *)
Definition tmax_after_log (log : list (test_event (F:=F))) : F :=
  match log with
  | [] => tmax ray
  | ev :: _ => tmax_after ev
  end.

(** Every logged test is [test_face] on the face's triangle against the
    [ray.tmax] left by the tests before it: each hit has assigned
    [ray.tmax := t]. *)
Fixpoint log_ok (log : list (test_event (F:=F))) : Prop :=
  match log with
  | [] => True
  | ev :: older =>
      ev_tmax ev = tmax_after_log older /\
      ev_result ev = test_triangle ray (ev_tmax ev) (ev_face ev) /\
      log_ok older
  end.

(** The face of the most recent successful test, [0xFFFFFFFF] if none. *)
Fixpoint last_hit_face (log : list (test_event (F:=F))) : Z :=
  match log with
  | [] => 0xFFFFFFFF
  | ev :: older =>
      match ev_result ev with
      | Some _ => ev_face ev
      | None => last_hit_face older
      end
  end.

Definition closest_inv (p : progress (F:=F)) : Prop :=
  log_ok (tests p) /\
  ray_tmax p = tmax_after_log (tests p) /\
  face_idx (hit p) = last_hit_face (tests p).

Lemma closest_inv_initial : closest_inv (initial_progress ray).
Proof. repeat split. Qed.

Lemma closest_inv_record face_index p :
  closest_inv p -> closest_inv (record_test ray face_index p).
Proof.
  intros (Hlog & Htmax & Hface). unfold Traversal.record_test.
  destruct (test_triangle ray (ray_tmax p) face_index) as [[t temp_bc]|] eqn:E;
    (split; [|split]); cbn; try rewrite E; auto.
Qed.

(** Hits shrink [ray.tmax] strictly; along the log it never grows. *)
Lemma log_ok_hit log ev t temp_bc :
  log_ok log -> In ev log -> ev_result ev = Some (t, temp_bc) ->
  fltb fzero t = true /\ fltb t (ev_tmax ev) = true.
Proof.
  induction log as [|ev' older IH]; intros Hlog Hin Hres; [destruct Hin|].
  destruct Hlog as (_ & Hev & Holder). destruct Hin as [-> | Hin].
  - rewrite Hres in Hev. symmetry in Hev. unfold Traversal.test_triangle in Hev.
    destruct (triangle faces vertices (ev_face ev)) as [[p0 p1] p2].
    apply test_face_hit in Hev as (_ & _ & Hpos & Ht). auto.
  - now apply IH.
Qed.

Lemma tmax_after_le ev :
  ev_result ev = test_triangle ray (ev_tmax ev) (ev_face ev) ->
  fleb (tmax_after ev) (ev_tmax ev) = true.
Proof.
  intros Hev. unfold tmax_after.
  destruct (ev_result ev) as [[t temp_bc]|] eqn:E.
  - symmetry in Hev. unfold Traversal.test_triangle in Hev.
    destruct (triangle faces vertices (ev_face ev)) as [[p0 p1] p2].
    apply test_face_hit in Hev as (_ & _ & _ & Ht). now apply flt_true_le.
  - destruct (fle_total (ev_tmax ev) (ev_tmax ev)); assumption.
Qed.

Lemma log_ok_final_le log ev :
  log_ok log -> In ev log ->
  fleb (tmax_after_log log) (tmax_after ev) = true.
Proof.
  induction log as [|ev' older IH]; intros Hlog Hin; [destruct Hin|].
  destruct Hlog as (Hprev & Hev & Holder). cbn [tmax_after_log].
  destruct Hin as [-> | Hin].
  - destruct (fle_total (tmax_after ev) (tmax_after ev)); assumption.
  - apply fle_trans with (b := ev_tmax ev').
    + now apply tmax_after_le.
    + rewrite Hprev. now apply IH.
Qed.

(** The surviving distance is no larger than that of any tested face that
    the ray, with its original [tmax], hits. *)
Lemma log_ok_nearest log ev t temp_bc :
  log_ok log -> In ev log ->
  test_triangle ray (tmax ray) (ev_face ev) = Some (t, temp_bc) ->
  fleb (tmax_after_log log) t = true.
Proof.
  intros Hlog Hin Hhit.
  pose proof (log_ok_final_le log ev Hlog Hin) as Hle.
  assert (Hev : ev_result ev = test_triangle ray (ev_tmax ev) (ev_face ev)).
  { clear Hle Hhit. induction log as [|ev' older IH]; [destruct Hin|].
    destruct Hlog as (_ & Hev & Holder). destruct Hin as [-> | Hin]; auto. }
  pose proof (tmax_after_le ev Hev) as Hle'.
  unfold Traversal.test_triangle in Hhit, Hev.
  destruct (triangle faces vertices (ev_face ev)) as [[p0 p1] p2].
  rewrite (test_face_other_tmax TRI_EPS ray _ (ev_tmax ev) _ _ _ _ _ Hhit) in Hev.
  destruct (fleb (ev_tmax ev) t) eqn:E.
  - eapply fle_trans; [exact Hle|]. eapply fle_trans; [exact Hle'|exact E].
  - unfold tmax_after in Hle. rewrite Hev in Hle. exact Hle.
Qed.

End ClosestLog.

(** *** The log of [find_hit_any] *)

Section AnyLog.

Context {F : Type} `{FloatOps F}.
Variable TRI_EPS : F.
Variable POSTPONE_RATIO : F.
Variable MAX_STACK_SIZE : Z.
Variable bvh_nodes : list bvh_node.
Variable faces : list face.
Variable vertices : list (vertex F).
Variable ballot : nat -> Z.
Variable ray : RayInfo F.

Local Abbreviation any_faces :=
  (any_faces TRI_EPS POSTPONE_RATIO MAX_STACK_SIZE faces vertices ballot).
Local Abbreviation any_round :=
  (any_round TRI_EPS POSTPONE_RATIO MAX_STACK_SIZE bvh_nodes faces vertices ballot).
Local Abbreviation test_triangle := (test_triangle TRI_EPS faces vertices).

(** A logged test of [find_hit_any]: [test_face] on the face's triangle
    against the ray as it was passed in. *)
Definition any_test (ev : test_event (F:=F)) : Prop :=
  ev_result ev = test_triangle ray (tmax ray) (ev_face ev).

(** No test has succeeded so far. *)
Definition all_missed (p : progress (F:=F)) : Prop :=
  ray_tmax p = tmax ray /\
  forall ev, In ev (tests p) -> any_test ev /\ ev_result ev = None.

(** The most recent test succeeded and none before it did. *)
Definition first_hit_last (p : progress (F:=F)) : Prop :=
  exists ev older,
    tests p = ev :: older /\
    any_test ev /\ ev_result ev <> None /\
    forall ev', In ev' older -> any_test ev' /\ ev_result ev' = None.

Lemma any_faces_log n count1 face_group c p :
  all_missed p ->
  match any_faces ray n count1 face_group c p with
  | (FacesHit, _, p') => first_hit_last p'
  | (_, _, p') => all_missed p'
  end.
Proof.
  revert face_group c p. induction n as [|n IH]; intros face_group c p Hp;
    cbn [Traversal.any_faces]; [exact Hp|].
  destruct (snd face_group =? 0); [exact Hp|].
  destruct (postpone _ _ _ _ _ _ _) as [c1 [[e c2]|]] eqn:Epost.
  - unfold postpone in Epost.
    destruct (take_sample ballot c) as [count2 c0].
    destruct (count2 <? _); [|discriminate].
    cbn in Epost. injection Epost as <- <- <-. exact Hp.
  - destruct Hp as [Htmax Hall]. rewrite Htmax.
    set (face_index := wrap32 _).
    destruct (test_triangle ray (tmax ray) face_index) as [r|] eqn:Etest.
    + exists {| ev_face := face_index; ev_tmax := tmax ray; ev_result := Some r |},
        (tests p).
      split; [reflexivity|]. split; [exact (eq_sym Etest)|].
      split; [discriminate | exact Hall].
    + apply IH. split; [reflexivity|]. cbn [tests].
      intros ev [<- | Hin]; [|now apply Hall].
      split; [exact (eq_sym Etest) | reflexivity].
Qed.

Lemma any_round_log c p :
  all_missed p ->
  match any_round ray c p with
  | Returned true _ p' => first_hit_last p'
  | Running _ p' | Returned false _ p' | Fatal _ p' | Stalled _ p' => all_missed p'
  end.
Proof.
  intros Hp. unfold Traversal.any_round.
  destruct (any_enter _ _ _ _) as [c1 fg].
  destruct (take_sample ballot c1) as [count1 c2].
  pose proof (any_faces_log 33 count1 fg c2 p Hp) as Hf.
  destruct (any_faces ray 33 count1 fg c2 p) as [[e c3] p3].
  unfold next_round.
  destruct e; try exact Hf;
    destruct (_ <? snd _); try exact Hf; destruct (0 <? _); exact Hf.
Qed.

Lemma any_rounds_log fuel c p :
  all_missed p ->
  match rounds (any_round ray) fuel c p with
  | Finished true _ p' => first_hit_last p'
  | Finished false _ p' | Aborted _ p' | StillRunning _ p' => all_missed p'
  end.
Proof.
  revert c p. induction fuel as [|fuel IH]; intros c p Hp; cbn [rounds];
    [exact Hp|].
  pose proof (any_round_log c p Hp) as Hr.
  destruct (any_round ray c p) as [c' p'|[|] c' p'|c' p'|c' p']; try exact Hr.
  now apply IH.
Qed.

End AnyLog.

(** *** Stack stores of [find_hit_closest] *)

Section CheckedStack.

Context {F : Type} `{FloatOps F}.
Variable TRI_EPS : F.
Variable POSTPONE_RATIO : F.
Variable MAX_STACK_SIZE : Z.
Variable bvh_nodes : list bvh_node.
Variable faces : list face.
Variable vertices : list (vertex F).
Variable ballot : nat -> Z.

Local Abbreviation closest_faces :=
  (closest_faces TRI_EPS POSTPONE_RATIO MAX_STACK_SIZE faces vertices ballot).
Local Abbreviation closest_round :=
  (closest_round TRI_EPS POSTPONE_RATIO MAX_STACK_SIZE bvh_nodes faces vertices ballot).

(** Every store so far went to an index inside [stack[MAX_STACK_SIZE]]. *)
Definition stores_in_bounds (c : control) : Prop :=
  0 <= stack_size c /\
  forall i, In i (stack_stores c) -> 0 <= i < MAX_STACK_SIZE.

Lemma push_checked_in_bounds c g c' :
  push_checked MAX_STACK_SIZE c g = Some c' ->
  stores_in_bounds c -> stores_in_bounds c'.
Proof.
  unfold push_checked. destruct (stack_size c <? MAX_STACK_SIZE) eqn:E; [|discriminate].
  intros [= <-] [Hsize Hall]. apply Z.ltb_lt in E. split; cbn.
  - apply wrap32_range.
  - intros i [<- | Hin]; [lia | now apply Hall].
Qed.

Lemma postpone_checked_in_bounds count1 face_group c :
  stores_in_bounds c ->
  match postpone POSTPONE_RATIO MAX_STACK_SIZE ballot true count1 face_group c with
  | (c1, Some (_, c2)) => stores_in_bounds c1 /\ stores_in_bounds c2
  | (c1, None) => stores_in_bounds c1
  end.
Proof.
  intros Hc. unfold postpone, take_sample.
  destruct (ballot (samples c) <? _); [|exact Hc].
  destruct (push_checked _ _ _) as [c'|] eqn:E.
  - split; [exact Hc|]. eapply push_checked_in_bounds; [exact E | exact Hc].
  - split; exact Hc.
Qed.

Lemma closest_faces_in_bounds postponing ray n count1 face_group c p :
  stores_in_bounds c ->
  stores_in_bounds (snd (fst (closest_faces postponing ray n count1 face_group c p))).
Proof.
  revert face_group c p. induction n as [|n IH]; intros face_group c p Hc;
    cbn [Traversal.closest_faces]; [exact Hc|].
  destruct (snd face_group =? 0); [exact Hc|].
  destruct postponing.
  - pose proof (postpone_checked_in_bounds count1 face_group c Hc) as Hp.
    destruct (postpone _ _ _ _ _ _ _) as [c1 [[e c2]|]].
    + exact (proj2 Hp).
    + now apply IH.
  - now apply IH.
Qed.

Lemma closest_enter_in_bounds ray c p :
  stores_in_bounds c ->
  match closest_enter MAX_STACK_SIZE bvh_nodes ray c p with
  | Some (c1, _) => stores_in_bounds c1
  | None => True
  end.
Proof.
  intros Hc. unfold closest_enter.
  destruct (snd (node_group c) <=? 0xFFFFFF); [exact Hc|].
  destruct (pick_child _ _) as [child rest].
  destruct (0xFFFFFF <? snd rest).
  - destruct (push_checked _ _ _) as [c0|] eqn:E; [|exact I].
    destruct (intersect_node _ _ _ _) as [ng fg].
    exact (push_checked_in_bounds _ _ _ E Hc).
  - destruct (intersect_node _ _ _ _) as [ng fg]. exact Hc.
Qed.

Lemma closest_round_in_bounds postponing ray c p :
  stores_in_bounds c ->
  match closest_round postponing ray c p with
  | Running c' _ | Returned _ c' _ | Fatal c' _ | Stalled c' _ => stores_in_bounds c'
  end.
Proof.
  intros Hc. unfold Traversal.closest_round.
  pose proof (closest_enter_in_bounds ray c p Hc) as Hentered.
  destruct (closest_enter _ _ _ _ _) as [[c1 fg]|]; [|exact Hc].
  assert (Hsample : stores_in_bounds
            (snd (if postponing then take_sample ballot c1 else (0, c1)))).
  { destruct postponing; exact Hentered. }
  destruct (if postponing then _ else _) as [count1 c2]. cbn [snd] in Hsample.
  pose proof (closest_faces_in_bounds postponing ray 33 count1 fg c2 p Hsample) as Hf.
  destruct (closest_faces postponing ray 33 count1 fg c2 p) as [[e c3] p3].
  cbn [fst snd] in Hf. unfold next_round.
  assert (Hpop : stores_in_bounds (pop c3)).
  { destruct Hf as [_ Hall]. split; [apply wrap32_range | exact Hall]. }
  destruct e; try exact Hf;
    destruct (_ <? snd _); try exact Hf; destruct (0 <? _); assumption.
Qed.

(** However [find_hit_closest] ends, every stack store it made went to an
    index below [MAX_STACK_SIZE]. *)
Lemma closest_stores_in_bounds postponing fuel ray i :
  In i (stack_stores
          (match find_hit_closest TRI_EPS POSTPONE_RATIO MAX_STACK_SIZE bvh_nodes
                   faces vertices ballot postponing fuel ray with
           | Finished _ c _ | Aborted c _ | StillRunning c _ => c
           end)) ->
  0 <= i < MAX_STACK_SIZE.
Proof.
  unfold find_hit_closest.
  assert (H0 : stores_in_bounds initial_control).
  { split; [cbn; lia | intros j []]. }
  revert H0. generalize (initial_progress ray). generalize initial_control.
  induction fuel as [|fuel IH]; intros c p Hc; cbn [rounds].
  - apply Hc.
  - pose proof (closest_round_in_bounds postponing ray c p Hc) as Hr.
    destruct (closest_round postponing ray c p) as [c' p'|b c' p'|c' p'|c' p'];
      try apply Hr.
    now apply IH.
Qed.

End CheckedStack.

(** *** Postponement that never triggers *)

Section QuietWave.

Context {F : Type} `{FloatOps F}.
Variable TRI_EPS : F.
Variable POSTPONE_RATIO : F.
Variable MAX_STACK_SIZE : Z.
Variable bvh_nodes : list bvh_node.
Variable faces : list face.
Variable vertices : list (vertex F).
Variable ballot : nat -> Z.

Local Abbreviation closest_faces :=
  (closest_faces TRI_EPS POSTPONE_RATIO MAX_STACK_SIZE faces vertices ballot).
Local Abbreviation closest_round :=
  (closest_round TRI_EPS POSTPONE_RATIO MAX_STACK_SIZE bvh_nodes faces vertices ballot).
Local Abbreviation closest_enter := (closest_enter MAX_STACK_SIZE bvh_nodes).

(** No ballot ever falls below the threshold computed from another one, so
    the postponement branch is never taken. *)
Definition quiet : Prop :=
  forall i j, (ballot j <? postpone_threshold POSTPONE_RATIO (ballot i)) = false.

(** Two control records that agree on everything but the ballot counter. *)
Definition same_control (c1 c2 : control) : Prop :=
  node_group c1 = node_group c2 /\ stack c1 = stack c2 /\
  stack_size c1 = stack_size c2 /\ stack_stores c1 = stack_stores c2.

Definition same_outcome (o1 o2 : outcome (F:=F)) : Prop :=
  match o1, o2 with
  | Running c1 p1, Running c2 p2 => same_control c1 c2 /\ p1 = p2
  | Returned b1 c1 p1, Returned b2 c2 p2 => b1 = b2 /\ same_control c1 c2 /\ p1 = p2
  | Fatal c1 p1, Fatal c2 p2 => same_control c1 c2 /\ p1 = p2
  | Stalled c1 p1, Stalled c2 p2 => same_control c1 c2 /\ p1 = p2
  | _, _ => False
  end.

(** How two runs of a query compare: they end the same way, with the same
    return value, [ray.tmax], hit record and test log, and the same stack. *)
Definition same_result (r1 r2 : result (F:=F)) : Prop :=
  match r1, r2 with
  | Finished b1 c1 p1, Finished b2 c2 p2 => b1 = b2 /\ same_control c1 c2 /\ p1 = p2
  | Aborted c1 p1, Aborted c2 p2 => same_control c1 c2 /\ p1 = p2
  | StillRunning c1 p1, StillRunning c2 p2 => same_control c1 c2 /\ p1 = p2
  | _, _ => False
  end.

Lemma same_control_refl c : same_control c c.
Proof. repeat split. Qed.

Lemma same_control_sample c1 c2 :
  same_control c1 c2 -> same_control (snd (take_sample ballot c1)) c2.
Proof. intros H1. exact H1. Qed.

Lemma same_control_set c1 c2 g :
  same_control c1 c2 -> same_control (set_node_group c1 g) (set_node_group c2 g).
Proof. intros (_ & Hs & Hn & Hl). repeat split; assumption. Qed.

Lemma same_control_pop c1 c2 :
  same_control c1 c2 -> same_control (pop c1) (pop c2).
Proof.
  intros (_ & Hs & Hn & Hl). unfold pop. rewrite Hs, Hn.
  repeat split; cbn; assumption.
Qed.

Lemma same_control_push_checked c1 c2 g :
  same_control c1 c2 ->
  match push_checked MAX_STACK_SIZE c1 g, push_checked MAX_STACK_SIZE c2 g with
  | Some c1', Some c2' => same_control c1' c2'
  | None, None => True
  | _, _ => False
  end.
Proof.
  intros (Hg & Hs & Hn & Hl). unfold push_checked, push. rewrite Hn.
  destruct (stack_size c2 <? MAX_STACK_SIZE); [|exact I].
  repeat split; cbn; try assumption.
  - now rewrite Hs.
  - now rewrite Hl.
Qed.

Lemma same_control_enter ray c1 c2 p :
  same_control c1 c2 ->
  match closest_enter ray c1 p, closest_enter ray c2 p with
  | Some (c1', fg1), Some (c2', fg2) => same_control c1' c2' /\ fg1 = fg2
  | None, None => True
  | _, _ => False
  end.
Proof.
  intros Hc. pose proof Hc as (Hg & Hs & Hn & Hl).
  unfold Traversal.closest_enter. rewrite Hg.
  destruct (snd (node_group c2) <=? 0xFFFFFF).
  - split; [now apply same_control_set | reflexivity].
  - destruct (pick_child _ _) as [child rest].
    destruct (0xFFFFFF <? snd rest).
    + pose proof (same_control_push_checked c1 c2 rest Hc) as Hp.
      destruct (push_checked _ c1 rest) as [c1'|], (push_checked _ c2 rest) as [c2'|];
        try exact Hp.
      destruct (intersect_node _ _ _ _) as [ng fg].
      split; [now apply same_control_set | reflexivity].
    + destruct (intersect_node _ _ _ _) as [ng fg].
      split; [now apply same_control_set | reflexivity].
Qed.

Hypothesis ballot_quiet : quiet.

Lemma postpone_quiet i face_group c :
  postpone POSTPONE_RATIO MAX_STACK_SIZE ballot true (ballot i) face_group c
  = (snd (take_sample ballot c), None).
Proof. unfold postpone, take_sample. now rewrite ballot_quiet. Qed.

Lemma closest_faces_quiet ray n i count face_group c1 c2 p :
  same_control c1 c2 ->
  match closest_faces true ray n (ballot i) face_group c1 p,
        closest_faces false ray n count face_group c2 p with
  | (e1, c1', p1), (e2, c2', p2) => e1 = e2 /\ same_control c1' c2' /\ p1 = p2
  end.
Proof.
  revert face_group c1 c2 p. induction n as [|n IH]; intros face_group c1 c2 p Hc;
    cbn [Traversal.closest_faces]; [auto|].
  destruct (snd face_group =? 0); [auto|].
  rewrite postpone_quiet. apply IH. exact Hc.
Qed.

Lemma closest_round_quiet ray c1 c2 p :
  same_control c1 c2 ->
  same_outcome (closest_round true ray c1 p) (closest_round false ray c2 p).
Proof.
  intros Hc. unfold Traversal.closest_round.
  pose proof (same_control_enter ray c1 c2 p Hc) as He.
  destruct (closest_enter ray c1 p) as [[c1' fg1]|],
           (closest_enter ray c2 p) as [[c2' fg2]|]; try contradiction.
  - destruct He as [Hc' <-]. cbn [take_sample].
    pose proof (closest_faces_quiet ray 33 (samples c1') 0 fg1
                  (snd (take_sample ballot c1')) c2' p Hc') as Hf.
    cbn [take_sample snd] in Hf.
    destruct (closest_faces true ray 33 _ fg1 _ p) as [[e1 d1] p1].
    destruct (closest_faces false ray 33 0 fg1 c2' p) as [[e2 d2] p2].
    destruct Hf as (<- & Hd & <-). pose proof Hd as (Hg & Hs & Hn & Hl).
    unfold next_round. rewrite Hg, Hn.
    destruct e1; cbn; auto;
      destruct (0xFFFFFF <? snd (node_group d2)); cbn; auto;
      destruct (0 <? stack_size d2); cbn; auto using same_control_pop.
  - cbn. auto.
Qed.

Lemma rounds_quiet ray fuel c1 c2 p :
  same_control c1 c2 ->
  same_result (rounds (closest_round true ray) fuel c1 p)
              (rounds (closest_round false ray) fuel c2 p).
Proof.
  revert c1 c2 p. induction fuel as [|fuel IH]; intros c1 c2 p Hc; cbn [rounds].
  - cbn. auto.
  - pose proof (closest_round_quiet ray c1 c2 p Hc) as Hr.
    destruct (closest_round true ray c1 p), (closest_round false ray c2 p);
      cbn in Hr; try contradiction; cbn.
    + destruct Hr as [Hc' <-]. now apply IH.
    + exact Hr.
    + exact Hr.
    + exact Hr.
Qed.

End QuietWave.

(** *** [find_hit_closest] without [TRIANGLE_POSTPONING] takes no ballot *)

Section NoBallot.

Context {F : Type} `{FloatOps F}.
Variable TRI_EPS : F.
Variable POSTPONE_RATIO : F.
Variable MAX_STACK_SIZE : Z.
Variable bvh_nodes : list bvh_node.
Variable faces : list face.
Variable vertices : list (vertex F).

Lemma closest_faces_no_ballot ballot ballot' ray n count count' face_group c p :
  closest_faces TRI_EPS POSTPONE_RATIO MAX_STACK_SIZE faces vertices ballot
    false ray n count face_group c p =
  closest_faces TRI_EPS POSTPONE_RATIO MAX_STACK_SIZE faces vertices ballot'
    false ray n count' face_group c p.
Proof.
  revert face_group c p. induction n as [|n IH]; intros face_group c p;
    cbn [closest_faces]; [reflexivity|].
  destruct (snd face_group =? 0); [reflexivity|]. apply IH.
Qed.

Lemma closest_no_ballot ballot ballot' fuel ray :
  find_hit_closest TRI_EPS POSTPONE_RATIO MAX_STACK_SIZE bvh_nodes faces vertices
    ballot false fuel ray =
  find_hit_closest TRI_EPS POSTPONE_RATIO MAX_STACK_SIZE bvh_nodes faces vertices
    ballot' false fuel ray.
Proof.
  unfold find_hit_closest.
  generalize (initial_progress ray). generalize initial_control.
  induction fuel as [|fuel IH]; intros c p; cbn [rounds]; [reflexivity|].
  assert (E : closest_round TRI_EPS POSTPONE_RATIO MAX_STACK_SIZE bvh_nodes faces
                vertices ballot false ray c p =
              closest_round TRI_EPS POSTPONE_RATIO MAX_STACK_SIZE bvh_nodes faces
                vertices ballot' false ray c p).
  { unfold closest_round.
    destruct (closest_enter _ _ _ _ _) as [[c1 fg]|]; [|reflexivity].
    rewrite (closest_faces_no_ballot ballot ballot' ray 33 0 0). reflexivity. }
  rewrite E.
  destruct (closest_round _ _ _ _ _ _ ballot' false ray c p) as [c' p'|b c' p'|c' p'|c' p'];
    [apply IH | reflexivity | reflexivity | reflexivity].
Qed.

End NoBallot.

(** *** The face loop ends *)

Section FaceLoopEnds.

Context {F : Type} `{FloatOps F}.
Variable TRI_EPS : F.
Variable POSTPONE_RATIO : F.
Variable MAX_STACK_SIZE : Z.
Variable bvh_nodes : list bvh_node.
Variable faces : list face.
Variable vertices : list (vertex F).
Variable ballot : nat -> Z.

Local Abbreviation postpone := (postpone POSTPONE_RATIO MAX_STACK_SIZE ballot).
Local Abbreviation closest_faces :=
  (closest_faces TRI_EPS POSTPONE_RATIO MAX_STACK_SIZE faces vertices ballot).
Local Abbreviation any_faces :=
  (any_faces TRI_EPS POSTPONE_RATIO MAX_STACK_SIZE faces vertices ballot).
Local Abbreviation closest_round :=
  (closest_round TRI_EPS POSTPONE_RATIO MAX_STACK_SIZE bvh_nodes faces vertices ballot).
Local Abbreviation any_round :=
  (any_round TRI_EPS POSTPONE_RATIO MAX_STACK_SIZE bvh_nodes faces vertices ballot).
Local Abbreviation closest_enter := (closest_enter MAX_STACK_SIZE bvh_nodes).
Local Abbreviation any_enter := (any_enter bvh_nodes).

(** [mask & ~(1u << findMSB(mask))] drops the highest set bit. *)
Lemma clear_msb_bound y k :
  0 < y -> y < 2 ^ (k + 1) -> 0 <= k < 32 ->
  0 <= Z.land y (unot32 (ushl32 1 (wrap32 (findMSB y)))) < 2 ^ k.
Proof.
  intros Hy Hlt Hk.
  assert (Hm : 0 <= Z.log2 y <= k).
  { split; [apply Z.log2_nonneg|].
    assert (Z.log2 y < k + 1) by (apply Z.log2_lt_pow2; lia). lia. }
  unfold findMSB. replace (y =? 0) with false by (symmetry; apply Z.eqb_neq; lia).
  set (m := Z.log2 y) in *.
  assert (Hpow : 2 ^ m < 2 ^ 32) by (apply Z.pow_lt_mono_r; lia).
  assert (Hpos : 0 < 2 ^ m) by (apply Z.pow_pos_nonneg; lia).
  rewrite (wrap32_small m) by lia.
  unfold ushl32. rewrite Z.shiftl_1_l. rewrite (wrap32_small (2 ^ m)) by lia.
  unfold unot32.
  set (y' := Z.land y (Z.lxor (2 ^ m) 0xFFFFFFFF)).
  assert (Hnn : 0 <= y') by (apply Z.land_nonneg; lia).
  split; [exact Hnn|].
  assert (Hbits : forall i, m <= i -> Z.testbit y' i = false).
  { intros i Hi. unfold y'. rewrite Z.land_spec, Z.lxor_spec.
    destruct (Z.eq_dec i m) as [->|Hne].
    - rewrite Z.pow2_bits_true by lia.
      change 0xFFFFFFFF with (Z.ones 32). rewrite Z.ones_spec_low by lia.
      apply Bool.andb_false_r.
    - rewrite (Z.bits_above_log2 y i) by (fold m; lia). reflexivity. }
  destruct (Z.eq_dec y' 0) as [->|Hne]; [lia|].
  assert (Hlog : Z.log2 y' < m).
  { destruct (Z_lt_le_dec (Z.log2 y') m) as [|Hge]; [assumption|].
    pose proof (Z.bit_log2 y' ltac:(lia)) as Hb.
    rewrite (Hbits _ Hge) in Hb. discriminate. }
  apply Z.lt_le_trans with (2 ^ m).
  - apply Z.log2_lt_pow2; lia.
  - apply Z.pow_le_mono_r; lia.
Qed.

(** The postponement branch leaves the loop by [break] or by the failed
    [ASSERT], never by running on. *)
Lemma postpone_exit checked count face_group c c1 e c2 :
  postpone checked count face_group c = (c1, Some (e, c2)) ->
  e = FacesPostponed \/ e = FacesFatal.
Proof.
  unfold Traversal.postpone. destruct (take_sample ballot c) as [count2 c0].
  destruct (count2 <? _); [|discriminate].
  destruct checked.
  - destruct (push_checked MAX_STACK_SIZE c0 face_group); intros [= _ <- _]; auto.
  - intros [= _ <- _]; auto.
Qed.

(** A face mask below [2 ^ n] is used up within [n] rounds: the loop
    [while (face_group.y != 0)] ends. *)
Lemma closest_faces_ends postponing ray n :
  forall count face_group c p,
    (n <= 32)%nat -> 0 <= snd face_group < 2 ^ Z.of_nat n ->
    fst (fst (closest_faces postponing ray (S n) count face_group c p)) <> FacesFuel.
Proof.
  induction n as [|n IH]; intros count face_group c p Hn Hmask.
  - cbn [Traversal.closest_faces].
    replace (snd face_group =? 0) with true
      by (symmetry; apply Z.eqb_eq; change (2 ^ Z.of_nat 0) with 1 in Hmask; lia).
    discriminate.
  - remember (S n) as m eqn:Em. cbn [Traversal.closest_faces].
    destruct (snd face_group =? 0) eqn:Ez; [discriminate|].
    apply Z.eqb_neq in Ez.
    destruct (if postponing then postpone true count face_group c else (c, None))
      as [c1 [[e c2]|]] eqn:Ep.
    + destruct postponing; [|discriminate].
      cbn [fst]. destruct (postpone_exit _ _ _ _ _ _ _ Ep) as [-> | ->]; discriminate.
    + subst m. apply IH; [lia|]. cbn [snd].
      apply clear_msb_bound; [lia| |lia].
      replace (Z.of_nat n + 1) with (Z.of_nat (S n)) by lia. apply Hmask.
Qed.

Lemma any_faces_ends ray n :
  forall count face_group c p,
    (n <= 32)%nat -> 0 <= snd face_group < 2 ^ Z.of_nat n ->
    fst (fst (any_faces ray (S n) count face_group c p)) <> FacesFuel.
Proof.
  induction n as [|n IH]; intros count face_group c p Hn Hmask.
  - cbn [Traversal.any_faces].
    replace (snd face_group =? 0) with true
      by (symmetry; apply Z.eqb_eq; change (2 ^ Z.of_nat 0) with 1 in Hmask; lia).
    discriminate.
  - remember (S n) as m eqn:Em. cbn [Traversal.any_faces].
    destruct (snd face_group =? 0) eqn:Ez; [discriminate|].
    apply Z.eqb_neq in Ez.
    destruct (postpone false count face_group c) as [c1 [[e c2]|]] eqn:Ep.
    + cbn [fst]. destruct (postpone_exit _ _ _ _ _ _ _ Ep) as [-> | ->]; discriminate.
    + destruct (test_triangle _ _ _ _ _ _); [discriminate|].
      subst m. apply IH; [lia|]. cbn [snd].
      apply clear_msb_bound; [lia| |lia].
      replace (Z.of_nat n + 1) with (Z.of_nat (S n)) by lia. apply Hmask.
Qed.

(** All the masks the traversal keeps are 32-bit values read as non-negative
    numbers. *)
Definition masks_ok (c : control) : Prop :=
  0 <= snd (node_group c) /\ forall i, 0 <= snd (stack c i).

Lemma masks_ok_initial : masks_ok initial_control.
Proof. split; [cbn; lia | intros i; cbn; lia]. Qed.

Lemma masks_ok_push c g : masks_ok c -> 0 <= snd g -> masks_ok (push c g).
Proof.
  intros [Hn Hs] Hg. split; [exact Hn|]. intros i. cbn [push stack].
  destruct (i =? stack_size c); [exact Hg | apply Hs].
Qed.

Lemma masks_ok_pop c : masks_ok c -> masks_ok (pop c).
Proof. intros [Hn Hs]. split; [apply Hs | exact Hs]. Qed.

Lemma masks_ok_set c g : masks_ok c -> 0 <= snd g -> masks_ok (set_node_group c g).
Proof. intros [Hn Hs] Hg. split; [exact Hg | exact Hs]. Qed.

Lemma masks_ok_sample c : masks_ok c -> masks_ok (snd (take_sample ballot c)).
Proof. intros [Hn Hs]. split; [exact Hn | exact Hs]. Qed.

Lemma masks_ok_push_checked c g c' :
  push_checked MAX_STACK_SIZE c g = Some c' -> masks_ok c -> 0 <= snd g -> masks_ok c'.
Proof.
  unfold push_checked. destruct (_ <? _); [|discriminate].
  intros [= <-]. apply masks_ok_push.
Qed.

Lemma postpone_masks checked count face_group c c1 r :
  postpone checked count face_group c = (c1, r) ->
  masks_ok c -> 0 <= snd face_group ->
  masks_ok c1 /\ forall e c2, r = Some (e, c2) -> masks_ok c2.
Proof.
  unfold Traversal.postpone. intros E Hc Hg.
  pose proof (masks_ok_sample c Hc) as Hc0.
  destruct (take_sample ballot c) as [count2 c0]. cbn [snd] in Hc0.
  destruct (count2 <? _).
  - destruct checked.
    + destruct (push_checked MAX_STACK_SIZE c0 face_group) as [c'|] eqn:Epush;
        injection E as <- <-; (split; [exact Hc0|]); intros e c2 [= _ <-].
      * exact (masks_ok_push_checked _ _ _ Epush Hc0 Hg).
      * exact Hc0.
    + injection E as <- <-. split; [exact Hc0|]. intros e c2 [= _ <-].
      now apply masks_ok_push.
  - injection E as <- <-. split; [exact Hc0 | discriminate].
Qed.

Lemma cleared_nonneg y m : 0 <= y -> 0 <= Z.land y m.
Proof. intros Hy. apply Z.land_nonneg. now left. Qed.

Lemma closest_faces_masks postponing ray n :
  forall count face_group c p,
    masks_ok c -> 0 <= snd face_group ->
    masks_ok (snd (fst (closest_faces postponing ray n count face_group c p))).
Proof.
  induction n as [|n IH]; intros count face_group c p Hc Hg;
    cbn [Traversal.closest_faces]; [exact Hc|].
  destruct (snd face_group =? 0); [exact Hc|].
  destruct (if postponing then postpone true count face_group c else (c, None))
    as [c1 r] eqn:Ep.
  assert (Hr : masks_ok c1 /\ forall e c2, r = Some (e, c2) -> masks_ok c2).
  { destruct postponing.
    - exact (postpone_masks _ _ _ _ _ _ Ep Hc Hg).
    - injection Ep as <- <-. split; [exact Hc | discriminate]. }
  destruct Hr as [Hc1 Hr]. destruct r as [[e c2]|].
  - exact (Hr e c2 eq_refl).
  - apply IH; [exact Hc1|]. cbn [snd]. now apply cleared_nonneg.
Qed.

Lemma any_faces_masks ray n :
  forall count face_group c p,
    masks_ok c -> 0 <= snd face_group ->
    masks_ok (snd (fst (any_faces ray n count face_group c p))).
Proof.
  induction n as [|n IH]; intros count face_group c p Hc Hg;
    cbn [Traversal.any_faces]; [exact Hc|].
  destruct (snd face_group =? 0); [exact Hc|].
  destruct (postpone false count face_group c) as [c1 r] eqn:Ep.
  destruct (postpone_masks _ _ _ _ _ _ Ep Hc Hg) as [Hc1 Hr].
  destruct r as [[e c2]|].
  - exact (Hr e c2 eq_refl).
  - destruct (test_triangle _ _ _ _ _ _); [exact Hc1|].
    apply IH; [exact Hc1|]. cbn [snd]. now apply cleared_nonneg.
Qed.

(** The masks a node yields: the node group's is non-negative and the face
    group's has 24 bits. *)
Lemma intersect_node_masks ray t child_node_idx :
  0 <= snd (fst (intersect_node bvh_nodes ray t child_node_idx)) /\
  0 <= snd (snd (intersect_node bvh_nodes ray t child_node_idx)) < 2 ^ 24.
Proof.
  unfold intersect_node. cbv zeta. cbn [fst snd]. split.
  - apply Z.lor_nonneg. split.
    + apply Z.land_nonneg. right. lia.
    + unfold extract_byte. apply Z.land_nonneg. right. lia.
  - change 0x00FFFFFF with (Z.ones 24). rewrite Z.land_ones by lia.
    apply Z.mod_pos_bound. lia.
Qed.

Lemma pick_child_mask oct_inv4 g : 0 <= snd g -> 0 <= snd (snd (pick_child oct_inv4 g)).
Proof. intros Hg. unfold pick_child. cbn [snd]. now apply cleared_nonneg. Qed.

Lemma closest_enter_masks ray c p c1 face_group :
  closest_enter ray c p = Some (c1, face_group) -> masks_ok c ->
  masks_ok c1 /\ 0 <= snd face_group < 2 ^ 24.
Proof.
  unfold Traversal.closest_enter. intros E Hc.
  destruct (snd (node_group c) <=? 0x00FFFFFF) eqn:Eleaf.
  - injection E as <- <-. apply Z.leb_le in Eleaf. destruct Hc as [Hn Hs].
    split; [split; [cbn; lia | exact Hs] | lia].
  - pose proof (pick_child_mask (oct_inv4_of ray) (node_group c) (proj1 Hc)) as Hrest.
    destruct (pick_child (oct_inv4_of ray) (node_group c)) as [child rest].
    cbn [snd] in Hrest.
    pose proof (intersect_node_masks ray (ray_tmax p) child) as [Hng Hfg].
    destruct (intersect_node bvh_nodes ray (ray_tmax p) child) as [ng fg].
    cbn [fst snd] in Hng, Hfg.
    destruct (0x00FFFFFF <? snd rest).
    + destruct (push_checked MAX_STACK_SIZE c rest) as [c'|] eqn:Epush; [|discriminate].
      injection E as <- <-. split; [|exact Hfg].
      apply masks_ok_set; [|exact Hng].
      exact (masks_ok_push_checked _ _ _ Epush Hc Hrest).
    + injection E as <- <-. split; [|exact Hfg]. now apply masks_ok_set.
Qed.

Lemma any_enter_masks ray c p :
  masks_ok c ->
  masks_ok (fst (any_enter ray c p)) /\ 0 <= snd (snd (any_enter ray c p)) < 2 ^ 24.
Proof.
  unfold Traversal.any_enter. intros Hc.
  destruct (snd (node_group c) <=? 0x00FFFFFF) eqn:Eleaf.
  - cbn [fst snd]. apply Z.leb_le in Eleaf. destruct Hc as [Hn Hs].
    split; [split; [cbn; lia | exact Hs] | lia].
  - pose proof (pick_child_mask (oct_inv4_of ray) (node_group c) (proj1 Hc)) as Hrest.
    destruct (pick_child (oct_inv4_of ray) (node_group c)) as [child rest].
    cbn [snd] in Hrest.
    pose proof (intersect_node_masks ray (ray_tmax p) child) as [Hng Hfg].
    destruct (intersect_node bvh_nodes ray (ray_tmax p) child) as [ng fg].
    cbn [fst snd] in *. split; [|exact Hfg].
    apply masks_ok_set; [|exact Hng].
    destruct (0x00FFFFFF <? snd rest); [now apply masks_ok_push | exact Hc].
Qed.

Lemma next_round_masks found c (p : progress (F:=F)) c' p' :
  next_round found c p = Running c' p' -> masks_ok c -> masks_ok c'.
Proof.
  unfold next_round. destruct (_ <? snd _).
  - now intros [= <- _].
  - destruct (0 <? stack_size c); [|discriminate].
    intros [= <- _]. apply masks_ok_pop.
Qed.

Lemma next_round_not_stalled found c (p : progress (F:=F)) c' p' :
  next_round found c p <> Stalled c' p'.
Proof.
  unfold next_round. destruct (_ <? snd _); [discriminate|].
  destruct (0 <? stack_size c); discriminate.
Qed.

Lemma mask24 z : 0 <= z < 2 ^ 24 -> 0 <= z < 2 ^ Z.of_nat 32.
Proof. change (2 ^ 24) with 16777216. change (2 ^ Z.of_nat 32) with 4294967296. lia. Qed.

(** A round of [find_hit_closest] never stops for want of face-loop rounds,
    and hands well-formed masks on to the next round. *)
Lemma closest_round_goes_on postponing ray c p :
  masks_ok c ->
  (forall c' p', closest_round postponing ray c p <> Stalled c' p') /\
  (forall c' p', closest_round postponing ray c p = Running c' p' -> masks_ok c').
Proof.
  intros Hc. unfold Traversal.closest_round.
  destruct (closest_enter ray c p) as [[c1 fg]|] eqn:Eenter;
    [|split; intros; discriminate].
  destruct (closest_enter_masks _ _ _ _ _ Eenter Hc) as [Hc1 Hfg].
  set (sampled := if postponing then take_sample ballot c1 else (0, c1)).
  assert (Hs : masks_ok (snd sampled)).
  { unfold sampled. destruct postponing; [apply masks_ok_sample|]; exact Hc1. }
  destruct sampled as [count c2]. cbn [snd] in Hs.
  pose proof (closest_faces_ends postponing ray 32 count fg c2 p (le_n _) (mask24 _ Hfg))
    as Hends.
  pose proof (closest_faces_masks postponing ray 33 count fg c2 p Hs (proj1 Hfg))
    as Hmasks.
  destruct (closest_faces postponing ray 33 count fg c2 p) as [[e c3] p3].
  cbn [fst snd] in Hends, Hmasks.
  destruct e; try (split; intros; [apply next_round_not_stalled
                                  | eapply next_round_masks; eassumption]).
  - split; intros; discriminate.
  - contradiction.
Qed.

Lemma any_round_goes_on ray c p :
  masks_ok c ->
  (forall c' p', any_round ray c p <> Stalled c' p') /\
  (forall c' p', any_round ray c p = Running c' p' -> masks_ok c').
Proof.
  intros Hc. unfold Traversal.any_round.
  destruct (any_enter_masks ray c p Hc) as [Hc1 Hfg].
  destruct (any_enter ray c p) as [c1 fg]. cbn [fst snd] in Hc1, Hfg.
  pose proof (masks_ok_sample c1 Hc1) as Hs.
  destruct (take_sample ballot c1) as [count c2]. cbn [snd] in Hs.
  pose proof (any_faces_ends ray 32 count fg c2 p (le_n _) (mask24 _ Hfg)) as Hends.
  pose proof (any_faces_masks ray 33 count fg c2 p Hs (proj1 Hfg)) as Hmasks.
  destruct (any_faces ray 33 count fg c2 p) as [[e c3] p3].
  cbn [fst snd] in Hends, Hmasks.
  destruct e; try (split; intros; [apply next_round_not_stalled
                                  | eapply next_round_masks; eassumption]).
  - split; intros; discriminate.
  - split; intros; discriminate.
  - contradiction.
Qed.

End FaceLoopEnds.

(** *** The queries never wait on the face loop *)

Section QueriesNeverStall.

Context {F : Type} `{FloatOps F}.
Variable TRI_EPS : F.
Variable POSTPONE_RATIO : F.
Variable MAX_STACK_SIZE : Z.
Variable bvh_nodes : list bvh_node.
Variable faces : list face.
Variable vertices : list (vertex F).
Variable ballot : nat -> Z.

(** The outcome of the [n]-th pass through the body of [while (true)]; an
    outcome that ends the query is kept. *)
Fixpoint after_rounds (round : control -> progress -> outcome (F:=F)) (n : nat)
    (c : control) (p : progress) : outcome :=
  match n with
  | O => Running c p
  | S n' =>
      match after_rounds round n' c p with
      | Running c' p' => round c' p'
      | o => o
      end
  end.

Lemma after_rounds_goes_on (round : control -> progress -> outcome (F:=F)) :
  (forall c p, masks_ok c ->
     (forall c' p', round c p <> Stalled c' p') /\
     (forall c' p', round c p = Running c' p' -> masks_ok c')) ->
  forall n c p, masks_ok c ->
    (forall c' p', after_rounds round n c p <> Stalled c' p') /\
    (forall c' p', after_rounds round n c p = Running c' p' -> masks_ok c').
Proof.
  intros Hround n c p Hc. induction n as [|n [IHs IHr]]; cbn [after_rounds].
  - split; [discriminate|]. now intros c' p' [= <- _].
  - destruct (after_rounds round n c p) as [c1 p1|b c1 p1|c1 p1|c1 p1].
    + apply Hround. exact (IHr c1 p1 eq_refl).
    + split; discriminate.
    + split; discriminate.
    + now destruct (IHs c1 p1).
Qed.

(** X19. However many times the body of [while (true)] has run, neither
    query is ever held up by its face loop: [while (face_group.y != 0)]
    clears one of the 24 face bits per iteration or leaves early, so it ends
    within 33 iterations in every pass, for every scene, ray and ballot. *)
Theorem face_loops_always_end postponing ray n c' p' :
  after_rounds
    (closest_round TRI_EPS POSTPONE_RATIO MAX_STACK_SIZE bvh_nodes faces vertices
       ballot postponing ray) n initial_control (initial_progress ray)
  <> Stalled c' p' /\
  after_rounds
    (any_round TRI_EPS POSTPONE_RATIO MAX_STACK_SIZE bvh_nodes faces vertices
       ballot ray) n initial_control (initial_progress ray)
  <> Stalled c' p'.
Proof.
  split.
  - apply (after_rounds_goes_on _
             (closest_round_goes_on TRI_EPS POSTPONE_RATIO MAX_STACK_SIZE bvh_nodes
                faces vertices ballot postponing ray)).
    exact masks_ok_initial.
  - apply (after_rounds_goes_on _
             (any_round_goes_on TRI_EPS POSTPONE_RATIO MAX_STACK_SIZE bvh_nodes
                faces vertices ballot ray)).
    exact masks_ok_initial.
Qed.

End QueriesNeverStall.

(** *** Exact rational arithmetic as an instance *)

(** Rational numbers, kept in lowest terms, serve as a NaN-free instance of
    the float operations for running the kernel on concrete scenes. Division
    by zero yields 0 here; the scenes below never divide by zero. *)
Module Exact.

Local Open Scope Q_scope.

Definition pow2 (k : Z) : Q :=
  if (0 <=? k)%Z then inject_Z (2 ^ k) else Qinv (inject_Z (2 ^ (- k))).

(** The value of a binary32 bit pattern (finite patterns only). *)
Definition decode_binary32 (u : Z) : Q :=
  let m := Z.land u 0x7FFFFF in
  let e := Z.land (Z.shiftr u 23) 0xFF in
  let sign : Q := if Z.testbit u 31 then -1 else 1 in
  if (e =? 0)%Z then Qred (sign * (inject_Z m * pow2 (-149)))
  else Qred (sign * (inject_Z (m + 0x800000) * pow2 (e - 150))).

(** [uint(f)]: truncation, then wrap-around. *)
Definition truncate_to_uint (q : Q) : Z := wrap32 (Z.quot (Qnum q) (Zpos (Qden q))).

#[global] Instance exact_ops : FloatOps Q := {|
  fzero := 0;
  fone := 1;
  fadd := fun a b => Qred (a + b);
  fsub := fun a b => Qred (a - b);
  fmul := fun a b => Qred (a * b);
  fdiv := fun a b => Qred (a / b);
  fabs := fun a => Qred (Qabs a);
  fltb := fun a b => negb (Qle_bool b a);
  fleb := Qle_bool;
  uintBitsToFloat := decode_binary32;
  uint_to_float := inject_Z;
  float_to_uint := truncate_to_uint
|}.

#[global] Instance exact_order : FloatOrder Q.
Proof.
  constructor.
  - intros a b. reflexivity.
  - intros a b c. cbn. rewrite !Qle_bool_iff. apply Qle_trans.
  - intros a b. cbn. rewrite !Qle_bool_iff.
    destruct (Qlt_le_dec a b) as [Hlt | Hle]; [left; now apply Qlt_le_weak | now right].
Qed.

(** *** Sample scenes *)

Definition mk_uvec4 (a b c d : Z) : uvec4 := {| ux := a; uy := b; uz := c; uw := d |}.

(** Exponent bytes 127 (scale 1) on the three axes and the inner mask. *)
Definition unit_frame (imask : Z) : Z :=
  (127 + Z.shiftl 127 8 + Z.shiftl 127 16 + Z.shiftl imask 24)%Z.

(** A node anchored at the origin with scale 1 whose first [n] child slots
    have the quantised box [0,255]^3; [meta0] describes those slots. *)
Definition box_node (imask child_base face_base meta0 q_hi : Z) : bvh_node :=
  {| f1 := mk_uvec4 0 0 0 (unit_frame imask);
     f2 := mk_uvec4 child_base face_base meta0 0;
     f3 := mk_uvec4 0 0 0 0;
     f4 := mk_uvec4 0 0 q_hi 0;
     f5 := mk_uvec4 q_hi 0 q_hi 0 |}.

(** Slot 0 holds one face (meta byte [0x20]: one face at offset 0). *)
Definition leaf_node (face_base : Z) : bvh_node :=
  box_node 0 0 face_base 0x20 0xFF.

(** Slot 0 is an inner child (meta byte [0x38]), slot 1 holds one face. *)
Definition inner_and_leaf_node (child_base face_base : Z) : bvh_node :=
  box_node 1 child_base face_base 0x2038 0xFFFF.

(** Slots 0 and 1 are inner children (meta bytes [0x38], [0x39]). *)
Definition two_inner_node (child_base : Z) : bvh_node :=
  box_node 3 child_base 0 0x3938 0xFFFF.

Definition vec (a b c : Q) : vec3 Q := {| vx := a; vy := b; vz := c |}.

(** One triangle in the plane [x + y + z = 3], referenced by two faces. *)
Definition sample_vertices : list (vertex Q) :=
  [ {| field1_xyz := vec 3 0 0 |}; {| field1_xyz := vec 0 3 0 |};
    {| field1_xyz := vec 0 0 3 |} ].

Definition sample_faces : list face :=
  [ {| v_0 := 0; v_1 := 1; v_2 := 2; mat_index := 0 |};
    {| v_0 := 0; v_1 := 1; v_2 := 2; mat_index := 0 |} ].

(** From [(-1,-1,-1)] along [(1,1,1)]: the triangle is hit at [t = 2]. *)
Definition sample_ray : RayInfo Q :=
  {| origin := vec (-1) (-1) (-1); tmax := 1000; dir := vec 1 1 1 |}.

Definition sample_eps : Q := 1 # 1000000000.
Definition sample_ratio : Q := 1 # 5.

(** The root holds face 0 and an inner child; the child holds face 1. *)
Definition two_level_bvh : list bvh_node := [inner_and_leaf_node 1 0; leaf_node 1].

(** Three levels of nodes with two inner children each; the faces are not
    reached by the sample ray's first three rounds. *)
Definition three_level_bvh : list bvh_node :=
  [two_inner_node 1; two_inner_node 3; leaf_node 0; two_inner_node 5;
   leaf_node 0; leaf_node 0; leaf_node 0].

(** All lanes stay active. *)
Definition full_wave : nat -> Z := fun _ => 32%Z.

(** 32 lanes at the first ballot, a single one from then on. *)
Definition thinning_wave : nat -> Z := fun k => match k with O => 32%Z | _ => 1%Z end.

End Exact.

(** *** The claims about the traversal *)

Import Exact.


(** The two queries on the two-level scene, with a thinning wavefront. *)
Definition sample_closest : result (F:=Q) :=
  find_hit_closest sample_eps sample_ratio 8 two_level_bvh sample_faces
    sample_vertices thinning_wave true 10 sample_ray.

Definition sample_any : result (F:=Q) :=
  find_hit_any sample_eps sample_ratio 8 two_level_bvh sample_faces
    sample_vertices thinning_wave 10 sample_ray.


(** Whether a query stopped on a failed [ASSERT]. *)
Definition aborted {F} (r : result (F:=F)) : bool :=
  match r with Aborted _ _ => true | _ => false end.

(** C2. The claim is that in both queries every push is preceded by the
    check [stack_size < MAX_STACK_SIZE]. On the three-level scene with
    [MAX_STACK_SIZE = 2] and a full wavefront, [find_hit_closest] stops on
    its [ASSERT] with both stores inside the array, but [find_hit_any],
    whose pushes have no [ASSERT], stores at [stack[2]], past the end of the
    two-entry array, and carries on to return true. *)
Theorem any_stack_store_unchecked :
  let any :=
    find_hit_any sample_eps sample_ratio 2 three_level_bvh sample_faces
      sample_vertices full_wave 4 sample_ray in
  let closest :=
    find_hit_closest sample_eps sample_ratio 2 three_level_bvh sample_faces
      sample_vertices full_wave false 4 sample_ray in
  aborted closest = true /\
  stack_stores (result_control closest) = [1; 0]%Z /\
  returned any = Some true /\
  stack_stores (result_control any) = [2; 1; 0]%Z.
Proof.
  cbv zeta.
  split; [vm_compute; reflexivity|].
  split; [vm_compute; reflexivity|].
  split; vm_compute; reflexivity.
Qed.



Lemma full_wave_quiet : quiet sample_ratio full_wave.
Proof. intros i j. reflexivity. Qed.


(** *** The queries without [BVH_ENABLED] *)

Section LinearQueries.

Context {F : Type} `{FloatOps F}.
Variable TRI_EPS : F.
Variable FACE_COUNT : Z.
Variable faces : list face.
Variable vertices : list (vertex F).

(** The values [face_index] takes in
    [for (int face_index = 0; face_index < FACE_COUNT; face_index++)]. *)
Definition face_range : list Z := map Z.of_nat (seq 0 (Z.to_nat FACE_COUNT)).

(** [find_hit_closest] of the [#else] branch: every face is tested in turn
    against the current [ray.tmax]; a hit replaces [ray.tmax], [hit.bc] and
    [hit.face_idx]. The returned [ray.tmax] and [hit] are in the progress
    record; [hit.bc] is left as it was when no face is hit. *)
Definition find_hit_closest_linear (ray : RayInfo F) : bool * progress :=
  let p :=
    fold_left (fun p face_index => record_test TRI_EPS faces vertices ray face_index p)
      face_range (initial_progress ray) in
  (negb (face_idx (hit p) =? 0xFFFFFFFF), p).

(** [find_hit_any] of the [#else] branch: the first hit returns. *)
Fixpoint any_face_hit (ray : RayInfo F) (face_indices : list Z) : bool :=
  match face_indices with
  | [] => false
  | face_index :: rest =>
      match test_triangle TRI_EPS faces vertices ray (tmax ray) face_index with
      | Some _ => true
      | None => any_face_hit ray rest
      end
  end.

Definition find_hit_any_linear (ray : RayInfo F) : bool := any_face_hit ray face_range.

End LinearQueries.

Section LinearQueryFacts.

Context {F : Type} `{FloatOrder F}.
Variable TRI_EPS : F.
Variable faces : list face.
Variable vertices : list (vertex F).
Variable ray : RayInfo F.

Local Abbreviation record_test := (record_test TRI_EPS faces vertices).
Local Abbreviation test_triangle := (test_triangle TRI_EPS faces vertices).

Lemma fle_refl (a : F) : fleb a a = true.
Proof. destruct (fle_total a a); assumption. Qed.

(** A test against a shrunken [ray.tmax], read against the original one. *)
Lemma shrunken_hit a j t temp_bc :
  fleb a (tmax ray) = true ->
  test_triangle ray a j = Some (t, temp_bc) ->
  test_triangle ray (tmax ray) j = Some (t, temp_bc) /\ fltb t a = true.
Proof.
  intros Ha Hhit. unfold Traversal.test_triangle in *.
  destruct (triangle faces vertices j) as [[p0 p1] p2].
  pose proof (test_face_hit TRI_EPS _ _ _ _ _ _ Hhit) as (_ & _ & _ & Hlt).
  cbn [tmax with_tmax] in Hlt. split; [|exact Hlt].
  rewrite (test_face_other_tmax TRI_EPS ray a (tmax ray) _ _ _ _ _ Hhit).
  destruct (fleb (tmax ray) t) eqn:E; [|reflexivity].
  rewrite flt_not_le in Hlt. apply negb_true_iff in Hlt.
  rewrite (fle_trans _ _ _ Ha E) in Hlt. discriminate.
Qed.

Lemma shrunken_miss a j t temp_bc :
  test_triangle ray a j = None ->
  test_triangle ray (tmax ray) j = Some (t, temp_bc) ->
  fleb a t = true.
Proof.
  intros Hmiss Hhit. unfold Traversal.test_triangle in *.
  destruct (triangle faces vertices j) as [[p0 p1] p2].
  rewrite (test_face_other_tmax TRI_EPS ray (tmax ray) a _ _ _ _ _ Hhit) in Hmiss.
  destruct (fleb a t); [reflexivity | discriminate].
Qed.

(** What holds after the faces [done] have been tested. *)
Definition linear_inv (done : list Z) (p : progress (F:=F)) : Prop :=
  fleb (ray_tmax p) (tmax ray) = true /\
  (forall i t temp_bc, In i done ->
     test_triangle ray (tmax ray) i = Some (t, temp_bc) ->
     fleb (ray_tmax p) t = true) /\
  ((face_idx (hit p) = 0xFFFFFFFF /\ ray_tmax p = tmax ray /\
    forall i, In i done -> test_triangle ray (tmax ray) i = None) \/
   (In (face_idx (hit p)) done /\
    test_triangle ray (tmax ray) (face_idx (hit p)) = Some (ray_tmax p, bc (hit p)))).

Lemma linear_inv_initial : linear_inv [] (initial_progress ray).
Proof.
  split; [apply fle_refl|]. split; [intros i t temp_bc []|].
  left. split; [reflexivity|]. split; [reflexivity|]. intros i [].
Qed.

Lemma linear_inv_step done j p :
  linear_inv done p -> linear_inv (done ++ [j]) (record_test ray j p).
Proof.
  intros (Hle & Hnear & Hhit). unfold Traversal.record_test.
  destruct (test_triangle ray (ray_tmax p) j) as [[t temp_bc]|] eqn:E;
    cbn [ray_tmax hit face_idx bc].
  - destruct (shrunken_hit _ _ _ _ Hle E) as [Horig Hlt].
    pose proof (flt_true_le _ _ Hlt) as Hle'.
    split; [exact (fle_trans _ _ _ Hle' Hle)|]. split.
    + intros i ti bci Hin Hi. apply in_app_iff in Hin as [Hin | [<- | []]].
      * exact (fle_trans _ _ _ Hle' (Hnear _ _ _ Hin Hi)).
      * rewrite Horig in Hi. injection Hi as <- <-. apply fle_refl.
    + right. split; [apply in_app_iff; right; now left | exact Horig].
  - split; [exact Hle|]. split.
    + intros i ti bci Hin Hi. apply in_app_iff in Hin as [Hin | [<- | []]].
      * exact (Hnear _ _ _ Hin Hi).
      * exact (shrunken_miss _ _ _ _ E Hi).
    + destruct Hhit as [(Hnone & Htmax & Hall) | (Hin & Hface)].
      * left. split; [exact Hnone|]. split; [exact Htmax|].
        intros i Hi. apply in_app_iff in Hi as [Hi | [<- | []]]; [now apply Hall|].
        rewrite <- Htmax. exact E.
      * right. split; [apply in_app_iff; now left | exact Hface].
Qed.

Lemma linear_inv_fold js done p :
  linear_inv done p ->
  linear_inv (done ++ js) (fold_left (fun p j => record_test ray j p) js p).
Proof.
  revert done p. induction js as [|j js IH]; intros done p Hp; cbn [fold_left].
  - now rewrite app_nil_r.
  - replace (done ++ j :: js) with ((done ++ [j]) ++ js) by now rewrite <- app_assoc.
    apply IH. now apply linear_inv_step.
Qed.

Lemma in_face_range FACE_COUNT i : In i (face_range FACE_COUNT) <-> 0 <= i < FACE_COUNT.
Proof.
  unfold face_range. rewrite in_map_iff. split.
  - intros (k & <- & Hk). apply in_seq in Hk. lia.
  - intros Hi. exists (Z.to_nat i). split; [lia|]. apply in_seq. lia.
Qed.

Lemma any_face_hit_iff js :
  any_face_hit TRI_EPS faces vertices ray js = true <->
  exists i, In i js /\ test_triangle ray (tmax ray) i <> None.
Proof.
  induction js as [|j js IH]; cbn [any_face_hit].
  - split; [discriminate | intros (i & [] & _)].
  - destruct (test_triangle ray (tmax ray) j) as [r|] eqn:E.
    + split; [|reflexivity]. intros _. exists j. split; [now left | congruence].
    + rewrite IH. split.
      * intros (i & Hi & Hhit). exists i. split; [now right | exact Hhit].
      * intros (i & [<- | Hi] & Hhit); [congruence|]. exists i. now split.
Qed.

Lemma linear_final_inv FACE_COUNT :
  linear_inv (face_range FACE_COUNT)
    (snd (find_hit_closest_linear TRI_EPS FACE_COUNT faces vertices ray)).
Proof.
  exact (linear_inv_fold (face_range FACE_COUNT) [] _ linear_inv_initial).
Qed.

Lemma linear_found_iff FACE_COUNT :
  0 <= FACE_COUNT < 2 ^ 31 ->
  fst (find_hit_closest_linear TRI_EPS FACE_COUNT faces vertices ray) = true <->
  exists i, 0 <= i < FACE_COUNT /\ test_triangle ray (tmax ray) i <> None.
Proof.
  intros Hcount. pose proof (linear_final_inv FACE_COUNT) as (_ & _ & Hhit).
  unfold find_hit_closest_linear in *. cbn [fst snd] in *.
  set (p := fold_left _ _ _) in *.
  rewrite negb_true_iff, Z.eqb_neq. split.
  - intros Hne. destruct Hhit as [(Hnone & _) | (Hin & Hface)]; [contradiction|].
    exists (face_idx (hit p)). split; [now apply in_face_range | congruence].
  - intros (i & Hi & Hhit_i) Hnone.
    destruct Hhit as [(_ & _ & Hall) | (Hin & _)].
    + apply Hhit_i, Hall. now apply in_face_range.
    + apply in_face_range in Hin. rewrite Hnone in Hin. lia.
Qed.

(** X3. The linear [find_hit_closest] (no [BVH_ENABLED]) is exact: the
    distance it leaves in [ray.tmax] is no larger than that of any face the
    ray, with the [tmax] it came with, hits; when it reports a hit, the face,
    the distance and the barycentrics are those [test_face] gives for that
    face; when it reports none, [ray.tmax] is unchanged. *)
Theorem linear_closest_is_nearest FACE_COUNT :
  0 <= FACE_COUNT < 2 ^ 31 ->
  let r := find_hit_closest_linear TRI_EPS FACE_COUNT faces vertices ray in
  (forall i t temp_bc, 0 <= i < FACE_COUNT ->
     test_triangle ray (tmax ray) i = Some (t, temp_bc) ->
     fleb (ray_tmax (snd r)) t = true) /\
  (fst r = true ->
   0 <= face_idx (hit (snd r)) < FACE_COUNT /\
   test_triangle ray (tmax ray) (face_idx (hit (snd r))) =
   Some (ray_tmax (snd r), bc (hit (snd r)))) /\
  (fst r = false -> ray_tmax (snd r) = tmax ray).
Proof.
  intros Hcount r. subst r.
  pose proof (linear_final_inv FACE_COUNT) as (Hle & Hnear & Hhit).
  unfold find_hit_closest_linear in *. cbn [fst snd] in *.
  set (p := fold_left _ _ _) in *.
  split; [|split].
  - intros i t temp_bc Hi. apply Hnear. now apply in_face_range.
  - intros Hne. apply negb_true_iff, Z.eqb_neq in Hne.
    destruct Hhit as [(Hnone & _) | (Hin & Hface)]; [contradiction|].
    split; [now apply in_face_range | exact Hface].
  - intros Heq. apply negb_false_iff, Z.eqb_eq in Heq.
    destruct Hhit as [(_ & Htmax & _) | (Hin & _)]; [exact Htmax|].
    apply in_face_range in Hin. rewrite Heq in Hin. lia.
Qed.

(** X4. The two linear queries agree: [find_hit_any] returns what
    [find_hit_closest] returns, and that is [true] exactly when the ray hits
    one of the [FACE_COUNT] faces within its [tmax]. *)
Theorem linear_queries_agree FACE_COUNT :
  0 <= FACE_COUNT < 2 ^ 31 ->
  find_hit_any_linear TRI_EPS FACE_COUNT faces vertices ray =
  fst (find_hit_closest_linear TRI_EPS FACE_COUNT faces vertices ray) /\
  (find_hit_any_linear TRI_EPS FACE_COUNT faces vertices ray = true <->
   exists i, 0 <= i < FACE_COUNT /\ test_triangle ray (tmax ray) i <> None).
Proof.
  intros Hcount.
  assert (Hany : find_hit_any_linear TRI_EPS FACE_COUNT faces vertices ray = true <->
                 exists i, 0 <= i < FACE_COUNT /\ test_triangle ray (tmax ray) i <> None).
  { unfold find_hit_any_linear. rewrite any_face_hit_iff.
    split; intros (i & Hi & Hhit); exists i; (split; [|exact Hhit]);
      now apply in_face_range. }
  split; [|exact Hany].
  apply eq_true_iff_eq. rewrite Hany. symmetry. now apply linear_found_iff.
Qed.

End LinearQueryFacts.

Lemma linear_closest_is_nearest_witness :
  (0 <= 2 < 2 ^ 31) /\
  (fst (find_hit_closest_linear sample_eps 2 sample_faces sample_vertices sample_ray)
   = false ->
   ray_tmax (snd (find_hit_closest_linear sample_eps 2 sample_faces sample_vertices
                    sample_ray)) = tmax sample_ray).
Proof.
  assert (Hcount : 0 <= 2 < 2 ^ 31) by lia.
  split; [exact Hcount|].
  exact (proj2 (proj2 (linear_closest_is_nearest sample_eps sample_faces sample_vertices
                         sample_ray 2 Hcount))).
Defined.

Lemma linear_queries_agree_witness :
  (0 <= 2 < 2 ^ 31) /\
  find_hit_any_linear sample_eps 2 sample_faces sample_vertices sample_ray =
  fst (find_hit_closest_linear sample_eps 2 sample_faces sample_vertices sample_ray).
Proof.
  assert (Hcount : 0 <= 2 < 2 ^ 31) by lia.
  split; [exact Hcount|].
  exact (proj1 (linear_queries_agree sample_eps sample_faces sample_vertices
                  sample_ray 2 Hcount)).
Defined.

(** *** The byte helpers *)

Lemma land_pow2 a k :
  0 <= k -> Z.land a (2 ^ k) = if Z.testbit a k then 2 ^ k else 0.
Proof.
  intros Hk. apply Z.bits_inj'. intros n Hn.
  rewrite Z.land_spec, Z.pow2_bits_eqb by lia.
  destruct (Z.eqb_spec k n) as [->|Hne].
  - destruct (Z.testbit a n); [now rewrite Z.pow2_bits_true by lia | now rewrite Z.bits_0].
  - rewrite andb_false_r.
    destruct (Z.testbit a k); [now rewrite Z.pow2_bits_false by lia | now rewrite Z.bits_0].
Qed.

(** X5. [sign_to_byte_mask4] turns the sign bit of each of the four bytes
    into a whole byte: byte [i] of the result is [0xFF] when bit [8 i + 7] of
    the argument is set and [0x00] otherwise. *)
Theorem sign_to_byte_mask4_bytes a :
  extract_byte (sign_to_byte_mask4 a) 0 = (if Z.testbit a 7 then 0xFF else 0) /\
  extract_byte (sign_to_byte_mask4 a) 1 = (if Z.testbit a 15 then 0xFF else 0) /\
  extract_byte (sign_to_byte_mask4 a) 2 = (if Z.testbit a 23 then 0xFF else 0) /\
  extract_byte (sign_to_byte_mask4 a) 3 = (if Z.testbit a 31 then 0xFF else 0).
Proof.
  unfold sign_to_byte_mask4. cbv zeta.
  change 0x80808080 with (Z.lor (Z.lor (Z.lor (2 ^ 7) (2 ^ 15)) (2 ^ 23)) (2 ^ 31)).
  rewrite !Z.land_lor_distr_r, !land_pow2 by lia.
  destruct (Z.testbit a 7), (Z.testbit a 15), (Z.testbit a 23), (Z.testbit a 31);
    vm_compute; repeat split; reflexivity.
Qed.

(** X6. The four bytes [uint_unpack_vec4] extracts are the base-256 digits of
    a 32-bit word, least significant first. *)
Theorem extract_byte_digits u :
  0 <= u < 2 ^ 32 ->
  (forall i, 0 <= i -> 0 <= extract_byte u i < 256) /\
  u = extract_byte u 0 + 256 * extract_byte u 1 + 65536 * extract_byte u 2
      + 16777216 * extract_byte u 3.
Proof.
  intros Hu.
  assert (Hbyte : forall i, 0 <= i -> extract_byte u i = (u / 2 ^ (i * 8)) mod 256).
  { intros i Hi. unfold extract_byte. change 0xFF with (Z.ones 8).
    rewrite Z.land_ones, Z.shiftr_div_pow2 by lia. reflexivity. }
  split.
  - intros i Hi. rewrite Hbyte by exact Hi. apply Z.mod_pos_bound. lia.
  - rewrite !Hbyte by lia.
    change (2 ^ (0 * 8)) with 1. change (2 ^ (1 * 8)) with 256.
    change (2 ^ (2 * 8)) with 65536. change (2 ^ (3 * 8)) with 16777216.
    change (2 ^ 32) with 4294967296 in Hu.
    Z.div_mod_to_equations. lia.
Qed.

Lemma extract_byte_digits_witness :
  (0 <= 0x01020304 < 2 ^ 32) /\
  0x01020304 = extract_byte 0x01020304 0 + 256 * extract_byte 0x01020304 1
               + 65536 * extract_byte 0x01020304 2 + 16777216 * extract_byte 0x01020304 3.
Proof.
  assert (Hu : 0 <= 0x01020304 < 2 ^ 32) by lia.
  split; [exact Hu|]. exact (proj2 (extract_byte_digits 0x01020304 Hu)).
Defined.

End Traversal.

(** ** The shader's common header ([wang_hash], the xorshift generator) *)

Module ShaderCommon.

Import Traversal.

(** [wang_hash]: every intermediate value is a [uint]. *)
Definition wang_hash (seed : Z) : Z :=
  let seed := Z.lxor (Z.lxor seed 61) (Z.shiftr seed 16) in
  let seed := wrap32 (seed * 9) in
  let seed := Z.lxor seed (Z.shiftr seed 4) in
  let seed := wrap32 (seed * 0x27d4eb2d) in
  let seed := Z.lxor seed (Z.shiftr seed 15) in
  seed.

(** The three xorshift steps of [random_float_between_0_and_1] on
    [rng_state]. *)
Definition xorshift (rng_state : Z) : Z :=
  let rng_state := Z.lxor rng_state (ushl32 rng_state 13) in
  let rng_state := Z.lxor rng_state (Z.shiftr rng_state 17) in
  let rng_state := Z.lxor rng_state (ushl32 rng_state 5) in
  rng_state.

Section RandomFloat.

Context {F : Type} `{FloatOps F}.

(** The constant [1.0 / 4294967296.0]. *)
Variable inv_two_pow_32 : F.

(** [random_float_between_0_and_1]: the returned number and the state left
    in the [inout] parameter. *)
Definition random_float_between_0_and_1 (rng_state : Z) : F * Z :=
  let rng_state := xorshift rng_state in
  (fmul (uint_to_float rng_state) inv_two_pow_32, rng_state).

End RandomFloat.

(** *** Bits of 32-bit words *)

Lemma u32_high_bits x i : 0 <= x < 2 ^ 32 -> 32 <= i -> Z.testbit x i = false.
Proof.
  intros Hx Hi. destruct (Z.eq_dec x 0) as [->|Hne]; [apply Z.bits_0|].
  apply Z.bits_above_log2; [lia|].
  assert (Z.log2 x < 32) by (apply Z.log2_lt_pow2; lia). lia.
Qed.

Lemma u32_of_bits x : 0 <= x -> (forall i, 32 <= i -> Z.testbit x i = false) -> x < 2 ^ 32.
Proof.
  intros Hx Hbits. destruct (Z.eq_dec x 0) as [->|Hne]; [reflexivity|].
  apply Z.log2_lt_pow2; [lia|].
  destruct (Z_lt_le_dec (Z.log2 x) 32) as [|Hge]; [assumption|].
  pose proof (Z.bit_log2 x ltac:(lia)) as Hb. rewrite (Hbits _ Hge) in Hb. discriminate.
Qed.

Lemma lxor_u32 x y : 0 <= x < 2 ^ 32 -> 0 <= y < 2 ^ 32 -> 0 <= Z.lxor x y < 2 ^ 32.
Proof.
  intros Hx Hy. assert (Hnn : 0 <= Z.lxor x y) by (apply Z.lxor_nonneg; lia).
  split; [exact Hnn|]. apply u32_of_bits; [exact Hnn|].
  intros i Hi. rewrite Z.lxor_spec, !u32_high_bits by assumption. reflexivity.
Qed.

Lemma shiftr_u32 x k : 0 <= x < 2 ^ 32 -> 0 <= k -> 0 <= Z.shiftr x k < 2 ^ 32.
Proof.
  intros Hx Hk. assert (Hnn : 0 <= Z.shiftr x k) by (apply Z.shiftr_nonneg; lia).
  split; [exact Hnn|]. apply u32_of_bits; [exact Hnn|].
  intros i Hi. rewrite Z.shiftr_spec by lia. apply u32_high_bits; [exact Hx | lia].
Qed.

Lemma ushl32_bits x k i :
  0 <= k -> 0 <= i ->
  Z.testbit (ushl32 x k) i = if i <? 32 then Z.testbit x (i - k) else false.
Proof.
  intros Hk Hi. unfold ushl32, wrap32. rewrite <- Z.land_ones by lia.
  rewrite Z.land_spec, Z.shiftl_spec by lia.
  destruct (i <? 32) eqn:E.
  - apply Z.ltb_lt in E. rewrite Z.ones_spec_low by lia. apply andb_true_r.
  - apply Z.ltb_ge in E. rewrite Z.ones_spec_high by lia. apply andb_false_r.
Qed.

(** [x ^ c ^ (x >> k)] determines [x]: its bits are recovered from the top
    down. *)
Lemma xor_shiftr_injective c k x y :
  0 < k -> 0 <= x < 2 ^ 32 -> 0 <= y < 2 ^ 32 ->
  Z.lxor (Z.lxor x c) (Z.shiftr x k) = Z.lxor (Z.lxor y c) (Z.shiftr y k) ->
  x = y.
Proof.
  intros Hk Hx Hy E. apply Z.bits_inj'. intros i Hi.
  remember (Z.to_nat (32 - i)) as m eqn:Hm. revert i Hi Hm.
  induction m as [m IH] using lt_wf_ind. intros i Hi Hm.
  destruct (Z_lt_le_dec i 32) as [Hlt | Hge].
  - assert (Hnext : Z.testbit x (i + k) = Z.testbit y (i + k)).
    { apply (IH (Z.to_nat (32 - (i + k)))); [lia | lia | reflexivity]. }
    pose proof (f_equal (fun z => Z.testbit z i) E) as Eb. cbn beta in Eb.
    rewrite !Z.lxor_spec, !Z.shiftr_spec in Eb by lia.
    rewrite Hnext in Eb.
    destruct (Z.testbit x i), (Z.testbit y i), (Z.testbit c i), (Z.testbit y (i + k));
      cbn in Eb; congruence.
  - rewrite !u32_high_bits by assumption. reflexivity.
Qed.

(** [x ^ (x << k)] in 32 bits determines [x]: from the bottom up. *)
Lemma xor_shiftl_injective k x y :
  0 < k -> 0 <= x < 2 ^ 32 -> 0 <= y < 2 ^ 32 ->
  Z.lxor x (ushl32 x k) = Z.lxor y (ushl32 y k) ->
  x = y.
Proof.
  intros Hk Hx Hy E. apply Z.bits_inj'. intros i Hi.
  remember (Z.to_nat i) as m eqn:Hm. revert i Hi Hm.
  induction m as [m IH] using lt_wf_ind. intros i Hi Hm.
  destruct (Z_lt_le_dec i 32) as [Hlt | Hge].
  - assert (Hprev : Z.testbit x (i - k) = Z.testbit y (i - k)).
    { destruct (Z_lt_le_dec (i - k) 0) as [Hneg | Hpos].
      - rewrite !Z.testbit_neg_r by lia. reflexivity.
      - apply (IH (Z.to_nat (i - k))); [lia | lia | reflexivity]. }
    pose proof (f_equal (fun z => Z.testbit z i) E) as Eb. cbn beta in Eb.
    rewrite !Z.lxor_spec, !ushl32_bits in Eb by lia.
    replace (i <? 32) with true in Eb by (symmetry; apply Z.ltb_lt; lia).
    rewrite Hprev in Eb.
    destruct (Z.testbit x i), (Z.testbit y i), (Z.testbit y (i - k));
      cbn in Eb; congruence.
  - rewrite !u32_high_bits by assumption. reflexivity.
Qed.

(** Multiplication by an odd constant is undone by its inverse modulo
    [2 ^ 32]. *)
Lemma mul_odd_injective c c' x y :
  wrap32 (c' * c) = 1 -> 0 <= x < 2 ^ 32 -> 0 <= y < 2 ^ 32 ->
  wrap32 (x * c) = wrap32 (y * c) -> x = y.
Proof.
  unfold wrap32. intros Hinv Hx Hy E.
  assert (Hback : forall z, 0 <= z < 2 ^ 32 -> (c' * ((z * c) mod 2 ^ 32)) mod 2 ^ 32 = z).
  { intros z Hz. rewrite Z.mul_mod_idemp_r by lia.
    replace (c' * (z * c)) with (c' * c * z) by ring.
    rewrite <- Z.mul_mod_idemp_l by lia. rewrite Hinv, Z.mul_1_l.
    apply Z.mod_small. exact Hz. }
  rewrite <- (Hback x Hx), <- (Hback y Hy), E. reflexivity.
Qed.

Lemma xor_shiftr_u32 c k x :
  0 <= c < 2 ^ 32 -> 0 <= k -> 0 <= x < 2 ^ 32 ->
  0 <= Z.lxor (Z.lxor x c) (Z.shiftr x k) < 2 ^ 32.
Proof. intros Hc Hk Hx. apply lxor_u32; [apply lxor_u32 | apply shiftr_u32]; assumption. Qed.

Lemma xor_shiftl_u32 k x :
  0 <= x < 2 ^ 32 -> 0 <= Z.lxor x (ushl32 x k) < 2 ^ 32.
Proof. intros Hx. apply lxor_u32; [exact Hx | apply wrap32_range]. Qed.

Lemma xsr_u32 k x : 0 <= k -> 0 <= x < 2 ^ 32 -> 0 <= Z.lxor x (Z.shiftr x k) < 2 ^ 32.
Proof. intros Hk Hx. apply lxor_u32; [exact Hx | now apply shiftr_u32]. Qed.

Lemma xsr_injective k x y :
  0 < k -> 0 <= x < 2 ^ 32 -> 0 <= y < 2 ^ 32 ->
  Z.lxor x (Z.shiftr x k) = Z.lxor y (Z.shiftr y k) -> x = y.
Proof.
  intros Hk Hx Hy E. apply (xor_shiftr_injective 0 k); try assumption.
  rewrite !Z.lxor_0_r. exact E.
Qed.

Lemma wang_hash_u32 seed : 0 <= seed < 2 ^ 32 -> 0 <= wang_hash seed < 2 ^ 32.
Proof.
  intros Hs. unfold wang_hash. cbv zeta.
  apply xsr_u32; [lia | apply wrap32_range].
Qed.

Lemma xorshift_u32 s : 0 <= s < 2 ^ 32 -> 0 <= xorshift s < 2 ^ 32.
Proof.
  intros Hs. unfold xorshift. cbv zeta.
  apply xor_shiftl_u32, xsr_u32; [lia|]. now apply xor_shiftl_u32.
Qed.

Lemma xorshift_injective a b :
  0 <= a < 2 ^ 32 -> 0 <= b < 2 ^ 32 -> xorshift a = xorshift b -> a = b.
Proof.
  intros Ha Hb E. unfold xorshift in E. cbv zeta in E.
  apply xor_shiftl_injective in E;
    [| lia | apply xsr_u32; [lia | now apply xor_shiftl_u32]
           | apply xsr_u32; [lia | now apply xor_shiftl_u32]].
  apply xsr_injective in E; [| lia | now apply xor_shiftl_u32 | now apply xor_shiftl_u32].
  apply xor_shiftl_injective in E; [exact E | lia | exact Ha | exact Hb].
Qed.

(** X1. [wang_hash] is injective on 32-bit seeds (and stays in 32 bits): two
    different seeds never hash to the same value. *)
Theorem wang_hash_injective a b :
  0 <= a < 2 ^ 32 -> 0 <= b < 2 ^ 32 ->
  wang_hash a = wang_hash b -> a = b.
Proof.
  intros Ha Hb E. unfold wang_hash in E. cbv zeta in E.
  pose proof (xor_shiftr_u32 61 16 a ltac:(lia) ltac:(lia) Ha) as H1a.
  pose proof (xor_shiftr_u32 61 16 b ltac:(lia) ltac:(lia) Hb) as H1b.
  set (a1 := Z.lxor (Z.lxor a 61) (Z.shiftr a 16)) in *.
  set (b1 := Z.lxor (Z.lxor b 61) (Z.shiftr b 16)) in *.
  pose proof (wrap32_range (a1 * 9)) as H2a.
  pose proof (wrap32_range (b1 * 9)) as H2b.
  set (a2 := wrap32 (a1 * 9)) in *. set (b2 := wrap32 (b1 * 9)) in *.
  pose proof (xsr_u32 4 a2 ltac:(lia) H2a) as H3a.
  pose proof (xsr_u32 4 b2 ltac:(lia) H2b) as H3b.
  set (a3 := Z.lxor a2 (Z.shiftr a2 4)) in *.
  set (b3 := Z.lxor b2 (Z.shiftr b2 4)) in *.
  apply xsr_injective in E; [| lia | apply wrap32_range | apply wrap32_range].
  apply (mul_odd_injective _ 4218002597) in E; [| reflexivity | exact H3a | exact H3b].
  apply xsr_injective in E; [| lia | exact H2a | exact H2b].
  apply (mul_odd_injective _ 954437177) in E; [| reflexivity | exact H1a | exact H1b].
  apply xor_shiftr_injective in E; [exact E | lia | exact Ha | exact Hb].
Qed.

Lemma wang_hash_injective_witness :
  (0 <= 7 < 2 ^ 32) /\ wang_hash 7 = wang_hash 7 /\ 7 = 7.
Proof.
  assert (H7 : 0 <= 7 < 2 ^ 32) by lia.
  split; [exact H7|]. split; [reflexivity|].
  exact (wang_hash_injective 7 7 H7 H7 eq_refl).
Defined.

(** X2. The xorshift generator of [random_float_between_0_and_1] permutes
    the 32-bit states: distinct states stay distinct, the state [0] is left
    at [0], and no other state ever reaches [0]. *)
Theorem xorshift_state_never_collapses {F} `{FloatOps F} (k : F) a b :
  0 <= a < 2 ^ 32 -> 0 <= b < 2 ^ 32 ->
  let a' := snd (random_float_between_0_and_1 k a) in
  let b' := snd (random_float_between_0_and_1 k b) in
  0 <= a' < 2 ^ 32 /\ (a' = b' -> a = b) /\ (a' = 0 <-> a = 0).
Proof.
  intros Ha Hb a' b'. subst a' b'. cbn [random_float_between_0_and_1 snd].
  split; [now apply xorshift_u32|]. split; [now apply xorshift_injective|].
  split.
  - intros E. apply (xorshift_injective a 0); [exact Ha | lia | exact E].
  - intros ->. reflexivity.
Qed.

Lemma xorshift_state_never_collapses_witness :
  (0 <= 1 < 2 ^ 32) /\
  (snd (random_float_between_0_and_1 (F:=Q) (1 # 4294967296)%Q 1) = 0 <-> 1 = 0).
Proof.
  assert (H1 : 0 <= 1 < 2 ^ 32) by lia.
  split; [exact H1|].
  exact (proj2 (proj2 (xorshift_state_never_collapses (1 # 4294967296)%Q 1 1 H1 H1))).
Defined.

End ShaderCommon.

